(* ===== verification/_CoqProject ===== *)
-Q . S2P
Prelude.v
Errors.v
Constants.v
Duration.v
Utils.v
Config.v
Metrics.v
HealthChecker.v
ConnectionManager.v
Pool.v
Env.v
Program.v
NetUrl.v
Sim.v
Retry.v
Client.v
Logic.v
ClientSetup.v
ClientMessaging.v
Interfaces.v
ClientLifecycle.v
ClientInvariant.v
ClientLedger.v
ClientConcurrency.v
ClientFrame.v
ClientAccounting.v
ClientHealth.v
