(* ===== verification/Prelude.v ===== *)
(** * Verification of the lynx-rabbitmq plugin

    The program (src/, package rabbitmq) is a plugin of the Lynx framework that
    manages one AMQP connection, a registry of named producer channels, a registry
    of named consumer channels, and the dispatch goroutines of subscriptions.  This
    library models its implementation files in Rocq and proves how they behave.
    This file is the root: its comment documents the whole development; the rest
    of it is the prelude the other files share.

    ** The parts of the program and where they are modelled

    - errors.go: error variables, the context wrapper, errors.Is: [Errors].
    - constants.go and the names of runtime_contract.go: [Constants].
    - utils.go: name validators, parseDuration and buildAMQPURL: [Utils], with
      time.ParseDuration of the standard library in [Duration].
    - conf/rabbitmq.pb.go (the three messages) and, in client.go,
      defaultRabbitMQConfig, normalizeRabbitMQConfig, GetEnabledProducers and
      GetEnabledConsumers: [Config].
    - metrics.go: the counters, GetStats and the Prometheus text: [Metrics].
    - managers.go: the health checker in [HealthChecker] (module HC), the connection
      manager in [ConnectionManager] (module CM), the retry handler in [Retry].
    - pool.go: the goroutine pool: [Pool].
    - client.go, health.go, lifecycle_context.go, runtime_contract.go: the client
      itself: [Client], with its theorems in [ClientSetup] (dialling and channel
      creation), [ClientMessaging] (publishing and consuming), [ClientLifecycle]
      (startup, health, shutdown, reconnection), [ClientInvariant] (all
      operations in any order), [ClientLedger] (what becomes of the channels),
      [ClientConcurrency] (all operations interleaved),
      [ClientFrame] and [ClientAccounting] (what interleaved operations add up to)
      and [ClientHealth] (the client with its checker and its manager).
    - interfaces.go, plug.go and PluginProtocol: [Interfaces], classes for the
      interfaces with the types of the package as instances.

    The client owns the other parts through pointers that may be nil ([option]
    fields of [Client.RabbitMQClient]).  InitializeResources creates them; startup
    dials, creates the channels, gives the health checker its probe and the manager
    its reconnect callback, and starts their goroutines; the manager's watcher calls
    back into the client (dial, rebuild, restart of the dispatch loops); cleanup
    stops both, waits for the dispatch goroutines, and closes channels and
    connection.  The manager and the checker never see the client: closures passed
    to them are values of an abstract type in their files, and in [Client] the two
    closures of the program are the constructors [connectionProbe_fn] and
    [reconnect_closure], interpreted by [call_probe] and [call_reconnect].  Their
    methods are reached through the class [Pointer] (a component behind a pointer
    field of a larger state), with one instance per field of the client.  When
    InitializeResources runs again it replaces the checker and the manager; goroutines
    that were started on the old ones keep them ([formerCheckers], [formerManagers],
    and the [holder] each goroutine carries).

    ** What is outside: the environment

    The AMQP library, the Lynx runtime and base plugin, the configuration source,
    contexts, the clock, user handlers and the iteration order of maps are the
    environment ([Env]): each call is an event of the family [E], an environment is
    any state with a handler of the events, and no theorem assumes anything about
    the answers except their types.  [logged] records the calls, and theorems speak
    about the recorded log.  net/url is modelled ([NetUrl]) except for the decision
    on bracketed IP literals, a parameter; durationpb is a class with its documented
    round trip ([Config.DurationPB]).  [Sim] is a concrete environment (a broker
    with a script of faults, a clock, a runtime that stores what is registered) on
    which witnesses and scenarios are evaluated.

    ** How the code is translated

    - A function of the client is a program of the free monad [Program.prog] over
      two operations: a critical section on the client and a call of the
      environment.  [Program.run] executes a program from end to end in the state
      monad [GoM]; [Program.exec] performs one operation and returns the rest of
      the program, so the same definitions run alone or interleaved with others.
      The outcome of a run says that it returned, panicked (nil dereference, close
      of a closed channel) or blocks for ever under the given schedule.  A nil
      error is [None].
    - A critical section of a mutex is one access.  The parts that run concurrently
      (checker, manager, pool) are step relations over lists of threads, with one
      step per critical section, channel operation or callback; [ClientConcurrency]
      runs any number of client programs, dispatch goroutines, health loops and
      watchers as threads that interleave at every operation.
    - The dispatch goroutines occupy slots of the list [loops], which keep their
      number when a goroutine ends; [running] lists the live ones, which is what
      the WaitGroup counts.  The field [subscriptionWG] says how often that count has
      come back to zero: Wait sleeps until it changes, and then panics if the count
      is positive again, as sync.WaitGroup does.  (The library detects some of these
      misuses in Add instead; the model has the panic in Wait only.  The overflow of
      the counter at 2^31 goroutines is not modelled.)
    - Durations and counters are integers in nanoseconds or units with 64-bit
      wrap-around written out ([wrap64]).  Go strings are byte strings.
    - Loops over lists are recursions on the list; the retry loop is a recursion on
      the attempts left; wait loops of goroutines are steps, so no fuel is used; the
      one exception is the parser of durations, whose fuel is the length of its input,
      enough by [Duration.segments_fuel].
      Waiting for the dispatch goroutines takes a schedule of their steps.
    - Logging calls are left out.

    ** What the theorems show

    - [ClientInvariant]: from a new client, no sequence of operations and goroutine
      steps, in any environment, panics, and only the wait of a shutdown can block;
      every reachable client satisfies [consistent].
    - [ClientConcurrency]: the same for interleaved operations, provided that no
      shutdown takes part, or no attempt to connect and no subscription; otherwise the
      process can crash, and two theorems exhibit it: a nil connection in a reconnect,
      and the WaitGroup in a subscription.  From every state reached, without attempts
      to connect and subscriptions, after the close channel is closed, all that is in
      progress can come to its end.
    - [ClientLedger]: a new, initialized client whose enabled producers, and enabled
      consumers, have distinct names, that is started, with success or not, used
      without reconnects and shut down, has closed every channel and connection it
      opened; with equal names, reconnects or restarts some may be lost, but none is
      closed twice.
    - [ClientLifecycle]: what startup publishes to the runtime agrees with what it
      returns, and success means a wired client; shutdown terminates under every
      schedule that lets the loops see the closed channel, and releases every
      channel exactly once and the connection last; a second shutdown of a client without
      connection does nothing;
      CheckHealth is exact; a successful reconnect rebuilds exactly the configured
      channels on the connection it dialled and restarts each subscription once, on
      its queue.  Three theorems record behaviour
      its callers would not expect: a restarted client stays closed, a reconnect
      starts subscriptions whose Subscribe call had failed, and a reconnect closes
      none of the connections it replaces.
    - [ClientAccounting]: in every interleaving, every delivery a dispatch loop
      receives is handed to its handler once and, without auto-ack, acked or nacked
      once; the message counters grow, modulo 2^64, by exactly the calls they count.
    - [ClientHealth]: the checker a client holds is, in every interleaving, in a
      state the stand-alone checker of [HealthChecker] can reach, so the invariants
      proved there hold of it, and its error count grows, modulo 2^64, by the failed
      probes of the health loops; a probe passes exactly when the connection is open and
      gives a channel, which is closed again; ForceReconnect reports connected only
      after a complete rebuild.
    - [Interfaces]: what the client guarantees behind the Producer and Consumer
      interfaces, which is less than their comments say in two places.
    - [ClientSetup]: validation precedes the network, failures leave no channel
      open, initialization registers everything or names the culprit; of an
      ordinary URL the dialled one keeps scheme and host, user and path where it has
      them, and otherwise carries the configured credentials byte for byte and the
      virtual host without its first slash.
    - [ClientMessaging]: one publish per accepted message, on a registered channel;
      each delivery settled exactly once, in order; subscriptions own their channel.
    - [Retry]: attempts, result and sleeps of DoWithRetry.
    - [ConnectionManager], [HealthChecker], [Pool]: safety of shutdown under every
      interleaving, bounded termination, refinement of the sequential Stop, history
      invariants, conservation of tasks, and the deadlocks of tasks that call the
      pool they run on.
    - [Config], [Utils], [Errors], [Metrics]: normalization equals its reference
      function and is idempotent, exact validators, durations read back, wrapping
      keeps identity, counters count modulo 2^64, and the exposition can be read
      back.

    [Logic] holds the program logic of the client: [ensures] is total correctness of
    a run in every environment, with one rule per construct and a tactic that
    executes a program symbolically.  [ClientInvariant] has a second judgment
    [rsafe], of rely-guarantee style: a program that is [rsafe] panics at no
    operation, keeps [consistent] and does only what [grows] allows, whatever the
    other threads, held to the same rules, do between its operations.  The sequential
    theorem is its instance with no other thread.  [ClientLedger] keeps the books of
    opened, held, closed and lost channels of a program that runs alone ([books]).
    [ClientFrame] has [tracks]: how far a program can move one part of the client (a
    focus, such as the counters or the checker), proved once per operation and used
    for each focus; and [ClientAccounting] has [yields]: what a program adds to an
    account of calls and counters on every complete run, however it is interrupted.

    ** What is not modelled

    Tasks of the pool of a client: the field is unexported, the pool is not registered
    as a resource, and the client itself submits nothing, so that its Wait only closes
    it ([goroutinePool_Wait]); the pool on its own is [Pool].
    The client is initialized before goroutines share it: InitializeResources, which
    takes no lock, is an operation of [ClientInvariant] but not a call of
    [ClientConcurrency].
    The accessors, reflection and descriptors of the generated protobuf code.  The
    factory of the framework and the plugin protocol struct are parameters.  Reads and
    writes of fields the code leaves outside a mutex are single operations too: the
    Go memory model gives a data race no meaning, and none is modelled. *)

From stdpp Require Export base tactics strings list gmap numbers relations.
From Stdlib Require Export ZArith Lia Ascii.
From Stdlib Require Import DecimalString DecimalZ.

Declare Scope go_scope.
Delimit Scope go_scope with go.

(** ** Outcomes and the state monad of a goroutine

    A Go function body is a function from the state it runs in to an outcome:
    it returns with a new state, it panics (nil dereference, close of a closed
    channel, ...), or it blocks for ever under the schedule it was given. *)

Inductive outcome (A : Type) : Type :=
| Done (a : A)
| Panicked
| Blocked.
Arguments Done {A} a.
Arguments Panicked {A}.
Arguments Blocked {A}.

Definition GoM (S A : Type) : Type := S → outcome (A * S).

#[global] Instance GoM_ret {S} : MRet (GoM S) := λ A a s, Done (a, s).

#[global] Instance GoM_bind {S} : MBind (GoM S) := λ A B k m s,
  match m s with
  | Done (a, s') => k a s'
  | Panicked => Panicked
  | Blocked => Blocked
  end.

Definition gets {S A} (f : S → A) : GoM S A := λ s, Done (f s, s).

Definition modify {S} (f : S → S) : GoM S unit := λ s, Done (tt, f s).

Definition panic {S A} : GoM S A := λ _, Panicked.

Definition block {S A} : GoM S A := λ _, Blocked.

(** The error-returning loop of Go: run the body on each element in order and
    return the first error. *)
Fixpoint for_each {M : Type → Type} `{!MRet M, !MBind M} {A E} (body : A → M (option E)) (l : list A) : M (option E) :=
  match l with
  | [] => mret None
  | x :: l' => e ← body x; match e with Some e => mret (Some e) | None => for_each body l' end
  end.

(** A loop without early exit. *)
Fixpoint for_all {M : Type → Type} `{!MRet M, !MBind M} {A} (body : A → M unit) (l : list A) : M unit :=
  match l with
  | [] => mret tt
  | x :: l' => body x ;; for_all body l'
  end.

(** ** Access to a component through a pointer

    A component [A] lives behind a pointer field of the state a monad [M] works
    on.  [with_pointer f] runs the method body [f] on it as one critical section;
    a nil pointer makes the method panic when it touches a field. *)
Class Pointer (A : Type) (M : Type → Type) : Type :=
  with_pointer : ∀ {B}, (A → outcome (B * A)) → M B.

(** A method whose body does not panic. *)
Definition method {A M} `{!Pointer A M} {B} (f : A → B * A) : M B := with_pointer (λ a, Done (f a)).

(** ** Machine integers *)

Definition two63 : Z := 9223372036854775808.
Definition two64 : Z := 18446744073709551616.
Definition two31 : Z := 2147483648.

Definition wrap64 (z : Z) : Z := (z + two63) mod two64 - two63.
Definition wrap32 (z : Z) : Z := (z + two31) mod (2 * two31) - two31.

Definition int64 (z : Z) : Prop := (- two63 ≤ z < two63)%Z.
Definition int32 (z : Z) : Prop := (- two31 ≤ z < two31)%Z.

(** ** Durations: nanoseconds in an int64 *)

Definition Millisecond : Z := 1000000.
Definition Second : Z := 1000000000.

(** ** Strings: a Go string is a sequence of bytes, [String.length] is [len] *)

Fixpoint contains (s sub : string) : bool :=
  String.prefix sub s ||
  match s with
  | EmptyString => false
  | String _ s' => contains s' sub
  end.

Fixpoint join (l : list string) (sep : string) : string :=
  match l with
  | [] => ""
  | [s] => s
  | s :: l' => s +:+ sep +:+ join l' sep
  end.

Definition TrimPrefix (s pre : string) : string :=
  if String.prefix pre s then String.substring (String.length pre) (String.length s - String.length pre) s else s.

(** The [%d] verb. *)
Definition fmt_d (z : Z) : string := NilZero.string_of_int (Z.to_int z).

Definition parse_d (s : string) : option Z := Z.of_int <$> NilZero.int_of_string s.

Fixpoint chars (s : string) : list Ascii.ascii :=
  match s with
  | EmptyString => []
  | String c s' => c :: chars s'
  end.

(** ** Tactics *)

Create HintDb go discriminated.
Create Rewrite HintDb go.

(** Unfold the monad and reduce the visible matches. *)
Ltac go_unfold :=
  unfold mbind, GoM_bind, mret, GoM_ret, gets, modify, panic, block in *; cbn beta iota zeta in *.

(** Case split on the scrutinee of some match of the goal or a hypothesis. *)
Ltac split_match :=
  match goal with
  | |- context [ match ?x with _ => _ end ] => destruct x eqn:?
  | H : context [ match ?x with _ => _ end ] |- _ => destruct x eqn:?
  end.

Ltac go_crush := repeat (go_unfold; simplify_eq/=; try split_match); simplify_eq/=.

(** ** Lemmas on the shared definitions *)

Lemma bind_done {S A B} (m : GoM S A) (k : A → GoM S B) s r :
  (m ≫= k) s = Done r → ∃ a s', m s = Done (a, s') ∧ k a s' = Done r.
Proof. unfold mbind, GoM_bind. destruct (m s) as [[a s']| |]; naive_solver. Qed.

Lemma bind_eq {S A B} (m : GoM S A) (k : A → GoM S B) s a s' :
  m s = Done (a, s') → (m ≫= k) s = k a s'.
Proof. unfold mbind, GoM_bind. by intros ->. Qed.

Lemma for_each_app {S A E} (body : A → GoM S (option E)) l1 l2 s :
  for_each body (l1 ++ l2) s =
    (e ← for_each body l1; match e with Some e => mret (Some e) | None => for_each body l2 end) s.
Proof.
  revert s. induction l1 as [|x l1 IH]; intros s; [done|].
  cbn [app for_each]. unfold mbind, GoM_bind in *.
  destruct (body x s) as [[[e|] s']| |]; done.
Qed.

(** An invariant of the body of a loop, relative to the elements already done. *)
Lemma for_each_ind {S A E} (body : A → GoM S (option E)) (P : list A → S → Prop) l s :
  P [] s →
  (∀ pre x rest s s', l = pre ++ x :: rest → P pre s → body x s = Done (None, s') → P (pre ++ [x]) s') →
  ∀ s', for_each body l s = Done (None, s') → P l s'.
Proof.
  revert s. intros s0 H0 Hstep.
  assert (∀ rest pre s s', l = pre ++ rest → P pre s →
            for_each body rest s = Done (None, s') → P l s') as Hgen; [|by intros s'; apply (Hgen l [] s0)].
  induction rest as [|x rest IH]; intros pre s1 s2 Hl HP Hrun; cbn in Hrun.
  { unfold mret, GoM_ret in Hrun. simplify_eq. by rewrite app_nil_r. }
  apply bind_done in Hrun as ([e|] & s3 & Hx & Hrest); [by unfold mret, GoM_ret in Hrest|].
  apply (IH (pre ++ [x]) s3 s2); [|by eapply Hstep|assumption].
  rewrite <- app_assoc. exact Hl.
Qed.

Lemma wrap64_id z : int64 z → wrap64 z = z.
Proof. unfold int64, wrap64, two63, two64. intros. rewrite Z.mod_small; lia. Qed.

Lemma wrap64_range z : int64 (wrap64 z).
Proof.
  unfold int64, wrap64. pose proof (Z.mod_pos_bound (z + two63) two64).
  unfold two63, two64 in *. lia.
Qed.

Lemma wrap64_add_l a b : wrap64 (wrap64 a + b) = wrap64 (a + b).
Proof.
  unfold wrap64. f_equal.
  replace ((a + two63) mod two64 - two63 + b + two63)%Z with ((a + two63) mod two64 + b)%Z by lia.
  rewrite Z.add_mod_idemp_l by done. f_equal. lia.
Qed.

Lemma to_int_nonnil z : Z.to_int z ≠ Decimal.Pos Decimal.Nil ∧ Z.to_int z ≠ Decimal.Neg Decimal.Nil.
Proof.
  destruct z; split; cbn; try discriminate;
    intros H; injection H; apply DecimalPos.Unsigned.to_uint_nonnil.
Qed.

Lemma parse_fmt_d z : parse_d (fmt_d z) = Some z.
Proof.
  destruct (to_int_nonnil z). unfold parse_d, fmt_d. rewrite NilZero.isi by done.
  cbn. f_equal. apply DecimalZ.of_to.
Qed.

Lemma string_app_cons c (a b : string) : String c a +:+ b = String c (a +:+ b).
Proof. done. Qed.

Lemma string_app_nil_l (a : string) : "" +:+ a = a.
Proof. done. Qed.

Lemma string_app_assoc (a b c : string) : (a +:+ b) +:+ c = a +:+ b +:+ c.
Proof. induction a as [|x a IH]; [done|]. rewrite !string_app_cons. by f_equal. Qed.

Lemma string_app_nil_r (a : string) : a +:+ "" = a.
Proof. induction a as [|x a IH]; [done|]. rewrite !string_app_cons. by f_equal. Qed.

Lemma string_length_app (a b : string) :
  String.length (a +:+ b) = String.length a + String.length b.
Proof. induction a as [|x a IH]; [done|]. rewrite string_app_cons. cbn. by rewrite IH. Qed.

Lemma chars_app a b : chars (a +:+ b) = chars a ++ chars b.
Proof. induction a as [|x a IH]; [done|]. rewrite string_app_cons. cbn. by rewrite IH. Qed.

Lemma prefix_single c x s : String.prefix (String c "") (String x s) = bool_decide (c = x).
Proof.
  cbn. destruct (Ascii.ascii_dec c x) as [->|Hne].
  - rewrite bool_decide_eq_true_2 by done. by destruct s.
  - by rewrite bool_decide_eq_false_2.
Qed.

(** A one-byte pattern occurs exactly when the byte is a member. *)
Lemma contains_char s c : contains s (String c "") = bool_decide (c ∈ chars s).
Proof.
  induction s as [|x s IH]; [done|].
  cbn [contains chars]. rewrite prefix_single, IH.
  destruct (decide (c = x)) as [->|Hne].
  - rewrite (bool_decide_eq_true_2 (x = x)) by done.
    symmetry. apply bool_decide_eq_true_2. set_solver.
  - rewrite (bool_decide_eq_false_2 (c = x)) by done. cbn.
    apply bool_decide_ext. set_solver.
Qed.

Lemma prefix_nil s : String.prefix "" s = true.
Proof. by destruct s. Qed.

Lemma prefix_cons c p s : String.prefix (String c p) (String c s) = String.prefix p s.
Proof. cbn. by destruct (Ascii.ascii_dec c c). Qed.

Lemma prefix_app p s : String.prefix p (p +:+ s) = true.
Proof. induction p as [|c p IH]; [apply prefix_nil|]. by rewrite string_app_cons, prefix_cons. Qed.

Lemma substring_full s : String.substring 0 (String.length s) s = s.
Proof. induction s as [|c s IH]; [done|]. cbn. by rewrite IH. Qed.

Lemma substring_app p s n : String.substring (String.length p) n (p +:+ s) = String.substring 0 n s.
Proof. induction p as [|c p IH]; [done|]. by rewrite string_app_cons. Qed.

Lemma TrimPrefix_app p s : TrimPrefix (p +:+ s) p = s.
Proof.
  unfold TrimPrefix. rewrite prefix_app, substring_app, string_length_app.
  rewrite Nat.add_comm, Nat.add_sub. apply substring_full.
Qed.

(** [p] and [q] differ at a position both have. *)
Fixpoint mismatch (p q : string) : bool :=
  match p, q with
  | String a p', String b q' => if bool_decide (a = b) then mismatch p' q' else true
  | _, _ => false
  end.

Lemma prefix_mismatch p q s : mismatch p q = true → String.prefix p (q +:+ s) = false.
Proof.
  revert q. induction p as [|a p IH]; intros [|b q]; try done.
  cbn [mismatch]. case_bool_decide; subst; intros Hm; rewrite string_app_cons.
  - rewrite prefix_cons. auto.
  - cbn. by destruct (Ascii.ascii_dec a b).
Qed.

(** ** Counting the threads of a pool that satisfy a test *)

Definition count {A} (p : A → bool) (l : list A) : nat := length (List.filter p l).
#[global] Arguments count : simpl never.

Lemma count_cons {A} (p : A → bool) x l : count p (x :: l) = Nat.b2n (p x) + count p l.
Proof. unfold count. cbn. by destruct (p x). Qed.

Lemma count_nil {A} (p : A → bool) : count p [] = 0.
Proof. done. Qed.

Lemma count_app {A} (p : A → bool) l1 l2 : count p (l1 ++ l2) = count p l1 + count p l2.
Proof. induction l1 as [|x l1 IH]; [done|]. cbn [app]. rewrite !count_cons. lia. Qed.

Lemma count_insert {A} (p : A → bool) (l : list A) i x y :
  l !! i = Some x → count p (<[i:=y]> l) + Nat.b2n (p x) = count p l + Nat.b2n (p y).
Proof.
  intros Hi. rewrite (insert_take_drop l i y) by by eapply lookup_lt_Some.
  rewrite <- (take_drop_middle l i x Hi) at 3. rewrite !count_app, !count_cons. lia.
Qed.

Lemma count_lookup {A} (p : A → bool) (l : list A) i x : l !! i = Some x → p x = true → 0 < count p l.
Proof.
  intros Hi Hp. rewrite <- (take_drop_middle l i x Hi). rewrite count_app, count_cons, Hp. cbn. lia.
Qed.

Lemma count_replicate {A} (p : A → bool) n x : count p (replicate n x) = if p x then n else 0.
Proof. induction n as [|n IH]; [by destruct (p x)|]. cbn [replicate]. rewrite count_cons, IH. by destruct (p x). Qed.

Lemma count_le {A} (p q : A → bool) (l : list A) : (∀ x, p x = true → q x = true) → count p l ≤ count q l.
Proof.
  intros Hpq. induction l as [|x l IH]; [done|]. rewrite !count_cons.
  specialize (Hpq x). destruct (p x), (q x); cbn in *; (lia || by discriminate Hpq).
Qed.

(** Pose what counting says about each pool in which one thread moved, and
    about the thread that moved. *)
Ltac count_moved :=
  repeat match goal with
  | H : ?l !! ?i = Some ?x |- context [ count ?p (<[?i:=?y]> ?l) ] =>
      let E := fresh "Hcount" in
      pose proof (count_insert p l i x y H) as E; cbn in E;
      let c := fresh "c" in set (c := count p (<[i:=y]> l)) in *; clearbody c
  end.

(** The sum of a measure over a pool. *)
Definition total {A} (f : A → nat) (l : list A) : nat := list_sum (map f l).
#[global] Arguments total : simpl never.

Lemma total_app {A} (f : A → nat) l1 l2 : total f (l1 ++ l2) = total f l1 + total f l2.
Proof. unfold total. by rewrite map_app, list_sum_app. Qed.

Lemma total_nil {A} (f : A → nat) : total f [] = 0.
Proof. done. Qed.

Lemma total_cons {A} (f : A → nat) x l : total f (x :: l) = f x + total f l.
Proof. done. Qed.

Lemma total_insert {A} (f : A → nat) (l : list A) i x y :
  l !! i = Some x → total f (<[i:=y]> l) + f x = total f l + f y.
Proof.
  intros Hi. rewrite (insert_take_drop l i y) by by eapply lookup_lt_Some.
  rewrite <- (take_drop_middle l i x Hi) at 3. rewrite !total_app, !total_cons. lia.
Qed.

Lemma total_lookup {A} (f : A → nat) (l : list A) i x : l !! i = Some x → f x ≤ total f l.
Proof. intros Hi. rewrite <- (take_drop_middle l i x Hi). rewrite total_app, total_cons. lia. Qed.

(** Collecting items from a pool in which one thread moved. *)
Lemma bind_insert_perm {A B} (f : A → list B) (l : list A) i x y :
  l !! i = Some x → (<[i:=y]> l ≫= f) ++ f x ≡ₚ (l ≫= f) ++ f y.
Proof.
  intros Hi. rewrite (insert_take_drop l i y) by by eapply lookup_lt_Some.
  rewrite <- (take_drop_middle l i x Hi) at 3.
  rewrite !bind_app, !bind_cons. solve_Permutation.
Qed.

(** A step relation that decreases a measure on an invariant set takes at most
    as many steps as the measure says. *)
Lemma bounded_steps {S} (R : relation S) (Inv : S → Prop) (f : S → nat) :
  (∀ s s', Inv s → R s s' → Inv s' ∧ f s' < f s) →
  ∀ n s s', Inv s → nsteps R n s s' → n ≤ f s ∧ Inv s'.
Proof.
  intros Hdec n. induction n as [|n IH]; intros s s' HI Hs; inversion Hs; subst; [split; [lia|done]|].
  destruct (Hdec s y HI ltac:(done)) as [HI' Hlt]. destruct (IH y s' HI' ltac:(done)). split; [lia|done].
Qed.

(** An invariant of every step holds in every reachable state. *)
Lemma rtc_invariant {S} (R : relation S) (Inv : S → Prop) :
  (∀ s s', Inv s → R s s' → Inv s') → ∀ s s', rtc R s s' → Inv s → Inv s'.
Proof. intros Hstep s s' Hr. induction Hr; eauto. Qed.

(** ** Lines of text *)

Definition nl : string := String (Ascii.ascii_of_N 10) "".

Definition nl_char : Ascii.ascii := Ascii.ascii_of_N 10.

(** [strings.Split(s, "\n")]. *)
Fixpoint lines (s : string) : list string :=
  match s with
  | EmptyString => [""]
  | String c s' =>
      if bool_decide (c = nl_char) then "" :: lines s'
      else match lines s' with
           | l :: ls => String c l :: ls
           | [] => [String c ""]
           end
  end.

Lemma lines_single s : nl_char ∉ chars s → lines s = [s].
Proof.
  induction s as [|c s IH]; [done|]. cbn [chars lines]. intros Hin.
  rewrite bool_decide_eq_false_2 by set_solver. by rewrite IH by set_solver.
Qed.

Lemma lines_app s t : nl_char ∉ chars s → lines (s +:+ nl +:+ t) = s :: lines t.
Proof.
  induction s as [|c s IH]; intros Hin.
  - unfold nl. rewrite string_app_nil_l, string_app_cons, string_app_nil_l. cbn. done.
  - cbn [chars] in Hin. rewrite string_app_cons. cbn [lines].
    rewrite bool_decide_eq_false_2 by set_solver. by rewrite IH by set_solver.
Qed.

Lemma lines_join l : l ≠ [] → Forall (λ s, nl_char ∉ chars s) l → lines (join l nl) = l.
Proof.
  intros Hne Hl. induction Hl as [|s l Hs Hl IH]; [done|].
  destruct l as [|s' l]; [by apply lines_single|].
  change (join (s :: s' :: l) nl) with (s +:+ nl +:+ join (s' :: l) nl).
  rewrite lines_app by done. by rewrite IH.
Qed.

Lemma uint_chars u : nl_char ∉ chars (NilEmpty.string_of_uint u).
Proof. induction u; cbn; set_solver. Qed.

Lemma fmt_d_chars z : nl_char ∉ chars (fmt_d z).
Proof.
  unfold fmt_d. pose proof uint_chars.
  destruct (Z.to_int z) as [u|u]; destruct u; cbn; set_solver.
Qed.

#[export] Hint Rewrite @string_app_assoc @string_app_nil_r @chars_app @string_length_app : go.
