(* ===== verification/Errors.v ===== *)
(** * Errors: src/errors.go *)

From S2P Require Import Prelude.

(** The package-level error variables of errors.go, in its order.  Each is a
    distinct pointer made by [errors.New], compared by identity. *)
Inductive sentinel : Type :=
| ErrInvalidConfiguration | ErrMissingURLs | ErrInvalidProducer | ErrInvalidConsumer
| ErrConnectionFailed | ErrConnectionTimeout | ErrConnectionClosed | ErrChannelFailed
| ErrProducerNotReady | ErrProducerNotFound | ErrInvalidExchange | ErrInvalidRoutingKey
| ErrInvalidMessage | ErrPublishMessageFailed | ErrPublishTimeout
| ErrConsumerNotReady | ErrConsumerNotFound | ErrInvalidQueue | ErrSubscribeFailed
| ErrConsumeMessageFailed
| ErrHealthCheckFailed | ErrUnhealthy
| ErrMaxRetriesExceeded | ErrRetryTimeout
| ErrEmptyExchange | ErrEmptyQueue | ErrEmptyMessage | ErrInvalidExchangeType
| ErrInvalidVirtualHost.

#[global] Instance sentinel_eq_dec : EqDecision sentinel.
Proof. solve_decision. Defined.

Definition sentinel_text (s : sentinel) : string :=
  match s with
  | ErrInvalidConfiguration => "invalid rabbitmq configuration"
  | ErrMissingURLs => "rabbitmq server URLs are required"
  | ErrInvalidProducer => "invalid producer configuration"
  | ErrInvalidConsumer => "invalid consumer configuration"
  | ErrConnectionFailed => "failed to connect to rabbitmq"
  | ErrConnectionTimeout => "connection timeout"
  | ErrConnectionClosed => "connection is closed"
  | ErrChannelFailed => "failed to create channel"
  | ErrProducerNotReady => "producer is not ready"
  | ErrProducerNotFound => "producer not found"
  | ErrInvalidExchange => "invalid exchange"
  | ErrInvalidRoutingKey => "invalid routing key"
  | ErrInvalidMessage => "invalid message"
  | ErrPublishMessageFailed => "failed to publish message"
  | ErrPublishTimeout => "publish timeout"
  | ErrConsumerNotReady => "consumer is not ready"
  | ErrConsumerNotFound => "consumer not found"
  | ErrInvalidQueue => "invalid queue"
  | ErrSubscribeFailed => "failed to subscribe to queue"
  | ErrConsumeMessageFailed => "failed to consume message"
  | ErrHealthCheckFailed => "health check failed"
  | ErrUnhealthy => "service is unhealthy"
  | ErrMaxRetriesExceeded => "max retries exceeded"
  | ErrRetryTimeout => "retry timeout"
  | ErrEmptyExchange => "exchange cannot be empty"
  | ErrEmptyQueue => "queue cannot be empty"
  | ErrEmptyMessage => "message cannot be empty"
  | ErrInvalidExchangeType => "invalid exchange type"
  | ErrInvalidVirtualHost => "invalid virtual host"
  end.

(** The values of Go's [error] interface that occur in the program.  A nil
    [error] is [None : option error].
    - [Sentinel]: a variable of errors.go;
    - [ErrorWithContext]: the struct of errors.go, whose [Err] may be nil;
    - [Errorf]: [fmt.Errorf] without [%w], by its rendered message;
    - [Errorf_w]: [fmt.Errorf("<pre>: %w", err)], the only shape with [%w] in the source;
    - [Foreign]: an error value made by other packages, by identity and text. *)
Inductive error : Type :=
| Sentinel (s : sentinel)
| ErrorWithContext (Err : option error) (Context : string)
| Errorf (msg : string)
| Errorf_w (pre : string) (err : error)
| Foreign (id : N) (text : string).

Definition nil_deref_text : string :=
  "%!v(PANIC=Error method: runtime error: invalid memory address or nil pointer dereference)".

(** [Error()] of each dynamic type; [None] is the nil dereference of
    [e.Err.Error()] on an [ErrorWithContext] with a nil [Err] and no context.
    Inside [fmt] such a panic is caught and rendered, and a nil operand of
    [%v] prints as [<nil>]. *)
Fixpoint Error (e : error) : option string :=
  match e with
  | Sentinel s => Some (sentinel_text s)
  | ErrorWithContext err ctx =>
      if bool_decide (ctx ≠ "")
      then Some (ctx +:+ ": " +:+
             match err with
             | None => "<nil>"
             | Some e' => default nil_deref_text (Error e')
             end)
      else match err with None => None | Some e' => Error e' end
  | Errorf msg => Some msg
  | Errorf_w pre e' => Some (pre +:+ ": " +:+ default nil_deref_text (Error e'))
  | Foreign _ t => Some t
  end.

(** [Unwrap]: the method of [ErrorWithContext] and of the [%w] wrapper. *)
Definition Unwrap (e : error) : option error :=
  match e with
  | ErrorWithContext err _ => err
  | Errorf_w _ e' => Some e'
  | _ => None
  end.

Definition WrapError (err : option error) (context : string) : error :=
  ErrorWithContext err context.

(** Targets of [errors.Is]: values that keep their identity between calls, the
    variables of errors.go and the exported variables of other packages. *)
Inductive target : Type :=
| TSentinel (s : sentinel)
| TForeign (id : N).

Definition same_error (e : error) (t : target) : bool :=
  match e, t with
  | Sentinel s, TSentinel s' => bool_decide (s = s')
  | Foreign i _, TForeign j => bool_decide (i = j)
  | _, _ => false
  end.

(** [errors.Is] on a non-nil error: compare, then follow [Unwrap] until nil. *)
Fixpoint Is (e : error) (t : target) : bool :=
  same_error e t ||
  match e with
  | ErrorWithContext (Some e') _ => Is e' t
  | Errorf_w _ e' => Is e' t
  | _ => false
  end.

(** A non-nil target never equals a nil error. *)
Definition IsError (err : option error) (t : target) : bool :=
  match err with None => false | Some e => Is e t end.

(** Values of other packages the code compares with or is handed. *)
Definition context_Canceled : error := Foreign 1 "context canceled".
Definition kratos_ErrNotFound : N := 2.

(** A layer of context put around an error by the code. *)
Inductive wrapper : Type :=
| LContext (ctx : string)
| LErrorf (pre : string).

Definition wrap_layer (l : wrapper) (e : error) : error :=
  match l with
  | LContext ctx => WrapError (Some e) ctx
  | LErrorf pre => Errorf_w pre e
  end.

Definition wrap_all (ls : list wrapper) (e : error) : error := foldr wrap_layer e ls.

Lemma Is_wrap_layer l e t : Is (wrap_layer l e) t = Is e t.
Proof. by destruct l, t. Qed.

Lemma Is_follows_Unwrap e t :
  Is e t = same_error e t || match Unwrap e with Some e' => Is e' t | None => false end.
Proof. by destruct e as [| [] | | |]. Qed.

(** Wrapping never changes how an error is classified.  For every stack of
    contexts added by [WrapError] and by [fmt.Errorf] with [%w], [IsError] gives
    on the wrapped error what it gives on the error inside. *)
Theorem wrapping_preserves_IsError ls e t :
  IsError (Some (wrap_all ls e)) t = IsError (Some e) t.
Proof.
  unfold IsError. induction ls as [|l ls IH]; [done|].
  cbn. by rewrite Is_wrap_layer.
Qed.

Lemma sentinel_text_inj s1 s2 : sentinel_text s1 = sentinel_text s2 → s1 = s2.
Proof. destruct s1, s2; vm_compute; congruence. Qed.
