(* ===== verification/Constants.v ===== *)
(** * Constants: src/constants.go and the resource names of src/runtime_contract.go

    Names are those of the source; [Local]-style lower-case Go identifiers keep
    their spelling. *)

From S2P Require Import Prelude.

Definition pluginName : string := "rabbitmq".
Definition pluginVersion : string := "v1.6.3".
Definition pluginDescription : string := "RabbitMQ message queue plugin for Lynx framework".
Definition confPrefix : string := "lynx.rabbitmq".

Definition defaultDialTimeout : string := "3s".
Definition defaultHeartbeat : string := "30s".
Definition defaultPublishTimeout : string := "3s".
Definition defaultRetryBackoff : string := "100ms".
Definition defaultMaxRetries : Z := 3.
Definition defaultPrefetchCount : Z := 1.
Definition defaultMaxConcurrency : Z := 1.
Definition defaultChannelPoolSize : Z := 10.
Definition defaultVirtualHost : string := "/".

Definition ExchangeTypeDirect : string := "direct".
Definition ExchangeTypeFanout : string := "fanout".
Definition ExchangeTypeTopic : string := "topic".
Definition ExchangeTypeHeaders : string := "headers".

Definition defaultExchange : string := "lynx.exchange".
Definition defaultQueue : string := "lynx.queue".
Definition defaultConsumer : string := "lynx.consumer".

Definition sharedPluginResourceName : string := pluginName +:+ ".plugin".
Definition sharedReadinessResourceName : string := pluginName +:+ ".readiness".
Definition sharedHealthResourceName : string := pluginName +:+ ".health".
Definition privateReadinessResourceName : string := "readiness".
Definition privateHealthResourceName : string := "health".
