(* ===== verification/Duration.v ===== *)
(** * Durations in text: time.ParseDuration of the Go standard library

    The function [parseDuration] of src/utils.go relies on.  Unsigned 64-bit
    arithmetic is written out, fractions go through binary64 as in the library, and
    an error is [None] (its text is never used).  The loop over the components of a
    duration is a recursion with fuel; [segments_fuel] shows that the length of the
    string is enough.  [print] is the reference writer of durations. *)

From Stdlib Require Import SpecFloat DecimalString.
From S2P Require Import Prelude.

Definition wrapU (z : Z) : Z := z mod two64.

Definition is_digit (c : Ascii.ascii) : bool :=
  (N_of_ascii "0" <=? N_of_ascii c)%N && (N_of_ascii c <=? N_of_ascii "9")%N.

Definition digit (c : Ascii.ascii) : Z := Z.of_N (N_of_ascii c) - Z.of_N (N_of_ascii "0").

(** The leading [0-9]* of a string; [None] when its value exceeds 2^63. *)
Fixpoint leadingInt (x : Z) (s : string) : option (Z * string) :=
  match s with
  | String c s' =>
      if is_digit c then
        if bool_decide (two63 / 10 < x)%Z then None
        else
          let x := wrapU (x * 10 + digit c) in
          if bool_decide (two63 < x)%Z then None else leadingInt x s'
      else Some (x, s)
  | EmptyString => Some (x, s)
  end.

(** *** float64 *)

Definition float := spec_float.
Definition float_of (z : Z) : float := binary_normalize 53 1024 z 0 false.
Definition fmul : float → float → float := SFmul 53 1024.
Definition fdiv : float → float → float := SFdiv 53 1024.

(** [uint64(x)]: truncation.  The language leaves the conversion of negative
    numbers, infinities and NaN open; none arises here. *)
Definition uint64_of (x : float) : Z :=
  match x with
  | S754_finite false m e => wrapU (Z.shiftl (Zpos m) e)
  | _ => 0
  end.

(** The digits after the point: value and power of ten; digits beyond the range
    of an int64 are skipped. *)
Fixpoint leadingFraction (x : Z) (scale : float) (overflow : bool) (s : string) : Z * float * string :=
  match s with
  | String c s' =>
      if is_digit c then
        if overflow then leadingFraction x scale true s'
        else if bool_decide ((two63 - 1) / 10 < x)%Z then leadingFraction x scale true s'
        else
          let y := wrapU (x * 10 + digit c) in
          if bool_decide (two63 < y)%Z then leadingFraction x scale true s'
          else leadingFraction y (fmul scale (float_of 10)) false s'
      else (x, scale, s)
  | EmptyString => (x, scale, s)
  end.

(** The unit: everything up to the next digit or point. *)
Fixpoint leadingUnit (s : string) : string * string :=
  match s with
  | String c s' =>
      if bool_decide (c = "."%char) || is_digit c then ("", s)
      else let '(u, rest) := leadingUnit s' in (String c u, rest)
  | EmptyString => ("", "")
  end.

Definition unitMap : list (string * Z) :=
  [("ns", 1); ("us", 1000); ("µs", 1000); ("μs", 1000); ("ms", Millisecond);
   ("s", Second); ("m", 60 * Second); ("h", 3600 * Second)]%Z.

Definition lookup_unit (u : string) : option Z := (list_to_map unitMap : gmap string Z) !! u.
#[global] Arguments lookup_unit : simpl never.

Definition starts_number (s : string) : bool :=
  match s with String c _ => bool_decide (c = "."%char) || is_digit c | EmptyString => false end.

(** One round of the loop: a number with its unit, in nanoseconds. *)
Definition segment (s : string) : option (Z * string) :=
  if starts_number s then
    '(v, s1) ← leadingInt 0 s;
    let pre := negb (String.length s =? String.length s1) in
    let '(f, scale, s2, post) :=
      match s1 with
      | String "." s' =>
          let '(f, scale, s2) := leadingFraction 0 (float_of 1) false s' in
          (f, scale, s2, negb (String.length s' =? String.length s2))
      | _ => (0%Z, float_of 1, s1, false)
      end in
    if negb pre && negb post then None
    else
      let '(u, rest) := leadingUnit s2 in
      if bool_decide (u = "") then None
      else
        unit ← lookup_unit u;
        if bool_decide (two63 / unit < v)%Z then None
        else
          let v := wrapU (v * unit) in
          if bool_decide (0 < f)%Z then
            let v := wrapU (v + uint64_of (fmul (float_of f) (fdiv (float_of unit) scale))) in
            if bool_decide (two63 < v)%Z then None else Some (v, rest)
          else Some (v, rest)
  else None.

Fixpoint segments (fuel : nat) (d : Z) (s : string) : option Z :=
  match s with
  | EmptyString => Some d
  | String _ _ =>
      match fuel with
      | O => None
      | S fuel' =>
          '(v, rest) ← segment s;
          let d := wrapU (d + v) in
          if bool_decide (two63 < d)%Z then None else segments fuel' d rest
      end
  end.

(** The optional sign. *)
Definition leadingSign (s : string) : bool * string :=
  match s with
  | String "-" s' => (true, s')
  | String "+" s' => (false, s')
  | _ => (false, s)
  end.

Definition ParseDuration (s : string) : option Z :=
  let '(neg, s) := leadingSign s in
  if bool_decide (s = "0") then Some 0%Z
  else if bool_decide (s = "") then None
  else
    d ← segments (String.length s) 0 s;
    if neg : bool then Some (wrap64 (- wrap64 d))
    else if bool_decide (two63 - 1 < d)%Z then None else Some (wrap64 d).

Example parse_5s : ParseDuration "5s" = Some (5 * Second)%Z.
Proof. reflexivity. Qed.
Example parse_mixed : ParseDuration "-1h15m30.918s" = Some (-4530918000000)%Z.
Proof. vm_compute. reflexivity. Qed.
Example parse_fraction : ParseDuration "1.5h.25µs" = Some (5400000000250)%Z.
Proof. vm_compute. reflexivity. Qed.
Example parse_bad : ParseDuration "bad" = None ∧ ParseDuration "5" = None ∧ ParseDuration ".s" = None ∧ ParseDuration "-" = None.
Proof. vm_compute. auto. Qed.
Example parse_min : ParseDuration "-9223372036854775808ns" = Some (- two63)%Z ∧ ParseDuration "9223372036854775808ns" = None.
Proof. vm_compute. auto. Qed.

(** ** Specification: durations written as numbers with units *)

(** A number of one unit. *)
Definition component : Type := Z * string.

Definition valid_component (p : component) : Prop := (0 ≤ fst p)%Z ∧ is_Some (lookup_unit (snd p)).

Definition nanoseconds (p : component) : Z := fst p * default 0%Z (lookup_unit (snd p)).

Fixpoint print (l : list component) : string :=
  match l with
  | [] => ""
  | (n, u) :: l' => fmt_d n +:+ u +:+ print l'
  end.

Definition total_ns (l : list component) : Z := foldr (λ p t, (nanoseconds p + t)%Z) 0%Z l.

Inductive sign : Type := Unsigned | Plus | Minus.

Definition print_sign (sg : sign) : string :=
  match sg with Unsigned => "" | Plus => "+" | Minus => "-" end.

Definition signed (sg : sign) (z : Z) : Z := match sg with Minus => (- z)%Z | _ => z end.

(** ** Lemmas *)

(** *** Decimal numbers *)

(** The value of digits read after the number [x]. *)
Fixpoint digits_value (x : Z) (d : Decimal.uint) : Z :=
  match d with
  | Decimal.Nil => x
  | Decimal.D0 d => digits_value (x * 10) d
  | Decimal.D1 d => digits_value (x * 10 + 1) d
  | Decimal.D2 d => digits_value (x * 10 + 2) d
  | Decimal.D3 d => digits_value (x * 10 + 3) d
  | Decimal.D4 d => digits_value (x * 10 + 4) d
  | Decimal.D5 d => digits_value (x * 10 + 5) d
  | Decimal.D6 d => digits_value (x * 10 + 6) d
  | Decimal.D7 d => digits_value (x * 10 + 7) d
  | Decimal.D8 d => digits_value (x * 10 + 8) d
  | Decimal.D9 d => digits_value (x * 10 + 9) d
  end.

Lemma digits_value_pos d p : digits_value (Zpos p) d = Zpos (Pos.of_uint_acc d p).
Proof.
  revert p. induction d; intros p; cbn [digits_value Pos.of_uint_acc]; [done|..];
    rewrite <- IHd; f_equal; lia.
Qed.

Lemma digits_value_of_uint d : digits_value 0 d = Z.of_uint d.
Proof.
  unfold Z.of_uint. induction d; cbn [digits_value Pos.of_uint]; [done|exact IHd|..]; apply digits_value_pos.
Qed.

Lemma digits_value_ge x d : (0 ≤ x)%Z → (x ≤ digits_value x d)%Z.
Proof.
  revert x. induction d; intros x Hx; cbn [digits_value]; [done|..];
    (etransitivity; [|apply IHd; lia]); lia.
Qed.

(** What follows a number does not continue it. *)
Definition no_digit (s : string) : bool :=
  match s with String c _ => negb (is_digit c) | EmptyString => true end.

Lemma leadingInt_end x s : no_digit s = true → leadingInt x s = Some (x, s).
Proof. destruct s as [|c s]; [done|]. cbn. by intros ->%negb_true_iff. Qed.

(** One digit. *)
Lemma leadingInt_digit x c s :
  is_digit c = true → (0 ≤ x ≤ two63)%Z → (0 ≤ digit c ≤ 9)%Z →
  leadingInt x (String c s) =
    if bool_decide (x * 10 + digit c ≤ two63)%Z then leadingInt (x * 10 + digit c) s else None.
Proof.
  intros Hc Hx Hd. cbn [leadingInt]. rewrite Hc.
  change (two63 / 10)%Z with 922337203685477580%Z. unfold two63 in *.
  case_bool_decide as Hbig; [by rewrite bool_decide_eq_false_2 by lia|].
  assert (wrapU (x * 10 + digit c) = x * 10 + digit c)%Z as ->.
  { apply Z.mod_small. unfold two64. lia. }
  repeat case_bool_decide; (done || lia).
Qed.

Lemma leadingInt_digits x d s :
  (0 ≤ x ≤ two63)%Z → no_digit s = true →
  leadingInt x (NilEmpty.string_of_uint d +:+ s) =
    if bool_decide (digits_value x d ≤ two63)%Z then Some (digits_value x d, s) else None.
Proof.
  intros Hx Hs. revert x Hx.
  induction d; intros x Hx; cbn [NilEmpty.string_of_uint digits_value];
    [rewrite string_app_nil_l, leadingInt_end by done; by rewrite bool_decide_eq_true_2 by lia|..];
    rewrite string_app_cons;
    rewrite leadingInt_digit by (done || (vm_compute; split; discriminate));
    match goal with |- context [digit ?c] =>
      let v := eval vm_compute in (digit c) in change (digit c) with v end;
    (case_bool_decide;
     [ rewrite ?Z.add_0_r in *; apply IHd; lia
     | rewrite bool_decide_eq_false_2; [done|];
       match goal with |- context [digits_value ?y d] => pose proof (digits_value_ge y d) end; lia ]).
Qed.

Lemma fmt_d_shape n :
  (0 ≤ n)%Z → ∃ d, fmt_d n = NilEmpty.string_of_uint d ∧ d ≠ Decimal.Nil ∧ digits_value 0 d = n.
Proof.
  intros Hn. destruct (to_int_nonnil n) as [Hnil _]. pose proof (DecimalZ.of_to n) as Hof.
  unfold fmt_d. destruct (Z.to_int n) as [d|d] eqn:Hd; [|by destruct n].
  exists d. rewrite digits_value_of_uint. cbn in Hof. repeat split; [|by intros ->|done].
  destruct d; done || by destruct Hnil.
Qed.

Lemma leadingInt_fmt_d n s :
  (0 ≤ n)%Z → no_digit s = true →
  leadingInt 0 (fmt_d n +:+ s) = if bool_decide (n ≤ two63)%Z then Some (n, s) else None.
Proof.
  intros Hn Hs. destruct (fmt_d_shape n Hn) as (d & -> & _ & <-). apply leadingInt_digits; [|done].
  unfold two63. lia.
Qed.

Lemma fmt_d_starts n : (0 ≤ n)%Z → ∃ c w, fmt_d n = String c w ∧ is_digit c = true.
Proof.
  intros Hn. destruct (fmt_d_shape n Hn) as (d & -> & Hd & _). destruct d; try done; by eexists _, _.
Qed.

Lemma starts_number_fmt_d n s : (0 ≤ n)%Z → starts_number (fmt_d n +:+ s) = true.
Proof.
  intros Hn. destruct (fmt_d_starts n Hn) as (c & w & -> & Hc). rewrite string_app_cons. cbn [starts_number].
  by rewrite Hc, orb_true_r.
Qed.

(** *** Units *)

(** No byte of a unit is a point or a digit. *)
Definition unit_bytes (u : string) : bool :=
  forallb (λ c, negb (bool_decide (c = "."%char) || is_digit c)) (chars u).

Lemma lookup_unit_shape u x :
  lookup_unit u = Some x → u ≠ "" ∧ unit_bytes u = true ∧ (0 < x ≤ 3600 * Second)%Z.
Proof.
  unfold lookup_unit. intros H%elem_of_list_to_map_2. unfold unitMap, Second, Millisecond in *.
  repeat (apply elem_of_cons in H as [[= -> ->]|H]; [repeat split; (done || lia)|]). by apply elem_of_nil in H.
Qed.

Lemma leadingUnit_app u s :
  unit_bytes u = true → s = "" ∨ starts_number s = true → leadingUnit (u +:+ s) = (u, s).
Proof.
  intros Hu Hs. induction u as [|c u IH].
  - rewrite string_app_nil_l. destruct s as [|c s]; [done|]. destruct Hs as [|Hs]; [done|]. cbn in *. by rewrite Hs.
  - unfold unit_bytes in *. cbn [chars forallb] in Hu. apply andb_true_iff in Hu as [Hc Hu].
    rewrite string_app_cons. cbn [leadingUnit]. rewrite IH by done. by apply negb_true_iff in Hc as ->.
Qed.

Lemma unit_no_digit u s : u ≠ "" → unit_bytes u = true → no_digit (u +:+ s) = true.
Proof.
  destruct u as [|c u]; [done|]. intros _ Hu. unfold unit_bytes in Hu. cbn [chars forallb] in Hu.
  apply andb_true_iff in Hu as [Hc _]. rewrite negb_orb in Hc. by apply andb_true_iff in Hc as [_ Hc].
Qed.

Lemma unit_no_point u s : u ≠ "" → unit_bytes u = true → ∀ s', u +:+ s ≠ String "." s'.
Proof.
  destruct u as [|c u]; [done|]. intros _ Hu s'. rewrite string_app_cons. intros [= -> _].
  by unfold unit_bytes in Hu.
Qed.

(** *** One component *)

Lemma segment_component p s :
  valid_component p → s = "" ∨ starts_number s = true →
  segment (fmt_d (fst p) +:+ snd p +:+ s) =
    if bool_decide (nanoseconds p ≤ two63)%Z then Some (nanoseconds p, s) else None.
Proof.
  destruct p as [n u]. intros [Hn [x Hx]] Hs. cbn in Hn, Hx. unfold nanoseconds. cbn [fst snd]. rewrite Hx. cbn [default from_option id].
  destruct (lookup_unit_shape u x Hx) as (Hne & Hu & Hpos & _).
  unfold segment. rewrite starts_number_fmt_d, leadingInt_fmt_d by auto using unit_no_digit.
  assert (n ≤ n * x)%Z by nia.
  case_bool_decide as Hle; cbn [mbind option_bind]; [|by rewrite bool_decide_eq_false_2 by lia].
  assert (negb (String.length (fmt_d n +:+ u +:+ s) =? String.length (u +:+ s)) = true) as ->.
  { destruct (fmt_d_starts n Hn) as (c & w & -> & _). rewrite string_length_app.
    apply negb_true_iff, Nat.eqb_neq. cbn [String.length]. lia. }
  assert (∀ X (a : X) (b : string → X), match u +:+ s with String "." s' => b s' | _ => a end = a) as Hpoint.
  { intros X a b. pose proof (unit_no_point u s Hne Hu) as Hp. destruct (u +:+ s) as [|[[] [] [] [] [] [] [] []] s']; try done.
    by destruct (Hp s'). }
  rewrite Hpoint. cbn [negb andb]. rewrite leadingUnit_app by done. rewrite bool_decide_eq_false_2 by done.
  rewrite Hx. cbn [mbind option_bind].
  destruct (decide (n * x ≤ two63)%Z) as [Hok|Hbig].
  - rewrite bool_decide_eq_false_2, (bool_decide_eq_false_2 (0 < 0)%Z), bool_decide_eq_true_2; [|done|lia|].
    + unfold wrapU. rewrite Z.mod_small; [done|]. unfold two63, two64 in *. nia.
    + apply Z.nlt_ge, Z.div_le_lower_bound; lia.
  - rewrite bool_decide_eq_true_2, bool_decide_eq_false_2; [done..|]. apply Z.div_lt_upper_bound; lia.
Qed.

Lemma print_starts l : Forall valid_component l → print l = "" ∨ starts_number (print l) = true.
Proof. intros [|[n u] l' [Hn _] _]; [by left|]. right. by apply starts_number_fmt_d. Qed.

Lemma nanoseconds_nonneg p : valid_component p → (0 ≤ nanoseconds p)%Z.
Proof.
  intros [Hn [x Hx]]. unfold nanoseconds. rewrite Hx. cbn [default from_option id].
  destruct (lookup_unit_shape _ _ Hx) as (_ & _ & ? & _). lia.
Qed.

Lemma total_ns_nonneg l : Forall valid_component l → (0 ≤ total_ns l)%Z.
Proof. induction 1 as [|p l Hp%nanoseconds_nonneg _ IH]; [done|]. change (0 ≤ nanoseconds p + total_ns l)%Z. lia. Qed.

(** As long as the sum does not reach 2^64 it is checked without wrapping. *)
Lemma segments_print fuel d l :
  Forall valid_component l → String.length (print l) ≤ fuel → (0 ≤ d ≤ two63)%Z → (d + total_ns l < two64)%Z →
  segments fuel d (print l) = if bool_decide (d + total_ns l ≤ two63)%Z then Some (d + total_ns l)%Z else None.
Proof.
  intros Hl. revert fuel d. induction Hl as [|[n u] l Hp Hl IH]; intros fuel d Hf Hd Ht; cbn [print total_ns foldr] in *.
  { rewrite Z.add_0_r, bool_decide_eq_true_2 by lia. by destruct fuel. }
  fold (total_ns l) in *. pose proof (total_ns_nonneg l Hl).
  destruct (fmt_d_starts n (proj1 Hp)) as (c & w & Hc & _).
  assert (∃ fuel', fuel = S fuel') as [fuel' ->].
  { rewrite Hc, string_app_cons in Hf. cbn in Hf. destruct fuel; [lia|by eexists]. }
  assert (segments (S fuel') d (fmt_d n +:+ u +:+ print l) =
            '(v, rest) ← segment (fmt_d n +:+ u +:+ print l);
            if bool_decide (two63 < wrapU (d + v))%Z then None else segments fuel' (wrapU (d + v)) rest) as ->.
  { by rewrite Hc, string_app_cons. }
  rewrite (segment_component (n, u)) by auto using print_starts.
  pose proof (nanoseconds_nonneg _ Hp).
  set (v := nanoseconds (n, u)) in *. clearbody v.
  case_bool_decide; cbn [mbind option_bind]; [|by rewrite bool_decide_eq_false_2 by lia].
  assert (wrapU (d + v) = d + v)%Z as -> by (apply Z.mod_small; lia).
  case_bool_decide; [by rewrite bool_decide_eq_false_2 by lia|].
  rewrite IH; [|rewrite Hc, string_app_cons in Hf; cbn in Hf; rewrite !string_length_app in Hf; lia|lia..].
  by rewrite Z.add_assoc.
Qed.

(** *** The length of the string is enough fuel *)

Lemma leadingInt_length x s y r : leadingInt x s = Some (y, r) → String.length r ≤ String.length s.
Proof.
  revert x. induction s as [|c s IH]; intros x; cbn; [by intros [= _ <-]|].
  repeat case_match; try done; [intros Hr%IH; lia|by intros [= _ <-]].
Qed.

Lemma leadingFraction_length x sc o s y sc' r :
  leadingFraction x sc o s = (y, sc', r) → String.length r ≤ String.length s.
Proof.
  revert x sc o. induction s as [|c s IH]; intros x sc o; cbn; [by intros [= _ _ <-]|].
  repeat case_match; first [intros Hr%IH; lia | by intros [= _ _ <-]].
Qed.

Lemma leadingUnit_length s u r : leadingUnit s = (u, r) → String.length u + String.length r = String.length s.
Proof.
  revert u. induction s as [|c s IH]; intros u; cbn; [by intros [= <- <-]|].
  case_match; [by intros [= <- <-]|]. destruct (leadingUnit s) as [u' r'].
  intros [= <- <-]. cbn. by rewrite <- (IH u').
Qed.

Lemma segment_length s v rest : segment s = Some (v, rest) → String.length rest < String.length s.
Proof.
  unfold segment. destruct (starts_number s); [|done].
  destruct (leadingInt 0 s) as [[v0 s1]|] eqn:Hi; cbn [mbind option_bind]; [|done]. apply leadingInt_length in Hi.
  set (r := match s1 with String "." s' => _ | _ => _ end).
  assert (String.length (snd (fst r)) ≤ String.length s1) as Hr.
  { subst r. destruct s1 as [|c s']; [done|].
    destruct (decide (c = "."%char)) as [->|Hne]; [|destruct c as [[] [] [] [] [] [] [] []]; done].
    destruct (leadingFraction _ _ _ s') as [[f sc] s2] eqn:Hf. apply leadingFraction_length in Hf. cbn. lia. }
  destruct r as [[[f sc] s2] post]. cbn [fst snd] in Hr. case_match; [done|].
  destruct (leadingUnit s2) as [u r] eqn:Hu. apply leadingUnit_length in Hu.
  case_bool_decide as Hne; [done|]. destruct (lookup_unit u) as [x|]; cbn [mbind option_bind]; [|done].
  intros Heq. assert (r = rest) as <- by (repeat case_match; by simplify_eq).
  destruct u; [done|]. cbn in Hu. lia.
Qed.

(** More fuel than bytes changes nothing. *)
Lemma segments_fuel fuel d s : String.length s ≤ fuel → segments fuel d s = segments (String.length s) d s.
Proof.
  remember (String.length s) as n eqn:Hn. revert s d fuel Hn.
  induction n as [n IH] using lt_wf_ind. intros s d fuel Hn Hf.
  destruct s as [|c s]; [by destruct fuel, n|].
  destruct fuel as [|fuel]; [cbn in Hn; lia|]. destruct n as [|n]; [done|]. cbn [segments].
  destruct (segment (String c s)) as [[v rest]|] eqn:Hs; cbn [mbind option_bind]; [|done].
  apply segment_length in Hs. case_bool_decide; [done|].
  rewrite (IH (String.length rest) ltac:(lia) rest _ fuel eq_refl ltac:(lia)).
  by rewrite (IH (String.length rest) ltac:(lia) rest _ n eq_refl ltac:(lia)).
Qed.

(** *** Whole durations *)

Lemma print_digit_first l :
  l ≠ [] → Forall valid_component l → ∃ c w, print l = String c w ∧ is_digit c = true ∧ w ≠ "".
Proof.
  destruct l as [|[n u] l']; [done|]. intros _ [[Hn [x Hx]] _]%Forall_cons. cbn in Hn, Hx. cbn [print].
  destruct (fmt_d_starts n Hn) as (c & w & -> & Hc). eexists c, _. split; [by rewrite string_app_cons|]. split; [done|].
  destruct (lookup_unit_shape u x Hx) as [Hu _]. destruct u; [done|].
  by destruct w; rewrite ?string_app_nil_l, string_app_cons.
Qed.

Lemma leadingSign_print sg l :
  l ≠ [] → Forall valid_component l →
  leadingSign (print_sign sg +:+ print l) = (match sg with Minus => true | _ => false end, print l).
Proof.
  intros Hne Hl. destruct sg; [|done..]. rewrite string_app_nil_l.
  destruct (print_digit_first l Hne Hl) as (c & w & -> & Hc & _).
  by destruct c as [[] [] [] [] [] [] [] []].
Qed.

Lemma ParseDuration_print sg l :
  l ≠ [] → Forall valid_component l → (total_ns l < two64)%Z →
  ParseDuration (print_sign sg +:+ print l) =
    if bool_decide (int64 (signed sg (total_ns l))) then Some (signed sg (total_ns l)) else None.
Proof.
  intros Hne Hl Ht. unfold ParseDuration. rewrite leadingSign_print by done.
  destruct (print_digit_first l Hne Hl) as (c & w & Hp & _ & Hw).
  rewrite bool_decide_eq_false_2 by (rewrite Hp; by intros [= _ ->]).
  rewrite bool_decide_eq_false_2 by by rewrite Hp.
  rewrite segments_print by (done || unfold two63; lia). rewrite Z.add_0_l.
  pose proof (total_ns_nonneg l Hl). set (t := total_ns l) in *. clearbody t. unfold int64.
  assert ((t < two63)%Z → wrap64 t = t) as Hwrap by (intros; apply wrap64_id; unfold int64, two63 in *; lia).
  assert ((t ≤ two63)%Z → wrap64 (- wrap64 t) = (- t)%Z) as Hneg.
  { intros Hle. destruct (decide (t = two63)) as [->|]; [done|]. rewrite Hwrap by lia.
    apply wrap64_id. unfold int64, two63 in *. lia. }
  destruct sg; cbn [signed]; repeat case_bool_decide; cbn [mbind option_bind]; rewrite ?Hwrap, ?Hneg by lia;
    repeat case_bool_decide; (done || (unfold two63 in *; lia)).
Qed.

Lemma ParseDuration_range s d : ParseDuration s = Some d → int64 d.
Proof.
  unfold ParseDuration. destruct (leadingSign s) as [neg s']. case_bool_decide.
  { intros [= <-]. done. }
  case_bool_decide; [done|]. destruct (segments _ _ _) as [z|]; cbn [mbind option_bind]; [|done].
  repeat case_match; intros [= <-]; apply wrap64_range || done.
Qed.
