(* ===== verification/Config.v ===== *)
(** * Configuration: the messages of src/conf/rabbitmq.pb.go, their defaults and
    their normalization (defaultRabbitMQConfig, normalizeRabbitMQConfig and the
    enabled-instance filters of src/client.go)

    Pointers of the Go structs are [option]s: a nil entry of the producer or
    consumer list and an absent duration are [None].  The normalizer works in
    place, so its model returns the configuration as it is left behind together
    with the error, also when it stops half-way.  The entries of one list are
    distinct objects (they come from a decoder or a literal). *)

From S2P Require Import Prelude Errors Constants Utils.

(** ** google.golang.org/protobuf/types/known/durationpb

    [AsDuration] takes the pointer: its receiver may be nil.  The law is the
    documented one: [New] builds the message whose [AsDuration] is its argument. *)
Class DurationPB : Type := {
  PbDuration : Type;
  durationpb_New : Z → PbDuration;
  AsDuration : option PbDuration → Z;
  AsDuration_New d : int64 d → AsDuration (Some (durationpb_New d)) = d;
}.

Section config.
Context `{DPB : DurationPB}.

Record Producer : Type := mkProducer {
  p_Enabled : bool;
  p_Exchange : string;
  p_ExchangeType : string;
  p_RoutingKey : string;
  p_MaxRetries : Z;
  p_RetryBackoff : option PbDuration;
  p_PublishTimeout : option PbDuration;
  p_Name : string;
  p_ExchangeDurable : bool;
  p_ExchangeAutoDelete : bool;
  p_MessagePersistent : bool;
}.

Record Consumer : Type := mkConsumer {
  c_Enabled : bool;
  c_Queue : string;
  c_Exchange : string;
  c_RoutingKey : string;
  c_ConsumerTag : string;
  c_MaxConcurrency : Z;
  c_PrefetchCount : Z;
  c_Name : string;
  c_QueueDurable : bool;
  c_QueueAutoDelete : bool;
  c_QueueExclusive : bool;
  c_AutoAck : bool;
}.

Record RabbitMQ : Type := mkRabbitMQ {
  Urls : list string;
  Producers : list (option Producer);
  Consumers : list (option Consumer);
  Username : string;
  Password : string;
  VirtualHost : string;
  DialTimeout : option PbDuration;
  Heartbeat : option PbDuration;
  ChannelPoolSize : Z;
}.

(** Assignments to single fields. *)
Definition set_p_Exchange v p := mkProducer (p_Enabled p) v (p_ExchangeType p) (p_RoutingKey p) (p_MaxRetries p)
  (p_RetryBackoff p) (p_PublishTimeout p) (p_Name p) (p_ExchangeDurable p) (p_ExchangeAutoDelete p) (p_MessagePersistent p).
Definition set_p_ExchangeType v p := mkProducer (p_Enabled p) (p_Exchange p) v (p_RoutingKey p) (p_MaxRetries p)
  (p_RetryBackoff p) (p_PublishTimeout p) (p_Name p) (p_ExchangeDurable p) (p_ExchangeAutoDelete p) (p_MessagePersistent p).
Definition set_p_MaxRetries v p := mkProducer (p_Enabled p) (p_Exchange p) (p_ExchangeType p) (p_RoutingKey p) v
  (p_RetryBackoff p) (p_PublishTimeout p) (p_Name p) (p_ExchangeDurable p) (p_ExchangeAutoDelete p) (p_MessagePersistent p).
Definition set_p_RetryBackoff v p := mkProducer (p_Enabled p) (p_Exchange p) (p_ExchangeType p) (p_RoutingKey p) (p_MaxRetries p)
  v (p_PublishTimeout p) (p_Name p) (p_ExchangeDurable p) (p_ExchangeAutoDelete p) (p_MessagePersistent p).
Definition set_p_PublishTimeout v p := mkProducer (p_Enabled p) (p_Exchange p) (p_ExchangeType p) (p_RoutingKey p) (p_MaxRetries p)
  (p_RetryBackoff p) v (p_Name p) (p_ExchangeDurable p) (p_ExchangeAutoDelete p) (p_MessagePersistent p).

Definition set_c_Queue v c := mkConsumer (c_Enabled c) v (c_Exchange c) (c_RoutingKey c) (c_ConsumerTag c) (c_MaxConcurrency c)
  (c_PrefetchCount c) (c_Name c) (c_QueueDurable c) (c_QueueAutoDelete c) (c_QueueExclusive c) (c_AutoAck c).
Definition set_c_ConsumerTag v c := mkConsumer (c_Enabled c) (c_Queue c) (c_Exchange c) (c_RoutingKey c) v (c_MaxConcurrency c)
  (c_PrefetchCount c) (c_Name c) (c_QueueDurable c) (c_QueueAutoDelete c) (c_QueueExclusive c) (c_AutoAck c).
Definition set_c_MaxConcurrency v c := mkConsumer (c_Enabled c) (c_Queue c) (c_Exchange c) (c_RoutingKey c) (c_ConsumerTag c) v
  (c_PrefetchCount c) (c_Name c) (c_QueueDurable c) (c_QueueAutoDelete c) (c_QueueExclusive c) (c_AutoAck c).
Definition set_c_PrefetchCount v c := mkConsumer (c_Enabled c) (c_Queue c) (c_Exchange c) (c_RoutingKey c) (c_ConsumerTag c) (c_MaxConcurrency c)
  v (c_Name c) (c_QueueDurable c) (c_QueueAutoDelete c) (c_QueueExclusive c) (c_AutoAck c).

Definition set_Urls v r := mkRabbitMQ v (Producers r) (Consumers r) (Username r) (Password r) (VirtualHost r) (DialTimeout r) (Heartbeat r) (ChannelPoolSize r).
Definition set_Producers v r := mkRabbitMQ (Urls r) v (Consumers r) (Username r) (Password r) (VirtualHost r) (DialTimeout r) (Heartbeat r) (ChannelPoolSize r).
Definition set_Consumers v r := mkRabbitMQ (Urls r) (Producers r) v (Username r) (Password r) (VirtualHost r) (DialTimeout r) (Heartbeat r) (ChannelPoolSize r).
Definition set_VirtualHost v r := mkRabbitMQ (Urls r) (Producers r) (Consumers r) (Username r) (Password r) v (DialTimeout r) (Heartbeat r) (ChannelPoolSize r).
Definition set_DialTimeout v r := mkRabbitMQ (Urls r) (Producers r) (Consumers r) (Username r) (Password r) (VirtualHost r) v (Heartbeat r) (ChannelPoolSize r).
Definition set_Heartbeat v r := mkRabbitMQ (Urls r) (Producers r) (Consumers r) (Username r) (Password r) (VirtualHost r) (DialTimeout r) v (ChannelPoolSize r).
Definition set_ChannelPoolSize v r := mkRabbitMQ (Urls r) (Producers r) (Consumers r) (Username r) (Password r) (VirtualHost r) (DialTimeout r) (Heartbeat r) v.

(** ** defaultRabbitMQConfig *)

Definition defaultURL : string := "amqp://localhost:5672/".

Definition defaultRabbitMQConfig : RabbitMQ := {|
  Urls := [defaultURL];
  Producers := [Some {|
    p_Name := "default-producer";
    p_Enabled := true;
    p_Exchange := defaultExchange;
    p_ExchangeType := ExchangeTypeDirect;
    p_RoutingKey := "";
    p_ExchangeDurable := true;
    p_ExchangeAutoDelete := false;
    p_MessagePersistent := false;
    p_PublishTimeout := Some (durationpb_New (3 * Second));
    p_MaxRetries := 3;
    p_RetryBackoff := Some (durationpb_New (100 * Millisecond)) |}];
  Consumers := [Some {|
    c_Name := "default-consumer";
    c_Enabled := true;
    c_Queue := defaultQueue;
    c_Exchange := "";
    c_RoutingKey := "";
    c_QueueDurable := true;
    c_QueueAutoDelete := false;
    c_QueueExclusive := false;
    c_ConsumerTag := defaultConsumer;
    c_MaxConcurrency := 1;
    c_PrefetchCount := 1;
    c_AutoAck := false |}];
  Username := "";
  Password := "";
  VirtualHost := defaultVirtualHost;
  DialTimeout := Some (durationpb_New (3 * Second));
  Heartbeat := Some (durationpb_New (30 * Second));
  ChannelPoolSize := defaultChannelPoolSize;
|}.

(** ** normalizeRabbitMQConfig *)

(** [d == nil || d.AsDuration() <= 0] *)
Definition unset_duration (d : option PbDuration) : bool :=
  match d with None => true | Some _ => bool_decide (AsDuration d ≤ 0)%Z end.

(** The [%q] verb on a byte string; bytes outside ASCII are rendered as the
    escapes [strconv.Quote] uses for bytes that are not valid UTF-8. *)
Definition hex_digit (n : N) : string :=
  String (Ascii.ascii_of_N (if bool_decide (n < 10)%N then 48 + n else 87 + n)) "".

Definition quote_byte (c : Ascii.ascii) : string :=
  let n := Ascii.N_of_ascii c in
  if bool_decide (n = 34)%N || bool_decide (n = 92)%N then "\" +:+ String c ""
  else if bool_decide (n = 7)%N then "\a" else if bool_decide (n = 8)%N then "\b"
  else if bool_decide (n = 9)%N then "\t" else if bool_decide (n = 10)%N then "\n"
  else if bool_decide (n = 11)%N then "\v" else if bool_decide (n = 12)%N then "\f"
  else if bool_decide (n = 13)%N then "\r"
  else if bool_decide (32 ≤ n < 127)%N then String c ""
  else "\x" +:+ hex_digit (n / 16) +:+ hex_digit (n mod 16).

Definition dquote : string := String (Ascii.ascii_of_N 34) "".

Definition fmt_q (s : string) : string :=
  dquote +:+ foldr (λ c acc, quote_byte c +:+ acc) "" (chars s) +:+ dquote.

Definition indexed (what : string) (i : nat) (rest : string) : error :=
  Errorf ("rabbitmq " +:+ what +:+ "[" +:+ fmt_d (Z.of_nat i) +:+ "]" +:+ rest).

Definition valid_exchange_type (t : string) : bool :=
  bool_decide (t ∈ [ExchangeTypeDirect; ExchangeTypeFanout; ExchangeTypeTopic; ExchangeTypeHeaders]).

(** The body of [for i, producer := range cfg.Producers]. *)
Definition normalizeProducer (i : nat) (producer : option Producer) : option Producer * option error :=
  match producer with
  | None => (None, Some (indexed "producers" i " configuration is nil"))
  | Some p =>
      if p_Enabled p && bool_decide (p_Name p = "")
      then (Some p, Some (indexed "producers" i ".name is required when enabled")) else
      let p := if bool_decide (p_Exchange p = "") then set_p_Exchange defaultExchange p else p in
      let p := if bool_decide (p_ExchangeType p = "") then set_p_ExchangeType ExchangeTypeDirect p else p in
      if negb (valid_exchange_type (p_ExchangeType p))
      then (Some p, Some (indexed "producers" i (".exchange_type " +:+ fmt_q (p_ExchangeType p) +:+ " is invalid"))) else
      let p := if unset_duration (p_PublishTimeout p) then set_p_PublishTimeout (Some (durationpb_New (3 * Second))) p else p in
      if bool_decide (p_MaxRetries p < 0)%Z
      then (Some p, Some (indexed "producers" i ".max_retries must be non-negative")) else
      let p := if bool_decide (p_MaxRetries p = 0)%Z then set_p_MaxRetries defaultMaxRetries p else p in
      let p := if unset_duration (p_RetryBackoff p) then set_p_RetryBackoff (Some (durationpb_New (100 * Millisecond))) p else p in
      (Some p, None)
  end.

(** The body of [for i, consumer := range cfg.Consumers]. *)
Definition normalizeConsumer (i : nat) (consumer : option Consumer) : option Consumer * option error :=
  match consumer with
  | None => (None, Some (indexed "consumers" i " configuration is nil"))
  | Some c =>
      if c_Enabled c && bool_decide (c_Name c = "")
      then (Some c, Some (indexed "consumers" i ".name is required when enabled")) else
      let c := if bool_decide (c_Queue c = "") then set_c_Queue defaultQueue c else c in
      let c := if bool_decide (c_ConsumerTag c = "") then set_c_ConsumerTag defaultConsumer c else c in
      let c := if bool_decide (c_MaxConcurrency c ≤ 0)%Z then set_c_MaxConcurrency defaultMaxConcurrency c else c in
      let c := if bool_decide (c_PrefetchCount c ≤ 0)%Z then set_c_PrefetchCount defaultPrefetchCount c else c in
      (Some c, None)
  end.

(** A range loop that updates entries in place and returns at the first error;
    the entries after it are left as they were. *)
Fixpoint normalize_entries {A} (body : nat → option A → option A * option error)
    (i : nat) (l : list (option A)) : list (option A) * option error :=
  match l with
  | [] => ([], None)
  | x :: l' =>
      match body i x with
      | (x', Some e) => (x' :: l', Some e)
      | (x', None) => let '(l'', err) := normalize_entries body (S i) l' in (x' :: l'', err)
      end
  end.

Fixpoint first_empty_url (i : nat) (urls : list string) : option nat :=
  match urls with
  | [] => None
  | url :: urls' => if bool_decide (url = "") then Some i else first_empty_url (S i) urls'
  end.

Definition normalizeRabbitMQConfig (cfg : option RabbitMQ) : option RabbitMQ * option error :=
  match cfg with
  | None => (None, Some (Errorf "rabbitmq configuration is required"))
  | Some cfg =>
      let cfg := if bool_decide (Urls cfg = []) then set_Urls [defaultURL] cfg else cfg in
      match first_empty_url 0 (Urls cfg) with
      | Some i => (Some cfg, Some (indexed "urls" i " must not be empty"))
      | None =>
          let cfg := if bool_decide (VirtualHost cfg = "") then set_VirtualHost defaultVirtualHost cfg else cfg in
          let cfg := if unset_duration (DialTimeout cfg) then set_DialTimeout (Some (durationpb_New (3 * Second))) cfg else cfg in
          let cfg := if unset_duration (Heartbeat cfg) then set_Heartbeat (Some (durationpb_New (30 * Second))) cfg else cfg in
          let cfg := if bool_decide (ChannelPoolSize cfg ≤ 0)%Z then set_ChannelPoolSize defaultChannelPoolSize cfg else cfg in
          let '(ps, err) := normalize_entries normalizeProducer 0 (Producers cfg) in
          let cfg := set_Producers ps cfg in
          match err with
          | Some e => (Some cfg, Some e)
          | None =>
              let '(cs, err) := normalize_entries normalizeConsumer 0 (Consumers cfg) in
              (Some (set_Consumers cs cfg), err)
          end
      end
  end.

(** ** The enabled instances; ranging over a nil entry panics *)

Fixpoint enabled_entries {A} (enabled : A → bool) (l : list (option A)) : outcome (list A) :=
  match l with
  | [] => Done []
  | None :: _ => Panicked
  | Some x :: l' =>
      match enabled_entries enabled l' with
      | Done r => Done (if enabled x then x :: r else r)
      | o => o
      end
  end.

Definition GetEnabledProducers (cfg : RabbitMQ) : outcome (list Producer) :=
  enabled_entries p_Enabled (Producers cfg).

Definition GetEnabledConsumers (cfg : RabbitMQ) : outcome (list Consumer) :=
  enabled_entries c_Enabled (Consumers cfg).

(** ** Specification: which configurations are accepted, and what they become *)

Definition acceptable_producer (p : option Producer) : bool :=
  match p with
  | None => false
  | Some p =>
      negb (p_Enabled p && bool_decide (p_Name p = "")) &&
      (bool_decide (p_ExchangeType p = "") || valid_exchange_type (p_ExchangeType p)) &&
      bool_decide (0 ≤ p_MaxRetries p)%Z
  end.

Definition acceptable_consumer (c : option Consumer) : bool :=
  match c with
  | None => false
  | Some c => negb (c_Enabled c && bool_decide (c_Name c = ""))
  end.

Definition acceptable (cfg : RabbitMQ) : bool :=
  forallb (λ u, bool_decide (u ≠ "")) (Urls cfg) &&
  forallb acceptable_producer (Producers cfg) &&
  forallb acceptable_consumer (Consumers cfg).

Definition fill_duration (d : option PbDuration) (dflt : Z) : option PbDuration :=
  if unset_duration d then Some (durationpb_New dflt) else d.

Definition fill_int (z dflt : Z) : Z := if bool_decide (z ≤ 0)%Z then dflt else z.

Definition fill_producer (p : Producer) : Producer := {|
  p_Enabled := p_Enabled p;
  p_Exchange := or_default (p_Exchange p) defaultExchange;
  p_ExchangeType := or_default (p_ExchangeType p) ExchangeTypeDirect;
  p_RoutingKey := p_RoutingKey p;
  p_MaxRetries := fill_int (p_MaxRetries p) defaultMaxRetries;
  p_RetryBackoff := fill_duration (p_RetryBackoff p) (100 * Millisecond);
  p_PublishTimeout := fill_duration (p_PublishTimeout p) (3 * Second);
  p_Name := p_Name p;
  p_ExchangeDurable := p_ExchangeDurable p;
  p_ExchangeAutoDelete := p_ExchangeAutoDelete p;
  p_MessagePersistent := p_MessagePersistent p;
|}.

Definition fill_consumer (c : Consumer) : Consumer := {|
  c_Enabled := c_Enabled c;
  c_Queue := or_default (c_Queue c) defaultQueue;
  c_Exchange := c_Exchange c;
  c_RoutingKey := c_RoutingKey c;
  c_ConsumerTag := or_default (c_ConsumerTag c) defaultConsumer;
  c_MaxConcurrency := fill_int (c_MaxConcurrency c) defaultMaxConcurrency;
  c_PrefetchCount := fill_int (c_PrefetchCount c) defaultPrefetchCount;
  c_Name := c_Name c;
  c_QueueDurable := c_QueueDurable c;
  c_QueueAutoDelete := c_QueueAutoDelete c;
  c_QueueExclusive := c_QueueExclusive c;
  c_AutoAck := c_AutoAck c;
|}.

Definition fill_urls (urls : list string) : list string :=
  if bool_decide (urls = []) then [defaultURL] else urls.

Definition fill (cfg : RabbitMQ) : RabbitMQ := {|
  Urls := fill_urls (Urls cfg);
  Producers := map (option_map fill_producer) (Producers cfg);
  Consumers := map (option_map fill_consumer) (Consumers cfg);
  Username := Username cfg;
  Password := Password cfg;
  VirtualHost := or_default (VirtualHost cfg) defaultVirtualHost;
  DialTimeout := fill_duration (DialTimeout cfg) (3 * Second);
  Heartbeat := fill_duration (Heartbeat cfg) (30 * Second);
  ChannelPoolSize := fill_int (ChannelPoolSize cfg) defaultChannelPoolSize;
|}.

(** A duration that is present and positive. *)
Definition positive_duration (d : option PbDuration) : Prop := is_Some d ∧ (0 < AsDuration d)%Z.

(** What the rest of the plugin relies on after a successful normalization. *)
Record wf_producer (p : Producer) : Prop := {
  wf_p_name : p_Enabled p = true → p_Name p ≠ "";
  wf_p_exchange : p_Exchange p ≠ "";
  wf_p_type : validateExchangeType (p_ExchangeType p) = None;
  wf_p_retries : (0 < p_MaxRetries p)%Z;
  wf_p_backoff : positive_duration (p_RetryBackoff p);
  wf_p_timeout : positive_duration (p_PublishTimeout p);
}.

Record wf_consumer (c : Consumer) : Prop := {
  wf_c_name : c_Enabled c = true → c_Name c ≠ "";
  wf_c_queue : c_Queue c ≠ "";
  wf_c_tag : c_ConsumerTag c ≠ "";
  wf_c_concurrency : (0 < c_MaxConcurrency c)%Z;
  wf_c_prefetch : (0 < c_PrefetchCount c)%Z;
}.

Record wf_config (cfg : RabbitMQ) : Prop := {
  wf_urls : Urls cfg ≠ [] ∧ Forall (λ u, u ≠ "") (Urls cfg);
  wf_vhost : VirtualHost cfg ≠ "";
  wf_dial : positive_duration (DialTimeout cfg);
  wf_heartbeat : positive_duration (Heartbeat cfg);
  wf_pool : (0 < ChannelPoolSize cfg)%Z;
  wf_producers : Forall (λ o, ∃ p, o = Some p ∧ wf_producer p) (Producers cfg);
  wf_consumers : Forall (λ o, ∃ c, o = Some c ∧ wf_consumer c) (Consumers cfg);
}.

(** ** Lemmas *)

Lemma or_default_ne s d : d ≠ "" → or_default s d ≠ "".
Proof. unfold or_default. by case_bool_decide. Qed.

Lemma fill_int_pos z d : (0 < d)%Z → (0 < fill_int z d)%Z.
Proof. unfold fill_int. case_bool_decide; lia. Qed.

Lemma fill_duration_pos d dflt : (0 < dflt < two63)%Z → positive_duration (fill_duration d dflt).
Proof.
  intros Hd. unfold fill_duration, positive_duration.
  destruct (unset_duration d) eqn:Hu.
  - split; [by eexists|]. rewrite AsDuration_New; unfold int64; lia.
  - destruct d as [x|]; [|done]. cbn in Hu.
    apply bool_decide_eq_false in Hu. split; [by eexists|]. lia.
Qed.

Lemma or_default_id s d : s ≠ "" → or_default s d = s.
Proof. unfold or_default. by case_bool_decide. Qed.

Lemma fill_int_id z d : (0 < z)%Z → fill_int z d = z.
Proof. unfold fill_int. case_bool_decide; lia. Qed.

Lemma fill_duration_id d dflt : positive_duration d → fill_duration d dflt = d.
Proof.
  intros [[x ->] Hpos]. unfold fill_duration. cbn. by rewrite bool_decide_eq_false_2 by lia.
Qed.

(** Goals left by a filled field. *)
Ltac solve_fill :=
  first [ apply or_default_ne; discriminate
        | apply fill_int_pos; reflexivity
        | apply fill_duration_pos; unfold Second, Millisecond, two63; lia ].

(** Each guarded assignment of the loops is the unconditional assignment of the
    filled value. *)
Lemma assign_Exchange p d :
  (if bool_decide (p_Exchange p = "") then set_p_Exchange d p else p) = set_p_Exchange (or_default (p_Exchange p) d) p.
Proof. destruct p; unfold or_default; cbn; by case_bool_decide. Qed.

Lemma assign_ExchangeType p d :
  (if bool_decide (p_ExchangeType p = "") then set_p_ExchangeType d p else p) = set_p_ExchangeType (or_default (p_ExchangeType p) d) p.
Proof. destruct p; unfold or_default; cbn; by case_bool_decide. Qed.

Lemma assign_PublishTimeout p d :
  (if unset_duration (p_PublishTimeout p) then set_p_PublishTimeout (Some (durationpb_New d)) p else p)
  = set_p_PublishTimeout (fill_duration (p_PublishTimeout p) d) p.
Proof. destruct p; unfold fill_duration; cbn; by case_match. Qed.

Lemma assign_RetryBackoff p d :
  (if unset_duration (p_RetryBackoff p) then set_p_RetryBackoff (Some (durationpb_New d)) p else p)
  = set_p_RetryBackoff (fill_duration (p_RetryBackoff p) d) p.
Proof. destruct p; unfold fill_duration; cbn; by case_match. Qed.

Lemma assign_MaxRetries p z d :
  p_MaxRetries p = z → (0 ≤ z)%Z →
  (if bool_decide (z = 0)%Z then set_p_MaxRetries d p else p) = set_p_MaxRetries (fill_int z d) p.
Proof. destruct p; unfold fill_int; cbn; intros -> ?. repeat case_bool_decide; (done || lia). Qed.

Lemma assign_Queue c d :
  (if bool_decide (c_Queue c = "") then set_c_Queue d c else c) = set_c_Queue (or_default (c_Queue c) d) c.
Proof. destruct c; unfold or_default; cbn; by case_bool_decide. Qed.

Lemma assign_ConsumerTag c d :
  (if bool_decide (c_ConsumerTag c = "") then set_c_ConsumerTag d c else c) = set_c_ConsumerTag (or_default (c_ConsumerTag c) d) c.
Proof. destruct c; unfold or_default; cbn; by case_bool_decide. Qed.

Lemma assign_MaxConcurrency c d :
  (if bool_decide (c_MaxConcurrency c ≤ 0)%Z then set_c_MaxConcurrency d c else c) = set_c_MaxConcurrency (fill_int (c_MaxConcurrency c) d) c.
Proof. destruct c; unfold fill_int; cbn; by case_bool_decide. Qed.

Lemma assign_PrefetchCount c d :
  (if bool_decide (c_PrefetchCount c ≤ 0)%Z then set_c_PrefetchCount d c else c) = set_c_PrefetchCount (fill_int (c_PrefetchCount c) d) c.
Proof. destruct c; unfold fill_int; cbn; by case_bool_decide. Qed.

Lemma assign_Urls r d :
  (if bool_decide (Urls r = []) then set_Urls d r else r) = set_Urls (if bool_decide (Urls r = []) then d else Urls r) r.
Proof. destruct r; cbn; by case_bool_decide. Qed.

Lemma assign_VirtualHost r d :
  (if bool_decide (VirtualHost r = "") then set_VirtualHost d r else r) = set_VirtualHost (or_default (VirtualHost r) d) r.
Proof. destruct r; unfold or_default; cbn; by case_bool_decide. Qed.

Lemma assign_DialTimeout r d :
  (if unset_duration (DialTimeout r) then set_DialTimeout (Some (durationpb_New d)) r else r)
  = set_DialTimeout (fill_duration (DialTimeout r) d) r.
Proof. destruct r; unfold fill_duration; cbn; by case_match. Qed.

Lemma assign_Heartbeat r d :
  (if unset_duration (Heartbeat r) then set_Heartbeat (Some (durationpb_New d)) r else r)
  = set_Heartbeat (fill_duration (Heartbeat r) d) r.
Proof. destruct r; unfold fill_duration; cbn; by case_match. Qed.

Lemma assign_ChannelPoolSize r d :
  (if bool_decide (ChannelPoolSize r ≤ 0)%Z then set_ChannelPoolSize d r else r) = set_ChannelPoolSize (fill_int (ChannelPoolSize r) d) r.
Proof. destruct r; unfold fill_int; cbn; by case_bool_decide. Qed.

Lemma filled_type_valid t :
  valid_exchange_type (or_default t ExchangeTypeDirect) = bool_decide (t = "") || valid_exchange_type t.
Proof. unfold or_default. by case_bool_decide; subst. Qed.

(** The producer loop body in terms of the filled values. *)
Lemma normalizeProducer_unfold i p :
  normalizeProducer i (Some p) =
    if p_Enabled p && bool_decide (p_Name p = "")
    then (Some p, Some (indexed "producers" i ".name is required when enabled"))
    else if negb (bool_decide (p_ExchangeType p = "") || valid_exchange_type (p_ExchangeType p))
    then (Some (set_p_ExchangeType (or_default (p_ExchangeType p) ExchangeTypeDirect)
                  (set_p_Exchange (or_default (p_Exchange p) defaultExchange) p)),
          Some (indexed "producers" i (".exchange_type " +:+ fmt_q (or_default (p_ExchangeType p) ExchangeTypeDirect) +:+ " is invalid")))
    else if bool_decide (p_MaxRetries p < 0)%Z
    then (Some (set_p_PublishTimeout (fill_duration (p_PublishTimeout p) (3 * Second))
                 (set_p_ExchangeType (or_default (p_ExchangeType p) ExchangeTypeDirect)
                  (set_p_Exchange (or_default (p_Exchange p) defaultExchange) p))),
          Some (indexed "producers" i ".max_retries must be non-negative"))
    else (Some (fill_producer p), None).
Proof.
  unfold normalizeProducer. rewrite assign_Exchange. cbn zeta.
  destruct (p_Enabled p && _); [done|].
  rewrite assign_ExchangeType.
  change (p_ExchangeType (set_p_ExchangeType ?v ?q)) with v.
  change (p_ExchangeType (set_p_Exchange ?v ?q)) with (p_ExchangeType q).
  rewrite filled_type_valid. destruct (negb _); [done|].
  rewrite assign_PublishTimeout. cbn [p_MaxRetries set_p_PublishTimeout set_p_ExchangeType set_p_Exchange].
  case_bool_decide; [done|].
  rewrite assign_MaxRetries by (done || lia). rewrite assign_RetryBackoff.
  by destruct p.
Qed.

Lemma normalizeProducer_ok i p :
  acceptable_producer p = true → normalizeProducer i p = (option_map fill_producer p, None).
Proof.
  destruct p as [p|]; [|done]. cbn [acceptable_producer]. rewrite normalizeProducer_unfold.
  rewrite !andb_true_iff, negb_true_iff, bool_decide_eq_true.
  intros [[-> ->] Hmr]. cbn. by rewrite bool_decide_eq_false_2 by lia.
Qed.

Lemma normalizeProducer_err i p :
  acceptable_producer p = false →
  ∃ p' msg, normalizeProducer i p = (p', Some (indexed "producers" i msg)).
Proof.
  destruct p as [p|]; [|by cbn; eauto]. cbn [acceptable_producer]. rewrite normalizeProducer_unfold.
  destruct (p_Enabled p && _); [by eauto|].
  destruct (_ || valid_exchange_type _); [|by cbn; eauto].
  cbn. rewrite bool_decide_eq_false. intros. rewrite bool_decide_eq_true_2 by lia. eauto.
Qed.

Lemma normalizeConsumer_ok i c :
  acceptable_consumer c = true → normalizeConsumer i c = (option_map fill_consumer c, None).
Proof.
  destruct c as [c|]; [|done]. cbn [acceptable_consumer]. rewrite negb_true_iff.
  unfold normalizeConsumer. intros ->.
  rewrite assign_Queue, assign_ConsumerTag, assign_MaxConcurrency, assign_PrefetchCount.
  by destruct c.
Qed.

Lemma normalizeConsumer_err i c :
  acceptable_consumer c = false →
  ∃ msg, normalizeConsumer i c = (c, Some (indexed "consumers" i msg)).
Proof.
  destruct c as [c|]; [|by cbn; eauto]. cbn [acceptable_consumer]. rewrite negb_false_iff.
  unfold normalizeConsumer. intros ->. eauto.
Qed.

(** The loop over entries, for any body that fills acceptable entries and
    reports the index of the others. *)
Section entries.
Context {A : Type} (body : nat → option A → option A * option error).
Context (acc : option A → bool) (fill_entry : A → A) (what : string).
Hypothesis body_ok : ∀ i x, acc x = true → body i x = (option_map fill_entry x, None).
Hypothesis body_err : ∀ i x, acc x = false → ∃ x' msg, body i x = (x', Some (indexed what i msg)).

Lemma normalize_entries_ok i l :
  forallb acc l = true → normalize_entries body i l = (map (option_map fill_entry) l, None).
Proof.
  revert i. induction l as [|x l IH]; intros i; [done|].
  cbn. rewrite andb_true_iff. intros [Hx Hl]. by rewrite (body_ok i x Hx), (IH (S i) Hl).
Qed.

Lemma normalize_entries_err i l :
  forallb acc l = false →
  ∃ pre x post x' msg, l = pre ++ x :: post ∧ forallb acc pre = true ∧ acc x = false ∧
    normalize_entries body i l =
      (map (option_map fill_entry) pre ++ x' :: post, Some (indexed what (i + length pre) msg)).
Proof.
  revert i. induction l as [|x l IH]; intros i; [done|].
  cbn. destruct (acc x) eqn:Hx; cbn.
  - intros Hl. destruct (IH (S i) Hl) as (pre & y & post & y' & msg & -> & Hpre & Hy & Hrun).
    exists (x :: pre), y, post, y', msg. rewrite (body_ok i x Hx), Hrun. cbn. rewrite Hx, Hpre.
    by replace (i + S (length pre)) with (S (i + length pre)) by lia.
  - intros _. destruct (body_err i x Hx) as (x' & msg & Hb).
    exists [], x, l, x', msg. rewrite Hb. cbn. by rewrite Nat.add_0_r.
Qed.
End entries.

Lemma normalizeConsumer_err' i c :
  acceptable_consumer c = false → ∃ c' msg, normalizeConsumer i c = (c', Some (indexed "consumers" i msg)).
Proof. intros H. destruct (normalizeConsumer_err i c H) as [msg ?]. eauto. Qed.

Lemma first_empty_url_None i urls :
  first_empty_url i urls = None ↔ forallb (λ u, bool_decide (u ≠ "")) urls = true.
Proof.
  revert i. induction urls as [|u urls IH]; intros i; [done|].
  cbn. rewrite andb_true_iff, <- (IH (S i)). repeat case_bool_decide; naive_solver.
Qed.

Lemma fill_urls_ok urls :
  forallb (λ u, bool_decide (u ≠ "")) (fill_urls urls) = forallb (λ u, bool_decide (u ≠ "")) urls.
Proof. unfold fill_urls. by case_bool_decide; subst. Qed.

(** The configuration as it stands after the scalar fields were filled. *)
Definition fill_scalars (cfg : RabbitMQ) : RabbitMQ :=
  set_Producers (Producers cfg) (set_Consumers (Consumers cfg) (fill cfg)).

Lemma normalize_unfold cfg :
  forallb (λ u, bool_decide (u ≠ "")) (Urls cfg) = true →
  normalizeRabbitMQConfig (Some cfg) =
    let '(ps, err) := normalize_entries normalizeProducer 0 (Producers cfg) in
    match err with
    | Some e => (Some (set_Producers ps (fill_scalars cfg)), Some e)
    | None =>
        let '(cs, err) := normalize_entries normalizeConsumer 0 (Consumers cfg) in
        (Some (set_Consumers cs (set_Producers ps (fill_scalars cfg))), err)
    end.
Proof.
  intros Hurls. unfold normalizeRabbitMQConfig. rewrite assign_Urls.
  change (Urls (set_Urls ?v ?r)) with v. fold (fill_urls (Urls cfg)).
  rewrite (proj2 (first_empty_url_None 0 (fill_urls (Urls cfg)))) by by rewrite fill_urls_ok.
  rewrite assign_VirtualHost, assign_DialTimeout, assign_Heartbeat, assign_ChannelPoolSize.
  by destruct cfg.
Qed.

Lemma normalize_acceptable cfg :
  acceptable cfg = true → normalizeRabbitMQConfig (Some cfg) = (Some (fill cfg), None).
Proof.
  unfold acceptable. rewrite !andb_true_iff. intros [[Hu Hp] Hc].
  rewrite (normalize_unfold _ Hu).
  rewrite (normalize_entries_ok _ acceptable_producer fill_producer normalizeProducer_ok) by done.
  rewrite (normalize_entries_ok _ acceptable_consumer fill_consumer normalizeConsumer_ok) by done.
  by destruct cfg.
Qed.

Lemma normalize_unacceptable cfg :
  acceptable cfg = false → is_Some (snd (normalizeRabbitMQConfig (Some cfg))).
Proof.
  unfold acceptable.
  destruct (forallb _ (Urls cfg)) eqn:Hu; cbn [andb].
  2: { intros _. unfold normalizeRabbitMQConfig. rewrite assign_Urls.
    change (Urls (set_Urls ?v ?r)) with v. fold (fill_urls (Urls cfg)).
    destruct (first_empty_url 0 (fill_urls (Urls cfg))) eqn:Hf; [by eexists|].
    apply first_empty_url_None in Hf. rewrite fill_urls_ok in Hf. congruence. }
  rewrite (normalize_unfold _ Hu). destruct (forallb acceptable_producer _) eqn:Hp; cbn [andb].
  - rewrite (normalize_entries_ok _ acceptable_producer fill_producer normalizeProducer_ok) by done.
    intros Hc. destruct (normalize_entries_err _ _ _ _ normalizeConsumer_ok normalizeConsumer_err' 0 _ Hc)
      as (?&?&?&?&?&?&?&?&->). by eexists.
  - intros _. destruct (normalize_entries_err _ _ _ _ normalizeProducer_ok normalizeProducer_err 0 _ Hp)
      as (?&?&?&?&?&?&?&?&->). by eexists.
Qed.

Lemma valid_exchange_type_ok t : valid_exchange_type t = true → validateExchangeType t = None.
Proof. unfold valid_exchange_type, validateExchangeType. by intros ->. Qed.

Lemma wf_fill_producer p : acceptable_producer (Some p) = true → wf_producer (fill_producer p).
Proof.
  cbn. rewrite !andb_true_iff, negb_true_iff. intros [[Hn Ht] _].
  split; cbn -[Z.mul]; try solve_fill.
  - intros He Hnil. by rewrite He, Hnil in Hn.
  - apply valid_exchange_type_ok. by rewrite filled_type_valid.
Qed.

Lemma wf_fill_consumer c : acceptable_consumer (Some c) = true → wf_consumer (fill_consumer c).
Proof.
  cbn. rewrite negb_true_iff. intros Hn.
  split; cbn; try solve_fill. intros He Hnil. by rewrite He, Hnil in Hn.
Qed.

Lemma forallb_fill {A} (acc : option A → bool) (f : A → A) (P : A → Prop) l :
  acc None = false → (∀ x, acc (Some x) = true → P (f x)) → forallb acc l = true →
  Forall (λ o, ∃ x, o = Some x ∧ P x) (map (option_map f) l).
Proof.
  intros Hnone Hf. induction l as [|[x|] l IH]; cbn; [constructor| |by rewrite Hnone].
  rewrite andb_true_iff. intros [Hx Hl]. constructor; eauto.
Qed.

Lemma fill_urls_wf urls :
  forallb (λ u, bool_decide (u ≠ "")) urls = true → fill_urls urls ≠ [] ∧ Forall (λ u, u ≠ "") (fill_urls urls).
Proof.
  rewrite <- fill_urls_ok. intros H. split.
  - unfold fill_urls. by case_bool_decide.
  - apply Forall_forall. intros u Hin. rewrite forallb_forall in H.
    apply list_elem_of_In in Hin. specialize (H u Hin). by apply bool_decide_eq_true in H.
Qed.

Lemma wf_fill cfg : acceptable cfg = true → wf_config (fill cfg).
Proof.
  unfold acceptable. rewrite !andb_true_iff. intros [[Hu Hp] Hc].
  split; cbn -[Z.mul]; try solve_fill.
  - by apply fill_urls_wf.
  - by apply (forallb_fill _ _ _ _ eq_refl wf_fill_producer).
  - by apply (forallb_fill _ _ _ _ eq_refl wf_fill_consumer).
Qed.

Lemma wf_producer_fixed p : wf_producer p → acceptable_producer (Some p) = true ∧ fill_producer p = p.
Proof.
  intros [Hn He Ht Hr Hb Hto]. unfold validateExchangeType in Ht. split.
  - cbn. rewrite !andb_true_iff, negb_true_iff, orb_true_iff, !bool_decide_eq_true. repeat split; [| |lia].
    + destruct (p_Enabled p); [|done]. by rewrite bool_decide_eq_false_2 by auto.
    + right. unfold valid_exchange_type. by case_bool_decide.
  - destruct p. unfold fill_producer. cbn in *.
    assert (p_ExchangeType0 ≠ "") by (intros ->; by cbn in Ht).
    by rewrite !or_default_id, fill_int_id, !fill_duration_id.
Qed.

Lemma wf_consumer_fixed c : wf_consumer c → acceptable_consumer (Some c) = true ∧ fill_consumer c = c.
Proof.
  intros [Hn Hq Ht Hm Hp]. split.
  - cbn. rewrite negb_true_iff. destruct (c_Enabled c); [|done]. by rewrite bool_decide_eq_false_2 by auto.
  - destruct c. unfold fill_consumer. cbn in *. by rewrite !or_default_id, !fill_int_id.
Qed.

Lemma wf_entries_fixed {A} (acc : option A → bool) (f : A → A) (P : A → Prop) l :
  (∀ x, P x → acc (Some x) = true ∧ f x = x) →
  Forall (λ o, ∃ x, o = Some x ∧ P x) l →
  forallb acc l = true ∧ map (option_map f) l = l.
Proof.
  intros Hf. induction 1 as [|o l (x & -> & Hx) _ [IH1 IH2]]; [done|].
  destruct (Hf x Hx) as [Ha He]. cbn. by rewrite Ha, IH1, He, IH2.
Qed.

Lemma wf_config_fixed cfg : wf_config cfg → acceptable cfg = true ∧ fill cfg = cfg.
Proof.
  intros [[Hu0 Hu] Hv Hd Hh Hp HP HC].
  destruct (wf_entries_fixed acceptable_producer _ _ _ wf_producer_fixed HP) as [HP1 HP2].
  destruct (wf_entries_fixed acceptable_consumer _ _ _ wf_consumer_fixed HC) as [HC1 HC2].
  split.
  - unfold acceptable. rewrite HP1, HC1, !andb_true_r. apply forallb_forall. intros u Hin.
    apply bool_decide_eq_true. rewrite Forall_forall in Hu. by apply Hu, list_elem_of_In.
  - destruct cfg. unfold fill. cbn in *. unfold fill_urls. rewrite bool_decide_eq_false_2 by done.
    by rewrite HP2, HC2, or_default_id, !fill_duration_id, fill_int_id.
Qed.

(** ** Properties *)

(** C30: normalization succeeds exactly on the acceptable configurations (no
    empty URL, no nil entry, a name on every enabled instance, a known or absent
    exchange type, no negative retry count), and then computes the pointwise
    filling of defaults: every field that was set is kept, every unset field
    gets its documented default. *)
Theorem normalize_computes_fill cfg :
  (acceptable cfg = true → normalizeRabbitMQConfig (Some cfg) = (Some (fill cfg), None)) ∧
  (acceptable cfg = false → is_Some (snd (normalizeRabbitMQConfig (Some cfg)))).
Proof. split; [apply normalize_acceptable | apply normalize_unacceptable]. Qed.

(** C31: a configuration that normalization accepts is well formed afterwards:
    there is a URL and none is empty, durations are present and positive, the
    pool size, prefetch counts, concurrency and retry counts are positive,
    exchange types are valid, and enabled instances are named. *)
Theorem normalize_establishes_wf cfg cfg' :
  normalizeRabbitMQConfig (Some cfg) = (Some cfg', None) → wf_config cfg'.
Proof.
  intros H. destruct (acceptable cfg) eqn:Ha.
  - rewrite normalize_acceptable in H by done. simplify_eq. by apply wf_fill.
  - apply normalize_unacceptable in Ha as [e He]. by rewrite H in He.
Qed.

(** Normalization is idempotent: what it accepted it accepts again and
    leaves unchanged. *)
Theorem normalize_idempotent cfg cfg' :
  normalizeRabbitMQConfig (Some cfg) = (Some cfg', None) →
  normalizeRabbitMQConfig (Some cfg') = (Some cfg', None).
Proof.
  intros H. destruct (acceptable cfg) eqn:Ha.
  2: { apply normalize_unacceptable in Ha as [e He]. by rewrite H in He. }
  rewrite normalize_acceptable in H by done. simplify_eq.
  destruct (wf_config_fixed _ (wf_fill _ Ha)) as [H1 H2].
  rewrite normalize_acceptable by done. by rewrite H2.
Qed.

(** When a producer entry is at fault, the error names the first offending
    index, the entries before it are already filled, and the entries after it
    and all consumers are untouched. *)
Theorem normalize_reports_first_bad_producer cfg :
  forallb (λ u, bool_decide (u ≠ "")) (Urls cfg) = true →
  forallb acceptable_producer (Producers cfg) = false →
  ∃ pre bad post bad' msg cfg',
    Producers cfg = pre ++ bad :: post ∧
    forallb acceptable_producer pre = true ∧ acceptable_producer bad = false ∧
    normalizeRabbitMQConfig (Some cfg) = (Some cfg', Some (indexed "producers" (length pre) msg)) ∧
    Producers cfg' = map (option_map fill_producer) pre ++ bad' :: post ∧
    Consumers cfg' = Consumers cfg.
Proof.
  intros Hu Hp.
  destruct (normalize_entries_err _ _ _ _ normalizeProducer_ok normalizeProducer_err 0 _ Hp)
    as (pre & bad & post & bad' & msg & Heq & Hpre & Hbad & Hrun).
  exists pre, bad, post, bad', msg,
    (set_Producers (map (option_map fill_producer) pre ++ bad' :: post) (fill_scalars cfg)).
  by rewrite (normalize_unfold _ Hu), Hrun.
Qed.

(** The built-in default configuration is itself acceptable and a fixed
    point of normalization. *)
Theorem default_config_normal :
  normalizeRabbitMQConfig (Some defaultRabbitMQConfig) = (Some defaultRabbitMQConfig, None).
Proof.
  rewrite normalize_acceptable by (vm_compute; reflexivity). do 2 f_equal.
  unfold fill, defaultRabbitMQConfig. cbn -[Z.mul fill_duration].
  unfold fill_producer. cbn -[Z.mul fill_duration].
  rewrite !fill_duration_id; [done|..];
    (split; [by eexists|]; rewrite AsDuration_New; unfold int64, Second, Millisecond, two63; lia).
Qed.

End config.

(** ** A concrete duration message: seconds and nanoseconds as in the wire format *)

Definition pb_new (d : Z) : Z * Z := (d `quot` Second, d `rem` Second)%Z.

Definition pb_as_duration (d : option (Z * Z)) : Z :=
  match d with
  | None => 0
  | Some (secs, nanos) => Z.max (- two63) (Z.min (two63 - 1) (secs * Second + nanos))
  end.

Lemma pb_roundtrip d : int64 d → pb_as_duration (Some (pb_new d)) = d.
Proof.
  unfold int64, pb_as_duration, pb_new. intros H.
  pose proof (Z.quot_rem' d Second). lia.
Qed.

Definition secs_nanos : DurationPB :=
  {| PbDuration := Z * Z; durationpb_New := pb_new; AsDuration := pb_as_duration; AsDuration_New := pb_roundtrip |}.

(** A configuration as a user writes it: most fields left unset. *)
Definition sample_config : @RabbitMQ secs_nanos :=
  @mkRabbitMQ secs_nanos ["amqp://service:secret@mq:5672/"]
    [Some (@mkProducer secs_nanos true "orders.exchange" "" "" 0 None None "orders-producer" false false false)]
    [Some (@mkConsumer true "orders.queue" "" "" "" 0 0 "orders-consumer" false false false false)]
    "" "" "/orders" None None 0.

(** The same with an unknown exchange type in the second producer. *)
Definition sample_bad_config : @RabbitMQ secs_nanos :=
  @set_Producers secs_nanos
    [Some (@mkProducer secs_nanos true "orders.exchange" "" "" 0 None None "orders-producer" false false false);
     Some (@mkProducer secs_nanos true "" "invalid" "" 0 None None "p2" false false false);
     None] sample_config.

Lemma normalize_establishes_wf_witness :
  normalizeRabbitMQConfig (Some sample_config) = (Some (fill sample_config), None) ∧ wf_config (fill sample_config).
Proof.
  split; [vm_compute; reflexivity|].
  apply (normalize_establishes_wf sample_config). vm_compute. reflexivity.
Defined.

Lemma normalize_idempotent_witness :
  normalizeRabbitMQConfig (Some (fill sample_config)) = (Some (fill sample_config), None).
Proof. apply (normalize_idempotent sample_config). vm_compute. reflexivity. Defined.

Lemma normalize_computes_fill_witness :
  normalizeRabbitMQConfig (Some sample_config) = (Some (fill sample_config), None) ∧
  is_Some (snd (normalizeRabbitMQConfig (Some sample_bad_config))).
Proof.
  split.
  - apply (proj1 (normalize_computes_fill sample_config)). vm_compute. reflexivity.
  - apply (proj2 (normalize_computes_fill sample_bad_config)). vm_compute. reflexivity.
Defined.

Lemma normalize_reports_first_bad_producer_witness :
  ∃ pre bad post bad' msg cfg',
    Producers sample_bad_config = pre ++ bad :: post ∧
    forallb acceptable_producer pre = true ∧ acceptable_producer bad = false ∧
    normalizeRabbitMQConfig (Some sample_bad_config) = (Some cfg', Some (indexed "producers" (length pre) msg)) ∧
    Producers cfg' = map (option_map fill_producer) pre ++ bad' :: post ∧
    Consumers cfg' = Consumers sample_bad_config.
Proof. apply (normalize_reports_first_bad_producer sample_bad_config); vm_compute; reflexivity. Defined.

Lemma default_config_normal_witness :
  @normalizeRabbitMQConfig secs_nanos (Some defaultRabbitMQConfig) = (Some defaultRabbitMQConfig, None).
Proof. apply (@default_config_normal secs_nanos). Defined.
