(* ===== verification/Metrics.v ===== *)
(** * Metrics: src/metrics.go

    The [Metrics] struct with one definition per method.  Counters are int64
    and wrap around; [time.Now()] is an argument.  Every method body is one
    atomic access or one critical section on [mu], so an execution of many
    goroutines is a sequence of operations ([run_ops]), and the theorems hold for
    every sequence, that is for every interleaving.  The text exposition is
    modelled to the byte, with [Duration.Seconds] in IEEE binary64 ([SpecFloat])
    and the [%f] verb rounding to six decimals. *)

From Stdlib Require Import SpecFloat.
From S2P Require Import Prelude.

(** ** time.Time: nanoseconds since the Unix epoch *)

Definition Time : Type := Z.

(** The zero Time: January 1, year 1, 00:00:00 UTC. *)
Definition zeroTime : Time := (-62135596800 * Second)%Z.

Definition IsZero (t : Time) : bool := bool_decide (t = zeroTime).

Definition Unix (t : Time) : Z := (t / Second)%Z.

(** [time.Since(start)] at time [now], saturated as [Time.Sub] does. *)
Definition Since (start now : Time) : Z := Z.max (- two63) (Z.min (two63 - 1) (now - start)).

(** ** The struct *)

Record Metrics : Type := mkMetrics {
  producerMessagesSent : Z;
  producerMessagesFailed : Z;
  producerLatency : Z;
  consumerMessagesReceived : Z;
  consumerMessagesFailed : Z;
  consumerLatency : Z;
  connectionErrors : Z;
  reconnectionCount : Z;
  lastReconnectTime : Time;
  healthCheckCount : Z;
  healthCheckErrors : Z;
  lastHealthCheck : Time;
  isHealthy : Z;
}.

(** The zero value [&Metrics{}]. *)
Definition zeroMetrics : Metrics := mkMetrics 0 0 0 0 0 0 0 0 zeroTime 0 0 zeroTime 0.

Definition NewMetrics (now : Time) : Metrics := mkMetrics 0 0 0 0 0 0 0 0 zeroTime 0 0 now 0.

Definition IncrementProducerMessagesSent (m : Metrics) : Metrics :=
  let 'mkMetrics ps pf pl cr cf cl ce rc lr hc he lh ih := m in mkMetrics (wrap64 (ps + 1)) pf pl cr cf cl ce rc lr hc he lh ih.

Definition IncrementProducerMessagesFailed (m : Metrics) : Metrics :=
  let 'mkMetrics ps pf pl cr cf cl ce rc lr hc he lh ih := m in mkMetrics ps (wrap64 (pf + 1)) pl cr cf cl ce rc lr hc he lh ih.

Definition RecordProducerLatency (duration : Z) (m : Metrics) : Metrics :=
  let 'mkMetrics ps pf pl cr cf cl ce rc lr hc he lh ih := m in mkMetrics ps pf duration cr cf cl ce rc lr hc he lh ih.

Definition IncrementConsumerMessagesReceived (m : Metrics) : Metrics :=
  let 'mkMetrics ps pf pl cr cf cl ce rc lr hc he lh ih := m in mkMetrics ps pf pl (wrap64 (cr + 1)) cf cl ce rc lr hc he lh ih.

Definition IncrementConsumerMessagesFailed (m : Metrics) : Metrics :=
  let 'mkMetrics ps pf pl cr cf cl ce rc lr hc he lh ih := m in mkMetrics ps pf pl cr (wrap64 (cf + 1)) cl ce rc lr hc he lh ih.

Definition RecordConsumerLatency (duration : Z) (m : Metrics) : Metrics :=
  let 'mkMetrics ps pf pl cr cf cl ce rc lr hc he lh ih := m in mkMetrics ps pf pl cr cf duration ce rc lr hc he lh ih.

Definition IncrementConnectionErrors (m : Metrics) : Metrics :=
  let 'mkMetrics ps pf pl cr cf cl ce rc lr hc he lh ih := m in mkMetrics ps pf pl cr cf cl (wrap64 (ce + 1)) rc lr hc he lh ih.

Definition IncrementReconnectionCount (now : Time) (m : Metrics) : Metrics :=
  let 'mkMetrics ps pf pl cr cf cl ce rc lr hc he lh ih := m in mkMetrics ps pf pl cr cf cl ce (wrap64 (rc + 1)) now hc he lh ih.

Definition IncrementHealthCheckCount (m : Metrics) : Metrics :=
  let 'mkMetrics ps pf pl cr cf cl ce rc lr hc he lh ih := m in mkMetrics ps pf pl cr cf cl ce rc lr (wrap64 (hc + 1)) he lh ih.

Definition IncrementHealthCheckErrors (m : Metrics) : Metrics :=
  let 'mkMetrics ps pf pl cr cf cl ce rc lr hc he lh ih := m in mkMetrics ps pf pl cr cf cl ce rc lr hc (wrap64 (he + 1)) lh ih.

Definition SetHealthy (healthy : bool) (m : Metrics) : Metrics :=
  let 'mkMetrics ps pf pl cr cf cl ce rc lr hc he lh ih := m in mkMetrics ps pf pl cr cf cl ce rc lr hc he lh (if healthy then 1 else 0).

Definition UpdateLastHealthCheck (now : Time) (m : Metrics) : Metrics :=
  let 'mkMetrics ps pf pl cr cf cl ce rc lr hc he lh ih := m in mkMetrics ps pf pl cr cf cl ce rc lr hc he now ih.

Definition Reset (now : Time) (m : Metrics) : Metrics :=
  mkMetrics 0 0 0 0 0 0 0 0 zeroTime 0 0 now 0.

(** ** GetStats: the nested map[string]any *)

Inductive stat : Type :=
| SInt64 (z : Z)
| STime (t : Time)
| SBool (b : bool).

Definition GetStats (m : Metrics) : gmap string (gmap string stat) :=
  {[ "producer" := {[ "messages_sent" := SInt64 (producerMessagesSent m);
                      "messages_failed" := SInt64 (producerMessagesFailed m);
                      "latency_ns" := SInt64 (producerLatency m) ]};
     "consumer" := {[ "messages_received" := SInt64 (consumerMessagesReceived m);
                      "messages_failed" := SInt64 (consumerMessagesFailed m);
                      "latency_ns" := SInt64 (consumerLatency m) ]};
     "connection" := {[ "errors" := SInt64 (connectionErrors m);
                        "reconnection_count" := SInt64 (reconnectionCount m);
                        "last_reconnect" := STime (lastReconnectTime m) ]};
     "health" := {[ "check_count" := SInt64 (healthCheckCount m);
                    "check_errors" := SInt64 (healthCheckErrors m);
                    "last_check" := STime (lastHealthCheck m);
                    "is_healthy" := SBool (bool_decide (isHealthy m = 1%Z)) ]} ]}.

(** ** Duration.Seconds and the %f verb *)

Definition f64_of_Z (z : Z) : spec_float := binary_normalize 53 1024 z 0 false.

(** [float64(d / Second) + float64(d % Second) / 1e9] *)
Definition Seconds (d : Z) : spec_float :=
  SFadd 53 1024 (f64_of_Z (d `quot` Second))
    (SFdiv 53 1024 (f64_of_Z (d `rem` Second)) (f64_of_Z 1000000000)).

(** Nearest integer to [num / den], ties to even. *)
Definition round_half_even (num den : Z) : Z :=
  let q := (num / den)%Z in
  let r := (num mod den)%Z in
  if bool_decide (2 * r < den)%Z then q
  else if bool_decide (den < 2 * r)%Z then (q + 1)%Z
  else if Z.even q then q else (q + 1)%Z.

(** The binary value times 10^6, rounded. *)
Definition micro_round (m : positive) (e : Z) : Z :=
  if bool_decide (0 ≤ e)%Z then (Z.pos m * 2 ^ e * 1000000)%Z
  else round_half_even (Z.pos m * 1000000) (2 ^ (- e)).

Fixpoint pad_left (n : nat) (s : string) : string :=
  match n with
  | O => s
  | S n' => if bool_decide (String.length s ≤ n') then String "0" (pad_left n' s) else pad_left n' s
  end.

Definition fmt_f (x : spec_float) : string :=
  match x with
  | S754_zero s => (if s then "-" else "") +:+ "0.000000"
  | S754_infinity s => if s then "-Inf" else "+Inf"
  | S754_nan => "NaN"
  | S754_finite s m e =>
      let v := micro_round m e in
      (if s then "-" else "") +:+ fmt_d (v / 1000000) +:+ "." +:+ pad_left 6 (fmt_d (v mod 1000000))
  end.

(** ** GetPrometheusMetrics *)

Definition help (name text : string) : string := "# HELP " +:+ name +:+ " " +:+ text.
Definition type_ (name kind : string) : string := "# TYPE " +:+ name +:+ " " +:+ kind.
Definition sample_d (name : string) (z : Z) : string := name +:+ " " +:+ fmt_d z.
Definition sample_f (name : string) (x : spec_float) : string := name +:+ " " +:+ fmt_f x.

Definition prometheus_lines (m : Metrics) : list string :=
  (* Producer metrics *)
  [ help "lynx_rabbitmq_producer_messages_sent_total" "Total number of messages sent";
    type_ "lynx_rabbitmq_producer_messages_sent_total" "counter";
    sample_d "lynx_rabbitmq_producer_messages_sent_total" (producerMessagesSent m);
    "";
    help "lynx_rabbitmq_producer_messages_failed_total" "Total number of failed messages";
    type_ "lynx_rabbitmq_producer_messages_failed_total" "counter";
    sample_d "lynx_rabbitmq_producer_messages_failed_total" (producerMessagesFailed m);
    "";
    help "lynx_rabbitmq_producer_latency_seconds" "Producer latency in seconds";
    type_ "lynx_rabbitmq_producer_latency_seconds" "gauge";
    sample_f "lynx_rabbitmq_producer_latency_seconds" (Seconds (producerLatency m));
    "";
    (* Consumer metrics *)
    help "lynx_rabbitmq_consumer_messages_received_total" "Total number of messages received";
    type_ "lynx_rabbitmq_consumer_messages_received_total" "counter";
    sample_d "lynx_rabbitmq_consumer_messages_received_total" (consumerMessagesReceived m);
    "";
    help "lynx_rabbitmq_consumer_messages_failed_total" "Total number of failed message consumptions";
    type_ "lynx_rabbitmq_consumer_messages_failed_total" "counter";
    sample_d "lynx_rabbitmq_consumer_messages_failed_total" (consumerMessagesFailed m);
    "";
    help "lynx_rabbitmq_consumer_latency_seconds" "Consumer latency in seconds";
    type_ "lynx_rabbitmq_consumer_latency_seconds" "gauge";
    sample_f "lynx_rabbitmq_consumer_latency_seconds" (Seconds (consumerLatency m));
    "";
    (* Connection metrics *)
    help "lynx_rabbitmq_connection_errors_total" "Total number of connection errors";
    type_ "lynx_rabbitmq_connection_errors_total" "counter";
    sample_d "lynx_rabbitmq_connection_errors_total" (connectionErrors m);
    "";
    help "lynx_rabbitmq_reconnection_count_total" "Total number of reconnections";
    type_ "lynx_rabbitmq_reconnection_count_total" "counter";
    sample_d "lynx_rabbitmq_reconnection_count_total" (reconnectionCount m);
    "";
    (* Health metrics *)
    help "lynx_rabbitmq_health_check_count_total" "Total number of health checks";
    type_ "lynx_rabbitmq_health_check_count_total" "counter";
    sample_d "lynx_rabbitmq_health_check_count_total" (healthCheckCount m);
    "";
    help "lynx_rabbitmq_health_check_errors_total" "Total number of health check errors";
    type_ "lynx_rabbitmq_health_check_errors_total" "counter";
    sample_d "lynx_rabbitmq_health_check_errors_total" (healthCheckErrors m);
    "";
    help "lynx_rabbitmq_health_status" "Current health status (1=healthy, 0=unhealthy)";
    type_ "lynx_rabbitmq_health_status" "gauge";
    sample_d "lynx_rabbitmq_health_status" (if bool_decide (isHealthy m = 1%Z) then 1 else 0);
    "";
    help "lynx_rabbitmq_last_health_check_timestamp" "Unix timestamp of last health check";
    type_ "lynx_rabbitmq_last_health_check_timestamp" "gauge";
    sample_d "lynx_rabbitmq_last_health_check_timestamp" (Unix (lastHealthCheck m)) ] ++
  (if negb (IsZero (lastReconnectTime m)) then
     [ "";
       help "lynx_rabbitmq_last_reconnect_timestamp" "Unix timestamp of last reconnection";
       type_ "lynx_rabbitmq_last_reconnect_timestamp" "gauge";
       sample_d "lynx_rabbitmq_last_reconnect_timestamp" (Unix (lastReconnectTime m)) ]
   else []).

Definition GetPrometheusMetrics (m : Metrics) : string := join (prometheus_lines m) nl.

(** ** Operations of concurrent goroutines *)

Inductive counter : Type :=
| CProducerSent | CProducerFailed | CConsumerReceived | CConsumerFailed
| CConnectionErrors | CReconnections | CHealthChecks | CHealthErrors.

#[global] Instance counter_eq_dec : EqDecision counter.
Proof. solve_decision. Defined.

Definition read (c : counter) (m : Metrics) : Z :=
  match c with
  | CProducerSent => producerMessagesSent m
  | CProducerFailed => producerMessagesFailed m
  | CConsumerReceived => consumerMessagesReceived m
  | CConsumerFailed => consumerMessagesFailed m
  | CConnectionErrors => connectionErrors m
  | CReconnections => reconnectionCount m
  | CHealthChecks => healthCheckCount m
  | CHealthErrors => healthCheckErrors m
  end.

Inductive op : Type :=
| OpProducerSent | OpProducerFailed | OpProducerLatency (d : Z)
| OpConsumerReceived | OpConsumerFailed | OpConsumerLatency (d : Z)
| OpConnectionError | OpReconnection (now : Time)
| OpHealthCheck | OpHealthError | OpSetHealthy (b : bool) | OpUpdateLastHealthCheck (now : Time).

Definition run_op (m : Metrics) (o : op) : Metrics :=
  match o with
  | OpProducerSent => IncrementProducerMessagesSent m
  | OpProducerFailed => IncrementProducerMessagesFailed m
  | OpProducerLatency d => RecordProducerLatency d m
  | OpConsumerReceived => IncrementConsumerMessagesReceived m
  | OpConsumerFailed => IncrementConsumerMessagesFailed m
  | OpConsumerLatency d => RecordConsumerLatency d m
  | OpConnectionError => IncrementConnectionErrors m
  | OpReconnection now => IncrementReconnectionCount now m
  | OpHealthCheck => IncrementHealthCheckCount m
  | OpHealthError => IncrementHealthCheckErrors m
  | OpSetHealthy b => SetHealthy b m
  | OpUpdateLastHealthCheck now => UpdateLastHealthCheck now m
  end.

Definition run_ops (m : Metrics) (l : list op) : Metrics := foldl run_op m l.

(** The counter an operation advances. *)
Definition counted (o : op) : option counter :=
  match o with
  | OpProducerSent => Some CProducerSent
  | OpProducerFailed => Some CProducerFailed
  | OpConsumerReceived => Some CConsumerReceived
  | OpConsumerFailed => Some CConsumerFailed
  | OpConnectionError => Some CConnectionErrors
  | OpReconnection _ => Some CReconnections
  | OpHealthCheck => Some CHealthChecks
  | OpHealthError => Some CHealthErrors
  | _ => None
  end.

Definition occurrences (c : counter) (l : list op) : Z :=
  Z.of_nat (length (filter (λ o, counted o = Some c) l)).

(** ** A reader of the exposition format: the value of the first sample line of a name *)

Fixpoint find_sample (pre : string) (ls : list string) : option Z :=
  match ls with
  | [] => None
  | l :: ls' => if String.prefix pre l then parse_d (TrimPrefix l pre) else find_sample pre ls'
  end.

Definition sample (name text : string) : option Z := find_sample (name +:+ " ") (lines text).

Definition metric_name (c : counter) : string :=
  match c with
  | CProducerSent => "lynx_rabbitmq_producer_messages_sent_total"
  | CProducerFailed => "lynx_rabbitmq_producer_messages_failed_total"
  | CConsumerReceived => "lynx_rabbitmq_consumer_messages_received_total"
  | CConsumerFailed => "lynx_rabbitmq_consumer_messages_failed_total"
  | CConnectionErrors => "lynx_rabbitmq_connection_errors_total"
  | CReconnections => "lynx_rabbitmq_reconnection_count_total"
  | CHealthChecks => "lynx_rabbitmq_health_check_count_total"
  | CHealthErrors => "lynx_rabbitmq_health_check_errors_total"
  end.

Definition stat_key (c : counter) : string * string :=
  match c with
  | CProducerSent => ("producer", "messages_sent")
  | CProducerFailed => ("producer", "messages_failed")
  | CConsumerReceived => ("consumer", "messages_received")
  | CConsumerFailed => ("consumer", "messages_failed")
  | CConnectionErrors => ("connection", "errors")
  | CReconnections => ("connection", "reconnection_count")
  | CHealthChecks => ("health", "check_count")
  | CHealthErrors => ("health", "check_errors")
  end.

(** ** Lemmas *)

Lemma read_run_op c m o :
  read c (run_op m o) = if bool_decide (counted o = Some c) then wrap64 (read c m + 1) else read c m.
Proof. destruct m, o, c; reflexivity. Qed.

Lemma occurrences_cons c o l :
  occurrences c (o :: l) = ((if bool_decide (counted o = Some c) then 1 else 0) + occurrences c l)%Z.
Proof.
  unfold occurrences. rewrite filter_cons. case_bool_decide; [rewrite decide_True by done|rewrite decide_False by done];
    cbn [length]; lia.
Qed.

Lemma read_run_ops c l m :
  int64 (read c m) → read c (run_ops m l) = wrap64 (read c m + occurrences c l).
Proof.
  revert m. induction l as [|o l IH]; intros m Hm.
  - cbn. rewrite Z.add_0_r. by rewrite wrap64_id.
  - cbn [run_ops foldl]. fold (run_ops (run_op m o) l). rewrite occurrences_cons.
    rewrite IH by (rewrite read_run_op; case_bool_decide; auto using wrap64_range).
    rewrite read_run_op. case_bool_decide; [|done]. rewrite wrap64_add_l. f_equal. lia.
Qed.

Lemma occurrences_perm c l l' : l ≡ₚ l' → occurrences c l = occurrences c l'.
Proof. intros H. unfold occurrences. by rewrite H. Qed.

Lemma chars_pad_left n s c : c ∈ chars (pad_left n s) → c = "0"%char ∨ c ∈ chars s.
Proof. induction n as [|n IH]; cbn; [auto|]. case_bool_decide; cbn; set_solver. Qed.

Lemma fmt_f_chars x : nl_char ∉ chars (fmt_f x).
Proof.
  destruct x as [[]|[]| |s m e]; [apply (bool_decide_unpack _); vm_compute; exact I..|].
  cbn [fmt_f]. rewrite !chars_app.
  pose proof (fmt_d_chars (micro_round m e / 1000000)).
  pose proof (fmt_d_chars (micro_round m e mod 1000000)).
  assert (nl_char ∉ chars (pad_left 6 (fmt_d (micro_round m e mod 1000000)))).
  { intros [|]%chars_pad_left; done. }
  rewrite !elem_of_app. intros [Hs|[|[Hdot|]]]; try done.
  - destruct s; cbn in Hs; set_solver.
  - cbn in Hdot. set_solver.
Qed.

(** Closed text without a newline, and text followed by a printed number. *)
Lemma closed_no_nl s : bool_decide (nl_char ∈ chars s) = false → nl_char ∉ chars s.
Proof. by rewrite bool_decide_eq_false. Qed.

Lemma sample_d_no_nl name z : bool_decide (nl_char ∈ chars name) = false → nl_char ∉ chars (sample_d name z).
Proof.
  intros H%closed_no_nl. unfold sample_d. rewrite !chars_app. pose proof (fmt_d_chars z). set_solver.
Qed.

Lemma sample_f_no_nl name x : bool_decide (nl_char ∈ chars name) = false → nl_char ∉ chars (sample_f name x).
Proof.
  intros H%closed_no_nl. unfold sample_f. rewrite !chars_app. pose proof (fmt_f_chars x). set_solver.
Qed.

Ltac solve_line :=
  lazymatch goal with
  | |- _ ∉ chars (sample_d _ _) => apply sample_d_no_nl; vm_compute; reflexivity
  | |- _ ∉ chars (sample_f _ _) => apply sample_f_no_nl; vm_compute; reflexivity
  | |- _ => apply closed_no_nl; vm_compute; reflexivity
  end.

Ltac solve_lines := repeat (apply Forall_cons_2; [cbv beta; solve_line|]); apply Forall_nil_2.

Lemma prometheus_lines_no_nl m : Forall (λ s, nl_char ∉ chars s) (prometheus_lines m).
Proof.
  unfold prometheus_lines. apply Forall_app. split.
  - solve_lines.
  - destruct (negb _); solve_lines.
Qed.

Lemma lines_GetPrometheusMetrics m : lines (GetPrometheusMetrics m) = prometheus_lines m.
Proof. apply lines_join; [done | apply prometheus_lines_no_nl]. Qed.

(** The reader skips a line that differs from the wanted prefix, and reads a
    sample line of the wanted name. *)
Lemma find_sample_skip pre q s ls :
  mismatch pre q = true → find_sample pre ((q +:+ s) :: ls) = find_sample pre ls.
Proof. intros H. cbn. by rewrite prefix_mismatch. Qed.

Lemma find_sample_blank pre ls : pre ≠ "" → find_sample pre ("" :: ls) = find_sample pre ls.
Proof. by destruct pre. Qed.

Lemma find_sample_hit name z ls : find_sample (name +:+ " ") (sample_d name z :: ls) = Some z.
Proof.
  unfold sample_d. rewrite <- string_app_assoc. cbn.
  by rewrite prefix_app, TrimPrefix_app, parse_fmt_d.
Qed.

Ltac read_line :=
  lazymatch goal with
  | |- find_sample _ [] = _ => reflexivity
  | |- find_sample _ ("" :: _) = _ => rewrite find_sample_blank by discriminate
  | |- find_sample _ (help _ _ :: _) = _ => unfold help at 1; rewrite find_sample_skip by (vm_compute; reflexivity)
  | |- find_sample _ (type_ _ _ :: _) = _ => unfold type_ at 1; rewrite find_sample_skip by (vm_compute; reflexivity)
  | |- find_sample _ (sample_f _ _ :: _) = _ => unfold sample_f at 1; rewrite find_sample_skip by (vm_compute; reflexivity)
  | |- find_sample (?n +:+ _) (sample_d ?n _ :: _) = _ => apply find_sample_hit
  | |- find_sample _ (sample_d _ _ :: _) = _ => unfold sample_d at 1; rewrite find_sample_skip by (vm_compute; reflexivity)
  end.

Lemma sample_of_counter c m : sample (metric_name c) (GetPrometheusMetrics m) = Some (read c m).
Proof.
  unfold sample. rewrite lines_GetPrometheusMetrics. unfold prometheus_lines.
  destruct c; cbn [metric_name read app]; repeat read_line.
Qed.

(** ** Properties *)

(** Counters never lose an update: after any sequence of metric
    operations, whatever goroutines they come from, each counter holds its
    initial value plus the number of increments of that counter, modulo 2^64. *)
Theorem counters_count_every_increment c l m :
  int64 (read c m) → read c (run_ops m l) = wrap64 (read c m + occurrences c l).
Proof. apply read_run_ops. Qed.

Lemma counters_count_every_increment_witness :
  read CProducerSent (run_ops zeroMetrics [OpProducerSent; OpConsumerFailed; OpProducerSent]) = 2%Z ∧
  read CProducerSent (run_ops (run_ops zeroMetrics []) [OpProducerSent; OpConsumerFailed; OpProducerSent]) =
    wrap64 (0 + occurrences CProducerSent [OpProducerSent; OpConsumerFailed; OpProducerSent]).
Proof.
  split; [vm_compute; reflexivity|].
  apply (counters_count_every_increment CProducerSent [OpProducerSent; OpConsumerFailed; OpProducerSent] zeroMetrics).
  vm_compute. split; congruence.
Defined.

(** The order of interleaving is irrelevant for the counters: two
    executions with the same operations in different orders end with the same
    counter values. *)
Theorem counters_independent_of_interleaving c l l' m :
  int64 (read c m) → l ≡ₚ l' → read c (run_ops m l) = read c (run_ops m l').
Proof. intros Hm Hp. rewrite !read_run_ops by done. by rewrite (occurrences_perm c _ _ Hp). Qed.

Lemma counters_independent_of_interleaving_witness :
  read CConsumerFailed (run_ops zeroMetrics [OpConsumerFailed; OpProducerSent]) =
  read CConsumerFailed (run_ops zeroMetrics [OpProducerSent; OpConsumerFailed]).
Proof.
  apply counters_independent_of_interleaving; [vm_compute; split; congruence | apply perm_swap].
Defined.

(** C39: the Prometheus text can be read back: for every counter, the reader
    finds under the counter's metric name exactly the value the counter has, and
    [GetStats] reports the same value under its key. *)
Theorem exposition_roundtrip c m :
  sample (metric_name c) (GetPrometheusMetrics m) = Some (read c m) ∧
  (GetStats m !! (stat_key c).1) ≫= (λ cat, cat !! (stat_key c).2) = Some (SInt64 (read c m)).
Proof. split; [apply sample_of_counter|]. by destruct c. Qed.

(** The health gauges: the status sample is 1 exactly when the last
    [SetHealthy] was true, and the reconnect timestamp appears exactly when a
    reconnection was recorded at a nonzero time. *)
Theorem exposition_health m :
  sample "lynx_rabbitmq_health_status" (GetPrometheusMetrics (SetHealthy true m)) = Some 1%Z ∧
  sample "lynx_rabbitmq_health_status" (GetPrometheusMetrics (SetHealthy false m)) = Some 0%Z ∧
  (∀ now, sample "lynx_rabbitmq_last_reconnect_timestamp" (GetPrometheusMetrics (IncrementReconnectionCount now m)) =
     if IsZero now then None else Some (Unix now)).
Proof.
  destruct m. split; [|split; [|intros now]];
    unfold sample; rewrite lines_GetPrometheusMetrics; unfold prometheus_lines;
    [cbn [app SetHealthy isHealthy]; repeat read_line..|].
  cbn [app IncrementReconnectionCount lastReconnectTime].
  destruct (IsZero now); cbn [negb]; repeat read_line.
Qed.

(** [Reset] forgets the past: whatever was recorded before it, after it
    each counter holds the number of increments recorded since. *)
Theorem reset_restarts_counting c l now m :
  read c (run_ops (Reset now m) l) = wrap64 (occurrences c l).
Proof. rewrite read_run_ops; [by destruct c|]. destruct c; vm_compute; split; congruence. Qed.
