(* ===== verification/HealthChecker.v ===== *)
(** * HealthChecker: the periodic liveness probe of src/managers.go (lines 15-139)

    The struct, its methods one by one, and the concurrent system made of any
    number of goroutines inside [Stop] and inside the ticker loop [run], with one
    step per critical section.  A registered probe is a value of an abstract type
    of closures; calling it is an operation of the surrounding state. *)

From S2P Require Import Prelude Errors Metrics.

Module HC.

Record HealthChecker (P : Type) : Type := mkHC {
  interval : Z;
  stopChan : bool;      (* closed? *)
  stopOnce : bool;      (* has the function of the Once returned? *)
  healthy : bool;
  lastCheck : Time;
  errorCount : Z;
  lastError : option error;
  stopped : bool;
  probe : option P;
}.
Arguments mkHC {P}.
Arguments interval {P}.
Arguments stopChan {P}.
Arguments stopOnce {P}.
Arguments healthy {P}.
Arguments lastCheck {P}.
Arguments errorCount {P}.
Arguments lastError {P}.
Arguments stopped {P}.
Arguments probe {P}.

Section health_checker.
Context {P : Type}.
Implicit Types h : HealthChecker P.

Definition NewHealthChecker : HealthChecker P :=
  mkHC (30 * Second) false false true zeroTime 0 None false None.

Definition SetProbe (fn : P) h : HealthChecker P :=
  mkHC (interval h) (stopChan h) (stopOnce h) (healthy h) (lastCheck h) (errorCount h) (lastError h) (stopped h) (Some fn).

(** [close(h.stopChan)]: closing twice panics. *)
Definition close_stopChan h : outcome (HealthChecker P) :=
  if stopChan h then Panicked
  else Done (mkHC (interval h) true (stopOnce h) (healthy h) (lastCheck h) (errorCount h) (lastError h) (stopped h) (probe h)).

Definition set_stopped h : HealthChecker P :=
  mkHC (interval h) (stopChan h) (stopOnce h) (healthy h) (lastCheck h) (errorCount h) (lastError h) true (probe h).

Definition set_once h : HealthChecker P :=
  mkHC (interval h) (stopChan h) true (healthy h) (lastCheck h) (errorCount h) (lastError h) (stopped h) (probe h).

(** [Stop] run without interruption. *)
Definition Stop h : outcome (unit * HealthChecker P) :=
  if stopped h then Done (tt, h)
  else if stopOnce h then Done (tt, h)
  else match close_stopChan h with
       | Done h => Done (tt, set_once (set_stopped h))
       | Panicked => Panicked
       | Blocked => Blocked
       end.

Definition IsHealthy h : bool := healthy h.
Definition GetLastCheck h : Time := lastCheck h.
Definition GetErrorCount h : Z := errorCount h.
Definition GetLastError h : option error := lastError h.

(** The second critical section of [performHealthCheck]. *)
Definition record_check (now : Time) (probeErr : option error) h : HealthChecker P :=
  match probeErr with
  | Some e => mkHC (interval h) (stopChan h) (stopOnce h) false now (wrap64 (errorCount h + 1)) (Some e) (stopped h) (probe h)
  | None => mkHC (interval h) (stopChan h) (stopOnce h) true now (errorCount h) None (stopped h) (probe h)
  end.

(** [performHealthCheck] in a monad [M] that reaches the checker through a pointer. *)
Definition performHealthCheck {M : Type → Type} `{!MRet M, !MBind M, !Pointer (HealthChecker P) M} (call : P → M (option error)) (now : M Time) : M unit :=
  pr ← method (λ h, (probe h, h));
  probeErr ← match pr with Some fn => call fn | None => mret None end;
  t ← now;
  method (λ h, (tt, record_check t probeErr h)).

(** ** Goroutines

    [StopRead] is a call of [Stop] about to read [h.stopped]; [StopDo] is about
    to call [stopOnce.Do]; [StopInside] runs the function given to it, after the
    close; [RunSelect] is at the select of [run]; [RunProbe] runs the captured
    probe; [RunRecord] is about to take the lock with the probe's result.  While
    the function of the Once runs, other callers of [Do] wait. *)
Inductive pc : Type :=
| StopRead | StopDo | StopInside | StopDone
| RunSelect | RunProbe (pr : option P) | RunRecord (probeErr : option error) | RunDone.

Record sys : Type := mkSys {
  hc : HealthChecker P;
  onceRunning : bool;
  panicked : bool;
  threads : list pc;
  history : list (option error);   (* results recorded so far, latest first *)
}.

Definition at_thread (s : sys) (i : nat) (q : pc) : sys :=
  mkSys (hc s) (onceRunning s) (panicked s) (<[i:=q]> (threads s)) (history s).

Definition with_hc (s : sys) (h : HealthChecker P) : sys :=
  mkSys h (onceRunning s) (panicked s) (threads s) (history s).

Inductive step (s : sys) : sys → Prop :=
| step_stop_read i :
    threads s !! i = Some StopRead →
    step s (at_thread s i (if stopped (hc s) then StopDone else StopDo))
| step_stop_once_done i :
    threads s !! i = Some StopDo → stopOnce (hc s) = true →
    step s (at_thread s i StopDone)
| step_stop_close i h' :
    threads s !! i = Some StopDo → stopOnce (hc s) = false → onceRunning s = false →
    close_stopChan (hc s) = Done h' →
    step s (mkSys h' true (panicked s) (<[i:=StopInside]> (threads s)) (history s))
| step_stop_close_panics i :
    threads s !! i = Some StopDo → stopOnce (hc s) = false → onceRunning s = false →
    close_stopChan (hc s) = Panicked →
    step s (mkSys (hc s) true true (<[i:=StopDone]> (threads s)) (history s))
| step_stop_inside i :
    threads s !! i = Some StopInside →
    step s (mkSys (set_once (set_stopped (hc s))) false (panicked s) (<[i:=StopDone]> (threads s)) (history s))
| step_run_tick i :
    threads s !! i = Some RunSelect →
    step s (at_thread s i (RunProbe (probe (hc s))))
| step_run_stop i :
    threads s !! i = Some RunSelect → stopChan (hc s) = true →
    step s (at_thread s i RunDone)
| step_run_probe i pr e :
    threads s !! i = Some (RunProbe pr) → (pr = None → e = None) →
    step s (at_thread s i (RunRecord e))
| step_run_record i e now :
    threads s !! i = Some (RunRecord e) →
    step s (mkSys (record_check now e (hc s)) (onceRunning s) (panicked s) (<[i:=RunSelect]> (threads s)) (e :: history s))
| step_set_probe fn :
    step s (with_hc s (SetProbe fn (hc s))).

(** A checker with any number of pending [Stop] calls and running loops. *)
Definition initial (stops runs : nat) : sys :=
  mkSys NewHealthChecker false false (replicate stops StopRead ++ replicate runs RunSelect) [].

(** ** Specification: the state is a function of the recorded results *)

Definition failures (rs : list (option error)) : Z := Z.of_nat (count (λ r, bool_decide (is_Some r)) rs).

Definition reflects (rs : list (option error)) h : Prop :=
  healthy h = match rs with Some _ :: _ => false | _ => true end ∧
  lastError h = match rs with e :: _ => e | [] => None end ∧
  errorCount h = wrap64 (failures rs).

(** ** Lemmas *)

Lemma reflects_record rs now e h : reflects rs h → reflects (e :: rs) (record_check now e h).
Proof.
  intros (_ & _ & Hc). unfold reflects, failures in *. rewrite count_cons.
  destruct e as [e|]; cbn; (repeat split); [|done].
  rewrite Hc, wrap64_add_l. f_equal. lia.
Qed.

Definition is_inside (q : pc) : bool := match q with StopInside => true | _ => false end.
Definition is_stop_done (q : pc) : bool := match q with StopDone => true | _ => false end.
Definition is_run_done (q : pc) : bool := match q with RunDone => true | _ => false end.

(** The phases of the Once and the flags it protects. *)
Record stop_inv (s : sys) : Prop := {
  inv_no_panic : panicked s = false;
  inv_closed : stopChan (hc s) = (stopOnce (hc s) || onceRunning s);
  inv_stopped : stopped (hc s) = stopOnce (hc s);
  inv_inside : count is_inside (threads s) = Nat.b2n (onceRunning s);
  inv_exclusive : onceRunning s = true → stopOnce (hc s) = false;
  inv_done : stopped (hc s) = false → count is_stop_done (threads s) = 0;
  inv_run_done : stopChan (hc s) = false → count is_run_done (threads s) = 0;
  inv_history : reflects (history s) (hc s);
}.

Lemma hc_initial_inv n m : stop_inv (initial n m).
Proof. split; cbn; rewrite ?count_app, ?count_replicate; cbn; (done || lia). Qed.

Lemma hc_step_inv s s' : stop_inv s → step s s' → stop_inv s'.
Proof.
  destruct s as [[iv sc so he lc ec le st pr] orr pk th hist].
  intros [Hp Hc Hs Hin Hex Hd Hrd Hh] Hstep. cbn in *. subst.
  inversion Hstep as [i Hi|i Hi Ho|i h' Hi Ho Hr Hcl|i Hi Ho Hr Hcl|i Hi|i Hi|i Hi Hcl|i q e Hi He|i e now Hi|fn];
    subst; try (apply (reflects_record _ now e) in Hh; destruct e);
    clear Hstep; unfold close_stopChan in *; cbn in *;
    try (pose proof (count_lookup is_inside _ _ _ Hi eq_refl));
    destruct so, orr; cbn in *; simplify_eq; try (by specialize (Hex eq_refl)); try lia;
    split; cbn; intros; count_moved; try done; try lia; try (by specialize (Hd eq_refl); lia);
    try (by specialize (Hrd eq_refl); lia).
Qed.

Lemma hc_reachable_inv n m s : rtc step (initial n m) s → stop_inv s.
Proof. intros Hr. by apply (rtc_invariant step stop_inv hc_step_inv _ _ Hr), hc_initial_inv. Qed.

(** *** Progress towards termination once the channel is closed *)

Definition weight (q : pc) : nat :=
  match q with
  | StopRead => 3 | StopDo => 2 | StopInside => 1 | StopDone => 0
  | RunProbe _ => 3 | RunRecord _ => 2 | RunSelect => 1 | RunDone => 0
  end.

Definition finished (q : pc) : bool :=
  match q with StopDone | RunDone => true | _ => false end.

Lemma moved_lighter th i (q q' : pc) : th !! i = Some q → weight q' < weight q → total weight (<[i:=q']> th) < total weight th.
Proof. intros Hi Hw. pose proof (total_insert weight th i q q' Hi). pose proof (total_lookup weight th i q Hi). lia. Qed.

(** The thread that runs the function of the Once exists while it is running. *)
Lemma inside_exists s : stop_inv s → onceRunning s = true → ∃ i, threads s !! i = Some StopInside.
Proof.
  intros [_ _ _ Hin _ _ _ _] Hr. rewrite Hr in Hin. clear Hr. revert Hin.
  induction (threads s) as [|q l IH]; [done|]. rewrite count_cons.
  destruct (is_inside q) eqn:Hq; cbn; intros Hc.
  - exists 0. by destruct q.
  - destruct (IH Hc) as [i Hi]. by exists (S i).
Qed.

Lemma stop_progress s i q :
  stop_inv s → stopChan (hc s) = true → threads s !! i = Some q → finished q = false →
  ∃ s', step s s' ∧ stopChan (hc s') = true ∧ total weight (threads s') < total weight (threads s).
Proof.
  intros HI Hc Hi Hf.
  destruct q; try discriminate.
  - eexists. split; [by apply (step_stop_read _ i)|]. split; [done|].
    apply (moved_lighter _ _ _ _ Hi). destruct (stopped (hc s)); cbn; lia.
  - destruct (onceRunning s) eqn:Ho.
    + destruct (inside_exists s HI Ho) as [j Hj]. eexists. split; [by apply (step_stop_inside _ j)|].
      split; [done|]. apply (moved_lighter _ _ _ _ Hj). cbn. lia.
    + eexists. split; [apply (step_stop_once_done _ i); [done|]|].
      * pose proof (inv_closed s HI) as Hcl. rewrite Ho, Hc, orb_false_r in Hcl. done.
      * split; [done|]. apply (moved_lighter _ _ _ _ Hi). cbn. lia.
  - eexists. split; [by apply (step_stop_inside _ i)|]. split; [done|].
    apply (moved_lighter _ _ _ _ Hi). cbn. lia.
  - eexists. split; [by apply (step_run_stop _ i)|]. split; [done|].
    apply (moved_lighter _ _ _ _ Hi). cbn. lia.
  - eexists. split; [by apply (step_run_probe _ i pr None)|]. split; [done|].
    apply (moved_lighter _ _ _ _ Hi). cbn. lia.
  - eexists. split; [by apply (step_run_record _ i probeErr zeroTime)|].
    split; [by destruct probeErr|]. apply (moved_lighter _ _ _ _ Hi). cbn. lia.
Qed.

Lemma all_finished_or th : Forall (λ q, finished q = true) th ∨ ∃ i q, th !! i = Some q ∧ finished q = false.
Proof.
  induction th as [|q th [IH|(i & q' & Hi & Hq')]]; [by left| |].
  - destruct (finished q) eqn:Hq; [left; by constructor|right; by exists 0, q].
  - right. by exists (S i), q'.
Qed.

Lemma stop_drains n s :
  total weight (threads s) ≤ n → stop_inv s → stopChan (hc s) = true →
  ∃ s', rtc step s s' ∧ Forall (λ q, finished q = true) (threads s').
Proof.
  revert s. induction n as [|n IH]; intros s Hn HI Hc;
    (destruct (all_finished_or (threads s)) as [Hall|(i & q & Hi & Hq)]; [by exists s|]);
    destruct (stop_progress s i q HI Hc Hi Hq) as (s1 & Hs1 & Hc1 & Hlt); [lia|].
  destruct (IH s1 ltac:(lia) (hc_step_inv _ _ HI Hs1) Hc1) as (s' & Hr & Hall).
  exists s'. split; [by eapply rtc_l|done].
Qed.

(** *** Reachable checkers

    The states of the struct that the system can reach, closed under its methods:
    what a client that calls them one at a time may rely on. *)

Definition reachable h : Prop := ∃ stops runs s, rtc step (initial stops runs) s ∧ hc s = h.

(** More goroutines beside those of a system. *)
Definition extend (l1 l2 : list pc) (s : sys) : sys :=
  mkSys (hc s) (onceRunning s) (panicked s) (l1 ++ threads s ++ l2) (history s).

Lemma step_extend l1 l2 s s' : step s s' → step (extend l1 l2 s) (extend l1 l2 s').
Proof.
  assert (∀ i q, threads s !! i = Some q → (l1 ++ threads s ++ l2) !! (length l1 + i) = Some q) as Hl.
  { intros i q Hi. rewrite lookup_app_r, Nat.add_comm, Nat.add_sub by lia. by apply lookup_app_l_Some. }
  assert (∀ i q q', threads s !! i = Some q → l1 ++ <[i:=q']> (threads s) ++ l2 = <[length l1 + i:=q']> (l1 ++ threads s ++ l2)) as Hins.
  { intros i q q' Hi. rewrite insert_app_r, insert_app_l; [done|]. by eapply lookup_lt_Some. }
  intros Hstep. inversion Hstep; subst; unfold extend, at_thread, with_hc; cbn;
    try (erewrite Hins by done; match goal with H : threads s !! _ = Some _ |- _ => apply Hl in H end).
  - by apply (step_stop_read (extend l1 l2 s)).
  - by apply (step_stop_once_done (extend l1 l2 s)).
  - by eapply (step_stop_close (extend l1 l2 s)).
  - by eapply (step_stop_close_panics (extend l1 l2 s)).
  - by apply (step_stop_inside (extend l1 l2 s)).
  - by apply (step_run_tick (extend l1 l2 s)).
  - by apply (step_run_stop (extend l1 l2 s)).
  - by eapply (step_run_probe (extend l1 l2 s)).
  - by apply (step_run_record (extend l1 l2 s)).
  - by apply (step_set_probe (extend l1 l2 s)).
Qed.

Lemma rtc_extend l1 l2 s s' : rtc step s s' → rtc step (extend l1 l2 s) (extend l1 l2 s').
Proof. induction 1; [done|]. eapply rtc_l; [by apply step_extend|done]. Qed.

Lemma initial_stop n m : initial (S n) m = extend [StopRead] [] (initial n m).
Proof. unfold initial, extend. cbn. by rewrite app_nil_r. Qed.

Lemma initial_run n m : initial n (S m) = extend [] [RunSelect] (initial n m).
Proof. unfold initial, extend. cbn. by rewrite <- app_assoc, <- replicate_S_end. Qed.

Lemma reachable_new : reachable NewHealthChecker.
Proof. by exists 0, 0, (initial 0 0). Qed.

Lemma reachable_probe fn h : reachable h → reachable (SetProbe fn h).
Proof.
  intros (n & m & s & Hr & <-). exists n, m, (with_hc s (SetProbe fn (hc s))). split; [|done].
  eapply rtc_r; [done|]. apply step_set_probe.
Qed.

(** A [Stop] that runs without interruption. *)
Lemma reachable_stop h h' : reachable h → Stop h = Done (tt, h') → reachable h'.
Proof.
  intros (n & m & s & Hr & <-) Hs. pose proof (hc_reachable_inv _ _ _ Hr) as HI.
  unfold Stop in Hs. destruct (stopped (hc s)) eqn:Hst.
  { simplify_eq. by exists n, m, s. }
  destruct (stopOnce (hc s)) eqn:Ho; [pose proof (inv_stopped s HI); congruence|].
  destruct (close_stopChan (hc s)) as [h1| |] eqn:Hc; simplify_eq.
  assert (onceRunning s = false) as Hor.
  { pose proof (inv_closed s HI) as H. rewrite Ho in H. unfold close_stopChan in Hc. rewrite H in Hc. by destruct (onceRunning s). }
  apply (rtc_extend [StopRead] []) in Hr. rewrite <- initial_stop in Hr.
  exists (S n), m, (mkSys (set_once (set_stopped h1)) false (panicked s) (StopDone :: threads s ++ []) (history s)). split; [|done].
  etransitivity; [exact Hr|].
  eapply rtc_l; [by apply (step_stop_read _ 0)|]. cbn. rewrite Hst.
  eapply rtc_l; [by apply (step_stop_close _ 0 h1)|]. apply rtc_once.
  exact (step_stop_inside (mkSys h1 true (panicked s) (StopInside :: threads s ++ []) (history s)) 0 eq_refl).
Qed.

(** A round of the loop that runs without interruption. *)
Lemma reachable_record now e h : reachable h → (probe h = None → e = None) → reachable (record_check now e h).
Proof.
  intros (n & m & s & Hr & <-) He. apply (rtc_extend [] [RunSelect]) in Hr. rewrite <- initial_run in Hr.
  set (i := length (threads s)). assert (∀ q l, <[i:=q]> (threads s ++ [l]) = threads s ++ [q]) as Hins.
  { intros q l. unfold i. rewrite <- (Nat.add_0_r (length (threads s))), insert_app_r. done. }
  assert (∀ q, (threads s ++ [q]) !! i = Some q) as Hlook by (intros q; apply list_lookup_middle; done).
  exists n, (S m), (mkSys (record_check now e (hc s)) (onceRunning s) (panicked s) (threads s ++ [RunSelect]) (e :: history s)).
  split; [|done]. etransitivity; [exact Hr|]. unfold extend. cbn [app].
  set (start := mkSys (hc s) (onceRunning s) (panicked s) (threads s ++ [RunSelect]) (history s)).
  eapply rtc_l; [apply (step_run_tick start i), Hlook|]. unfold at_thread. cbn. rewrite Hins.
  eapply rtc_l; [apply (step_run_probe _ i (probe (hc s)) e); [apply Hlook|done]|]. unfold at_thread. cbn. rewrite Hins.
  eapply rtc_l; [apply (step_run_record _ i e now), Hlook|]. cbn. by rewrite Hins.
Qed.

(** ** Properties *)

(** Stopping is safe under any concurrency: whatever the interleaving of
    any number of [Stop] calls and check loops, the stop channel is never closed
    twice; once some [Stop] call has returned the checker is stopped and its
    channel closed; and a check loop has ended only if the channel was closed. *)
Theorem health_stop_safe stops runs s :
  rtc step (initial stops runs) s →
  panicked s = false ∧
  (StopDone ∈ threads s → stopped (hc s) = true ∧ stopChan (hc s) = true) ∧
  (RunDone ∈ threads s → stopChan (hc s) = true).
Proof.
  intros Hr. destruct (hc_reachable_inv _ _ _ Hr) as [Hp Hc Hs _ _ Hd Hrd _].
  split; [done|]. split.
  - intros [i Hi]%list_elem_of_lookup. pose proof (count_lookup is_stop_done _ _ _ Hi eq_refl).
    destruct (stopped (hc s)); [|specialize (Hd eq_refl); lia].
    by rewrite Hc, <- Hs.
  - intros [i Hi]%list_elem_of_lookup. pose proof (count_lookup is_run_done _ _ _ Hi eq_refl).
    destruct (stopChan (hc s)); [done|]. specialize (Hrd eq_refl). lia.
Qed.

(** The health state is exactly what the recorded probe results say, for
    any number of check loops and any interleaving: healthy is the outcome of
    the latest recorded check (true before the first), the last error is the
    error of the latest check, and the error count is the number of failed
    checks modulo 2^64. *)
Theorem health_reflects_history stops runs s :
  rtc step (initial stops runs) s →
  IsHealthy (hc s) = match history s with Some _ :: _ => false | _ => true end ∧
  GetLastError (hc s) = match history s with e :: _ => e | [] => None end ∧
  GetErrorCount (hc s) = wrap64 (failures (history s)).
Proof. intros Hr. by destruct (hc_reachable_inv _ _ _ Hr) as [_ _ _ _ _ _ _ Hh]. Qed.

(** Shutdown cannot get stuck: from every reachable state in which the
    stop channel is closed there is a schedule under which every [Stop] call
    returns and every check loop ends. *)
Theorem health_can_shut_down stops runs s :
  rtc step (initial stops runs) s → stopChan (hc s) = true →
  ∃ s', rtc step s s' ∧ Forall (λ q, finished q = true) (threads s').
Proof.
  intros Hr Hc. by apply (stop_drains (total weight (threads s))), Hc; [|eapply hc_reachable_inv].
Qed.

(** [Stop] run alone is idempotent and never panics on a checker it
    stopped or a fresh one, and it leaves the health state alone. *)
Theorem health_Stop_idempotent h :
  stopChan h = stopOnce h → stopped h = stopOnce h →
  ∃ h', Stop h = Done (tt, h') ∧ Stop h' = Done (tt, h') ∧
    stopped h' = true ∧ stopChan h' = true ∧ healthy h' = healthy h ∧ errorCount h' = errorCount h.
Proof.
  destruct h as [iv sc so he lc ec le st pr]. cbn. intros -> ->. unfold Stop, close_stopChan. cbn.
  destruct so; eexists; repeat split.
Qed.

End health_checker.

(** ** Witnesses *)

(** Two [Stop] calls and one loop: the loop records a failure, then both calls
    race through the Once and the loop ends. *)
Definition demo_final : sys (P := unit) :=
  mkSys (mkHC (30 * Second) true true false 7%Z 1 (Some (Errorf "down")) true (Some tt)) false false
    [StopDone; StopDone; RunDone] [Some (Errorf "down")].

Lemma demo_run : rtc step (initial (P := unit) 2 1) demo_final.
Proof.
  eapply rtc_l; [apply (step_set_probe _ tt)|].
  eapply rtc_l; [apply (step_run_tick _ 2); reflexivity|].
  eapply rtc_l; [apply (step_run_probe _ 2 (Some tt) (Some (Errorf "down"))); [reflexivity|discriminate]|].
  eapply rtc_l; [apply (step_run_record _ 2 (Some (Errorf "down")) 7%Z); reflexivity|].
  eapply rtc_l; [apply (step_stop_read _ 0); reflexivity|].
  eapply rtc_l; [apply (step_stop_read _ 1); reflexivity|].
  eapply rtc_l; [eapply (step_stop_close _ 1); reflexivity|].
  eapply rtc_l; [apply (step_stop_inside _ 1); reflexivity|].
  eapply rtc_l; [apply (step_stop_once_done _ 0); reflexivity|].
  eapply rtc_l; [apply (step_run_stop _ 2); reflexivity|].
  apply rtc_refl.
Defined.

Lemma health_stop_safe_witness :
  panicked demo_final = false ∧
  (StopDone ∈ threads demo_final → stopped (hc demo_final) = true ∧ stopChan (hc demo_final) = true) ∧
  (RunDone ∈ threads demo_final → stopChan (hc demo_final) = true).
Proof. apply (health_stop_safe 2 1). apply demo_run. Defined.

Lemma health_reflects_history_witness :
  IsHealthy (hc demo_final) = false ∧ GetLastError (hc demo_final) = Some (Errorf "down") ∧
  GetErrorCount (hc demo_final) = wrap64 (failures (history demo_final)).
Proof. apply (health_reflects_history 2 1 demo_final). apply demo_run. Defined.

Lemma health_Stop_idempotent_witness :
  ∃ h', Stop (NewHealthChecker (P := unit)) = Done (tt, h') ∧ Stop h' = Done (tt, h') ∧
    stopped h' = true ∧ stopChan h' = true ∧ healthy h' = true ∧ errorCount h' = 0%Z.
Proof. apply (health_Stop_idempotent (NewHealthChecker (P := unit))); reflexivity. Defined.

Lemma health_can_shut_down_witness :
  ∃ s', rtc step demo_final s' ∧ Forall (λ q, finished q = true) (threads s').
Proof. apply (health_can_shut_down 2 1 demo_final); [apply demo_run | reflexivity]. Defined.

End HC.
