(* ===== verification/ConnectionManager.v ===== *)
(** * ConnectionManager: connection watching and reconnection of src/managers.go (lines 141-320)

    The struct and its methods, and the concurrent system of goroutines inside
    [Start], [Stop], [ForceReconnect] and [watchConnection], one step per critical
    section, channel operation or callback.  The reconnect callback is a value of
    an abstract type of closures; in the concurrent system it returns, with a result
    chosen by the environment.  A goroutine that waits for the broker or for a timer
    proceeds only once the environment has sent the event ([event]). *)

From S2P Require Import Prelude Errors.

Module CM.

(** [R]: closures of type reconnectFunc; [N]: close-notify channels.  The
    [config] and [stopOnce] fields are never read by a method. *)
Record ConnectionManager (R N : Type) : Type := mkCM {
  connected : bool;
  stopChan : bool;      (* closed? *)
  stopped : bool;
  reconnect : option R;
  connNotify : option N;
}.
Arguments mkCM {R N}.
Arguments connected {R N}.
Arguments stopChan {R N}.
Arguments stopped {R N}.
Arguments reconnect {R N}.
Arguments connNotify {R N}.

(** Back-off of the reconnect loop: doubled in 64 bits, capped at 30 s. *)
Definition initialBackoff : Z := 500 * Millisecond.
Definition maxBackoff : Z := 30 * Second.

Definition nextBackoff (b : Z) : Z :=
  let b := wrap64 (b * 2) in
  if bool_decide (maxBackoff < b)%Z then maxBackoff else b.

Section connection_manager.
Context {R N : Type}.
Implicit Types c : ConnectionManager R N.

Definition NewConnectionManager : ConnectionManager R N := mkCM false false false None None.

Definition SetReconnectFunc (fn : R) c := mkCM (connected c) (stopChan c) (stopped c) (Some fn) (connNotify c).
Definition SetConnectionNotify (ch : N) c := mkCM (connected c) (stopChan c) (stopped c) (reconnect c) (Some ch).
Definition set_connected (b : bool) c := mkCM b (stopChan c) (stopped c) (reconnect c) (connNotify c).
Definition set_stopped c := mkCM (connected c) (stopChan c) true (reconnect c) (connNotify c).
Definition set_closed c := mkCM (connected c) true (stopped c) (reconnect c) (connNotify c).

(** [Start] returns the arguments of the watcher goroutine it launches, if any. *)
Definition Start c : option (N * R) * ConnectionManager R N :=
  let c := set_connected true c in
  (match connNotify c, reconnect c with
   | Some notify, Some reconnFn => Some (notify, reconnFn)
   | _, _ => None
   end, c).

(** The critical section of [Stop]; true when the caller goes on to close the channel. *)
Definition stop_section c : bool * ConnectionManager R N :=
  let c := set_connected false c in
  if stopped c then (false, c) else (true, set_stopped c).

(** [close(ch)]: closing twice panics. *)
Definition close_stopChan c : outcome (ConnectionManager R N) :=
  if stopChan c then Panicked else Done (set_closed c).

(** [Stop] run without interruption. *)
Definition Stop c : outcome (unit * ConnectionManager R N) :=
  let '(go_on, c) := stop_section c in
  if go_on then
    if stopChan c then Done (tt, c)
    else match close_stopChan c with
         | Done c => Done (tt, c)
         | Panicked => Panicked
         | Blocked => Blocked
         end
  else Done (tt, c).

Definition IsConnected c : bool := connected c.

(** [GetHealthChecker] always returns nil. *)
Definition GetHealthChecker c : option False := None.

(** [ForceReconnect] in a monad [M] that reaches the manager through a pointer; the
    callback returns a connection or an error. *)
Definition ForceReconnect {M : Type → Type} {X : Type} `{!MRet M, !MBind M, !Pointer (ConnectionManager R N) M} (call : R → M (X + error)%type) : M unit :=
  fn ← method (λ c, (reconnect c, c));
  match fn with
  | None => method (λ c, (tt, set_connected true (set_connected false c)))
  | Some fn =>
      method (λ c, (tt, set_connected false c)) ;;
      r ← call fn;
      match r with
      | inr _ => mret tt
      | inl _ => method (λ c, (tt, set_connected true c))
      end
  end.

(** ** Goroutines

    [WaitNotify ev]: watchConnection at its first select, where [ev] is what its
    notify channel holds: nothing, an error, or (false) nil or the end of the channel;
    [MarkDown]: about to clear [connected]; [LoopHead b]: at the top of the reconnect
    loop with back-off [b]; [Calling b]: inside reconnFn; [MarkUp]: about to set
    [connected]; [Respawn]: about to register a new notify channel and start the next
    watcher; [Waiting b fired]: in the select on the timer, which may have fired.  [StopLock] to [StopClose] are the phases of [Stop],
    [Force...] those of [ForceReconnect], [StartLock] a call of [Start]. *)
Inductive pc : Type :=
| StartLock
| WaitNotify (ev : option bool) | MarkDown | LoopHead (b : Z) | Calling (b : Z) | MarkUp | Respawn | Waiting (b : Z) (fired : bool)
| StopLock | StopSelect | StopClose
| ForceRead | ForceDown | ForceCall | ForceUp
| Finished.

#[global] Instance pc_eq_dec : EqDecision pc.
Proof. solve_decision. Defined.

Record sys : Type := mkSys {
  cm : ConnectionManager R N;
  panicked : bool;
  calls : nat;         (* reconnFn invocations of watchers so far *)
  threads : list pc;
}.

Definition move (s : sys) (i : nat) (q : pc) : sys :=
  mkSys (cm s) (panicked s) (calls s) (<[i:=q]> (threads s)).

Definition with_cm (c : ConnectionManager R N) (s : sys) : sys :=
  mkSys c (panicked s) (calls s) (threads s).

Inductive step (s : sys) : sys → Prop :=
| step_start i :
    threads s !! i = Some StartLock →
    step s (mkSys (snd (Start (cm s))) (panicked s) (calls s)
              (<[i:=Finished]> (threads s) ++ match fst (Start (cm s)) with Some _ => [WaitNotify None] | None => [] end))
(* select of watchConnection: broker closed the connection with an error *)
| step_notify_error i :
    threads s !! i = Some (WaitNotify (Some true)) → step s (move s i MarkDown)
(* notify channel closed, or nil error received *)
| step_notify_closed i :
    threads s !! i = Some (WaitNotify (Some false)) → step s (move s i Finished)
| step_watch_stop i ev :
    threads s !! i = Some (WaitNotify ev) → stopChan (cm s) = true → step s (move s i Finished)
| step_mark_down i :
    threads s !! i = Some MarkDown →
    step s (move (with_cm (set_connected false (cm s)) s) i (LoopHead initialBackoff))
| step_head_stop i b :
    threads s !! i = Some (LoopHead b) → stopChan (cm s) = true → step s (move s i Finished)
| step_head_default i b :
    threads s !! i = Some (LoopHead b) → stopChan (cm s) = false →
    step s (mkSys (cm s) (panicked s) (S (calls s)) (<[i:=Calling b]> (threads s)))
| step_call_ok i b :
    threads s !! i = Some (Calling b) → step s (move s i MarkUp)
| step_call_err i b :
    threads s !! i = Some (Calling b) → step s (move s i (Waiting b false))
| step_mark_up i :
    threads s !! i = Some MarkUp →
    step s (move (with_cm (set_connected true (cm s)) s) i Respawn)
| step_respawn i :
    threads s !! i = Some Respawn →
    step s (mkSys (cm s) (panicked s) (calls s) (<[i:=Finished]> (threads s) ++ [WaitNotify None]))
| step_wait_stop i b fired :
    threads s !! i = Some (Waiting b fired) → stopChan (cm s) = true → step s (move s i Finished)
| step_wait_timer i b :
    threads s !! i = Some (Waiting b true) → step s (move s i (LoopHead (nextBackoff b)))
| step_stop_lock i :
    threads s !! i = Some StopLock →
    step s (move (with_cm (snd (stop_section (cm s))) s) i
              (if fst (stop_section (cm s)) then StopSelect else Finished))
| step_stop_select i :
    threads s !! i = Some StopSelect → step s (move s i (if stopChan (cm s) then Finished else StopClose))
| step_stop_close i c' :
    threads s !! i = Some StopClose → close_stopChan (cm s) = Done c' →
    step s (move (with_cm c' s) i Finished)
| step_stop_close_panics i :
    threads s !! i = Some StopClose → close_stopChan (cm s) = Panicked →
    step s (mkSys (cm s) true (calls s) (<[i:=Finished]> (threads s)))
| step_force_read i :
    threads s !! i = Some ForceRead → is_Some (reconnect (cm s)) → step s (move s i ForceDown)
| step_force_flip i :
    threads s !! i = Some ForceRead → reconnect (cm s) = None →
    step s (move (with_cm (set_connected true (set_connected false (cm s))) s) i Finished)
| step_force_down i :
    threads s !! i = Some ForceDown →
    step s (move (with_cm (set_connected false (cm s)) s) i ForceCall)
| step_force_err i :
    threads s !! i = Some ForceCall → step s (move s i Finished)
| step_force_ok i :
    threads s !! i = Some ForceCall → step s (move s i ForceUp)
| step_force_up i :
    threads s !! i = Some ForceUp →
    step s (move (with_cm (set_connected true (cm s)) s) i Finished).

(** What the environment does: the broker reports on the connection of a watcher,
    with an error or without; a timer fires. *)
Inductive event (s : sys) : sys → Prop :=
| event_notify i err :
    threads s !! i = Some (WaitNotify None) → event s (move s i (WaitNotify (Some err)))
| event_timer i b :
    threads s !! i = Some (Waiting b false) → event s (move s i (Waiting b true)).

Definition next (s s' : sys) : Prop := step s s' ∨ event s s'.

Lemma next_step s s' : step s s' → next s s'.
Proof. by left. Qed.

Lemma next_event s s' : event s s' → next s s'.
Proof. by right. Qed.

(** A manager with a reconnect callback and a notify channel wired up, and any
    number of concurrent calls of its methods. *)
Definition initial (fn : option R) (ch : option N) (starts stops forces : nat) : sys :=
  mkSys (mkCM false false false fn ch) false 0
    (replicate starts StartLock ++ replicate stops StopLock ++ replicate forces ForceRead).

(** ** Invariants *)

Definition is_closer (q : pc) : bool := match q with StopSelect | StopClose => true | _ => false end.

(** The delays a watcher can be in. *)
Definition legal_backoff (b : Z) : Prop := ∃ n : nat, b = Z.min (initialBackoff * 2 ^ Z.of_nat n) maxBackoff.

Definition legal_pc (q : pc) : Prop :=
  match q with LoopHead b | Calling b | Waiting b _ => legal_backoff b | _ => True end.

Record cm_inv (s : sys) : Prop := {
  inv_no_panic : panicked s = false;
  inv_close : count is_closer (threads s) + Nat.b2n (stopChan (cm s)) = Nat.b2n (stopped (cm s));
  inv_backoff : Forall legal_pc (threads s);
}.

(** Threads that will not set [connected] again once the channel is closed. *)
Definition quiet (q : pc) : Prop :=
  match q with
  | StartLock | Calling _ | MarkUp | ForceRead | ForceDown | ForceCall | ForceUp => False
  | _ => True
  end.

Definition quiet_stopped (s : sys) : Prop :=
  stopChan (cm s) = true ∧ connected (cm s) = false ∧ Forall quiet (threads s).

(** Thread [i] is a call of [Stop]; once past its critical section the manager is stopped. *)
Definition stop_call (i : nat) (s : sys) : Prop :=
  ∃ q, threads s !! i = Some q ∧
    (q = StopLock ∨ (q = StopSelect ∨ q = StopClose ∨ q = Finished) ∧ stopped (cm s) = true).

(** Steps a thread can still take when the channel is closed, its successors included. *)
Definition weight (q : pc) : nat :=
  match q with
  | StartLock => 5
  | WaitNotify ev => match ev with None => 4 | Some _ => 3 end
  | MarkDown => 2 | LoopHead _ => 1 | Calling _ => 7 | MarkUp => 6 | Respawn => 5
  | Waiting _ fired => if fired : bool then 2 else 3
  | StopLock => 3 | StopSelect => 2 | StopClose => 1
  | ForceRead => 4 | ForceDown => 3 | ForceCall => 2 | ForceUp => 1
  | Finished => 0
  end.

(** ** Lemmas *)

Lemma initialBackoff_lt_max : (0 < initialBackoff < maxBackoff)%Z.
Proof. unfold initialBackoff, maxBackoff, Millisecond, Second. lia. Qed.

Lemma cm_nextBackoff_min b : (0 ≤ b ≤ maxBackoff)%Z → nextBackoff b = Z.min (2 * b) maxBackoff.
Proof.
  intros Hb. unfold nextBackoff. rewrite wrap64_id.
  - case_bool_decide; lia.
  - unfold int64, maxBackoff, Second, two63 in *. lia.
Qed.

Lemma pow2_pos n : (0 < 2 ^ Z.of_nat n)%Z.
Proof. apply Z.pow_pos_nonneg; lia. Qed.

Lemma legal_backoff_next b : legal_backoff b → legal_backoff (nextBackoff b).
Proof.
  intros [n ->]. exists (S n). pose proof initialBackoff_lt_max. pose proof (pow2_pos n).
  rewrite cm_nextBackoff_min by nia.
  rewrite Nat2Z.inj_succ, Z.pow_succ_r by lia. nia.
Qed.

Lemma legal_backoff_initial : legal_backoff initialBackoff.
Proof. exists 0. pose proof initialBackoff_lt_max. cbn. lia. Qed.

Lemma iter_nextBackoff n :
  Nat.iter n nextBackoff initialBackoff = Z.min (initialBackoff * 2 ^ Z.of_nat n) maxBackoff.
Proof.
  pose proof initialBackoff_lt_max. induction n as [|n IH]; [cbn; lia|].
  cbn [Nat.iter nat_rect]. change (nat_rect _ _ _ n) with (Nat.iter n nextBackoff initialBackoff).
  rewrite IH. pose proof (pow2_pos n). rewrite cm_nextBackoff_min by nia.
  rewrite Nat2Z.inj_succ, Z.pow_succ_r by lia. nia.
Qed.

Lemma Forall_move (Q : pc → Prop) th i q : Forall Q th → Q q → Forall Q (<[i:=q]> th).
Proof. intros. by apply Forall_insert. Qed.

Lemma cm_initial_inv fn ch n1 n2 n3 : cm_inv (initial fn ch n1 n2 n3).
Proof.
  split; cbn; [done| |].
  - rewrite !count_app, !count_replicate. done.
  - rewrite !Forall_app. repeat split; by apply Forall_replicate.
Qed.

Lemma Forall_lookup' (Q : pc → Prop) th i q : Forall Q th → th !! i = Some q → Q q.
Proof. intros H. by apply (Forall_lookup_1 Q th i q H). Qed.

(** Case analysis on a step or an event, with the manager's flags made explicit. *)
Ltac step_cases Hstep :=
  (match type of Hstep with next _ _ => destruct Hstep as [Hstep|Hstep] | _ => idtac end);
  inversion Hstep; subst; clear Hstep; cbn in *; unfold close_stopChan in *; cbn in *;
  repeat match goal with |- context [ match ?x with Some _ => _ | None => _ end ] => destruct x end.

Lemma cm_step_inv s s' : cm_inv s → next s s' → cm_inv s'.
Proof.
  destruct s as [[co sc st re cn] pk ca th]. intros [Hp Hc Hb] Hstep. cbn in *. subst.
  step_cases Hstep;
    match goal with H : th !! _ = Some _ |- _ =>
      pose proof (Forall_lookup' _ _ _ _ Hb H); pose proof (count_lookup is_closer _ _ _ H) end;
    destruct sc, st; cbn in *; simplify_eq; try lia;
    (split; cbn;
     [ lia || done
     | rewrite ?count_app; count_moved; rewrite ?count_cons, ?count_nil; cbn; lia
     | rewrite ?Forall_app; repeat split; try apply Forall_move; repeat constructor; cbn;
       auto using legal_backoff_next, legal_backoff_initial ]).
Qed.

Lemma cm_reachable_inv fn ch n1 n2 n3 s : rtc next (initial fn ch n1 n2 n3) s → cm_inv s.
Proof. intros Hr. by apply (rtc_invariant next cm_inv cm_step_inv _ _ Hr), cm_initial_inv. Qed.

Lemma quiet_next s s' : quiet_stopped s → next s s' → quiet_stopped s'.
Proof.
  destruct s as [[co sc st re cn] pk ca th]. intros (Hc & Hf & Hq) Hstep. cbn in *. subst.
  step_cases Hstep;
    match goal with H : th !! _ = Some _ |- _ => pose proof (Forall_lookup' _ _ _ _ Hq H) end; cbn in *; try done;
    try destruct st; repeat split; cbn; rewrite ?Forall_app; repeat split; try apply Forall_move; repeat constructor; done.
Qed.

Lemma lookup_move_app (th ext : list pc) i j q q' qi :
  th !! j = Some q → th !! i = Some qi →
  (<[j:=q']> th ++ ext) !! i = Some (if decide (i = j) then q' else qi).
Proof.
  intros Hj Hi. rewrite lookup_app_l by (rewrite length_insert; by eapply lookup_lt_Some).
  destruct (decide (i = j)) as [->|Hne].
  - apply list_lookup_insert_eq. by eapply lookup_lt_Some.
  - by rewrite list_lookup_insert_ne.
Qed.

Lemma stop_call_next i s s' : stop_call i s → next s s' → stop_call i s'.
Proof.
  destruct s as [[co sc st re cn] pk ca th]. intros (q & Hi & Hq) Hstep. cbn in *.
  step_cases Hstep;
    match goal with H : th !! ?j = Some _ |- stop_call _ ?x =>
      let l := eval cbn in (threads x) in
      match l with
      | <[j:=?q']> th ++ ?e => pose proof (lookup_move_app th e i j _ q' q H Hi) as Hl
      | <[j:=?q']> th => pose proof (lookup_move_app th [] i j _ q' q H Hi) as Hl; rewrite app_nil_r in Hl
      end;
      eexists; split; [exact Hl|]; clear Hl; destruct (decide (i = j)) as [->|]
    end; cbn; simplify_eq; try destruct st; try destruct sc; cbn in *; naive_solver.
Qed.

Lemma stop_call_initial fn ch n1 n2 n3 i :
  threads (initial fn ch n1 n2 n3) !! i = Some StopLock → stop_call i (initial fn ch n1 n2 n3).
Proof. intros Hi. exists StopLock. auto. Qed.

(** Once the channel is closed it stays closed, no reconnect call starts, and
    every step reduces the remaining work. *)
Lemma cm_closed_step s s' :
  stopChan (cm s) = true → next s s' →
  stopChan (cm s') = true ∧ total weight (threads s') < total weight (threads s) ∧ calls s' = calls s.
Proof.
  destruct s as [[co sc st re cn] pk ca th]. intros Hc Hstep. cbn in *. subst.
  step_cases Hstep; try destruct st; try destruct ev; try destruct fired; cbn in *; try done;
    match goal with H : th !! ?i = Some ?q |- context [ <[?i:=?q']> th ] =>
      pose proof (total_insert weight th i q q' H); pose proof (total_lookup weight th i q H) end;
    rewrite ?total_app, ?total_cons, ?total_nil; cbn in *; repeat split; lia.
Qed.

(** When the channel is closed, every unfinished thread can move. *)
Lemma cm_closed_progress s i q :
  stopChan (cm s) = true → threads s !! i = Some q → q ≠ Finished → ∃ s', step s s'.
Proof.
  intros Hc Hi Hq. destruct q; try done; eauto using step.
  - eexists. apply (step_stop_close_panics s i Hi). unfold close_stopChan. by rewrite Hc.
  - destruct (reconnect (cm s)) eqn:Hr; eexists;
      [eapply step_force_read | eapply step_force_flip]; eauto.
Qed.

(** A run of [Stop] that is not interrupted, in the concurrent system. *)
Lemma Stop_steps s i :
  cm_inv s → threads s !! i = Some StopLock →
  ∃ c', Stop (cm s) = Done (tt, c') ∧ rtc step s (move (with_cm c' s) i Finished).
Proof.
  destruct s as [[co sc st re cn] pk ca th]. intros [Hp Hc _] Hi. cbn in *.
  destruct st; unfold Stop, close_stopChan; cbn.
  - eexists. split; [done|]. apply rtc_once.
    exact (step_stop_lock (mkSys (mkCM co sc true re cn) pk ca th) i Hi).
  - destruct sc; cbn in Hc; [lia|]. eexists. split; [done|].
    eapply rtc_l; [exact (step_stop_lock (mkSys (mkCM co false false re cn) pk ca th) i Hi)|]. cbn.
    eapply rtc_l; [apply (step_stop_select _ i); cbn; rewrite list_lookup_insert_eq; [done|by eapply lookup_lt_Some]|].
    cbn. eapply rtc_l; [eapply (step_stop_close _ i); cbn; [rewrite list_lookup_insert_eq; [done|]|done]|].
    + rewrite length_insert. by eapply lookup_lt_Some.
    + unfold move, with_cm. cbn. rewrite !list_insert_insert_eq. apply rtc_refl.
Qed.

(** ** Properties *)

(** C22: stopping is safe and effective under any concurrency: for any number of
    concurrent [Start], [Stop] and [ForceReconnect] calls and the watchers they
    launch, the stop channel is never closed twice, although the close happens
    outside the lock; a call of [Stop] that has returned leaves the manager stopped,
    for ever; and when the manager is stopped and no [Stop] call is between its
    critical section and the close, the channel is closed. *)
Theorem cm_stop_safe fn ch starts stops forces s :
  rtc next (initial fn ch starts stops forces) s →
  panicked s = false ∧
  (∀ i, threads (initial fn ch starts stops forces) !! i = Some StopLock →
        threads s !! i = Some Finished → stopped (cm s) = true) ∧
  (stopped (cm s) = true → Forall (λ q, is_closer q = false) (threads s) → stopChan (cm s) = true).
Proof.
  intros Hr. destruct (cm_reachable_inv _ _ _ _ _ _ Hr) as [Hp Hc _]. split; [done|]. split.
  - intros i Hi Hf. apply stop_call_initial in Hi.
    destruct (rtc_invariant next (stop_call i) (stop_call_next i) _ _ Hr Hi) as (q & Hq & [->|[_ ?]]);
      [by simplify_eq|done].
  - intros Hs Hf. rewrite Hs in Hc. destruct (stopChan (cm s)); [done|]. exfalso.
    cbn in Hc. rewrite Nat.add_0_r in Hc. revert Hc Hf. clear.
    induction (threads s) as [|q l IH]; [done|]. rewrite count_cons. inversion_clear 2 as [|?? Hq Hl].
    rewrite Hq in *. auto.
Qed.

(** The reconnect delay is the documented exponential back-off: the n-th
    delay is 500 ms doubled n times, capped at 30 s, with no 64-bit overflow;
    every watcher of every execution waits only such delays. *)
Theorem watcher_backoff fn ch starts stops forces s i q b :
  rtc next (initial fn ch starts stops forces) s →
  threads s !! i = Some q → (q = LoopHead b ∨ q = Calling b ∨ ∃ fired, q = Waiting b fired) →
  (∃ n : nat, b = Nat.iter n nextBackoff initialBackoff ∧ b = Z.min (initialBackoff * 2 ^ Z.of_nat n) maxBackoff) ∧
  (500 * Millisecond ≤ b ≤ 30 * Second)%Z.
Proof.
  intros Hr Hi Hq. destruct (cm_reachable_inv _ _ _ _ _ _ Hr) as [_ _ Hb].
  pose proof (Forall_lookup' _ _ _ _ Hb Hi) as Hl.
  assert (legal_backoff b) as [n ->] by (destruct Hq as [->|[->|[fired ->]]]; exact Hl).
  split; [exists n; by rewrite iter_nextBackoff|].
  fold initialBackoff maxBackoff. pose proof initialBackoff_lt_max. pose proof (pow2_pos n). nia.
Qed.

(** C29: shutdown terminates: once the stop channel is closed, no watcher
    starts another reconnect attempt; the goroutines take only boundedly many more
    steps, whatever the scheduler, the broker and the timers do; and if no goroutine
    can move any more, all have finished, whether or not the broker ever reports
    on a watched connection or a timer ever fires. *)
Theorem cm_shutdown_terminates s n s' :
  stopChan (cm s) = true → nsteps next n s s' →
  n ≤ total weight (threads s) ∧ calls s' = calls s ∧
  ((∀ s'', ¬ step s' s'') → Forall (λ q, q = Finished) (threads s')).
Proof.
  intros Hc Hn.
  assert (stopChan (cm s') = true ∧ calls s' = calls s) as [Hc' Hcalls].
  { clear -Hc Hn. induction Hn as [|n x y z Hxy Hyz IH]; [done|].
    destruct (cm_closed_step _ _ Hc Hxy) as (Hc1 & _ & Hca). destruct (IH Hc1) as [? ?]. split; [done|lia]. }
  split; [|split; [done|]].
  - apply (bounded_steps next (λ s, stopChan (cm s) = true) (λ s, total weight (threads s))) in Hn as [? _]; [done| |done].
    intros x y Hx Hxy. destruct (cm_closed_step _ _ Hx Hxy) as (? & ? & _). done.
  - intros Hstuck. apply Forall_lookup. intros i q Hi.
    destruct (decide (q = Finished)) as [|Hne]; [done|].
    destruct (cm_closed_progress _ _ _ Hc' Hi Hne) as [s'' Hs'']. by destruct (Hstuck s'').
Qed.

(** A stop that meets no reconnect in flight is final: if the channel is
    closed, the manager reports disconnected and no goroutine is inside
    [Start], [ForceReconnect] or between a reconnect callback and the update of
    the flag, then [IsConnected] is false for ever after. *)
Theorem quiet_stop_is_final s s' :
  stopChan (cm s) = true → IsConnected (cm s) = false → Forall quiet (threads s) →
  rtc next s s' → IsConnected (cm s') = false.
Proof.
  intros Hc Hf Hq Hr.
  assert (quiet_stopped s') as (_ & H & _); [|exact H].
  by apply (rtc_invariant next quiet_stopped quiet_next _ _ Hr).
Qed.

(** [Stop] called while nothing else runs behaves in the concurrent
    system as the sequential method: it ends in the state [Stop] computes. *)
Theorem Stop_refines_sequential fn ch starts stops forces s i :
  rtc next (initial fn ch starts stops forces) s → threads s !! i = Some StopLock →
  ∃ c', Stop (cm s) = Done (tt, c') ∧ IsConnected c' = false ∧ stopped c' = true ∧
    rtc step s (move (with_cm c' s) i Finished).
Proof.
  intros Hr Hi. destruct (Stop_steps s i (cm_reachable_inv _ _ _ _ _ _ Hr) Hi) as (c' & HS & Hrun).
  exists c'. repeat split; try done;
    revert HS; unfold Stop, stop_section, close_stopChan, set_connected, set_stopped, set_closed;
    cbn; destruct (stopped (cm s)) eqn:?, (stopChan (cm s)); cbn; intros; simplify_eq; cbn; done.
Qed.

End connection_manager.

(** C38: a stop that overtakes a reconnect is undone: there is an execution of
    one [Start] and one [Stop] in which every goroutine has finished, the manager
    is stopped, and yet [IsConnected] reports true, because the watcher that was
    inside the reconnect callback sets the flag after [Stop] cleared it. *)
Theorem connected_after_Stop_reachable :
  ∃ s : sys (R := unit) (N := unit),
    rtc next (initial (Some tt) (Some tt) 1 1 0) s ∧
    Forall (λ q, q = Finished) (threads s) ∧ stopped (cm s) = true ∧ stopChan (cm s) = true ∧
    IsConnected (cm s) = true.
Proof.
  eexists. split.
  - eapply rtc_l; [left; apply (step_start _ 0); reflexivity|].
    eapply rtc_l; [right; apply (event_notify _ 2 true); reflexivity|].
    eapply rtc_l; [left; apply (step_notify_error _ 2); reflexivity|].
    eapply rtc_l; [left; apply (step_mark_down _ 2); reflexivity|].
    eapply rtc_l; [left; apply (step_head_default _ 2 initialBackoff); reflexivity|].
    eapply rtc_l; [left; apply (step_stop_lock _ 1); reflexivity|].
    eapply rtc_l; [left; apply (step_stop_select _ 1); reflexivity|].
    eapply rtc_l; [left; eapply (step_stop_close _ 1); reflexivity|].
    eapply rtc_l; [left; apply (step_call_ok _ 2 initialBackoff); reflexivity|].
    eapply rtc_l; [left; apply (step_mark_up _ 2); reflexivity|].
    eapply rtc_l; [left; apply (step_respawn _ 2); reflexivity|].
    eapply rtc_l; [left; eapply (step_watch_stop _ 3); reflexivity|].
    apply rtc_refl.
  - cbn. repeat split. by repeat constructor.
Qed.

(** ** Witnesses *)

(** A watcher in its second wait, with a [Stop] pending. *)
Definition demo_waiting : sys (R := unit) (N := unit) :=
  mkSys (mkCM false false false (Some tt) (Some tt)) false 2 [Finished; StopLock; Waiting 1000000000 false].

Lemma demo_waiting_run : rtc next (initial (Some tt) (Some tt) 1 1 0) demo_waiting.
Proof.
  eapply rtc_l; [left; apply (step_start _ 0); reflexivity|].
  eapply rtc_l; [right; apply (event_notify _ 2 true); reflexivity|].
    eapply rtc_l; [left; apply (step_notify_error _ 2); reflexivity|].
  eapply rtc_l; [left; apply (step_mark_down _ 2); reflexivity|].
  eapply rtc_l; [left; apply (step_head_default _ 2 initialBackoff); reflexivity|].
  eapply rtc_l; [left; apply (step_call_err _ 2 initialBackoff); reflexivity|].
  eapply rtc_l; [right; apply (event_timer _ 2 initialBackoff); reflexivity|].
  eapply rtc_l; [left; apply (step_wait_timer _ 2 initialBackoff); reflexivity|].
  eapply rtc_l; [left; apply (step_head_default _ 2 1000000000%Z); reflexivity|].
  eapply rtc_l; [left; apply (step_call_err _ 2 1000000000%Z); reflexivity|].
  apply rtc_refl.
Defined.

(** The same after the stop, the watcher still waiting. *)
Definition demo_stopped : sys (R := unit) (N := unit) :=
  mkSys (mkCM false true true (Some tt) (Some tt)) false 2 [Finished; Finished; Waiting 1000000000 false].

Definition demo_over : sys (R := unit) (N := unit) :=
  mkSys (mkCM false true true (Some tt) (Some tt)) false 2 [Finished; Finished; Finished].

Lemma demo_stopped_run : rtc next (initial (Some tt) (Some tt) 1 1 0) demo_stopped.
Proof.
  etransitivity; [apply demo_waiting_run|].
  eapply rtc_l; [left; apply (step_stop_lock _ 1); reflexivity|].
  eapply rtc_l; [left; apply (step_stop_select _ 1); reflexivity|].
  eapply rtc_l; [left; eapply (step_stop_close _ 1); reflexivity|].
  apply rtc_refl.
Defined.

Lemma cm_stop_safe_witness :
  panicked demo_stopped = false ∧ stopped (cm demo_stopped) = true ∧ stopChan (cm demo_stopped) = true.
Proof.
  destruct (cm_stop_safe (Some tt) (Some tt) 1 1 0 demo_stopped demo_stopped_run) as (Hp & Hs & Hc).
  split; [exact Hp|]. assert (stopped (cm demo_stopped) = true) as H by (apply (Hs 1); reflexivity).
  split; [exact H|]. apply (Hc H). repeat constructor.
Defined.

Lemma watcher_backoff_witness :
  (∃ n : nat, 1000000000%Z = Nat.iter n nextBackoff initialBackoff ∧
     1000000000%Z = Z.min (initialBackoff * 2 ^ Z.of_nat n) maxBackoff) ∧
  (500 * Millisecond ≤ 1000000000 ≤ 30 * Second)%Z.
Proof.
  apply (watcher_backoff (Some tt) (Some tt) 1 1 0 demo_waiting 2 (Waiting 1000000000 false));
    [apply demo_waiting_run | reflexivity | right; right; exists false; reflexivity].
Defined.

(** The timer fires while the channel is closed, and the watcher leaves at the loop's head. *)
Lemma cm_shutdown_terminates_witness :
  3 ≤ total weight (threads demo_stopped) ∧ calls demo_over = calls demo_stopped ∧
  ((∀ s'', ¬ step demo_over s'') → Forall (λ q, q = Finished) (threads demo_over)).
Proof.
  apply (cm_shutdown_terminates demo_stopped 3 demo_over); [reflexivity|].
  eapply nsteps_l; [right; apply (event_timer _ 2 1000000000%Z); reflexivity|].
  eapply nsteps_l; [left; apply (step_wait_timer _ 2 1000000000%Z); reflexivity|].
  eapply nsteps_l; [left; eapply (step_head_stop _ 2); reflexivity|].
  apply nsteps_O.
Defined.

Lemma quiet_stop_is_final_witness : IsConnected (cm demo_over) = false.
Proof.
  apply (quiet_stop_is_final demo_stopped demo_over); [reflexivity | reflexivity | repeat constructor|].
  apply rtc_once. left. refine (step_wait_stop demo_stopped 2 1000000000%Z false _ _); reflexivity.
Defined.

Lemma Stop_refines_sequential_witness :
  ∃ c', Stop (cm demo_waiting) = Done (tt, c') ∧ IsConnected c' = false ∧ stopped c' = true ∧
    rtc step demo_waiting (move (with_cm c' demo_waiting) 1 Finished).
Proof. apply (Stop_refines_sequential (Some tt) (Some tt) 1 1 0); [apply demo_waiting_run | reflexivity]. Defined.

End CM.
