(* ===== verification/Pool.v ===== *)
(** * GoroutinePool: src/pool.go

    The pool as a concurrent system: its worker goroutines, any number of
    goroutines inside [Submit] and any number inside [Wait] or [Close] (whose
    bodies are the same), with one step per lock operation, channel operation or
    task execution.  The RWMutex is modelled as documented: [RLock] waits while a
    writer holds the lock or is waiting for it, [Lock] waits for the other writers,
    announces itself, and waits for the readers.  A task is a value of an abstract
    type; a nil func is [None].  A task may call the pool it runs on: [body] gives
    the calls it makes, in order, and the goroutine that runs it waits for each of
    them; the call is a thread of its own, which is the same thing since neither
    the lock nor the WaitGroup knows the goroutine that uses it. *)

From S2P Require Import Prelude.

Module Pool.

(** A call a task makes: [Submit(t)]; [Wait()] or [Close()]. *)
Inductive call (T : Type) : Type :=
| CallSubmit (t : option T)
| CallWait.
Arguments CallSubmit {T} t.
Arguments CallWait {T}.

(** Who runs a task: the goroutine that submitted it, inside Submit, or a worker. *)
Inductive role : Type := Inline | Worker.

Section pool.
Context {T : Type} (body : T → list (call T)).

(** [SubLock t]: Submit(t) before RLock; [SubCheck] and [SubSelect]: inside the read
    section; [SubUnlock]: about to run the deferred RUnlock.  [WaitLock]: Wait or
    Close before Lock; [WaitPending]: announced, waiting for the readers;
    [WaitCrit]: in the write section; [WaitWG]: in wg.Wait().  [WIdle]: a worker at
    the range receive.  [Exec r x rest w]: running [x], with the calls [rest] still
    to make and, if [w] is a thread, waiting for that call to return. *)
Inductive pc : Type :=
| SubLock (t : option T) | SubCheck (t : option T) | SubSelect (t : option T) | SubUnlock | SubDone
| WaitLock | WaitPending | WaitCrit | WaitWG | WaitDone
| WIdle | WExit
| Exec (r : role) (x : T) (rest : list (call T)) (w : option nat).

Record pool : Type := mkPool {
  cap : nat;                     (* capacity of p.workers *)
  queue : list (option T);       (* contents of p.workers, oldest first *)
  chanClosed : bool;             (* has p.workers been closed? *)
  closed : bool;                 (* p.closed *)
  panicked : bool;
  threads : list pc;
  accepted : list T;             (* tasks taken by the queue or run inline, so far *)
  dropped : list (option T);     (* tasks refused because the pool was closed *)
  ran : list T;                  (* tasks whose execution has finished *)
  submitted : list (option T);   (* the arguments of the calls of Submit so far, by goroutines and by tasks *)
}.

(** A pool of [size] workers, with goroutines about to call Submit and others about
    to call Wait or Close. *)
Definition start (size : nat) (submits : list (option T)) (waits : nat) : pool :=
  mkPool size [] false false false
    (replicate size WIdle ++ map SubLock submits ++ replicate waits WaitLock) [] [] [] submits.

(** [NewGoroutinePool(size)]: a channel of capacity [size], where [make] panics on a
    negative one, and [size] workers. *)
Definition NewGoroutinePool (size : Z) (submits : list (option T)) (waits : nat) : outcome pool :=
  if bool_decide (size < 0)%Z then Panicked else Done (start (Z.to_nat size) submits waits).

Definition holds_read (q : pc) : bool :=
  match q with SubCheck _ | SubSelect _ | SubUnlock | Exec Inline _ _ _ => true | _ => false end.

(** Owns the writers' part of the lock: new readers wait. *)
Definition is_writer (q : pc) : bool := match q with WaitPending | WaitCrit => true | _ => false end.

Definition holds_write (q : pc) : bool := match q with WaitCrit => true | _ => false end.

Definition is_worker (q : pc) : bool := match q with WIdle | Exec Worker _ _ _ => true | _ => false end.

(** The beginning of a call, and its end. *)
Definition call_pc (a : call T) : pc := match a with CallSubmit t => SubLock t | CallWait => WaitLock end.

Definition returned (q : pc) : bool := match q with SubDone | WaitDone => true | _ => false end.

(** Where a goroutine continues after a task. *)
Definition after_task (r : role) : pc := match r with Inline => SubUnlock | Worker => WIdle end.

Definition with_threads (l : list pc) (p : pool) : pool :=
  mkPool (cap p) (queue p) (chanClosed p) (closed p) (panicked p) l (accepted p) (dropped p) (ran p) (submitted p).

Definition move (p : pool) (i : nat) (q : pc) : pool := with_threads (<[i:=q]> (threads p)) p.

Definition with_queue (l : list (option T)) (p : pool) : pool :=
  mkPool (cap p) l (chanClosed p) (closed p) (panicked p) (threads p) (accepted p) (dropped p) (ran p) (submitted p).

Definition accept (t : option T) (p : pool) : pool :=
  mkPool (cap p) (queue p) (chanClosed p) (closed p) (panicked p) (threads p) (option_list t ++ accepted p) (dropped p) (ran p) (submitted p).

Definition drop_task (t : option T) (p : pool) : pool :=
  mkPool (cap p) (queue p) (chanClosed p) (closed p) (panicked p) (threads p) (accepted p) (t :: dropped p) (ran p) (submitted p).

Definition finish (x : T) (p : pool) : pool :=
  mkPool (cap p) (queue p) (chanClosed p) (closed p) (panicked p) (threads p) (accepted p) (dropped p) (x :: ran p) (submitted p).

(** A call of [Submit] by a task is one more submission. *)
Definition submit (a : call T) (p : pool) : pool :=
  mkPool (cap p) (queue p) (chanClosed p) (closed p) (panicked p) (threads p) (accepted p) (dropped p) (ran p)
    (submitted p ++ match a with CallSubmit t => [t] | CallWait => [] end).

Definition crash (p : pool) : pool :=
  mkPool (cap p) (queue p) (chanClosed p) (closed p) true (threads p) (accepted p) (dropped p) (ran p) (submitted p).

Definition close_both (p : pool) : pool :=
  mkPool (cap p) (queue p) true true (panicked p) (threads p) (accepted p) (dropped p) (ran p) (submitted p).

Inductive step (p : pool) : pool → Prop :=
(* Submit *)
| step_rlock i t :
    threads p !! i = Some (SubLock t) → count is_writer (threads p) = 0 → step p (move p i (SubCheck t))
| step_check_closed i t :
    threads p !! i = Some (SubCheck t) → closed p = true → step p (move (drop_task t p) i SubUnlock)
| step_check_open i t :
    threads p !! i = Some (SubCheck t) → closed p = false → step p (move p i (SubSelect t))
| step_send i t :
    threads p !! i = Some (SubSelect t) → chanClosed p = false → length (queue p) < cap p →
    step p (move (accept t (with_queue (queue p ++ [t]) p)) i SubUnlock)
| step_send_panics i t :
    threads p !! i = Some (SubSelect t) → chanClosed p = true → step p (move (crash p) i SubDone)
| step_default_nil i :
    threads p !! i = Some (SubSelect None) → chanClosed p = false → cap p ≤ length (queue p) →
    step p (move p i SubUnlock)
| step_default i x :
    threads p !! i = Some (SubSelect (Some x)) → chanClosed p = false → cap p ≤ length (queue p) →
    step p (move (accept (Some x) p) i (Exec Inline x (body x) None))
| step_runlock i :
    threads p !! i = Some SubUnlock → step p (move p i SubDone)
(* Wait and Close *)
| step_announce i :
    threads p !! i = Some WaitLock → count is_writer (threads p) = 0 → step p (move p i WaitPending)
| step_lock i :
    threads p !! i = Some WaitPending → count holds_read (threads p) = 0 → step p (move p i WaitCrit)
| step_close i :
    threads p !! i = Some WaitCrit → closed p = false → chanClosed p = false → step p (move (close_both p) i WaitWG)
| step_close_panics i :
    threads p !! i = Some WaitCrit → closed p = false → chanClosed p = true → step p (move (crash p) i WaitDone)
| step_already_closed i :
    threads p !! i = Some WaitCrit → closed p = true → step p (move p i WaitWG)
| step_wg i :
    threads p !! i = Some WaitWG → count is_worker (threads p) = 0 → step p (move p i WaitDone)
(* worker *)
| step_recv i t l :
    threads p !! i = Some WIdle → queue p = t :: l →
    step p (move (with_queue l p) i (match t with Some x => Exec Worker x (body x) None | None => WIdle end))
| step_range_end i :
    threads p !! i = Some WIdle → queue p = [] → chanClosed p = true → step p (move p i WExit)
(* a task: its calls of the pool, and its end *)
| step_call i r x a rest :
    threads p !! i = Some (Exec r x (a :: rest) None) →
    step p (with_threads (<[i:=Exec r x rest (Some (length (threads p)))]> (threads p) ++ [call_pc a]) (submit a p))
| step_return i r x rest j q :
    threads p !! i = Some (Exec r x rest (Some j)) → threads p !! j = Some q → returned q = true →
    step p (move p i (Exec r x rest None))
| step_finish i r x :
    threads p !! i = Some (Exec r x [] None) → step p (move (finish x p) i (after_task r)).

Definition IsClosed (p : pool) : bool := closed p.

(** ** Specification *)

(** The task a thread is executing. *)
Definition in_hand (q : pc) : list T :=
  match q with Exec _ x _ _ => [x] | _ => [] end.

(** The task of a call of Submit that has been made and not decided yet. *)
Definition in_submission (q : pc) : list T :=
  match q with SubLock t | SubCheck t | SubSelect t => option_list t | _ => [] end.

(** Tasks accepted and not finished yet. *)
Definition pending (p : pool) : list T := (threads p ≫= in_hand) ++ (queue p ≫= option_list).

Definition finished (q : pc) : bool :=
  match q with SubDone | WaitDone | WExit => true | _ => false end.

Definition in_select (q : pc) : bool := match q with SubSelect _ | Exec Inline _ _ _ => true | _ => false end.

Definition is_waiting (q : pc) : bool := match q with WaitWG | WaitDone => true | _ => false end.

Definition wait_done (q : pc) : bool := match q with WaitDone => true | _ => false end.

Definition worker_gone (q : pc) : bool := match q with WExit => true | _ => false end.

Record pool_inv (p : pool) : Prop := {
  inv_no_panic : panicked p = false;
  inv_flags : chanClosed p = closed p;
  inv_writers : count is_writer (threads p) ≤ 1;
  inv_exclusion : count holds_write (threads p) = 0 ∨ count holds_read (threads p) = 0;
  inv_closed_quiet : closed p = true → count in_select (threads p) = 0;
  inv_waiting : closed p = false → count is_waiting (threads p) = 0;
  inv_exit : closed p = false → count worker_gone (threads p) = 0;
  inv_exit_queue : length (queue p) = 0 ∨ count worker_gone (threads p) = 0;
  inv_wait_done : 0 < count wait_done (threads p) → count is_worker (threads p) = 0;
  inv_workers : count is_worker (threads p) + count worker_gone (threads p) = cap p;
  inv_capacity : length (queue p) ≤ cap p;
  inv_conserved : accepted p ≡ₚ ran p ++ pending p;
  inv_dropped : closed p = false → dropped p = [];
}.

(** ** Lemmas *)

Lemma pool_initial_inv size submits waits : pool_inv (start size submits waits).
Proof.
  assert (∀ f : pc → bool, (∀ t, f (SubLock t) = false) → count f (map SubLock submits) = 0) as Hsub.
  { intros f Hf. induction submits as [|t l IH]; [done|]. cbn [map]. by rewrite count_cons, Hf, IH. }
  assert ((map SubLock submits : list pc) ≫= in_hand = []) as Hnil.
  { clear Hsub. induction submits as [|t l IH]; [done|]. cbn [map]. by rewrite bind_cons, IH. }
  assert (∀ n q, in_hand q = [] → (replicate n q : list pc) ≫= in_hand = []) as Hrep.
  { intros n q Hq. induction n as [|n IH]; [done|]. cbn [replicate]. by rewrite bind_cons, Hq, IH. }
  split; cbn; rewrite ?count_app, ?count_replicate, ?Hsub; cbn; try done; try lia.
  unfold pending. cbn. by rewrite !bind_app, Hnil, !Hrep.
Qed.

(** No task is lost or duplicated by a step. *)
Lemma step_conserves p p' :
  step p p' → accepted p ≡ₚ ran p ++ pending p → accepted p' ≡ₚ ran p' ++ pending p'.
Proof.
  destruct p as [cp qu cc cl pk th ac dr rn su]. unfold pending. intros Hstep Hc. cbn in *.
  inversion Hstep; subst; clear Hstep; cbn in *;
    match goal with Hi : th !! ?i = Some ?q |- context [ <[?i:=?q']> th ] =>
      pose proof (bind_insert_perm in_hand th i q q' Hi) as Hperm end;
    try (destruct t as [x|]); try (destruct a); try (destruct r); cbn in Hperm; rewrite ?app_nil_r in Hperm; rewrite ?bind_app; cbn;
    rewrite ?app_nil_r, Hc;
    try match goal with Hqu : qu = _ |- _ => rewrite Hqu; cbn end;
    first [ rewrite Hperm; solve_Permutation | rewrite <- Hperm; solve_Permutation
          | apply Permutation_app_inv_r in Hperm; by rewrite Hperm ].
Qed.

(** What counting says about every class of threads after one thread moved. *)
Ltac counts Hi q' :=
  match type of Hi with ?l !! ?i = Some ?q =>
    pose proof (count_insert holds_write l i q q' Hi); pose proof (count_insert holds_read l i q q' Hi);
    pose proof (count_insert is_writer l i q q' Hi);
    pose proof (count_insert in_select l i q q' Hi); pose proof (count_insert is_waiting l i q q' Hi);
    pose proof (count_insert worker_gone l i q q' Hi); pose proof (count_insert wait_done l i q q' Hi);
    pose proof (count_insert is_worker l i q q' Hi);
    pose proof (count_lookup holds_read l i q Hi); pose proof (count_lookup in_select l i q Hi);
    pose proof (count_lookup is_worker l i q Hi)
  end; cbn in *.

Lemma pool_step_inv p p' : pool_inv p → step p p' → pool_inv p'.
Proof.
  intros HI Hstep. pose proof (step_conserves p p' Hstep (inv_conserved p HI)) as Hcons.
  destruct p as [cp qu cc cl pk th ac dr rn su].
  destruct HI as [Hp Hf Hwr Hx Hq Hw He Heq Hd Hn Hcap _ Hdr]. cbn in *. subst pk cc.
  pose proof (count_le in_select holds_read th ltac:(by intros [| | | | | | | | | | | |[]])) as Hle.
  pose proof (count_le holds_write is_writer th ltac:(by intros [])) as Hle2.
  inversion Hstep; subst; clear Hstep; cbn in *;
    try (match goal with t : option T |- _ => destruct t end); try (destruct a); try (destruct r);
    match goal with Hi : th !! ?i = Some ?q |- context [ <[?i:=?q']> _ ] => counts Hi q' | Hi : th !! ?i = Some ?q |- context [ move _ ?i ?q' ] => counts Hi q' end;
    try (match goal with Hqu : qu = _ |- _ => apply (f_equal length) in Hqu; cbn in Hqu end);
    destruct cl; try done;
    repeat match goal with H : ?b = ?b → _ |- _ => specialize (H eq_refl) end;
    split; cbn in *; rewrite ?length_app, ?count_app, ?count_cons, ?count_nil; cbn; intros; (done || lia).
Qed.

Lemma pool_reachable_inv size submits waits p : rtc step (start size submits waits) p → pool_inv p.
Proof. intros Hr. by apply (rtc_invariant step pool_inv pool_step_inv _ _ Hr), pool_initial_inv. Qed.

(** Every task given to [Submit] is still being submitted, accepted or dropped. *)
Definition submissions_kept (p : pool) : Prop :=
  submitted p ≫= option_list ≡ₚ (threads p ≫= in_submission) ++ accepted p ++ (dropped p ≫= option_list).

Lemma step_submissions p p' : pool_inv p → step p p' → submissions_kept p → submissions_kept p'.
Proof.
  intros HI Hstep. pose proof (inv_closed_quiet p HI) as Hq. pose proof (inv_flags p HI) as Hf.
  destruct p as [cp qu cc cl pk th ac dr rn su]. unfold submissions_kept. cbn in *. subst cc. intros Hs.
  inversion Hstep; subst; clear Hstep; cbn in *;
    match goal with Hi : th !! ?i = Some ?q |- context [ <[?i:=?q']> th ] =>
      pose proof (bind_insert_perm in_submission th i q q' Hi) as Hperm; pose proof (count_lookup in_select th i q Hi) end;
    try (destruct t as [x|]); try (destruct a as [[t|]|]); try (destruct r); cbn in Hperm; rewrite ?app_nil_r in Hperm;
    rewrite ?bind_app, ?bind_cons; cbn; rewrite ?app_nil_r;
    (* nobody is about to send once the pool is closed *)
    try (exfalso; match goal with Hcl : cl = true, Hc : _ → 0 < count in_select _ |- _ =>
      specialize (Hq Hcl); specialize (Hc eq_refl); lia end);
    rewrite Hs;
    first [ rewrite Hperm; solve_Permutation | rewrite <- Hperm; solve_Permutation
          | apply Permutation_app_inv_r in Hperm; by rewrite Hperm ].
Qed.

Lemma submissions_kept_initial size submits waits : submissions_kept (start size submits waits).
Proof.
  unfold submissions_kept. cbn. rewrite app_nil_r, !bind_app.
  assert (∀ n q, in_submission q = [] → (replicate n q : list pc) ≫= in_submission = []) as Hrep.
  { intros n q Hq. induction n as [|n IH]; [done|]. cbn [replicate]. by rewrite bind_cons, Hq, IH. }
  rewrite !Hrep, app_nil_r by done. cbn. induction submits as [|t l IH]; [done|]. cbn [map]. by rewrite !bind_cons, IH.
Qed.

(** The calls of [Submit] by tasks come after those the goroutines make. *)
Lemma step_submitted p p' : step p p' → ∃ nested, submitted p' = submitted p ++ nested.
Proof.
  intros Hstep. inversion Hstep; subst; cbn; try (exists []; by rewrite app_nil_r). by eexists.
Qed.

Lemma rtc_submitted p p' : rtc step p p' → ∃ nested, submitted p' = submitted p ++ nested.
Proof.
  induction 1 as [p|p q r Hstep _ [n IH]]; [exists []; by rewrite app_nil_r|].
  destruct (step_submitted _ _ Hstep) as [m Hm]. exists (m ++ n). by rewrite IH, Hm, app_assoc.
Qed.

Lemma reachable_submissions size submits waits p : rtc step (start size submits waits) p → submissions_kept p.
Proof.
  intros Hr. apply (rtc_invariant step (λ p, pool_inv p ∧ submissions_kept p)) in Hr; [by destruct Hr| |].
  - intros q q' [HI Hq] Hs. eauto using pool_step_inv, step_submissions.
  - split; [apply pool_initial_inv|apply submissions_kept_initial].
Qed.

Lemma created size submits waits p0 :
  NewGoroutinePool size submits waits = Done p0 → p0 = start (Z.to_nat size) submits waits.
Proof. unfold NewGoroutinePool. by case_bool_decide; intros; simplify_eq. Qed.

Lemma count_zero_lookup {A} (f : A → bool) l i (x : A) : count f l = 0 → l !! i = Some x → f x = false.
Proof. intros Hc Hi. destruct (f x) eqn:Hf; [|done]. pose proof (count_lookup f l i x Hi Hf). lia. Qed.

Lemma count_pos_lookup {A} (f : A → bool) (l : list A) : count f l ≠ 0 → ∃ i x, l !! i = Some x ∧ f x = true.
Proof.
  induction l as [|x l IH]; [done|]. rewrite count_cons. destruct (f x) eqn:Hf; cbn; intros Hne.
  - by exists 0, x.
  - destruct (IH Hne) as (i & y & Hi & Hy). by exists (S i), y.
Qed.

(** A returned [Wait] means no worker, no queue and nobody in the read section of an open pool. *)
Lemma wait_done_drained p :
  pool_inv p → WaitDone ∈ threads p → closed p = true ∧ count is_worker (threads p) = 0 ∧ pending p = [].
Proof.
  intros HI [i Hi]%list_elem_of_lookup.
  assert (closed p = true) as Hcl.
  { destruct (closed p) eqn:Hcl; [done|]. by pose proof (count_zero_lookup _ _ _ _ (inv_waiting p HI Hcl) Hi). }
  assert (count is_worker (threads p) = 0) as Hw.
  { apply (inv_wait_done p HI). by apply (count_lookup _ _ _ _ Hi). }
  split; [done|]. split; [done|]. unfold pending.
  assert (queue p = []) as ->.
  { apply length_zero_iff_nil. pose proof (inv_capacity p HI). pose proof (inv_workers p HI).
    destruct (inv_exit_queue p HI); lia. }
  rewrite app_nil_r. pose proof (inv_closed_quiet p HI Hcl) as Hq. revert Hw Hq. clear.
  induction (threads p) as [|q l IH]; [done|]. rewrite !count_cons, bind_cons. intros Hw Hq.
  rewrite IH by lia. destruct q as [| | | | | | | | | | | |[]]; cbn in *; (done || lia).
Qed.

(** *** Work left once the pool is closed, when no task waits for the pool *)

Section orderly.
Context (Hbody : ∀ x, CallWait ∉ body x).

(** Inside a call of Submit. *)
Definition in_submit (q : pc) : bool :=
  match q with SubLock _ | SubCheck _ | SubSelect _ | SubUnlock | SubDone | Exec Inline _ _ _ => true | _ => false end.

(** A task has no Wait to make and waits for a Submit only. *)
Definition orderly_pc (th : list pc) (q : pc) : Prop :=
  match q with
  | Exec _ _ rest w => CallWait ∉ rest ∧ (∀ j, w = Some j → ∃ q', th !! j = Some q' ∧ in_submit q' = true)
  | _ => True
  end.

Definition orderly (p : pool) : Prop := ∀ i q, threads p !! i = Some q → orderly_pc (threads p) q.

(** A call of Submit stays one. *)
Definition submits_stay (th th' : list pc) : Prop :=
  ∀ j q, th !! j = Some q → in_submit q = true → ∃ q', th' !! j = Some q' ∧ in_submit q' = true.

Lemma submits_stay_insert th i q q' :
  th !! i = Some q → (in_submit q = true → in_submit q' = true) → submits_stay th (<[i:=q']> th).
Proof.
  intros Hi Hq j r Hj Hr. destruct (decide (i = j)) as [<-|Hne].
  - exists q'. split; [apply list_lookup_insert_eq; by eapply lookup_lt_Some|]. apply Hq. by simplify_eq.
  - exists r. by rewrite list_lookup_insert_ne.
Qed.

Lemma submits_stay_app th th' l : submits_stay th th' → submits_stay th (th' ++ l).
Proof. intros Hs j q Hj Hq. destruct (Hs j q Hj Hq) as (q' & Hj' & Hq'). exists q'. split; [by apply lookup_app_l_Some|done]. Qed.

Lemma orderly_pc_stay th th' q : submits_stay th th' → orderly_pc th q → orderly_pc th' q.
Proof.
  intros Hs. destruct q; try done. intros [Hrest Hw]. split; [done|]. intros j Hj.
  destruct (Hw j Hj) as (q' & Hj' & Hq'). by eapply Hs.
Qed.

Lemma orderly_insert th i q q' :
  (∀ i q, th !! i = Some q → orderly_pc th q) → th !! i = Some q → (in_submit q = true → in_submit q' = true) →
  orderly_pc (<[i:=q']> th) q' → ∀ j r, <[i:=q']> th !! j = Some r → orderly_pc (<[i:=q']> th) r.
Proof.
  intros Ho Hi Hq Hq' j r [[-> [<- _]]|[_ Hj]]%list_lookup_insert_Some; [done|].
  eapply orderly_pc_stay; [by eapply submits_stay_insert|by eapply Ho].
Qed.

Lemma orderly_step p p' : orderly p → step p p' → orderly p'.
Proof.
  destruct p as [cp qu cc cl pk th ac dr rn su]. unfold orderly. intros Ho Hstep. cbn in *.
  inversion Hstep; subst; clear Hstep; cbn in *;
    match goal with Hi : th !! ?i = Some ?q |- context [ <[?i:=?q']> th ] =>
      pose proof (Ho i q Hi) as Hq;
      (* a thread that only moves *)
      try (apply (orderly_insert th i q q' Ho Hi); [try (destruct t); try (destruct r); done|])
    end;
    try (destruct t); try (destruct r); cbn in *; try done; try (by split; [apply Hbody|]); try (by destruct Hq as [? _]; split).
  (* a task that calls the pool *)
  all: intros j q [Hj|[Hj Hk]]%lookup_app_Some; [|by apply list_lookup_singleton_Some in Hk as [_ <-]; destruct a].
  all: destruct Hq as [[Ha Hrest]%not_elem_of_cons _].
  all: apply list_lookup_insert_Some in Hj as [(-> & <- & Hlt)|[Hne Hj]].
  all: try (eapply orderly_pc_stay; [|by eapply Ho]; by eapply submits_stay_app, submits_stay_insert).
  all: split; [done|]; intros k [= <-]; exists (call_pc a); split; [|by destruct a].
  all: rewrite lookup_app_r, length_insert, Nat.sub_diag by (by rewrite length_insert); done.
Qed.

Lemma orderly_initial size submits waits : orderly (start size submits waits).
Proof.
  intros i q Hi. cbn in Hi. apply list_elem_of_lookup_2 in Hi. rewrite !elem_of_app, list_elem_of_fmap in Hi.
  destruct Hi as [[-> _]%elem_of_replicate|[(t & -> & _)|[-> _]%elem_of_replicate]]; done.
Qed.

Definition weight (q : pc) : nat :=
  match q with
  | SubLock _ => 3 | SubCheck _ => 2 | SubSelect _ => 4 | SubUnlock => 1 | SubDone => 0
  | WaitLock => 4 | WaitPending => 3 | WaitCrit => 2 | WaitWG => 1 | WaitDone => 0
  | WIdle => 1 | WExit => 0
  | Exec _ _ rest w => 2 + 5 * length rest + match w with Some _ => 1 | None => 0 end
  end.

Definition task_weight (t : option T) : nat := 2 + match t with Some x => 5 * length (body x) | None => 0 end.

Definition work (p : pool) : nat := total weight (threads p) + total task_weight (queue p).

(** After the close every step reduces the remaining work and keeps the pool closed. *)
Lemma pool_closed_step p p' :
  pool_inv p → orderly p → closed p = true → step p p' → closed p' = true ∧ work p' < work p.
Proof.
  intros HI Ho Hcl Hstep. pose proof (inv_closed_quiet p HI Hcl) as Hq. pose proof (inv_flags p HI) as Hf.
  destruct p as [cp qu cc cl pk th ac dr rn su]. unfold work, orderly in *. cbn in *. subst.
  inversion Hstep; subst; clear Hstep; cbn in *; try done;
    try (match goal with t : option T |- _ => destruct t end);
    match goal with Hi : th !! ?i = Some ?q |- context [ <[?i:=?q']> th ] =>
      pose proof (Ho i q Hi) as Hoq;
      pose proof (total_insert weight th i q q' Hi); pose proof (total_lookup weight th i q Hi);
      pose proof (count_lookup in_select th i q Hi) end;
    try (match goal with Hqu : qu = _ |- _ => rewrite Hqu in * end); try (destruct r); try (destruct a); cbn in *;
    rewrite ?total_app, ?total_cons, ?total_nil in *; unfold task_weight in *; cbn in *; split; try (done || lia).
  all: destruct Hoq as [Hno _]; exfalso; apply Hno; by left.
Qed.

(** *** Who can move once the pool is closed *)

Lemma reader_progress p i q :
  pool_inv p → closed p = true → threads p !! i = Some q → holds_read q = true → ∃ p', step p p'.
Proof.
  intros HI Hcl Hi Hq. pose proof (count_zero_lookup _ _ _ _ (inv_closed_quiet p HI Hcl) Hi) as Hs.
  destruct q as [| | | | | | | | | | | |[]]; try done; eauto using step.
Qed.

Lemma writer_progress p : pool_inv p → closed p = true → count is_writer (threads p) ≠ 0 → ∃ p', step p p'.
Proof.
  intros HI Hcl (i & q & Hi & Hq)%count_pos_lookup. destruct q; try done; [|by eauto using step].
  destruct (decide (count holds_read (threads p) = 0)) as [|Hr]; [by eauto using step|].
  apply count_pos_lookup in Hr as (j & r & Hj & Hr). by eapply reader_progress.
Qed.

Lemma submit_progress p i q :
  pool_inv p → closed p = true → threads p !! i = Some q → in_submit q = true → q = SubDone ∨ ∃ p', step p p'.
Proof.
  intros HI Hcl Hi Hq. destruct (holds_read q) eqn:Hr; [right; by eapply reader_progress|].
  destruct q as [| | | | | | | | | | | |[]]; try done; [|by left]. right.
  destruct (decide (count is_writer (threads p) = 0)); [by eauto using step|by apply writer_progress].
Qed.

Lemma exec_progress p i r x rest w :
  pool_inv p → orderly p → closed p = true → threads p !! i = Some (Exec r x rest w) → ∃ p', step p p'.
Proof.
  intros HI Ho Hcl Hi. destruct w as [j|]; [|by destruct rest; eauto using step].
  destruct (Ho i _ Hi) as [_ Hw]. destruct (Hw j eq_refl) as (q & Hj & Hq).
  destruct (submit_progress p j q HI Hcl Hj Hq) as [->|]; [|done]. by eauto using step.
Qed.

Lemma worker_progress p : pool_inv p → orderly p → closed p = true → count is_worker (threads p) ≠ 0 → ∃ p', step p p'.
Proof.
  intros HI Ho Hcl (i & q & Hi & Hq)%count_pos_lookup. destruct q as [| | | | | | | | | | | |r]; try done; [|by eapply exec_progress].
  pose proof (inv_flags p HI) as Hf. rewrite Hcl in Hf. destruct (queue p) eqn:Hqu; by eauto using step.
Qed.

(** When the pool is closed, an unfinished thread means some thread can move. *)
Lemma pool_closed_progress p i q :
  pool_inv p → orderly p → closed p = true → threads p !! i = Some q → finished q = false → ∃ p', step p p'.
Proof.
  intros HI Ho Hcl Hi Hq.
  destruct (in_submit q) eqn:Hs; [by destruct (submit_progress p i q HI Hcl Hi Hs) as [->|]|].
  destruct (is_worker q) eqn:Hw; [apply worker_progress; [done..|]; pose proof (count_lookup _ _ _ _ Hi Hw); lia|].
  destruct (decide (count is_writer (threads p) = 0)) as [|Hr]; [|by apply writer_progress].
  destruct q as [| | | | | | | | | | | |[]]; try done.
  - by eauto using step.
  - by pose proof (count_zero_lookup _ _ _ _ e Hi).
  - by pose proof (count_zero_lookup _ _ _ _ e Hi).
  - destruct (decide (count is_worker (threads p) = 0)) as [|Hn]; [by eauto using step|by apply worker_progress].
Qed.

End orderly.

(** ** Properties *)

(** The pool never panics: whatever the interleaving of any number of
    [Submit], [Wait] and [Close] calls and workers, and whatever the tasks do, no
    task is sent on the closed channel and the channel is not closed twice. *)
Theorem pool_never_panics size submits waits p0 p :
  NewGoroutinePool size submits waits = Done p0 → rtc step p0 p → panicked p = false.
Proof. intros ->%created Hr. apply (inv_no_panic p (pool_reachable_inv _ _ _ _ Hr)). Qed.

(** C23: [Wait] waits for everything: when some [Wait] or [Close] call has
    returned, the pool is closed and every task ever accepted, whether queued or
    run inline by its submitter, by a goroutine or by another task, has run exactly
    once; nothing is queued or running. *)
Theorem wait_completes_accepted_tasks size submits waits p0 p :
  NewGoroutinePool size submits waits = Done p0 → rtc step p0 p → WaitDone ∈ threads p →
  IsClosed p = true ∧ pending p = [] ∧ accepted p ≡ₚ ran p.
Proof.
  intros ->%created Hr Hw. pose proof (pool_reachable_inv _ _ _ _ Hr) as HI.
  destruct (wait_done_drained p HI Hw) as (Hcl & _ & Hp). repeat split; try done.
  rewrite (inv_conserved p HI), Hp. by rewrite app_nil_r.
Qed.

(** C24: no task is lost or invented: at every moment the tasks given to [Submit],
    by the goroutines and then by tasks that submit others, are exactly the ones
    still inside an undecided call of [Submit], the accepted ones and the dropped
    ones; the accepted ones are exactly the finished ones, the ones in execution
    and the ones queued; the queue is within its capacity; and tasks are dropped
    only by a closed pool. *)
Theorem pool_conserves_tasks size submits waits p0 p :
  NewGoroutinePool size submits waits = Done p0 → rtc step p0 p →
  (∃ nested, submitted p = submits ++ nested) ∧
  submitted p ≫= option_list ≡ₚ (threads p ≫= in_submission) ++ accepted p ++ (dropped p ≫= option_list) ∧
  accepted p ≡ₚ ran p ++ (threads p ≫= in_hand) ++ (queue p ≫= option_list) ∧
  length (queue p) ≤ cap p ∧ (dropped p ≠ [] → IsClosed p = true).
Proof.
  intros ->%created Hr. pose proof (pool_reachable_inv _ _ _ _ Hr) as HI.
  split; [apply (rtc_submitted _ _ Hr)|]. split; [by eapply reachable_submissions|]. repeat split.
  - apply (inv_conserved p HI).
  - apply (inv_capacity p HI).
  - unfold IsClosed. intros Hd. destruct (closed p) eqn:Hcl; [done|]. by rewrite (inv_dropped p HI Hcl) in Hd.
Qed.

(** C26: closing terminates, provided no task itself waits for the pool: once the
    pool is closed it takes only boundedly many more steps whatever the scheduler
    does, and when no step is possible every submitter, every waiter and every
    worker has finished.  Tasks may submit further tasks. *)
Theorem pool_shutdown_terminates size submits waits p0 p n p' :
  (∀ x, CallWait ∉ body x) →
  NewGoroutinePool size submits waits = Done p0 → rtc step p0 p → IsClosed p = true → nsteps step n p p' →
  n ≤ work p ∧ ((∀ p'', ¬ step p' p'') → Forall (λ q, finished q = true) (threads p')).
Proof.
  intros Hbody ->%created Hr Hcl Hn.
  assert (orderly p) as Ho by (apply (rtc_invariant step orderly (orderly_step Hbody) _ _ Hr), orderly_initial).
  apply pool_reachable_inv in Hr.
  destruct (bounded_steps step (λ p, pool_inv p ∧ orderly p ∧ closed p = true) work) with (n := n) (s := p) (s' := p')
    as [Hb (HI' & Ho' & Hcl')]; [|done|done|].
  - intros q q' (HI & Hq & Hqc) Hstep. destruct (pool_closed_step q q' HI Hq Hqc Hstep).
    eauto 6 using pool_step_inv, orderly_step.
  - split; [done|]. intros Hstuck. apply Forall_lookup. intros i q Hi.
    destruct (finished q) eqn:Hf; [done|].
    destruct (pool_closed_progress p' i q HI' Ho' Hcl' Hi Hf) as [p'' Hp'']. by destruct (Hstuck p'').
Qed.

(** No step is possible although some goroutine has neither finished nor is it a
    worker waiting for tasks. *)
Definition deadlocked (p : pool) : Prop :=
  (∀ p', ¬ step p p') ∧ Exists (λ q, finished q = false ∧ q ≠ WIdle) (threads p).

End pool.

(** ** Tasks that call the pool they run on *)

(** Task 0 makes no call, task 1 submits a nil task, the others close the pool. *)
Definition reentrant (x : nat) : list (call nat) :=
  match x with 0 => [] | 1 => [CallSubmit None] | _ => [CallWait] end.

(** Take a step of thread [i] with the given rule. *)
Ltac take rule i := eapply rtc_l; [eapply (rule _ _ _ i); (reflexivity || (cbn; lia))|cbn].

(** An inline task submits another while a Wait is pending: the nested RLock waits for
    the writer, the writer for the outer read section, and that one for the task. *)
Definition stuck_submit : pool (T := nat) :=
  mkPool 1 [] false false false [WIdle; SubDone; Exec Inline 1 [] (Some 4); WaitPending; SubLock None] [1; 0] [] [0] [Some 0; Some 1; None].

(** A worker's task closes the pool: wg.Wait waits for the worker that runs it. *)
Definition stuck_close : pool (T := nat) :=
  mkPool 1 [] true true false [Exec Worker 2 [] (Some 2); SubDone; WaitWG] [2] [] [] [Some 2].

(** No rule applies to any thread of a given pool. *)
Ltac no_step :=
  intros p' Hstep; inversion Hstep; subst; cbn in *;
  repeat match goal with H : (_ :: _) !! ?i = Some _ |- _ => destruct i; cbn in H; simplify_eq/= end; done.

(** C25: a task must neither submit to nor close the pool that runs it, although
    nothing in the code or its comments forbids it.  In a pool of one worker, an
    inline task that submits deadlocks with a concurrent [Wait], and a task that
    closes the pool waits for itself: both states are reachable and final, with
    goroutines that never finish. *)
Theorem reentrant_tasks_deadlock :
  (NewGoroutinePool 1 [Some 0; Some 1] 1 = Done (start 1 [Some 0; Some 1] 1) ∧
   rtc (step reentrant) (start 1 [Some 0; Some 1] 1) stuck_submit ∧ deadlocked reentrant stuck_submit) ∧
  (NewGoroutinePool 1 [Some 2] 0 = Done (start 1 [Some 2] 0) ∧
   rtc (step reentrant) (start 1 [Some 2] 0) stuck_close ∧ deadlocked reentrant stuck_close).
Proof.
  split; (split; [done|]; split).
  - take @step_rlock 1. take @step_check_open 1. take @step_send 1. take @step_runlock 1.
    take @step_rlock 2. take @step_check_open 2. take @step_default 2. take @step_announce 3. take @step_call 2.
    take @step_recv 0. take @step_finish 0. apply rtc_refl.
  - split; [no_step|]. apply Exists_cons_tl, Exists_cons_tl, Exists_cons_hd. done.
  - take @step_rlock 1. take @step_check_open 1. take @step_send 1. take @step_runlock 1. take @step_recv 0. take @step_call 0.
    take @step_announce 2. take @step_lock 2. take @step_close 2. apply rtc_refl.
  - split; [no_step|]. apply Exists_cons_hd. done.
Qed.

(** ** Witnesses *)

(** Task 1 is queued, task 2 finds the queue full and runs inline, then the pool is
    closed and drained; task 1 submits another task on its way, and task 3 comes
    too late. *)
Definition chatty (x : nat) : list (call nat) := match x with 1 => [CallSubmit (Some 4)] | _ => [] end.

Definition demo_closed : pool (T := nat) :=
  mkPool 1 [Some 1] true true false [WIdle; SubDone; SubDone; SubLock (Some 3); WaitWG] [2; 1] [] [2] [Some 1; Some 2; Some 3].

Definition demo_drained : pool (T := nat) :=
  mkPool 1 [] true true false [WExit; SubDone; SubDone; SubLock (Some 3); WaitDone; SubDone] [2; 1] [Some 4] [1; 2] [Some 1; Some 2; Some 3; Some 4].

Lemma demo_closed_run : rtc (step chatty) (start 1 [Some 1; Some 2; Some 3] 1) demo_closed.
Proof.
  take @step_rlock 1. take @step_check_open 1. take @step_send 1. take @step_rlock 2. take @step_check_open 2. take @step_default 2.
  take @step_finish 2. take @step_runlock 1. take @step_runlock 2. take @step_announce 4. take @step_lock 4. take @step_close 4.
  apply rtc_refl.
Qed.

Lemma demo_drain_steps : nsteps (step chatty) 9 demo_closed demo_drained.
Proof.
  eapply nsteps_l; [by apply (step_recv _ _ 0 (Some 1) [])|].
  eapply nsteps_l; [by apply (step_call _ _ 0 Worker 1 (CallSubmit (Some 4)) [])|].
  eapply nsteps_l; [by apply (step_rlock _ _ 5 (Some 4))|].
  eapply nsteps_l; [by apply (step_check_closed _ _ 5 (Some 4))|].
  eapply nsteps_l; [by apply (step_runlock _ _ 5)|].
  eapply nsteps_l; [by apply (step_return _ _ 0 Worker 1 [] 5 SubDone)|].
  eapply nsteps_l; [by apply (step_finish _ _ 0 Worker 1)|].
  eapply nsteps_l; [by apply (step_range_end _ _ 0)|].
  eapply nsteps_l; [by apply (step_wg _ _ 4)|].
  apply nsteps_O.
Qed.

Lemma demo_drained_run : rtc (step chatty) (start 1 [Some 1; Some 2; Some 3] 1) demo_drained.
Proof. etrans; [apply demo_closed_run|]. apply rtc_nsteps. exists 9. apply demo_drain_steps. Qed.

Lemma pool_never_panics_witness : panicked demo_drained = false.
Proof. apply (pool_never_panics chatty 1 [Some 1; Some 2; Some 3] 1 (start 1 [Some 1; Some 2; Some 3] 1)); [reflexivity|]. apply demo_drained_run. Defined.

Lemma wait_completes_accepted_tasks_witness :
  IsClosed demo_drained = true ∧ pending demo_drained = [] ∧ accepted demo_drained ≡ₚ ran demo_drained.
Proof.
  apply (wait_completes_accepted_tasks chatty 1 [Some 1; Some 2; Some 3] 1 (start 1 [Some 1; Some 2; Some 3] 1)); [reflexivity|apply demo_drained_run|].
  cbn. do 4 right. by left.
Defined.

Lemma pool_conserves_tasks_witness :
  (∃ nested, submitted demo_drained = [Some 1; Some 2; Some 3] ++ nested) ∧
  submitted demo_drained ≫= option_list ≡ₚ
    (threads demo_drained ≫= in_submission) ++ accepted demo_drained ++ (dropped demo_drained ≫= option_list) ∧
  accepted demo_drained ≡ₚ ran demo_drained ++ (threads demo_drained ≫= in_hand) ++ (queue demo_drained ≫= option_list) ∧
  length (queue demo_drained) ≤ cap demo_drained ∧ (dropped demo_drained ≠ [] → IsClosed demo_drained = true).
Proof. apply (pool_conserves_tasks chatty 1 [Some 1; Some 2; Some 3] 1 (start 1 [Some 1; Some 2; Some 3] 1)); [reflexivity|]. apply demo_drained_run. Defined.

Lemma pool_shutdown_terminates_witness :
  9 ≤ work chatty demo_closed ∧
  ((∀ p'', ¬ step chatty demo_drained p'') → Forall (λ q, finished q = true) (threads demo_drained)).
Proof.
  apply (pool_shutdown_terminates chatty 1 [Some 1; Some 2; Some 3] 1 (start 1 [Some 1; Some 2; Some 3] 1) demo_closed 9 demo_drained);
    [|reflexivity|apply demo_closed_run|reflexivity|apply demo_drain_steps].
  intros [|[|x]]; cbn; set_solver.
Defined.

End Pool.
