(* ===== verification/Env.v ===== *)
(** * The environment of the plugin

    Everything the plugin calls that is not under src/: the AMQP client library
    (github.com/rabbitmq/amqp091-go), the Lynx runtime (plugins.Runtime and
    plugins.BasePlugin), the configuration source (kratos config), user callbacks,
    the clock, contexts and the iteration order of Go maps.  Each call is an event
    of the family [E], indexed by the type of its answer; an environment is a state
    type with a handler for the events.  Nothing is assumed about the answers
    unless a theorem says so.  [logged] turns any environment into one that records
    every call with its answer, so that statements about which calls are made, and
    in which order, are ordinary statements about the log. *)

From S2P Require Import Prelude Errors Config Metrics.

(** The types of other packages, opaque to the plugin.
    - [PubRest]: the fields of amqp.Publishing the plugin only copies;
    - [Handler]: values of type MessageHandler;
    - [Operation]: values of type func() error given to the retry handler; a
      panicking operation is not an answer of the environment. *)
Class Types : Type := {
  Connection : Type;
  Channel : Type;
  NotifyChan : Type;
  Deliveries : Type;
  Delivery : Type;
  PubRest : Type;
  zeroRest : PubRest;
  Handler : Type;
  Operation : Type;
  Runtime : Type;
  #[global] types_dpb :: DurationPB;
}.

(** context.Context values: the background context is never cancelled. *)
Inductive Context_ : Type :=
| Background
| Derived (id : N).

Section env.
Context `{TY : Types}.

(** amqp.Config as the plugin fills it; [TLSClientConfig] by its MinVersion. *)
Record AmqpConfig : Type := mkAmqpConfig {
  Vhost : string;
  HeartbeatInterval : Z;
  Locale : string;
  DialTimeoutOpt : Z;
  TLSMinVersion : option Z;
}.

Definition VersionTLS12 : Z := 771.

(** amqp.Publishing. *)
Record Publishing : Type := mkPublishing {
  ContentType : string;
  DeliveryMode : Z;
  Timestamp : Time;
  Body : string;
  pubRest : PubRest;
}.

Definition Persistent : Z := 2.

(** What is registered with the runtime. *)
Inductive resource : Type :=
| ResClient | ResConfig (cfg : RabbitMQ) | ResConnection (c : Connection)
| ResProducers | ResConsumers | ResConnectionManager | ResHealthChecker | ResRetryHandler | ResMetrics
| ResBool (b : bool).

(** Errors made by the AMQP library: values of other packages, by identity and
    text, whose Error method returns. *)
Record foreign_error : Type := mkForeign { f_id : N; f_text : string }.

Definition as_error (e : foreign_error) : error := Foreign (f_id e) (f_text e).

(** What a user callback does: return an error value or panic; the recovered
    value and the stack are given as they print. *)
Inductive handler_result : Type :=
| HReturn (err : option error)
| HPanic (rec stack : string).

Inductive E : Type → Type :=
(* Go runtime *)
| ENow : E Time
| ECtxErr (id : N) : E (option error)
| ECtxTimer (id : N) (d : Z) : E (option error)
| ETimer (d : Z) : E unit
| EMapOrder (keys : list string) : E (list string)
(* amqp *)
| EDialConfig (url : string) (cfg : AmqpConfig) : E (Connection + foreign_error)
| EIsClosed (c : Connection) : E bool
| EChannel (c : Connection) : E (Channel + foreign_error)
| EConnClose (c : Connection) : E (option foreign_error)
| ENotifyClose (c : Connection) : E NotifyChan
| EExchangeDeclare (ch : Channel) (name kind : string) (durable autoDelete internal noWait : bool) : E (option foreign_error)
| EConfirm (ch : Channel) (noWait : bool) : E (option foreign_error)
| EQos (ch : Channel) (prefetchCount prefetchSize : Z) (global : bool) : E (option foreign_error)
| EQueueDeclare (ch : Channel) (name : string) (durable autoDelete exclusive noWait : bool)
    (args : option (gmap string string)) : E (option foreign_error)
| EChClose (ch : Channel) : E (option foreign_error)
| EPublish (ch : Channel) (ctx : Context_) (exchange key : string) (mandatory immediate : bool) (msg : Publishing) : E (option foreign_error)
| EConsume (ch : Channel) (ctx : Context_) (queue consumer : string) (autoAck exclusive noLocal noWait : bool) : E (Deliveries + foreign_error)
| EAck (d : Delivery) (multiple : bool) : E (option foreign_error)
| ENack (d : Delivery) (multiple requeue : bool) : E (option foreign_error)
(* user code *)
| EHandler (h : Handler) (ctx : Context_) (d : Delivery) : E handler_result
| EOperation (o : Operation) : E (option error)
(* lynx runtime, kratos config *)
| EBaseInitialize (rt : option Runtime) : E (option error)
| EGetConfig (rt : Runtime) : E bool
| EScan (rt : Runtime) (key : string) (cfg : RabbitMQ) : E (RabbitMQ * option error)
| ERegisterShared (rt : Runtime) (name : string) (v : resource) : E (option error)
| ERegisterPrivate (rt : Runtime) (name : string) (v : resource) : E (option error).

(** An environment: a state and a handler of the calls. *)
Class Env (W : Type) : Type := {
  handle : ∀ {A}, E A → W → A * W;
}.

(** The monads a goroutine can make calls from. *)
Class Calls (M : Type → Type) : Type := call : ∀ {A}, E A → M A.

#[global] Instance GoM_call {W} `{Env W} : Calls (GoM W) := λ A e w, Done (handle e w).

(** [ctx.Err()], which is also what a select on [ctx.Done()] with a default sees. *)
Definition ctx_Err {M} `{!MRet M, !Calls M} (ctx : Context_) : M (option error) :=
  match ctx with
  | Background => mret None
  | Derived id => call (ECtxErr id)
  end.

(** [select] between [ctx.Done()] and a timer of duration [d]: [Some e] when the
    context won, with [e] its [Err()]. *)
Definition select_done_or_timer {M} `{!MRet M, !MBind M, !Calls M} (ctx : Context_) (d : Z) : M (option error) :=
  match ctx with
  | Background => call (ETimer d) ;; mret None
  | Derived id => call (ECtxTimer id d)
  end.

(** The order in which [range] visits a map: any permutation of the keys. *)
Definition range_keys {M} `{!MRet M, !MBind M, !Calls M} {A} (m : gmap string A) : M (list string) :=
  let keys := (map_to_list m).*1 in
  order ← call (EMapOrder keys);
  mret (if bool_decide (order ≡ₚ keys) then order else keys).

(** ** Recording the calls *)

Record entry : Type := mkEntry { entry_type : Type; entry_call : E entry_type; entry_answer : entry_type }.

#[global] Instance logged {W} `{Env W} : Env (W * list entry) := {
  handle A e s := let '(a, w') := handle e (fst s) in (a, (w', snd s ++ [mkEntry A e a]));
}.

(** Classification of the calls, for statements about logs. *)

(** Calls that reach the broker or the network. *)
Definition network_call {A} (e : E A) : bool :=
  match e with
  | EDialConfig _ _ | EChannel _ | EConnClose _ | EExchangeDeclare _ _ _ _ _ _ _ | EConfirm _ _
  | EQos _ _ _ _ | EQueueDeclare _ _ _ _ _ _ _ | EChClose _ | EPublish _ _ _ _ _ _ _
  | EConsume _ _ _ _ _ _ _ _ | EAck _ _ | ENack _ _ _ => true
  | _ => false
  end.

Definition is_network (e : entry) : bool := network_call (entry_call e).

(** The channel an entry opened. *)
Definition opened (e : entry) : list Channel :=
  match e with
  | mkEntry _ c a =>
      match c in E A return A → list Channel with
      | EChannel _ => λ a, match a with inl ch => [ch] | inr _ => [] end
      | _ => λ _, []
      end a
  end.

(** The channel an entry closed. *)
Definition closed_channel (e : entry) : list Channel :=
  match e with
  | mkEntry _ c _ => match c with EChClose ch => [ch] | _ => [] end
  end.

(** The connection an entry opened, and the one it closed. *)
Definition dialed (e : entry) : list Connection :=
  match e with
  | mkEntry _ c a =>
      match c in E A return A → list Connection with
      | EDialConfig _ _ => λ a, match a with inl conn => [conn] | inr _ => [] end
      | _ => λ _, []
      end a
  end.

(** The URL an entry dials, with success or not. *)
Definition dial_attempt (e : entry) : list string :=
  match e with
  | mkEntry _ c _ => match c with EDialConfig url _ => [url] | _ => [] end
  end.

Definition closed_connection (e : entry) : list Connection :=
  match e with
  | mkEntry _ c _ => match c with EConnClose conn => [conn] | _ => [] end
  end.

(** Registrations with the runtime, in order: shared?, name, value. *)
Definition registration (e : entry) : list (bool * string * resource) :=
  match e with
  | mkEntry _ c _ =>
      match c with
      | ERegisterShared _ n v => [(true, n, v)]
      | ERegisterPrivate _ n v => [(false, n, v)]
      | _ => []
      end
  end.

(** Acknowledgements sent for a delivery: [inl d] an ack, [inr (d, requeue)] a nack. *)
Definition settlement (e : entry) : list (Delivery + Delivery * bool) :=
  match e with
  | mkEntry _ c _ =>
      match c with
      | EAck d _ => [inl d]
      | ENack d _ requeue => [inr (d, requeue)]
      | _ => []
      end
  end.

End env.

#[global] Arguments range_keys : simpl never.

(** Resolve an environment only when its state type is known. *)
#[global] Hint Mode Env - ! : typeclass_instances.
