(* ===== verification/Program.v ===== *)
(** * Programs over a shared state

    The functions of the client are programs: trees of critical sections of the
    shared state and calls to the environment.  A program can be run alone, in the
    state monad of [Prelude] ([run]), and it can be interleaved with others, one
    section or call at a time ([exec]).  Sections are atomic; between two of them
    any other goroutine may run. *)

From S2P Require Import Prelude Errors Env.

(** A shared state together with the environment. *)
Record Sys (C W : Type) : Type := mkSys { cl : C; world : W }.
Arguments mkSys {C W}.
Arguments cl {C W}.
Arguments world {C W}.

Section program.
Context `{TY : Types} {C : Type}.

Inductive prog (A : Type) : Type :=
| Ret (a : A)
| Sect {X : Type} (f : C → outcome (X * C)) (k : X → prog A)
| Call {X : Type} (e : E X) (k : X → prog A).
Arguments Ret {A}.
Arguments Sect {A X}.
Arguments Call {A X}.

#[global] Instance prog_ret : MRet prog := @Ret.

#[global] Instance prog_bind : MBind prog := λ A B k,
  fix bind m :=
    match m with
    | Ret a => k a
    | Sect f j => Sect f (λ x, bind (j x))
    | Call e j => Call e (λ x, bind (j x))
    end.

(** A call, and the critical sections that read or assign fields. *)
Definition ext {A} (e : E A) : prog A := Call e Ret.

#[global] Instance prog_calls : Calls prog := @ext.

Definition sect {X} (f : C → outcome (X * C)) : prog X := Sect f Ret.

Definition get {A} (f : C → A) : prog A := sect (λ c, Done (f c, c)).

Definition put (f : C → C) : prog unit := sect (λ c, Done (tt, f c)).

Definition panic {A} : prog A := sect (λ _, Panicked).

(** A value computed by code that may panic. *)
Definition from_outcome {A} (o : outcome A) : prog A :=
  match o with Done a => mret a | Panicked => panic | Blocked => sect (λ _, Blocked) end.

(** A component behind a pointer field. *)
Definition field_pointer {A} (field : C → option A) (assign : option A → C → C) : Pointer A prog := λ B f,
  sect (λ c, match field c with
             | None => Panicked
             | Some a =>
                 match f a with
                 | Done (b, a') => Done (b, assign (Some a') c)
                 | Panicked => Panicked
                 | Blocked => Blocked
                 end
             end).

(** ** Running alone *)

Fixpoint run {W} `{!Env W} {A} (m : prog A) : GoM (Sys C W) A := λ s,
  match m with
  | Ret a => Done (a, s)
  | Sect f k =>
      match f (cl s) with
      | Done (x, c) => run (k x) (mkSys c (world s))
      | Panicked => Panicked
      | Blocked => Blocked
      end
  | Call e k => let '(x, w) := handle e (world s) in run (k x) (mkSys (cl s) w)
  end.

(** ** One step of one goroutine *)

Definition exec {W} `{!Env W} {A} (m : prog A) (s : Sys C W) : outcome (prog A * Sys C W) :=
  match m with
  | Ret _ => Blocked
  | Sect f k =>
      match f (cl s) with
      | Done (x, c) => Done (k x, mkSys c (world s))
      | Panicked => Panicked
      | Blocked => Blocked
      end
  | Call e k => let '(x, w) := handle e (world s) in Done (k x, mkSys (cl s) w)
  end.

(** Running is a monad morphism. *)
Lemma run_bind {W} `{!Env W} {A B} (m : prog A) (k : A → prog B) (s : Sys C W) :
  run (m ≫= k) s = (a ← run m; run (k a)) s.
Proof.
  revert s. induction m as [a|X f j IH|X e j IH]; intros s; [done|..]; unfold mbind, GoM_bind in *; cbn.
  - destruct (f (cl s)) as [[]| |]; [apply IH|done..].
  - destruct (handle e (world s)); apply IH.
Qed.

(** ** Programs that run alike in every environment *)

#[global] Instance prog_equiv {A} : Equiv (prog A) := λ m m',
  ∀ W (EW : Env W) (s : Sys C W), run m s = run m' s.

#[global] Instance prog_equivalence {A} : Equivalence (≡@{prog A}).
Proof.
  split.
  - by intros m W EW s.
  - intros m m' H W EW s. by rewrite H.
  - intros m1 m2 m3 H12 H23 W EW s. by rewrite H12.
Qed.

#[global] Instance bind_proper {A B} :
  Proper (pointwise_relation A (≡) ==> (≡) ==> (≡)) (mbind (M := prog) (A := A) (B := B)).
Proof.
  intros k k' Hk m m' Hm W EW s. rewrite !run_bind. unfold mbind, GoM_bind. rewrite Hm.
  destruct (run m' s) as [[a s']| |]; [apply Hk|done..].
Qed.

Lemma bind_assoc {A B D} (m : prog A) (k : A → prog B) (j : B → prog D) : (m ≫= k) ≫= j ≡ m ≫= λ a, k a ≫= j.
Proof.
  intros W EW s. rewrite !run_bind. unfold mbind, GoM_bind at 1 2. rewrite run_bind. unfold mbind, GoM_bind.
  destruct (run m s) as [[a s']| |]; [|done..]. by rewrite (run_bind (k a) j).
Qed.

Lemma bind_ret_r {A} (m : prog A) : m ≫= mret ≡ m.
Proof. intros W EW s. rewrite run_bind. unfold mbind, GoM_bind. by destruct (run m s) as [[]| |]. Qed.

Lemma for_all_app {A} (body : A → prog unit) l1 l2 :
  for_all body (l1 ++ l2) ≡ (for_all body l1 ;; for_all body l2).
Proof.
  induction l1 as [|x l1 IH]; [done|]. cbn [app for_all]. rewrite bind_assoc. by apply bind_proper; [intros []|].
Qed.

End program.

#[global] Arguments prog {TY} C A.
#[global] Arguments Ret {TY C A} a.
#[global] Arguments Sect {TY C A X} f k.
#[global] Arguments Call {TY C A X} e k.
