(* ===== verification/NetUrl.v ===== *)
(** * net/url as the plugin uses it: Parse, URL.String, UserPassword

    A translation of the standard library's parser and printer, on byte strings.
    The client parses the configured broker URL, adds credentials and the virtual
    host, and prints it again (buildDialURL of src/client.go).  Errors carry no
    information there, so a failed parse is [None].  Hosts in square brackets are
    handed to net/netip by the library; that decision is the parameter
    [parse_ip_literal].  A host with more than one colon is rejected, as the
    toolchain named in src/go.mod does by default. *)

From S2P Require Import Prelude Utils.

Class NetIP : Type := {
  (** the text of a bracketed host with its optional port, to its unescaped form *)
  parse_ip_literal : string → option string;
}.

(** ** Characters *)

Definition code (c : ascii) : N := Ascii.N_of_ascii c.

Definition in_range (lo hi : N) (c : ascii) : bool := bool_decide (lo ≤ code c)%N && bool_decide (code c ≤ hi)%N.

Definition lower (c : ascii) : bool := in_range 97 122 c.
Definition upper (c : ascii) : bool := in_range 65 90 c.
Definition digit (c : ascii) : bool := in_range 48 57 c.
Definition alnum (c : ascii) : bool := lower c || upper c || digit c.

Definition among (s : string) (c : ascii) : bool := bool_decide (c ∈ chars s).

Definition ishex (c : ascii) : bool := digit c || in_range 97 102 c || in_range 65 70 c.

Definition unhex (c : ascii) : N :=
  if digit c then code c - 48
  else if in_range 97 102 c then code c - 97 + 10
  else code c - 65 + 10.

(** A byte of the table "0123456789ABCDEF". *)
Definition upperhex (n : N) : ascii := Ascii.ascii_of_N (if bool_decide (n < 10)%N then 48 + n else 55 + n).

Definition tolower (c : ascii) : ascii := if upper c then Ascii.ascii_of_N (code c + 32) else c.

Fixpoint smap (f : ascii → ascii) (s : string) : string :=
  match s with
  | EmptyString => ""
  | String c s' => String (f c) (smap f s')
  end.

(** [strings.ToLower] on ASCII text. *)
Definition ToLower (s : string) : string := smap tolower s.

Definition dquote_char : ascii := Ascii.ascii_of_N 34.

(** ** Escaping *)

Inductive encoding : Type := encodePath | encodeUserPassword | encodeHost | encodeFragment.

Definition shouldEscape (c : ascii) (mode : encoding) : bool :=
  if alnum c then false
  else if match mode with encodeHost => among "!$&'()*+,;=:[]<>" c || bool_decide (c = dquote_char) | _ => false end then false
  else if among "-_.~" c then false
  else if among "$&+,/:;=?@" c then
    match mode with
    | encodePath => bool_decide (c = "?"%char)
    | encodeUserPassword => among "@/?:" c
    | encodeFragment => false
    | encodeHost => true
    end
  else match mode with encodeFragment => negb (among "!()*" c) | _ => true end.

Fixpoint escape (s : string) (mode : encoding) : string :=
  match s with
  | EmptyString => ""
  | String c s' =>
      if shouldEscape c mode
      then String "%" (String (upperhex (code c / 16)) (String (upperhex (code c mod 16)) (escape s' mode)))
      else String c (escape s' mode)
  end.

Fixpoint unescape (s : string) (mode : encoding) : option string :=
  match s with
  | EmptyString => Some ""
  | String c s' =>
      if bool_decide (c = "%"%char) then
        match s' with
        | String h (String l s'') =>
            if ishex h && ishex l then
              if match mode with
                 | encodeHost => bool_decide (unhex h < 8)%N && negb (bool_decide (h = "2"%char) && bool_decide (l = "5"%char))
                 | _ => false
                 end
              then None
              else String (Ascii.ascii_of_N (unhex h * 16 + unhex l)) <$> unescape s'' mode
            else None
        | _ => None
        end
      else if match mode with encodeHost => bool_decide (code c < 128)%N && shouldEscape c encodeHost | _ => false end
      then None
      else String c <$> unescape s' mode
  end.

(** [validEncoded]: could [s] be an encoding the caller chose? *)
Definition validEncoded (s : string) (mode : encoding) : bool :=
  forallb (λ c, among "!$&'()*+,;=:@[]%" c || negb (shouldEscape c mode)) (chars s).

(** ** The URL *)

Record Userinfo : Type := mkUserinfo { username : string; password : option string }.

Definition UserPassword (u p : string) : Userinfo := mkUserinfo u (Some p).

Record URL : Type := mkURL {
  Scheme : string;
  Opaque : string;
  User : option Userinfo;
  Host : string;
  Path : string;
  RawPath : string;
  OmitHost : bool;
  ForceQuery : bool;
  RawQuery : string;
  Fragment : string;
  RawFragment : string;
}.

Definition set_User (v : option Userinfo) (u : URL) : URL :=
  mkURL (Scheme u) (Opaque u) v (Host u) (Path u) (RawPath u) (OmitHost u) (ForceQuery u) (RawQuery u) (Fragment u) (RawFragment u).
Definition set_Path (v : string) (u : URL) : URL :=
  mkURL (Scheme u) (Opaque u) (User u) (Host u) v (RawPath u) (OmitHost u) (ForceQuery u) (RawQuery u) (Fragment u) (RawFragment u).

(** ** String *)

Definition Userinfo_String (u : Userinfo) : string :=
  escape (username u) encodeUserPassword +:+
  match password u with
  | Some p => ":" +:+ escape p encodeUserPassword
  | None => ""
  end.

Definition EscapedPath (u : URL) : string :=
  if bool_decide (RawPath u ≠ "") && validEncoded (RawPath u) encodePath
     && bool_decide (unescape (RawPath u) encodePath = Some (Path u))
  then RawPath u
  else if bool_decide (Path u = "*") then "*"
  else escape (Path u) encodePath.

Definition EscapedFragment (u : URL) : string :=
  if bool_decide (RawFragment u ≠ "") && validEncoded (RawFragment u) encodeFragment
     && bool_decide (unescape (RawFragment u) encodeFragment = Some (Fragment u))
  then RawFragment u
  else escape (Fragment u) encodeFragment.

Definition before (s : string) (sep : ascii) : string :=
  match cut s sep with Some (a, _) => a | None => s end.

Definition String_authority (u : URL) : string :=
  if bool_decide (Scheme u ≠ "") || bool_decide (Host u ≠ "") || bool_decide (User u ≠ None) then
    if OmitHost u && bool_decide (Host u = "") && bool_decide (User u = None) then ""
    else
      (if bool_decide (Host u ≠ "") || bool_decide (Path u ≠ "") || bool_decide (User u ≠ None) then "//" else "") +:+
      match User u with Some ui => Userinfo_String ui +:+ "@" | None => "" end +:+
      (if bool_decide (Host u ≠ "") then escape (Host u) encodeHost else "")
  else "".

Definition url_String (u : URL) : string :=
  let buf := if bool_decide (Scheme u ≠ "") then Scheme u +:+ ":" else "" in
  let buf :=
    if bool_decide (Opaque u ≠ "") then buf +:+ Opaque u
    else
      let buf := buf +:+ String_authority u in
      let path := EscapedPath u in
      let buf := if bool_decide (path ≠ "") && negb (String.prefix "/" path) && bool_decide (Host u ≠ "") then buf +:+ "/" else buf in
      let buf := if bool_decide (buf = "") && contains (before path "/") ":" then "./" else buf in
      buf +:+ path in
  let buf := if ForceQuery u || bool_decide (RawQuery u ≠ "") then buf +:+ "?" +:+ RawQuery u else buf in
  if bool_decide (Fragment u ≠ "") then buf +:+ "#" +:+ EscapedFragment u else buf.

(** ** Parse *)

(** The scheme and what follows its colon; [None] is "missing protocol scheme".
    [i] tells whether the scan is past the first byte. *)
Fixpoint scan_scheme (past_first : bool) (s : string) : option (option (string * string)) :=
  match s with
  | EmptyString => Some None
  | String c s' =>
      if lower c || upper c then
        match scan_scheme true s' with
        | Some (Some (a, b)) => Some (Some (String c a, b))
        | r => r
        end
      else if digit c || among "+-." c then
        if past_first then
          match scan_scheme true s' with
          | Some (Some (a, b)) => Some (Some (String c a, b))
          | r => r
          end
        else Some None
      else if bool_decide (c = ":"%char) then
        if past_first then Some (Some ("", s')) else None
      else Some None
  end.

Definition getScheme (rawURL : string) : option (string * string) :=
  match scan_scheme false rawURL with
  | None => None
  | Some None => Some ("", rawURL)
  | Some (Some (scheme, rest)) => Some (scheme, rest)
  end.

(** Split at the last occurrence of a byte. *)
Fixpoint cut_last (s : string) (sep : ascii) : option (string * string) :=
  match s with
  | EmptyString => None
  | String c s' =>
      match cut_last s' sep with
      | Some (a, b) => Some (String c a, b)
      | None => if bool_decide (c = sep) then Some ("", s') else None
      end
  end.

Definition validUserinfo (s : string) : bool :=
  forallb (λ c, alnum c || among "-._:~!$&'()*+,;=%@" c) (chars s).

Definition ctl (c : ascii) : bool := bool_decide (code c < 32)%N || bool_decide (code c = 127)%N.

Section parse.
Context `{NetIP}.

Definition parseHost (host : string) : option string :=
  if contains host "[" then
    if String.prefix "[" host then parse_ip_literal host else None
  else
    match cut host ":" with
    | Some (_, port) => if forallb digit (chars port) then unescape host encodeHost else None
    | None => unescape host encodeHost
    end.

Definition parseAuthority (authority : string) : option (option Userinfo * string) :=
  match cut_last authority "@" with
  | None => host ← parseHost authority; Some (None, host)
  | Some (userinfo, hostpart) =>
      host ← parseHost hostpart;
      if negb (validUserinfo userinfo) then None
      else
        match cut userinfo ":" with
        | None => u ← unescape userinfo encodeUserPassword; Some (Some (mkUserinfo u None), host)
        | Some (u, p) =>
            u ← unescape u encodeUserPassword;
            p ← unescape p encodeUserPassword;
            Some (Some (UserPassword u p), host)
        end
  end.

(** Path and RawPath from the escaped path. *)
Definition setPath (p : string) : option (string * string) :=
  path ← unescape p encodePath;
  Some (path, if bool_decide (escape path encodePath = p) then "" else p).

Definition setFragment (f : string) : option (string * string) :=
  frag ← unescape f encodeFragment;
  Some (frag, if bool_decide (escape frag encodeFragment = f) then "" else f).

(** The query: [ForceQuery], [RawQuery] and what precedes them. *)
Definition split_query (rest : string) : string * bool * string :=
  match cut rest "?" with
  | None => (rest, false, "")
  | Some (a, "") => (a, true, "")
  | Some (a, q) => (a, false, q)
  end.

Definition parse (rawURL : string) : option URL :=
  if existsb ctl (chars rawURL) then None
  else if bool_decide (rawURL = "*") then Some (mkURL "" "" None "" "*" "" false false "" "" "")
  else
    '(scheme, rest) ← getScheme rawURL;
    let scheme := ToLower scheme in
    let '(rest, force, query) := split_query rest in
    if negb (String.prefix "/" rest) && bool_decide (scheme ≠ "")
    then Some (mkURL scheme rest None "" "" "" false force query "" "")
    else if negb (String.prefix "/" rest) && contains (before rest "/") ":" then None
    else
      let has_authority := (bool_decide (scheme ≠ "") || negb (String.prefix "///" rest)) && String.prefix "//" rest in
      let omit := negb has_authority && bool_decide (scheme ≠ "") && String.prefix "/" rest in
      '(user, host, rest) ←
        (if has_authority then
           let authority := TrimPrefix rest "//" in
           match cut authority "/" with
           | Some (a, r) => '(u, h) ← parseAuthority a; Some (u, h, String "/" r)
           | None => '(u, h) ← parseAuthority authority; Some (u, h, "")
           end
         else Some (None, "", rest));
      '(path, raw) ← setPath rest;
      Some (mkURL scheme "" user host path raw omit force query "" "").

Definition url_Parse (rawURL : string) : option URL :=
  let '(u, frag) := match cut rawURL "#" with Some (u, f) => (u, f) | None => (rawURL, "") end in
  url ← parse u;
  if bool_decide (frag = "") then Some url
  else
    '(f, raw) ← setFragment frag;
    Some (mkURL (Scheme url) (Opaque url) (User url) (Host url) (Path url) (RawPath url) (OmitHost url)
            (ForceQuery url) (RawQuery url) f raw).

End parse.

(** ** Facts about bytes, by enumeration *)

Definition all_bytes : list ascii := map Ascii.ascii_of_nat (seq 0 256).

Lemma all_bytes_spec (P : ascii → bool) : forallb P all_bytes = true → ∀ c, P c = true.
Proof.
  intros H c. rewrite forallb_forall in H. apply H. unfold all_bytes. apply in_map_iff.
  exists (Ascii.nat_of_ascii c). split; [apply Ascii.ascii_nat_embedding|].
  apply in_seq. split; [lia|]. apply Ascii.nat_ascii_bounded.
Qed.

(** Prove a boolean fact about every byte. *)
Ltac by_bytes c :=
  match goal with
  | |- ?b = true =>
      let f := eval pattern c in b in
      match f with ?P _ => apply (all_bytes_spec P); vm_compute; reflexivity end
  end.

(** What the two digits written for a byte decode to. *)
Lemma hex_roundtrip c :
  (ishex (upperhex (code c / 16)) && ishex (upperhex (code c mod 16))
   && bool_decide (Ascii.ascii_of_N (unhex (upperhex (code c / 16)) * 16 + unhex (upperhex (code c mod 16))) = c)) = true.
Proof. by_bytes c. Qed.

Definition unescaping_mode (mode : encoding) : bool := match mode with encodeHost => false | _ => true end.

Lemma percent_escaped c mode :
  (shouldEscape c mode || negb (bool_decide (c = "%"%char))) = true.
Proof. destruct mode; by_bytes c. Qed.

(** Escaping is undone by unescaping, for every byte string. *)
Lemma unescape_escape s mode : unescaping_mode mode = true → unescape (escape s mode) mode = Some s.
Proof.
  intros Hm. induction s as [|c s IH]; [done|]. cbn [escape].
  destruct (shouldEscape c mode) eqn:Hc.
  - cbn [unescape]. rewrite bool_decide_eq_true_2 by done.
    pose proof (hex_roundtrip c) as Hx. apply andb_true_iff in Hx as [Hx Hb]. apply bool_decide_eq_true_1 in Hb.
    rewrite Hx, Hb, IH. by destruct mode.
  - pose proof (percent_escaped c mode) as Hp. rewrite Hc in Hp. cbn in Hp.
    apply negb_true_iff in Hp. cbn [unescape]. rewrite Hp, IH. by destruct mode.
Qed.

(** A test that every byte of an escaped text passes. *)
Definition escape_safe (P : ascii → bool) (mode : encoding) : bool :=
  forallb (λ c, if shouldEscape c mode
                then P "%"%char && P (upperhex (code c / 16)) && P (upperhex (code c mod 16))
                else P c) all_bytes.

Lemma escape_forall P mode s : escape_safe P mode = true → forallb P (chars (escape s mode)) = true.
Proof.
  intros Hs. pose proof (all_bytes_spec _ Hs) as Hc. cbn in Hc. clear Hs.
  induction s as [|c s IH]; [done|]. cbn [escape]. specialize (Hc c).
  destruct (shouldEscape c mode); cbn.
  - apply andb_true_iff in Hc as [[-> ->]%andb_true_iff ->]. done.
  - by rewrite Hc.
Qed.

Lemma forallb_chars_notin P s c : forallb P (chars s) = true → P c = false → c ∉ chars s.
Proof.
  rewrite forallb_forall. intros H Hc Hin. apply list_elem_of_In in Hin. by rewrite H in Hc.
Qed.

Lemma forallb_chars_app P a b : forallb P (chars (a +:+ b)) = forallb P (chars a) && forallb P (chars b).
Proof. by rewrite chars_app, forallb_app. Qed.

Lemma forallb_imp (P Q : ascii → bool) l :
  forallb (λ c, implb (P c) (Q c)) all_bytes = true → forallb P l = true → forallb Q l = true.
Proof.
  intros Hall. pose proof (all_bytes_spec _ Hall) as Hc. cbn in Hc. clear Hall.
  rewrite !forallb_forall. intros H x Hx. specialize (Hc x). rewrite (H x Hx) in Hc. done.
Qed.

Lemma cut_notin s sep : sep ∉ chars s → cut s sep = None.
Proof.
  induction s as [|c s IH]; [done|]. cbn. intros Hin. rewrite bool_decide_eq_false_2 by set_solver.
  by rewrite IH by set_solver.
Qed.

Lemma cut_last_notin s sep : sep ∉ chars s → cut_last s sep = None.
Proof.
  induction s as [|c s IH]; [done|]. cbn. intros Hin. rewrite IH by set_solver.
  by rewrite bool_decide_eq_false_2 by set_solver.
Qed.

Lemma cut_last_app a b sep : sep ∉ chars b → cut_last (a +:+ String sep b) sep = Some (a, b).
Proof.
  intros Hb. induction a as [|c a IH].
  - rewrite string_app_nil_l. cbn. rewrite cut_last_notin by done. by rewrite bool_decide_eq_true_2.
  - rewrite string_app_cons. cbn. by rewrite IH.
Qed.

(** ** URLs of the shape scheme://[user[:password]@]host[:port][/path] *)

Definition host_char (c : ascii) : bool := alnum c || among "-._~" c.

(** A host name or address with an optional decimal port. *)
Definition simple_host (h : string) : bool :=
  bool_decide (h ≠ "") &&
  match cut h ":" with
  | Some (name, port) => forallb host_char (chars name) && forallb digit (chars port)
  | None => forallb host_char (chars h)
  end.

Definition simple_scheme (s : string) : bool := bool_decide (s ≠ "") && forallb lower (chars s).

Definition simple_path (p : string) : bool := bool_decide (p = "") || String.prefix "/" p.

Definition simple_url (scheme : string) (user : option Userinfo) (host path : string) : URL :=
  mkURL scheme "" user host path "" false false "" "" "".

(** The bytes of such a URL: no control byte, no '#' and no '?'. *)
Definition url_char (c : ascii) : bool := negb (ctl c) && negb (among "#?" c).

(** The bytes of its authority: no '/' either. *)
Definition auth_char (c : ascii) : bool := url_char c && negb (bool_decide (c = "/"%char)).

Definition user_char (c : ascii) : bool := auth_char c && (alnum c || among "-._~!$&'()*+,;=%" c).

Definition authority_text (user : option Userinfo) (host : string) : string :=
  match user with Some ui => Userinfo_String ui +:+ "@" | None => "" end +:+ host.

Lemma escape_user_chars s : forallb user_char (chars (escape s encodeUserPassword)) = true.
Proof. apply escape_forall. vm_compute. reflexivity. Qed.

Lemma escape_path_chars s : forallb url_char (chars (escape s encodePath)) = true.
Proof. apply escape_forall. vm_compute. reflexivity. Qed.

Lemma cut_inv s sep a b : cut s sep = Some (a, b) → s = a +:+ String sep b.
Proof.
  revert a b. induction s as [|c s IH]; intros a b; [done|]. cbn. case_bool_decide; [by intros [= <- <-]; subst|].
  destruct (cut s sep) as [[a' b']|]; [|done]. cbn. intros [= <- <-]. rewrite string_app_cons. f_equal. by apply IH.
Qed.

Lemma cut_None_notin s sep : cut s sep = None → sep ∉ chars s.
Proof.
  induction s as [|c s IH]; cbn; [set_solver|]. case_bool_decide; [done|].
  destruct (cut s sep) as [[]|]; [done|]. intros _. set_solver.
Qed.

(** Every byte of a simple host is a host character or a colon. *)
Lemma simple_host_chars h : simple_host h = true → forallb (λ c, host_char c || bool_decide (c = ":"%char)) (chars h) = true.
Proof.
  unfold simple_host. intros [_ Hh]%andb_true_iff.
  destruct (cut h ":") as [[name port]|] eqn:Hc.
  - apply cut_inv in Hc as ->. apply andb_true_iff in Hh as [Hn Hp].
    rewrite forallb_chars_app. apply andb_true_iff. split; [|cbn]; (eapply forallb_imp; [|eassumption]); vm_compute; reflexivity.
  - eapply forallb_imp; [|eassumption]. vm_compute. reflexivity.
Qed.

Definition host_plain (c : ascii) : bool :=
  auth_char c && negb (among "@[%" c) && negb (shouldEscape c encodeHost).

Lemma simple_host_plain h : simple_host h = true → forallb host_plain (chars h) = true.
Proof. intros Hh%simple_host_chars. eapply forallb_imp; [|eassumption]. vm_compute. reflexivity. Qed.

Lemma host_escape_id h : forallb host_plain (chars h) = true → escape h encodeHost = h ∧ unescape h encodeHost = Some h.
Proof.
  induction h as [|c h IH]; [done|]. cbn [chars forallb]. intros [Hc Hh]%andb_true_iff.
  destruct (IH Hh) as [IH1 IH2]. unfold host_plain in Hc.
  apply andb_true_iff in Hc as [[_ Hx]%andb_true_iff He%negb_true_iff].
  cbn [escape unescape]. rewrite He, IH1, IH2, andb_false_r.
  destruct (decide (c = "%"%char)) as [->|Hne]; [done|]. by rewrite bool_decide_eq_false_2.
Qed.

Section roundtrip.
Context `{NetIP}.

Lemma parseHost_simple h : simple_host h = true → parseHost h = Some h.
Proof.
  intros Hh. pose proof (simple_host_plain h Hh) as Hp. destruct (host_escape_id h Hp) as [_ Hu].
  unfold parseHost. rewrite contains_char, bool_decide_eq_false_2
    by (eapply forallb_chars_notin; [exact Hp|reflexivity]).
  unfold simple_host in Hh. apply andb_true_iff in Hh as [_ Hh].
  destruct (cut h ":") as [[name port]|]; [|done].
  apply andb_true_iff in Hh as [_ Hd]. by rewrite Hd.
Qed.

Lemma Userinfo_String_chars ui : forallb (λ c, user_char c || bool_decide (c = ":"%char)) (chars (Userinfo_String ui)) = true.
Proof.
  assert (∀ s, forallb (λ c, user_char c || bool_decide (c = ":"%char)) (chars (escape s encodeUserPassword)) = true) as He.
  { intros s. eapply forallb_imp; [|apply escape_user_chars]. vm_compute. reflexivity. }
  unfold Userinfo_String. rewrite forallb_chars_app, He. destruct (password ui) as [p|]; [|done].
  rewrite forallb_chars_app, He. done.
Qed.

Lemma parseAuthority_text user h : simple_host h = true → parseAuthority (authority_text user h) = Some (user, h).
Proof.
  intros Hh. pose proof (simple_host_plain h Hh) as Hp.
  assert ("@"%char ∉ chars h) as Hat by (eapply forallb_chars_notin; [exact Hp|reflexivity]).
  unfold parseAuthority, authority_text. destruct user as [ui|].
  - rewrite string_app_assoc, sep_app, cut_last_app by done. rewrite (parseHost_simple h Hh). cbn.
    assert (validUserinfo (Userinfo_String ui) = true) as ->.
    { unfold validUserinfo. eapply forallb_imp; [|apply Userinfo_String_chars]. vm_compute. reflexivity. }
    cbn. destruct ui as [u pw]. unfold Userinfo_String. cbn.
    assert (":"%char ∉ chars (escape u encodeUserPassword)) as Hcol
      by (eapply forallb_chars_notin; [apply escape_user_chars|reflexivity]).
    destruct pw as [p|].
    + rewrite sep_app, cut_app by done. by rewrite !unescape_escape.
    + rewrite string_app_nil_r, cut_notin by done. by rewrite unescape_escape.
  - rewrite string_app_nil_l, cut_last_notin by done. by rewrite (parseHost_simple h Hh).
Qed.

Lemma authority_text_chars user h : simple_host h = true → forallb auth_char (chars (authority_text user h)) = true.
Proof.
  intros Hh%simple_host_plain. unfold authority_text. rewrite forallb_chars_app. apply andb_true_iff. split.
  - destruct user as [ui|]; [|done]. rewrite forallb_chars_app. apply andb_true_iff. split; [|done].
    eapply forallb_imp; [|apply Userinfo_String_chars]. vm_compute. reflexivity.
  - eapply forallb_imp; [|eassumption]. vm_compute. reflexivity.
Qed.

Lemma escape_path_shape p :
  simple_path p = true → escape p encodePath = "" ∧ p = "" ∨ ∃ q, escape p encodePath = String "/" q.
Proof.
  unfold simple_path. destruct p as [|c p]; [by left|].
  rewrite bool_decide_eq_false_2 by done. rewrite orb_false_l, prefix_single.
  intros Hc%bool_decide_eq_true_1. subst c. right. by eexists.
Qed.

Lemma setPath_escape p : setPath (escape p encodePath) = Some (p, "").
Proof. unfold setPath. rewrite unescape_escape by done. cbn. by rewrite bool_decide_eq_true_2. Qed.

Lemma scan_scheme_simple s rest b :
  forallb lower (chars s) = true → s ≠ "" ∨ b = true → scan_scheme b (s +:+ String ":" rest) = Some (Some (s, rest)).
Proof.
  revert b. induction s as [|c s IH]; intros b Hs Hb.
  - destruct Hb as [Hb| ->]; done.
  - cbn in Hs. apply andb_true_iff in Hs as [Hc Hs]. rewrite string_app_cons. cbn [scan_scheme].
    rewrite Hc. cbn. rewrite (IH true) by auto. done.
Qed.

Lemma ToLower_lower s : forallb lower (chars s) = true → ToLower s = s.
Proof.
  unfold ToLower. induction s as [|c s IH]; [done|]. cbn. intros [Hc Hs]%andb_true_iff. rewrite IH by done. f_equal.
  assert ((negb (lower c) || bool_decide (tolower c = c)) = true) as Hlow by by_bytes c.
  rewrite Hc in Hlow. by apply bool_decide_eq_true_1 in Hlow.
Qed.

Lemma url_String_simple scheme user host path :
  simple_scheme scheme = true → simple_host host = true → simple_path path = true →
  url_String (simple_url scheme user host path) =
    scheme +:+ String ":" ("//" +:+ authority_text user host +:+ escape path encodePath).
Proof.
  intros [Hs1%bool_decide_eq_true_1 _]%andb_true_iff Hh Hp.
  pose proof Hh as [Hne%bool_decide_eq_true_1 _]%andb_true_iff.
  destruct (host_escape_id host (simple_host_plain host Hh)) as [He _].
  assert (EscapedPath (simple_url scheme user host path) = escape path encodePath) as Hpath.
  { unfold EscapedPath. cbn [RawPath simple_url Path]. rewrite (bool_decide_eq_false_2 ("" ≠ "")) by (intros Hx; by apply Hx).
    cbn. case_bool_decide as Hstar; [|done]. subst path. discriminate Hp. }
  unfold url_String. rewrite Hpath. cbn [Opaque ForceQuery RawQuery Fragment Scheme simple_url Host].
  rewrite (bool_decide_eq_true_2 (scheme ≠ "")) by done.
  unfold String_authority. cbn [Scheme Host User OmitHost Path simple_url].
  rewrite (bool_decide_eq_true_2 (scheme ≠ "")), (bool_decide_eq_true_2 (host ≠ "")) by done.
  rewrite He, !(bool_decide_eq_false_2 ("" ≠ "")) by (intros Hx; by apply Hx). cbn.
  assert (∀ t, bool_decide ((scheme +:+ ":") +:+ t = "") = false) as Hnil.
  { intros t. apply bool_decide_eq_false_2. destruct scheme; [done|]. by rewrite !string_app_cons. }
  destruct (escape_path_shape path Hp) as [[-> _]|[q ->]].
  - rewrite (bool_decide_eq_false_2 ("" ≠ "")) by (intros Hx; by apply Hx). cbn. rewrite Hnil. cbn.
    unfold authority_text. by rewrite !string_app_assoc.
  - rewrite (bool_decide_eq_true_2 (String "/" q ≠ "")), prefix_single by done.
    rewrite (bool_decide_eq_true_2 ("/"%char = "/"%char)) by done. cbn. rewrite Hnil. cbn.
    unfold authority_text. by rewrite !string_app_assoc.
Qed.

(** Printing such a URL and parsing the text gives it back, whatever bytes the
    user name, the password and the path contain. *)
Lemma url_roundtrip scheme user host path :
  simple_scheme scheme = true → simple_host host = true → simple_path path = true →
  url_Parse (url_String (simple_url scheme user host path)) = Some (simple_url scheme user host path).
Proof.
  intros Hs Hh Hp. rewrite url_String_simple by done.
  apply andb_true_iff in Hs as [Hs1%bool_decide_eq_true_1 Hs2].
  pose proof (authority_text_chars user host Hh) as Ha.
  set (rest := "//" +:+ authority_text user host +:+ escape path encodePath).
  assert (forallb url_char (chars rest) = true) as Hrest.
  { unfold rest. rewrite !forallb_chars_app, escape_path_chars, andb_true_r. cbn.
    eapply forallb_imp; [|exact Ha]. vm_compute. reflexivity. }
  assert (forallb url_char (chars (scheme +:+ String ":" rest)) = true) as Hall.
  { rewrite forallb_chars_app. cbn. rewrite Hrest, andb_true_r.
    eapply forallb_imp; [|exact Hs2]. vm_compute. reflexivity. }
  unfold url_Parse. rewrite cut_notin by (eapply forallb_chars_notin; [exact Hall|reflexivity]).
  assert (parse (scheme +:+ String ":" rest) = Some (simple_url scheme user host path)) as ->; [|done].
  unfold parse.
  assert (existsb ctl (chars (scheme +:+ String ":" rest)) = false) as ->.
  { apply not_true_is_false. rewrite existsb_exists. intros (c & Hin & Hc).
    rewrite forallb_forall in Hall. specialize (Hall c Hin). unfold url_char in Hall. by rewrite Hc in Hall. }
  rewrite (bool_decide_eq_false_2 (_ = "*")) by (destruct scheme as [|? []]; [done|done|done]).
  assert (String.prefix "/" rest = true) as Hslash by done.
  assert (String.prefix "//" rest = true) as Hslashes by apply prefix_app.
  assert (TrimPrefix rest "//" = authority_text user host +:+ escape path encodePath) as Htrim by apply TrimPrefix_app.
  unfold getScheme. rewrite scan_scheme_simple by auto. cbn [mbind option_bind]. rewrite ToLower_lower by done.
  unfold split_query. rewrite cut_notin by (eapply forallb_chars_notin; [exact Hrest|reflexivity]).
  rewrite Hslash, Hslashes, Htrim, (bool_decide_eq_true_2 (scheme ≠ "")) by done. clear Hslash Hslashes Htrim. cbn.
  assert ("/"%char ∉ chars (authority_text user host)) as Hsl
    by (eapply forallb_chars_notin; [exact Ha|reflexivity]).
  pose proof (setPath_escape path) as Hset.
  destruct (escape_path_shape path Hp) as [[Hq ->]|[q Hq]].
  - rewrite Hq, string_app_nil_r, cut_notin by done. rewrite parseAuthority_text by done. done.
  - rewrite Hq in Hset |- *. rewrite cut_app by done. rewrite parseAuthority_text by done. cbn [mbind option_bind]. rewrite Hset. done.
Qed.

End roundtrip.
