(* ===== verification/Sim.v ===== *)
(** * A simulated environment

    A concrete instance of the environment for executable examples: a broker that
    answers from a script of faults, a clock that ticks at every reading, and a
    runtime that stores what is registered.  The theorems are proved for every
    environment; this one shows that their hypotheses can hold. *)

From S2P Require Import Prelude Errors Config Metrics Env NetUrl.

Module Sim.

(** Connections, channels and the like are numbered; a handler is its result. *)
#[export] Instance types : Types := {|
  Connection := nat;
  Channel := nat;
  NotifyChan := nat;
  Deliveries := nat;
  Delivery := nat;
  PubRest := unit;
  zeroRest := tt;
  Handler := handler_result;
  Operation := unit;
  Runtime := unit;
  types_dpb := secs_nanos;
|}.

#[export] Instance netip : NetIP := {| parse_ip_literal := λ _, None |}.

Record sim : Type := mkSim {
  now : Z;
  faults : list bool;                      (* does the next fallible call fail? *)
  cancelled : list N;                      (* cancelled contexts *)
  next : nat;                              (* next number *)
  openConns : list nat;
  registry : gmap string resource;         (* last value of each shared resource *)
}.

Definition init (faults : list bool) (cancelled : list N) : sim := mkSim 0 faults cancelled 0 [] ∅.

Definition broker_error : foreign_error := mkForeign 7 "broker error".
Definition closed_error : foreign_error := mkForeign 8 "channel/connection is not open".

(** Consume one entry of the script. *)
Definition fails (w : sim) : bool * sim :=
  match faults w with
  | [] => (false, w)
  | f :: fs => (f, mkSim (now w) fs (cancelled w) (next w) (openConns w) (registry w))
  end.

Definition fallible (w : sim) : option foreign_error * sim :=
  let '(f, w) := fails w in (if f then Some broker_error else None, w).

Definition fresh (w : sim) : nat * sim :=
  (next w, mkSim (now w) (faults w) (cancelled w) (S (next w)) (openConns w) (registry w)).

Definition fallible_fresh (w : sim) : (nat + foreign_error) * sim :=
  let '(f, w) := fails w in
  if f then (inr broker_error, w) else let '(n, w) := fresh w in (inl n, w).

Definition ctx_error (w : sim) (id : N) : option error :=
  if bool_decide (id ∈ cancelled w) then Some context_Canceled else None.

Definition with_conns (l : list nat) (w : sim) : sim := mkSim (now w) (faults w) (cancelled w) (next w) l (registry w).

#[export] Instance env : Env sim := {|
  handle A e w :=
    match e in E A return A * sim with
    | ENow => (now w, mkSim (now w + 1) (faults w) (cancelled w) (next w) (openConns w) (registry w))
    | ECtxErr id => (ctx_error w id, w)
    | ECtxTimer id _ => (ctx_error w id, w)
    | ETimer _ => (tt, w)
    | EMapOrder keys => (reverse keys, w)
    | EDialConfig _ _ =>
        match fallible_fresh w with
        | (inl n, w) => (inl n, with_conns (n :: openConns w) w)
        | (inr e, w) => (inr e, w)
        end
    | EIsClosed c => (bool_decide (c ∉ openConns w), w)
    | EChannel c => if bool_decide (c ∈ openConns w) then fallible_fresh w else (inr closed_error, w)
    | EConnClose c =>
        if bool_decide (c ∈ openConns w) then (None, with_conns (List.filter (λ x, negb (x =? c)) (openConns w)) w)
        else (Some closed_error, w)
    | ENotifyClose _ => fresh w
    | EExchangeDeclare _ _ _ _ _ _ _ => fallible w
    | EConfirm _ _ => fallible w
    | EQos _ _ _ _ => fallible w
    | EQueueDeclare _ _ _ _ _ _ _ => fallible w
    | EChClose _ => (None, w)
    | EPublish _ _ _ _ _ _ _ => fallible w
    | EConsume _ _ _ _ _ _ _ _ => fallible_fresh w
    | EAck _ _ => (None, w)
    | ENack _ _ _ => (None, w)
    | EHandler h _ _ => (h, w)
    | EOperation _ => let '(e, w) := fallible w in (as_error <$> e, w)
    | EBaseInitialize _ => (None, w)
    | EGetConfig _ => (true, w)
    | EScan _ _ cfg => ((cfg, None), w)
    | ERegisterShared _ n v =>
        (None, mkSim (now w) (faults w) (cancelled w) (next w) (openConns w) (<[n := v]> (registry w)))
    | ERegisterPrivate _ _ _ => (None, w)
    end;
|}.

End Sim.
