(* ===== verification/Retry.v ===== *)
(** * RetryHandler: bounded retries with exponential back-off (src/managers.go, lines 326-387)

    [DoWithRetry] runs in an environment that answers the operation, the context
    and the timers.  The loop counts the attempts that are left, so it is a
    structural recursion; the theorems read the calls it makes off the log of
    [Env.logged]. *)

From S2P Require Import Prelude Errors Constants Config Env Sim.

Module Retry.

Section retry.
Context `{TY : Types} {W : Type} `{EW : !Env W}.

(** The configuration is a pointer shared with the client; nil is [None]. *)
Record RetryHandler : Type := mkRetryHandler { config : option RabbitMQ }.

Definition NewRetryHandler (config : option RabbitMQ) : RetryHandler := mkRetryHandler config.

(** The number of retries and the first back-off: those of the first producer. *)
Definition retry_policy (r : RetryHandler) : outcome (Z * Z) :=
  match config r with
  | None => Panicked
  | Some cfg =>
      match Producers cfg with
      | [] => Done (defaultMaxRetries, 100 * Millisecond)%Z
      | None :: _ => Panicked
      | Some p :: _ =>
          Done (p_MaxRetries p,
                match p_RetryBackoff p with
                | None => 100 * Millisecond
                | Some _ => AsDuration (p_RetryBackoff p)
                end)%Z
      end
  end.

(** [backoff *= 2] in 64 bits, capped at 30 seconds. *)
Definition nextBackoff (backoff : Z) : Z :=
  let backoff := wrap64 (backoff * 2) in
  if bool_decide (30 * Second < backoff)%Z then (30 * Second)%Z else backoff.

(** The body of the loop with [left = maxRetries - attempt]. *)
Fixpoint retry_loop {V} `{!Env V} (ctx : Context_) (operation : Operation) (left : nat) (backoff : Z) : GoM V (option error) :=
  cerr ← ctx_Err ctx;
  match cerr with
  | Some e => mret (Some e)
  | None =>
      err ← call (EOperation operation);
      match err with
      | None => mret None
      | Some lastErr =>
          match left with
          | O => mret (Some (WrapError (Some lastErr) "max retries exceeded"))
          | S left' =>
              cancelled ← select_done_or_timer ctx backoff;
              match cancelled with
              | Some e => mret (Some e)
              | None => retry_loop ctx operation left' (nextBackoff backoff)
              end
          end
      end
  end.

(** With a negative [maxRetries] the loop body never runs and [lastErr] is nil. *)
Definition DoWithRetry {V} `{!Env V} (r : RetryHandler) (ctx : Context_) (operation : Operation) : GoM V (option error) :=
  match retry_policy r with
  | Done (maxRetries, backoffTime) =>
      if bool_decide (0 ≤ maxRetries)%Z
      then retry_loop ctx operation (Z.to_nat maxRetries) backoffTime
      else mret (Some (WrapError None "max retries exceeded"))
  | Panicked => panic
  | Blocked => block
  end.

(** ** Reading the log *)

(** The result of the operation, for an entry that is an attempt. *)
Definition attempt_of (e : entry) : list (option error) :=
  match e with
  | mkEntry _ c a =>
      match c in E A return A → list (option error) with
      | EOperation _ => λ a, [a]
      | _ => λ _, []
      end a
  end.

(** The duration of a sleep. *)
Definition sleep_of (e : entry) : list Z :=
  match e with
  | mkEntry _ c _ => match c with ETimer d | ECtxTimer _ d => [d] | _ => [] end
  end.

(** The cancellation an entry reports. *)
Definition cancellation_of (e : entry) : option (N * error) :=
  match e with
  | mkEntry _ c a =>
      match c in E A return A → option (N * error) with
      | ECtxErr id => λ a, pair id <$> a
      | ECtxTimer id _ => λ a, pair id <$> a
      | _ => λ _, None
      end a
  end.

Definition attempts (log : list entry) : list (option error) := log ≫= attempt_of.
Definition sleeps (log : list entry) : list Z := log ≫= sleep_of.

(** The back-off schedule. *)
Fixpoint backoffs (n : nat) (b : Z) : list Z :=
  match n with
  | O => []
  | S n' => b :: backoffs n' (nextBackoff b)
  end.

(** What a run of at most [left + 1] attempts that starts at back-off [b] did
    and returned. *)
Definition retried (ctx : Context_) (left : nat) (b : Z) (log : list entry) (r : option error) : Prop :=
  sleeps log = backoffs (length (sleeps log)) b ∧
  ( (* an attempt succeeded: every earlier one failed *)
    (r = None ∧ ∃ fails, attempts log = map Some fails ++ [None] ∧ length fails ≤ left ∧ length (sleeps log) = length fails) ∨
    (* every attempt failed *)
    (∃ fails e, r = Some (WrapError (Some e) "max retries exceeded") ∧ attempts log = map Some (fails ++ [e]) ∧
       length fails = left ∧ length (sleeps log) = left) ∨
    (* the context was cancelled before an attempt or during a sleep *)
    (∃ fails id e, ctx = Derived id ∧ r = Some e ∧ attempts log = map Some fails ∧ length fails ≤ left ∧
       length (sleeps log) ≤ length fails ∧ (cancellation_of <$> last log) = Some (Some (id, e)))).

(** ** Lemmas *)

Lemma attempts_app l1 l2 : attempts (l1 ++ l2) = attempts l1 ++ attempts l2.
Proof. apply bind_app. Qed.

Lemma sleeps_app l1 l2 : sleeps (l1 ++ l2) = sleeps l1 ++ sleeps l2.
Proof. apply bind_app. Qed.

(** One failed attempt and one full sleep in front of a run. *)
Lemma retried_step ctx left b head log r e :
  attempts head = [Some e] → sleeps head = [b] →
  retried ctx left (nextBackoff b) log r → retried ctx (S left) b (head ++ log) r.
Proof.
  intros Ha Hs [Hsched Hcases]. unfold retried. rewrite attempts_app, sleeps_app, Ha, Hs. cbn.
  split; [by f_equal|].
  destruct Hcases as [(-> & fails & Hf & Hl & Hn)|[(fails & e' & -> & Hf & Hl & Hn)|(fails & id & e' & -> & -> & Hf & Hl & Hn & Hlast)]].
  - left. split; [done|]. exists (e :: fails). rewrite Hf. cbn. split; [done|lia].
  - right. left. exists (e :: fails), e'. rewrite Hf. cbn. split; [done|]. split; [done|]. lia.
  - right. right. exists (e :: fails), id, e'. rewrite Hf. cbn. do 3 (split; [done|]).
    split; [lia|]. split; [lia|]. rewrite last_app. by destruct (last log).
Qed.

Lemma bind_call {A B} (e : E A) (k : A → GoM (W * list entry) B) w l :
  (call e ≫= k) (w, l) = let '(a, w') := handle e w in k a (w', l ++ [mkEntry A e a]).
Proof. unfold mbind, GoM_bind, call, GoM_call. cbn. by destruct (handle e w). Qed.

Lemma ctx_Err_logged ctx (w : W) (l : list entry) :
  ∃ a w' new, (ctx_Err ctx : GoM _ _) (w, l) = Done (a, (w', l ++ new)) ∧ attempts new = [] ∧ sleeps new = [] ∧
    match a with
    | None => True
    | Some e => ∃ id, ctx = Derived id ∧ (cancellation_of <$> last new) = Some (Some (id, e))
    end.
Proof.
  destruct ctx as [|id]; cbn.
  - exists None, w, []. rewrite app_nil_r. done.
  - unfold call, GoM_call. cbn. destruct (handle (ECtxErr id) w) as [a w'].
    exists a, w', [mkEntry _ (ECtxErr id) a]. do 3 (split; [done|]). destruct a; [|done]. by exists id.
Qed.

Lemma select_logged ctx d (w : W) (l : list entry) :
  ∃ a w' new, (select_done_or_timer ctx d : GoM _ _) (w, l) = Done (a, (w', l ++ new)) ∧ attempts new = [] ∧ sleeps new = [d] ∧
    match a with
    | None => True
    | Some e => ∃ id, ctx = Derived id ∧ (cancellation_of <$> last new) = Some (Some (id, e))
    end.
Proof.
  destruct ctx as [|id]; cbn; unfold call, GoM_call, mbind, GoM_bind; cbn.
  - destruct (handle (ETimer d) w) as [[] w']. by exists None, w', [mkEntry _ (ETimer d) tt].
  - destruct (handle (ECtxTimer id d) w) as [a w'].
    exists a, w', [mkEntry _ (ECtxTimer id d) a]. do 3 (split; [done|]). destruct a; [|done]. by exists id.
Qed.

Lemma retry_loop_retried ctx op left b (w : W) (l : list entry) :
  ∃ r w' log, retry_loop ctx op left b (w, l) = Done (r, (w', l ++ log)) ∧ retried ctx left b log r.
Proof.
  revert b w l. induction left as [|left IH]; intros b w l; cbn [retry_loop];
    destruct (ctx_Err_logged ctx w l) as (c & w1 & n1 & H1 & Ha1 & Hs1 & Hc);
    rewrite (bind_eq _ _ _ _ _ H1);
    (destruct c as [e|];
      [destruct Hc as (id & -> & Hlast); exists (Some e), w1, n1; split; [done|];
       unfold retried; rewrite Ha1, Hs1; split; [done|]; right; right; exists [], id, e; cbn;
       repeat (split; [done || lia|]); exact Hlast|]);
    rewrite bind_call; destruct (handle (EOperation op) w1) as [[e|] w2];
    rewrite <- ?(app_assoc l).
  1: exists (Some (WrapError (Some e) "max retries exceeded")), w2, (n1 ++ [mkEntry _ (EOperation op) (Some e)]).
  2, 4: exists None, w2, (n1 ++ [mkEntry _ (EOperation op) None]).
  1-3: (split; [done|]; unfold retried; rewrite attempts_app, sleeps_app, Ha1, Hs1; cbn; split; [done|]).
  - right. left. by exists [], e.
  - left. split; [done|]. exists []. cbn. split; [done|]. lia.
  - left. split; [done|]. exists []. cbn. split; [done|]. lia.
  - destruct (select_logged ctx b w2 (l ++ n1 ++ [mkEntry _ (EOperation op) (Some e)])) as (c & w3 & n3 & H3 & Ha3 & Hs3 & Hc3).
    rewrite (bind_eq _ _ _ _ _ H3). set (head := n1 ++ [mkEntry _ (EOperation op) (Some e)]) in *.
    assert (attempts (head ++ n3) = [Some e]) as Ha.
    { unfold head. by rewrite !attempts_app, Ha1, Ha3. }
    assert (sleeps (head ++ n3) = [b]) as Hs.
    { unfold head. by rewrite !sleeps_app, Hs1, Hs3. }
    destruct c as [e'|].
    + destruct Hc3 as (id & -> & Hlast). exists (Some e'), w3, (head ++ n3). rewrite <- (app_assoc l). split; [done|].
      unfold retried. rewrite Ha, Hs. split; [done|]. right. right. exists [e], id, e'. cbn.
      repeat (split; [done || lia|]). rewrite last_app. by destruct (last n3).
    + destruct (IH (nextBackoff b) w3 ((l ++ head) ++ n3)) as (r & w4 & log & H4 & Hr).
      exists r, w4, ((head ++ n3) ++ log). rewrite H4. split; [by rewrite <- !app_assoc|].
      by apply (retried_step _ _ _ _ _ _ e).
Qed.

Lemma retry_nextBackoff_min b : (0 < b < 2 ^ 62)%Z → nextBackoff b = Z.min (b * 2) (30 * Second).
Proof.
  unfold nextBackoff. intros Hb. rewrite wrap64_id by (unfold int64, two63, Second in *; lia).
  case_bool_decide; lia.
Qed.

(** The [k]-th delay: the first is not capped, the later ones are. *)
Definition delay (b : Z) (k : nat) : Z :=
  match k with O => b | S _ => Z.min (b * 2 ^ Z.of_nat k) (30 * Second) end.

Lemma delay_next b k : (0 < b < 2 ^ 62)%Z → delay (nextBackoff b) k = delay b (S k).
Proof.
  intros Hb. rewrite retry_nextBackoff_min by done. destruct k as [|k]; [done|]. cbn [delay].
  replace (Z.of_nat (S (S k))) with (Z.succ (Z.of_nat (S k))) by lia. rewrite Z.pow_succ_r by lia.
  assert (0 < 2 ^ Z.of_nat (S k))%Z by (apply Z.pow_pos_nonneg; lia). unfold Second in *. nia.
Qed.

Lemma backoffs_exponential n b k d : (0 < b < 2 ^ 62)%Z → backoffs n b !! k = Some d → d = delay b k.
Proof.
  revert b k. induction n as [|n IH]; intros b k Hb; [done|].
  destruct k as [|k]; cbn [backoffs lookup list_lookup]; [by intros [= ->]|].
  intros Hk. rewrite <- delay_next by done. apply IH; [|done].
  rewrite retry_nextBackoff_min by done. unfold Second. lia.
Qed.

(** ** Properties *)

(** C27: [DoWithRetry] always returns, after at most [maxRetries + 1] attempts.
    It returns nil exactly when an attempt succeeded, all earlier ones having
    failed; after [maxRetries + 1] failures it returns the last error wrapped with
    "max retries exceeded"; otherwise it returns the context's error, which the
    last call it made reported.  The sleeps between the attempts follow the
    back-off schedule. *)
Theorem retry_contract h ctx op (w : W) n b :
  retry_policy h = Done (n, b) → (0 ≤ n)%Z →
  ∃ r w' log, DoWithRetry h ctx op (w, []) = Done (r, (w', log)) ∧ retried ctx (Z.to_nat n) b log r.
Proof.
  intros Hp Hn. unfold DoWithRetry. rewrite Hp, bool_decide_eq_true_2 by done.
  apply (retry_loop_retried ctx op (Z.to_nat n) b w []).
Qed.

(** C28: with a first back-off between 1 ns and 2^62 ns, the first sleep of
    [DoWithRetry] lasts exactly that, however long, and the k-th later one
    [min (backoff * 2^k, 30 s)]: it doubles without overflow up to the cap, and
    there are at most [maxRetries] sleeps. *)
Theorem retry_sleeps_exponential h ctx op (w w' : W) n b r log :
  retry_policy h = Done (n, b) → (0 ≤ n)%Z → (0 < b < 2 ^ 62)%Z →
  DoWithRetry h ctx op (w, []) = Done (r, (w', log)) →
  length (sleeps log) ≤ Z.to_nat n ∧
  ∀ k d, sleeps log !! k = Some d →
    d = match k with O => b | S _ => Z.min (b * 2 ^ Z.of_nat k) (30 * Second) end.
Proof.
  intros Hp Hn Hb Hrun. unfold DoWithRetry in Hrun. rewrite Hp, bool_decide_eq_true_2 in Hrun by done.
  destruct (retry_loop_retried ctx op (Z.to_nat n) b w []) as (r1 & w1 & log1 & H1 & Hsched & Hcases).
  rewrite H1 in Hrun. injection Hrun as -> -> ->. split; [naive_solver lia|].
  intros k d. rewrite Hsched. by apply backoffs_exponential.
Qed.

End retry.

(** ** Witnesses *)

Section witnesses.
Import Sim.

(** Four retries starting at 10 s; the operation fails three times. *)
Definition sim_handler : RetryHandler :=
  NewRetryHandler (Some (set_Producers [Some (mkProducer true "" "" "" 4 (Some (durationpb_New (10 * Second))) None "p" true false false)] defaultRabbitMQConfig)).

Definition sim_result : outcome (option error * (sim * list entry)) :=
  DoWithRetry sim_handler Background tt (init [true; true; true] [], []).

Lemma retry_contract_witness :
  (∃ r w' log, DoWithRetry sim_handler Background tt (init [true; true; true] [], []) = Done (r, (w', log)) ∧
     retried Background 4 (10 * Second) log r) ∧
  match sim_result with
  | Done (r, (_, log)) => r = None ∧ length (attempts log) = 4 ∧ sleeps log = [10 * Second; 20 * Second; 30 * Second]%Z
  | _ => False
  end.
Proof.
  split; [|vm_compute; repeat split; reflexivity].
  apply (retry_contract sim_handler Background tt (init [true; true; true] []) 4 (10 * Second)); [reflexivity|lia].
Defined.

Lemma retry_sleeps_exponential_witness :
  match sim_result with
  | Done (_, (_, log)) => length (sleeps log) ≤ 4 ∧
      ∀ k d, sleeps log !! k = Some d → d = match k with O => 10 * Second | S _ => Z.min (10 * Second * 2 ^ Z.of_nat k) (30 * Second) end%Z
  | _ => False
  end.
Proof.
  destruct sim_result as [[r [w' log]]| |] eqn:Hrun; [|discriminate Hrun..].
  apply (retry_sleeps_exponential sim_handler Background tt (init [true; true; true] []) w' 4 (10 * Second) r log);
    [reflexivity|lia|unfold Second; lia|exact Hrun].
Defined.

End witnesses.

End Retry.
