(* ===== verification/Client.v ===== *)
(** * RabbitMQClient: src/client.go, src/health.go, src/lifecycle_context.go and
    src/runtime_contract.go

    The client struct, one definition per function, as programs ([Program]) over the
    client and its environment.  A critical section of a mutex is one access to
    the field it protects, and so is an access outside of any mutex.  The closures the client hands to its helpers are
    constructors ([probe_fn], [reconnect_fn]) interpreted by the functions they
    stand for.  Goroutines the client starts are recorded: dispatch loops in
    [loops], which is what subscriptionWG counts, health loops and connection
    watchers in [goroutines].  Logging has no effect on the state and is left
    out. *)

From S2P Require Import Prelude Errors Constants Utils Config Metrics HealthChecker ConnectionManager Env Program Retry NetUrl.

Section client.
Context `{TY : Types}.

(** ** Data *)

(** [r.connectionProbe], the method value given to the health checker. *)
Inductive probe_fn : Type := connectionProbe_fn.

(** The function literal of [connect] given to the connection manager. *)
Inductive reconnect_fn : Type := reconnect_closure.

Definition Checker : Type := HC.HealthChecker probe_fn.
Definition Manager : Type := CM.ConnectionManager reconnect_fn NotifyChan.

Record subscription : Type := mkSubscription {
  consumerName : string;
  queue : string;
  handler : Handler;
}.

(** A running dispatch goroutine of startDispatchLoop: what its closure captured. *)
Record loop : Type := mkLoop {
  l_ctx : Context_;
  l_ch : Channel;
  l_deliveries : Deliveries;
  l_handler : Handler;
  l_autoAck : bool;
}.

(** What the pointer of a goroutine leads to: the checker or the manager that the
    client holds, or one that InitializeResources has replaced. *)
Inductive holder : Type := Held | Replaced (k : nat).

(** Goroutines started by the helpers of the client. *)
Inductive goroutine : Type :=
| HealthLoop (checker : holder)
| Watcher (manager : holder) (notify : NotifyChan).

(** RabbitMQClient.  [closeChan] and [closeOnce] say whether the channel is closed
    and whether the Once has run; [goroutinePool] is its closed flag (the client
    never submits a task).  [loops] has one slot per dispatch goroutine ever
    started, empty once the goroutine has returned.

    [subscriptionWG] is a sync.WaitGroup.  Its counter is the number of dispatch
    goroutines ([running]): Add(1) precedes the start of each, and each calls Done
    once, at its end.  The field says how often the counter has come back to zero,
    which is what wakes the goroutines inside Wait.

    [formerCheckers] and [formerManagers] are those that InitializeResources has
    replaced; only goroutines that were started on them still use them. *)
Record RabbitMQClient : Type := mkClient {
  config : RabbitMQ;
  rt : option Runtime;
  connection : option Connection;
  producers : gmap string (option Channel);
  consumers : gmap string (option Channel);
  closeChan : bool;
  closeOnce : bool;
  closed : bool;
  metrics : option Metrics;
  healthChecker : option Checker;
  connectionManager : option Manager;
  retryHandler : option Retry.RetryHandler;
  goroutinePool : option bool;
  subscriptions : list subscription;
  loops : list (option loop);
  goroutines : list goroutine;
  subscriptionWG : nat;
  formerCheckers : list Checker;
  formerManagers : list Manager;
}.

Definition set_config v c := mkClient v (rt c) (connection c) (producers c) (consumers c) (closeChan c) (closeOnce c) (closed c) (metrics c) (healthChecker c) (connectionManager c) (retryHandler c) (goroutinePool c) (subscriptions c) (loops c) (goroutines c) (subscriptionWG c) (formerCheckers c) (formerManagers c).
Definition set_rt v c := mkClient (config c) v (connection c) (producers c) (consumers c) (closeChan c) (closeOnce c) (closed c) (metrics c) (healthChecker c) (connectionManager c) (retryHandler c) (goroutinePool c) (subscriptions c) (loops c) (goroutines c) (subscriptionWG c) (formerCheckers c) (formerManagers c).
Definition set_connection v c := mkClient (config c) (rt c) v (producers c) (consumers c) (closeChan c) (closeOnce c) (closed c) (metrics c) (healthChecker c) (connectionManager c) (retryHandler c) (goroutinePool c) (subscriptions c) (loops c) (goroutines c) (subscriptionWG c) (formerCheckers c) (formerManagers c).
Definition set_producers v c := mkClient (config c) (rt c) (connection c) v (consumers c) (closeChan c) (closeOnce c) (closed c) (metrics c) (healthChecker c) (connectionManager c) (retryHandler c) (goroutinePool c) (subscriptions c) (loops c) (goroutines c) (subscriptionWG c) (formerCheckers c) (formerManagers c).
Definition set_consumers v c := mkClient (config c) (rt c) (connection c) (producers c) v (closeChan c) (closeOnce c) (closed c) (metrics c) (healthChecker c) (connectionManager c) (retryHandler c) (goroutinePool c) (subscriptions c) (loops c) (goroutines c) (subscriptionWG c) (formerCheckers c) (formerManagers c).
Definition set_closeChan v c := mkClient (config c) (rt c) (connection c) (producers c) (consumers c) v (closeOnce c) (closed c) (metrics c) (healthChecker c) (connectionManager c) (retryHandler c) (goroutinePool c) (subscriptions c) (loops c) (goroutines c) (subscriptionWG c) (formerCheckers c) (formerManagers c).
Definition set_closeOnce v c := mkClient (config c) (rt c) (connection c) (producers c) (consumers c) (closeChan c) v (closed c) (metrics c) (healthChecker c) (connectionManager c) (retryHandler c) (goroutinePool c) (subscriptions c) (loops c) (goroutines c) (subscriptionWG c) (formerCheckers c) (formerManagers c).
Definition set_closed v c := mkClient (config c) (rt c) (connection c) (producers c) (consumers c) (closeChan c) (closeOnce c) v (metrics c) (healthChecker c) (connectionManager c) (retryHandler c) (goroutinePool c) (subscriptions c) (loops c) (goroutines c) (subscriptionWG c) (formerCheckers c) (formerManagers c).
Definition set_metrics v c := mkClient (config c) (rt c) (connection c) (producers c) (consumers c) (closeChan c) (closeOnce c) (closed c) v (healthChecker c) (connectionManager c) (retryHandler c) (goroutinePool c) (subscriptions c) (loops c) (goroutines c) (subscriptionWG c) (formerCheckers c) (formerManagers c).
Definition set_healthChecker v c := mkClient (config c) (rt c) (connection c) (producers c) (consumers c) (closeChan c) (closeOnce c) (closed c) (metrics c) v (connectionManager c) (retryHandler c) (goroutinePool c) (subscriptions c) (loops c) (goroutines c) (subscriptionWG c) (formerCheckers c) (formerManagers c).
Definition set_connectionManager v c := mkClient (config c) (rt c) (connection c) (producers c) (consumers c) (closeChan c) (closeOnce c) (closed c) (metrics c) (healthChecker c) v (retryHandler c) (goroutinePool c) (subscriptions c) (loops c) (goroutines c) (subscriptionWG c) (formerCheckers c) (formerManagers c).
Definition set_retryHandler v c := mkClient (config c) (rt c) (connection c) (producers c) (consumers c) (closeChan c) (closeOnce c) (closed c) (metrics c) (healthChecker c) (connectionManager c) v (goroutinePool c) (subscriptions c) (loops c) (goroutines c) (subscriptionWG c) (formerCheckers c) (formerManagers c).
Definition set_goroutinePool v c := mkClient (config c) (rt c) (connection c) (producers c) (consumers c) (closeChan c) (closeOnce c) (closed c) (metrics c) (healthChecker c) (connectionManager c) (retryHandler c) v (subscriptions c) (loops c) (goroutines c) (subscriptionWG c) (formerCheckers c) (formerManagers c).
Definition set_subscriptions v c := mkClient (config c) (rt c) (connection c) (producers c) (consumers c) (closeChan c) (closeOnce c) (closed c) (metrics c) (healthChecker c) (connectionManager c) (retryHandler c) (goroutinePool c) v (loops c) (goroutines c) (subscriptionWG c) (formerCheckers c) (formerManagers c).
Definition set_loops v c := mkClient (config c) (rt c) (connection c) (producers c) (consumers c) (closeChan c) (closeOnce c) (closed c) (metrics c) (healthChecker c) (connectionManager c) (retryHandler c) (goroutinePool c) (subscriptions c) v (goroutines c) (subscriptionWG c) (formerCheckers c) (formerManagers c).
Definition set_goroutines v c := mkClient (config c) (rt c) (connection c) (producers c) (consumers c) (closeChan c) (closeOnce c) (closed c) (metrics c) (healthChecker c) (connectionManager c) (retryHandler c) (goroutinePool c) (subscriptions c) (loops c) v (subscriptionWG c) (formerCheckers c) (formerManagers c).
Definition set_subscriptionWG v c := mkClient (config c) (rt c) (connection c) (producers c) (consumers c) (closeChan c) (closeOnce c) (closed c) (metrics c) (healthChecker c) (connectionManager c) (retryHandler c) (goroutinePool c) (subscriptions c) (loops c) (goroutines c) v (formerCheckers c) (formerManagers c).
Definition set_formerCheckers v c := mkClient (config c) (rt c) (connection c) (producers c) (consumers c) (closeChan c) (closeOnce c) (closed c) (metrics c) (healthChecker c) (connectionManager c) (retryHandler c) (goroutinePool c) (subscriptions c) (loops c) (goroutines c) (subscriptionWG c) v (formerManagers c).
Definition set_formerManagers v c := mkClient (config c) (rt c) (connection c) (producers c) (consumers c) (closeChan c) (closeOnce c) (closed c) (metrics c) (healthChecker c) (connectionManager c) (retryHandler c) (goroutinePool c) (subscriptions c) (loops c) (goroutines c) (subscriptionWG c) (formerCheckers c) v.

(** An assignment of a new checker or manager: the goroutines keep the old one. *)
Definition leave_checker (k : nat) (g : goroutine) : goroutine :=
  match g with HealthLoop Held => HealthLoop (Replaced k) | _ => g end.

Definition leave_manager (k : nat) (g : goroutine) : goroutine :=
  match g with Watcher Held notify => Watcher (Replaced k) notify | _ => g end.

Definition assign_healthChecker (h : Checker) (c : RabbitMQClient) : RabbitMQClient :=
  set_healthChecker (Some h)
    match healthChecker c with
    | None => c
    | Some old =>
        set_goroutines (leave_checker (length (formerCheckers c)) <$> goroutines c)
          (set_formerCheckers (formerCheckers c ++ [old]) c)
    end.

Definition assign_connectionManager (m : Manager) (c : RabbitMQClient) : RabbitMQClient :=
  set_connectionManager (Some m)
    match connectionManager c with
    | None => c
    | Some old =>
        set_goroutines (leave_manager (length (formerManagers c)) <$> goroutines c)
          (set_formerManagers (formerManagers c ++ [old]) c)
    end.

(** The dispatch goroutines that subscriptionWG counts. *)
Definition running (c : RabbitMQClient) : list loop := omap id (loops c).

Section operations.
Context `{IP : NetIP}.
Notation M := (prog RabbitMQClient).

#[global] Instance checker_pointer : Pointer Checker M := field_pointer healthChecker set_healthChecker.

#[global] Instance manager_pointer : Pointer Manager M := field_pointer connectionManager set_connectionManager.

(** The checker and the manager that a goroutine holds. *)
Definition checker_of (h : holder) (c : RabbitMQClient) : option Checker :=
  match h with Held => healthChecker c | Replaced k => formerCheckers c !! k end.

Definition manager_of (h : holder) (c : RabbitMQClient) : option Manager :=
  match h with Held => connectionManager c | Replaced k => formerManagers c !! k end.

Definition checker_at (h : holder) : Pointer Checker M :=
  match h with
  | Held => checker_pointer
  | Replaced k => field_pointer (checker_of h)
                    (λ o c, set_formerCheckers (from_option (λ x, <[k := x]> (formerCheckers c)) (formerCheckers c) o) c)
  end.

Definition manager_at (h : holder) : Pointer Manager M :=
  match h with
  | Held => manager_pointer
  | Replaced k => field_pointer (manager_of h)
                    (λ o c, set_formerManagers (from_option (λ x, <[k := x]> (formerManagers c)) (formerManagers c) o) c)
  end.

Definition errorf_w (pre : string) (e : error) : option error := Some (Errorf_w pre e).

(** [if err := ...; err != nil { return wrap(err) }] *)
Definition on_err {X} (m : M (option X)) (wrap : X → M (option error)) (k : M (option error)) : M (option error) :=
  e ← m; match e with Some e => wrap e | None => k end.

(** ** NewRabbitMQClient, InitializeResources *)

Definition NewRabbitMQClient : RabbitMQClient :=
  mkClient defaultRabbitMQConfig None None ∅ ∅ false false false (Some zeroMetrics) None None None None [] [] [] 0 [] [].

Definition InitializeResources (runtime : option Runtime) : M (option error) :=
  on_err (ext (EBaseInitialize runtime)) (λ e, mret (Some e)) (
  put (set_rt runtime) ;;
  let cfg := defaultRabbitMQConfig in
  scanned ← match runtime with
    | None => mret (cfg, None)
    | Some runtime' =>
        has ← ext (EGetConfig runtime');
        if has : bool then ext (EScan runtime' confPrefix cfg) else mret (cfg, None)
    end;
  let '(cfg, err) := scanned in
  match err with
  | Some e =>
      if Is e (TForeign kratos_ErrNotFound) then mret None
      else mret (errorf_w "failed to scan RabbitMQ configuration" e)
  | None => mret None
  end ≫= λ failed,
  match failed with
  | Some e => mret (Some e)
  | None =>
      match normalizeRabbitMQConfig (Some cfg) with
      | (_, Some e) => mret (Some e)
      | (None, None) => panic
      | (Some cfg, None) =>
          put (set_config cfg) ;;
          put (assign_healthChecker HC.NewHealthChecker) ;;
          put (assign_connectionManager CM.NewConnectionManager) ;;
          put (set_retryHandler (Some (Retry.NewRetryHandler (Some cfg)))) ;;
          put (set_goroutinePool (Some false)) ;;
          mret None
      end
  end).

(** ** runtime_contract.go *)

Definition registerRuntimePluginAlias : M unit :=
  runtime ← get rt;
  match runtime with
  | None => mret tt
  | Some runtime => ext (ERegisterShared runtime sharedPluginResourceName ResClient) ;; mret tt
  end.

Definition publishRuntimeContract (ready healthy : bool) : M unit :=
  runtime ← get rt;
  match runtime with
  | None => mret tt
  | Some runtime =>
      for_all (λ item, ext (ERegisterShared runtime (fst item) (ResBool (snd item))) ;; mret tt)
        [(sharedReadinessResourceName, ready); (sharedHealthResourceName, healthy)] ;;
      ext (ERegisterPrivate runtime privateReadinessResourceName (ResBool ready)) ;;
      ext (ERegisterPrivate runtime privateHealthResourceName (ResBool healthy)) ;;
      mret tt
  end.

(** ** dial, buildDialURL *)

Definition buildDialURL (cfg : RabbitMQ) (raw : string) : string :=
  match url_Parse raw with
  | None => raw
  | Some u =>
      let no_user := match User u with None => true | Some ui => bool_decide (username ui = "") end in
      let u := if no_user && bool_decide (Username cfg ≠ "")
               then set_User (Some (UserPassword (Username cfg) (Password cfg))) u else u in
      let u := if (bool_decide (Path u = "") || bool_decide (Path u = "/"))
                  && bool_decide (VirtualHost cfg ≠ "") && bool_decide (VirtualHost cfg ≠ "/")
               then set_Path ("/" +:+ TrimPrefix (VirtualHost cfg) "/") u else u in
      url_String u
  end.

(** The amqp.Config of a dial. *)
Definition dial_config (cfg : RabbitMQ) (dialURL : string) : AmqpConfig :=
  {| Vhost := VirtualHost cfg;
     HeartbeatInterval := AsDuration (Heartbeat cfg);
     Locale := "en_US";
     DialTimeoutOpt := AsDuration (DialTimeout cfg);
     TLSMinVersion := if String.prefix "amqps://" (ToLower dialURL) then Some VersionTLS12 else None |}.

Definition dial : M (Connection + error) :=
  cfg ← get config;
  match Urls cfg with
  | [] => mret (inr (Errorf "no RabbitMQ URLs configured"))
  | url0 :: _ =>
      match validateVirtualHost (VirtualHost cfg) with
      | Some err => mret (inr (Errorf_w "invalid virtual host" err))
      | None =>
          let dialURL := buildDialURL cfg url0 in
          r ← ext (EDialConfig dialURL (dial_config cfg dialURL));
          match r with
          | inr err => mret (inr (Errorf_w ("failed to connect to RabbitMQ at " +:+ url0) (as_error err)))
          | inl conn => mret (inl conn)
          end
      end
  end.

(** ** createProducer, createConsumer *)

(** [r.connection.Channel()]: a nil connection is dereferenced. *)
Definition connection_Channel : M (Channel + foreign_error) :=
  conn ← get connection;
  match conn with
  | None => panic
  | Some conn => ext (EChannel conn)
  end.

(** The validation at the head of createProducer. *)
Definition validate_producer (p : Producer) : option error :=
  if bool_decide (p_Exchange p ≠ "") then
    match validateExchange (p_Exchange p) with
    | Some e => errorf_w ("producer " +:+ p_Name p) e
    | None =>
        match validateExchangeType (p_ExchangeType p) with
        | Some e => errorf_w ("producer " +:+ p_Name p) e
        | None => None
        end
    end
  else None.

(** The channel operations between opening the channel and registering it. *)
Definition setup_producer (p : Producer) (channel : Channel) : M (option error) :=
  if bool_decide (p_Exchange p ≠ "") then
    on_err (ext (EExchangeDeclare channel (p_Exchange p) (p_ExchangeType p) (p_ExchangeDurable p) (p_ExchangeAutoDelete p) false false))
      (λ err, ext (EChClose channel) ;; mret (errorf_w ("failed to declare exchange " +:+ p_Exchange p) (as_error err))) (
    on_err (ext (EConfirm channel false))
      (λ err, ext (EChClose channel) ;; mret (errorf_w ("failed to enable publisher confirms for producer " +:+ p_Name p) (as_error err))) (
    mret None))
  else mret None.

Definition createProducer (p : Producer) : M (option error) :=
  match validate_producer p with
  | Some e => mret (Some e)
  | None =>
      r ← connection_Channel;
      match r with
      | inr err => mret (errorf_w "failed to create channel" (as_error err))
      | inl channel =>
          on_err (setup_producer p channel) (λ e, mret (Some e)) (
          put (λ c, set_producers (<[p_Name p := Some channel]> (producers c)) c) ;;
          mret None)
      end
  end.

Definition buildQueueArgs (c : Consumer) : option (gmap string string) :=
  let args : gmap string string :=
    if bool_decide (c_Exchange c ≠ "") then
      let args := <["x-dead-letter-exchange" := c_Exchange c]> ∅ in
      if bool_decide (c_RoutingKey c ≠ "") then <["x-dead-letter-routing-key" := c_RoutingKey c]> args else args
    else ∅ in
  if bool_decide (args = ∅) then None else Some args.

Definition validate_consumer (c : Consumer) : option error :=
  match (if bool_decide (c_Queue c ≠ "") then validateQueue (c_Queue c) else None) with
  | Some e => errorf_w ("consumer " +:+ c_Name c) e
  | None =>
      match (if bool_decide (c_Exchange c ≠ "") then validateExchange (c_Exchange c) else None) with
      | Some e => errorf_w ("consumer " +:+ c_Name c) e
      | None => None
      end
  end.

Definition setup_consumer (c : Consumer) (channel : Channel) : M (option error) :=
  on_err (if bool_decide (0 < c_PrefetchCount c)%Z then ext (EQos channel (c_PrefetchCount c) 0 false) else mret None)
    (λ err, ext (EChClose channel) ;; mret (errorf_w "failed to set QoS" (as_error err))) (
  on_err (if bool_decide (c_Queue c ≠ "")
          then ext (EQueueDeclare channel (c_Queue c) (c_QueueDurable c) (c_QueueAutoDelete c) (c_QueueExclusive c) false (buildQueueArgs c))
          else mret None)
    (λ err, ext (EChClose channel) ;; mret (errorf_w ("failed to declare queue " +:+ c_Queue c) (as_error err))) (
  mret None)).

Definition createConsumer (c : Consumer) : M (option error) :=
  match validate_consumer c with
  | Some e => mret (Some e)
  | None =>
      r ← connection_Channel;
      match r with
      | inr err => mret (errorf_w "failed to create channel" (as_error err))
      | inl channel =>
          on_err (setup_consumer c channel) (λ e, mret (Some e)) (
          put (λ s, set_consumers (<[c_Name c := Some channel]> (consumers s)) s) ;;
          mret None)
      end
  end.

Definition initializeProducers : M (option error) :=
  cfg ← get config;
  enabled ← from_outcome (GetEnabledProducers cfg);
  for_each (λ p, on_err (createProducer p) (λ e, mret (errorf_w ("failed to create producer " +:+ p_Name p) e)) (mret None)) enabled.

Definition initializeConsumers : M (option error) :=
  cfg ← get config;
  enabled ← from_outcome (GetEnabledConsumers cfg);
  for_each (λ c, on_err (createConsumer c) (λ e, mret (errorf_w ("failed to create consumer " +:+ c_Name c) e)) (mret None)) enabled.

(** ** Accessors *)

Definition GetConnection : M (option Connection) := get connection.

Definition conn_IsClosed (conn : Connection) : M bool := ext (EIsClosed conn).

Definition IsConnected : M bool :=
  c ← get closed;
  if c : bool then mret false
  else
    conn ← get connection;
    match conn with
    | None => mret false
    | Some conn => b ← conn_IsClosed conn; mret (negb b)
    end.

Definition GetMetrics : M (option Metrics) := get metrics.

Definition GetRabbitMQConfig : M RabbitMQ := get config.

Definition GetProducer (name : string) : M (option Channel * option error) :=
  ps ← get producers;
  match ps !! name with
  | None => mret (None, Some (WrapError (Some (Sentinel ErrProducerNotFound)) ("producer: " +:+ name)))
  | Some ch => mret (ch, None)
  end.

Definition IsProducerReady (name : string) : M bool :=
  ps ← get producers;
  mret (match ps !! name with Some (Some _) => true | _ => false end).

Definition GetConsumer (name : string) : M (option Channel * option error) :=
  cs ← get consumers;
  match cs !! name with
  | None => mret (None, Some (WrapError (Some (Sentinel ErrConsumerNotFound)) ("consumer: " +:+ name)))
  | Some ch => mret (ch, None)
  end.

Definition IsConsumerReady (name : string) : M bool :=
  cs ← get consumers;
  mret (match cs !! name with Some (Some _) => true | _ => false end).

(** ** Publishing *)

(** The effect of a method on [r.metrics] when it is not nil. *)
Definition on_metrics (f : Metrics → Metrics) : M unit :=
  put (λ c, set_metrics (f <$> metrics c) c).

Definition publishToChannel (ctx : Context_) (ch : Channel) (exchange routingKey body : string) (opts : list Publishing) : M (option error) :=
  match (if bool_decide (exchange ≠ "") then validateExchange exchange else None) with
  | Some e => mret (Some e)
  | None =>
      if bool_decide (body = "") then mret (Some (Sentinel ErrEmptyMessage))
      else
        now ← ext ENow;
        let pub := mkPublishing "application/octet-stream" Persistent now body zeroRest in
        pub ← match opts with
              | [] => mret pub
              | opt :: _ =>
                  let pub := mkPublishing (ContentType opt) (DeliveryMode opt) (Timestamp opt) body (pubRest opt) in
                  if IsZero (Timestamp pub) then
                    now ← ext ENow;
                    mret (mkPublishing (ContentType pub) (DeliveryMode pub) now (Body pub) (pubRest pub))
                  else mret pub
              end;
        start ← ext ENow;
        err ← ext (EPublish ch ctx exchange routingKey false false pub);
        m ← get metrics;
        match m with
        | None => mret tt
        | Some _ =>
            t ← ext ENow;
            on_metrics (RecordProducerLatency (Since start t)) ;;
            match err with
            | Some _ => on_metrics IncrementProducerMessagesFailed
            | None => on_metrics IncrementProducerMessagesSent
            end
        end ;;
        match err with
        | Some e =>
            mret (Some (WrapError (Some (Sentinel ErrPublishMessageFailed)) (f_text e)))
        | None => mret None
        end
  end.

(** The entry a [range] loop with an immediate break visits. *)
Definition first_entry {A} (m : gmap string A) : M (option (string * A)) :=
  keys ← (range_keys m);
  mret (match keys with
        | [] => None
        | k :: _ => pair k <$> m !! k
        end).

Definition PublishMessage (ctx : Context_) (exchange routingKey body : string) (opts : list Publishing) : M (option error) :=
  ps ← get producers;
  e ← first_entry ps;
  match e with
  | Some (_, Some ch) => publishToChannel ctx ch exchange routingKey body opts
  | _ => mret (Some (Sentinel ErrProducerNotReady))
  end.

Definition PublishMessageWith (ctx : Context_) (producerName exchange routingKey body : string) (opts : list Publishing) : M (option error) :=
  ps ← get producers;
  match ps !! producerName with
  | None => mret (Some (WrapError (Some (Sentinel ErrProducerNotFound)) ("producer: " +:+ producerName)))
  | Some None => mret (Some (WrapError (Some (Sentinel ErrProducerNotReady)) ("producer: " +:+ producerName)))
  | Some (Some ch) => publishToChannel ctx ch exchange routingKey body opts
  end.

(** ** Consuming *)

(** The consumer settings read by startDispatchLoop; a nil entry before the
    match is dereferenced. *)
Fixpoint consumer_settings (l : list (option Consumer)) (name : string) : outcome (bool * Z) :=
  match l with
  | [] => Done (false, 0%Z)
  | None :: _ => Panicked
  | Some c :: l' => if bool_decide (c_Name c = name) then Done (c_AutoAck c, c_PrefetchCount c) else consumer_settings l' name
  end.

(** [r.subscriptionWG.Add(1)] and the go statement. *)
Definition subscriptionWG_Add (l : loop) (c : RabbitMQClient) : RabbitMQClient := set_loops (loops c ++ [Some l]) c.

Definition startDispatchLoop (ctx : Context_) (consumerName queue : string) (handler : Handler) : M (option error) :=
  cfg ← get config;
  settings ← from_outcome (consumer_settings (Consumers cfg) consumerName);
  let '(autoAck, prefetchCount) := settings in
  conn ← get connection;
  match conn with
  | None => mret (Some (Sentinel ErrConsumerNotReady))
  | Some conn =>
      is_closed ← conn_IsClosed conn;
      if is_closed : bool then mret (Some (Sentinel ErrConsumerNotReady))
      else
        r ← ext (EChannel conn);
        match r with
        | inr err => mret (Some (WrapError (Some (Sentinel ErrSubscribeFailed)) (f_text err)))
        | inl ch =>
            on_err (if bool_decide (0 < prefetchCount)%Z then ext (EQos ch prefetchCount 0 false) else mret None)
              (λ err, ext (EChClose ch) ;; mret (Some (WrapError (Some (Sentinel ErrSubscribeFailed)) (f_text err)))) (
            r ← ext (EConsume ch ctx queue consumerName autoAck false false false);
            match r with
            | inr err => ext (EChClose ch) ;; mret (Some (WrapError (Some (Sentinel ErrSubscribeFailed)) (f_text err)))
            | inl deliveries =>
                put (subscriptionWG_Add (mkLoop ctx ch deliveries handler autoAck)) ;;
                mret None
            end)
        end
  end.

Definition subscribeWithChannel (ctx : Context_) (consumerName queue : string) (handler : Handler) : M (option error) :=
  put (λ c, set_subscriptions (subscriptions c ++ [mkSubscription consumerName queue handler]) c) ;;
  startDispatchLoop ctx consumerName queue handler.

Definition Subscribe (ctx : Context_) (queue : string) (handler : Handler) : M (option error) :=
  cs ← get consumers;
  e ← first_entry cs;
  match e with
  | Some (name, Some ch) => subscribeWithChannel ctx name queue handler
  | _ => mret (Some (Sentinel ErrConsumerNotReady))
  end.

Definition SubscribeWith (ctx : Context_) (consumerName queue : string) (handler : Handler) : M (option error) :=
  match validateQueue queue with
  | Some e => mret (Some e)
  | None =>
      cs ← get consumers;
      match cs !! consumerName with
      | None => mret (Some (WrapError (Some (Sentinel ErrConsumerNotFound)) ("consumer: " +:+ consumerName)))
      | Some None => mret (Some (WrapError (Some (Sentinel ErrConsumerNotReady)) ("consumer: " +:+ consumerName)))
      | Some (Some _) => subscribeWithChannel ctx consumerName queue handler
      end
  end.

Definition dispatchDelivery (ctx : Context_) (d : Delivery) (handler : Handler) (autoAck : bool) : M unit :=
  start ← ext ENow;
  r ← ext (EHandler handler ctx d);
  let handlerErr := match r with
                    | HReturn err => err
                    | HPanic rec stack => Some (Errorf ("handler panic: " +:+ rec +:+ nl +:+ stack))
                    end in
  m ← get metrics;
  match m with
  | None => mret tt
  | Some _ =>
      t ← ext ENow;
      on_metrics (RecordConsumerLatency (Since start t)) ;;
      match handlerErr with
      | Some _ => on_metrics IncrementConsumerMessagesFailed
      | None => on_metrics IncrementConsumerMessagesReceived
      end
  end ;;
  if autoAck then mret tt
  else match handlerErr with
       | Some _ => ext (ENack d false false) ;; mret tt
       | None => ext (EAck d false) ;; mret tt
       end.

(** *** The dispatch goroutine

    One iteration of the select of the i-th loop, by the case that is
    taken.  A case that is not ready leaves the loop at its select. *)
Inductive loop_event : Type :=
| LCtxDone
| LCloseChan
| LDelivery (d : Delivery)
| LDeliveriesClosed.

(** [r.subscriptionWG.Done()] by the i-th loop: when the counter comes to zero,
    everybody inside Wait is woken. *)
Definition subscriptionWG_Done (i : nat) (c : RabbitMQClient) : RabbitMQClient :=
  let c := set_loops (<[i := None]> (loops c)) c in
  match running c with
  | [] => set_subscriptionWG (S (subscriptionWG c)) c
  | _ :: _ => c
  end.

(** The deferred calls: close the dedicated channel, then Done. *)
Definition loop_return (i : nat) (l : loop) : M unit :=
  ext (EChClose (l_ch l)) ;;
  put (subscriptionWG_Done i).

(** The body of the select, with the variables of the goroutine in [l]. *)
Definition loop_case (i : nat) (l : loop) (ev : loop_event) : M unit :=
  match ev with
  | LCtxDone =>
      err ← (ctx_Err (l_ctx l));
      match err with Some _ => loop_return i l | None => mret tt end
  | LCloseChan =>
      c ← get closeChan;
      if c : bool then loop_return i l else mret tt
  | LDelivery d => dispatchDelivery (l_ctx l) d (l_handler l) (l_autoAck l)
  | LDeliveriesClosed => loop_return i l
  end.

Definition loop_step (i : nat) (ev : loop_event) : M unit :=
  ls ← get loops;
  match mjoin (ls !! i) with
  | None => mret tt
  | Some l => loop_case i l ev
  end.

(** ** Connecting and reconnecting *)

Definition set_reconnect_func : M unit :=
  method (λ m : Manager, (tt, CM.SetReconnectFunc reconnect_closure m)).

Definition set_connection_notify (n : NotifyChan) : M unit :=
  method (λ m : Manager, (tt, CM.SetConnectionNotify n m)).

Definition connect : M (option error) :=
  r ← dial;
  match r with
  | inr err => mret (Some err)
  | inl conn =>
      put (set_connection (Some conn)) ;;
      cm ← get connectionManager;
      match cm with
      | None => mret tt
      | Some _ =>
          set_reconnect_func ;;
          notifyCh ← ext (ENotifyClose conn);
          set_connection_notify notifyCh
      end ;;
      cfg ← get config;
      match Urls cfg with
      | [] => panic
      | _ :: _ => mret None
      end
  end.

(** The range over the copied subscriptions. *)
Definition restart_subscription (sub : subscription) : M (option error) :=
  cs ← get consumers;
  match cs !! consumerName sub with
  | Some (Some _) =>
      on_err (startDispatchLoop Background (consumerName sub) (queue sub) (handler sub))
        (λ err, mret (errorf_w ("reconnect: failed to restart subscription " +:+ consumerName sub) err)) (mret None)
  | _ => mret None
  end.

Definition rebuildAfterReconnect : M (option error) :=
  put (set_producers ∅) ;;
  put (set_consumers ∅) ;;
  on_err initializeProducers (λ err, mret (errorf_w "reconnect: failed to rebuild producers" err)) (
  on_err initializeConsumers (λ err, mret (errorf_w "reconnect: failed to rebuild consumers" err)) (
  subs ← get subscriptions;
  for_each restart_subscription subs)).

(** The function literal of [connect]. *)
Definition call_reconnect (fn : reconnect_fn) : M (Connection + error) :=
  r ← dial;
  match r with
  | inr dialErr => mret (inr dialErr)
  | inl newConn =>
      put (set_connection (Some newConn)) ;;
      rebuildErr ← rebuildAfterReconnect;
      match rebuildErr with
      | Some e => mret (inr e)
      | None => mret (inl newConn)
      end
  end.

Definition connectionProbe : M (option error) :=
  c ← get closed;
  if c : bool then mret (Some (Errorf "rabbitmq client is closed"))
  else
    conn ← get connection;
    match conn with
    | None => mret (Some (Errorf "rabbitmq connection not initialized"))
    | Some conn =>
        is_closed ← conn_IsClosed conn;
        if is_closed : bool then mret (Some (Errorf "rabbitmq connection is closed"))
        else
          r ← ext (EChannel conn);
          match r with
          | inr err => mret (errorf_w "rabbitmq health probe failed to open channel" (as_error err))
          | inl ch => ext (EChClose ch) ;; mret None
          end
    end.

Definition call_probe (fn : probe_fn) : M (option error) := connectionProbe.

(** ** health.go *)

(** The loop over a channel map: the first visited entry with a nil channel. *)
Definition check_ready (what : string) (m : gmap string (option Channel)) : M (option error) :=
  keys ← (range_keys m);
  for_each (λ name, mret (match m !! name with
                          | Some None => Some (Errorf ("rabbitmq " +:+ what +:+ " " +:+ name +:+ " is not ready"))
                          | _ => None
                          end)) keys.

Definition CheckHealth : M (option error) :=
  conn ← get connection;
  match conn with
  | None => mret (Some (Errorf "rabbitmq connection not initialized"))
  | Some conn =>
      is_closed ← conn_IsClosed conn;
      if is_closed : bool then mret (Some (Errorf "rabbitmq connection is closed"))
      else
        cm ← get connectionManager;
        match cm with
        | None => mret (Some (Errorf "rabbitmq connection manager not initialized"))
        | Some cm =>
            if negb (CM.IsConnected cm) then mret (Some (Errorf "rabbitmq connection manager is not connected"))
            else
              hc ← get healthChecker;
              if match hc with Some h => negb (HC.IsHealthy h) | None => false end
              then mret (Some (Errorf "rabbitmq health checker is unhealthy"))
              else
                ps ← get producers;
                on_err (check_ready "producer" ps) (λ e, mret (Some e)) (
                cs ← get consumers;
                check_ready "consumer" cs)
        end
  end.

(** ** Startup *)

Definition start_health_checker : M unit :=
  hc ← get healthChecker;
  match hc with
  | None => mret tt
  | Some _ =>
      method (λ h : Checker, (tt, HC.SetProbe connectionProbe_fn h)) ;;
      put (λ c, set_goroutines (goroutines c ++ [HealthLoop Held]) c)
  end.

Definition start_connection_manager : M unit :=
  cm ← get connectionManager;
  match cm with
  | None => mret tt
  | Some _ =>
      watch ← method (λ m : Manager, CM.Start m);
      match watch with
      | None => mret tt
      | Some (notify, _) => put (λ c, set_goroutines (goroutines c ++ [Watcher Held notify]) c)
      end
  end.

(** [if err := rt.RegisterPrivateResource(...); err != nil { log }] *)
Definition register_private (runtime : Runtime) (name : string) (v : resource) : M unit :=
  ext (ERegisterPrivate runtime name v) ;; mret tt.

Definition register_private_resources (runtime : Runtime) : M unit :=
  cfg ← get config;
  register_private runtime "config" (ResConfig cfg) ;;
  conn ← get connection;
  match conn with Some c => register_private runtime "connection" (ResConnection c) | None => mret tt end ;;
  ps ← get producers;
  (if bool_decide (ps ≠ ∅) then register_private runtime "producers" ResProducers else mret tt) ;;
  cs ← get consumers;
  (if bool_decide (cs ≠ ∅) then register_private runtime "consumers" ResConsumers else mret tt) ;;
  cm ← get connectionManager;
  match cm with Some _ => register_private runtime "connection_manager" ResConnectionManager | None => mret tt end ;;
  hc ← get healthChecker;
  match hc with Some _ => register_private runtime "health_checker" ResHealthChecker | None => mret tt end ;;
  rh ← get retryHandler;
  match rh with Some _ => register_private runtime "retry_handler" ResRetryHandler | None => mret tt end ;;
  m ← get metrics;
  match m with Some _ => register_private runtime "metrics" ResMetrics | None => mret tt end.

(** The [if r.rt != nil] block of startupWithContext. *)
Definition register_resources : M (option error) :=
  runtime ← get rt;
  match runtime with
  | None => mret None
  | Some runtime =>
      on_err (ext (ERegisterShared runtime pluginName ResClient))
        (λ e, mret (errorf_w "failed to register RabbitMQ shared resource" e)) (
      registerRuntimePluginAlias ;;
      register_private_resources runtime ;;
      mret None)
  end.

(** [publishRuntimeContract(false, false); return err] *)
Definition not_ready (err : option error) : M (option error) :=
  publishRuntimeContract false false ;; mret err.

Definition startupWithContext (ctx : Context_) : M (option error) :=
  on_err ((ctx_Err ctx)) (λ e, mret (errorf_w "rabbitmq startup canceled before execution" e)) (
  publishRuntimeContract false false ;;
  on_err connect (λ e, not_ready (errorf_w "failed to connect to RabbitMQ" e)) (
  on_err ((ctx_Err ctx)) (λ e, not_ready (errorf_w "rabbitmq startup canceled after connect" e)) (
  on_err initializeProducers (λ e, not_ready (errorf_w "failed to initialize producers" e)) (
  on_err ((ctx_Err ctx)) (λ e, not_ready (errorf_w "rabbitmq startup canceled after producer init" e)) (
  on_err initializeConsumers (λ e, not_ready (errorf_w "failed to initialize consumers" e)) (
  start_health_checker ;;
  start_connection_manager ;;
  on_err register_resources (λ e, not_ready (Some e)) (
  on_err CheckHealth (λ e, not_ready (Some e)) (
  publishRuntimeContract true true ;;
  mret None)))))))).

Definition StartupTasks : M (option error) := startupWithContext Background.

(** ** Cleanup *)

(** [r.closeOnce.Do(func() { close(r.closeChan) })] *)
Definition close_closeChan : M unit :=
  sect (λ c,
    if closeOnce c then Done (tt, c)
    else if closeChan c then Panicked
    else Done (tt, set_closeOnce true (set_closeChan true c))).

Definition stop_health_checker : M unit :=
  hc ← get healthChecker;
  match hc with
  | None => mret tt
  | Some _ => with_pointer (λ h : Checker, HC.Stop h)
  end.

Definition stop_connection_manager : M unit :=
  cm ← get connectionManager;
  match cm with
  | None => mret tt
  | Some _ => with_pointer (λ m : Manager, CM.Stop m)
  end.

(** [r.subscriptionWG.Wait()].  It returns at once when the counter is zero.
    Otherwise it sleeps until the counter has come to zero, and then panics if it is
    not zero any more ("WaitGroup is reused before previous Wait has returned").
    (When such an Add comes before the Done that woke the sleepers has ended, it is
    the Add that panics; the model lets it pass and panics here.)

    While the goroutine sleeps, the dispatch goroutines run as the schedule says; it
    sleeps for ever if the schedule ends too early.  When the goroutines are
    interleaved with the waiting one, the schedule is empty. *)
Definition subscriptionWG_enter (c : RabbitMQClient) : option nat :=
  match running c with [] => None | _ :: _ => Some (subscriptionWG c) end.

Definition subscriptionWG_leave (seen : nat) (c : RabbitMQClient) : outcome (unit * RabbitMQClient) :=
  if bool_decide (subscriptionWG c = seen) then Blocked
  else match running c with [] => Done (tt, c) | _ :: _ => Panicked end.

Definition subscriptionWG_Wait (schedule : list (nat * loop_event)) : M unit :=
  seen ← get subscriptionWG_enter;
  match seen with
  | None => mret tt
  | Some seen =>
      for_all (λ ev, loop_step (fst ev) (snd ev)) schedule ;;
      sect (subscriptionWG_leave seen)
  end.

Definition goroutinePool_Wait : M unit :=
  put (λ c, set_goroutinePool ((λ _, true) <$> goroutinePool c) c).

(** [for _, channel := range m { if channel != nil { channel.Close() } }] *)
Definition close_channels (m : gmap string (option Channel)) : M unit :=
  keys ← (range_keys m);
  for_all (λ name, match m !! name with
                   | Some (Some ch) => ext (EChClose ch) ;; mret tt
                   | _ => mret tt
                   end) keys.

Definition close_connection : M (option error) :=
  conn ← get connection;
  match conn with
  | None => mret None
  | Some conn =>
      on_err (ext (EConnClose conn)) (λ e, mret (Some (as_error e))) (
      put (set_connection None) ;; mret None)
  end.

Definition cleanupWithContext (ctx : Context_) (schedule : list (nat * loop_event)) : M (option error) :=
  on_err ((ctx_Err ctx)) (λ e, mret (errorf_w "rabbitmq cleanup canceled before execution" e)) (
  publishRuntimeContract false false ;;
  put (set_closed true) ;;
  close_closeChan ;;
  stop_health_checker ;;
  stop_connection_manager ;;
  subscriptionWG_Wait schedule ;;
  goroutinePool_Wait ;;
  cs ← get consumers;
  close_channels cs ;;
  put (set_consumers ∅) ;;
  ps ← get producers;
  close_channels ps ;;
  put (set_producers ∅) ;;
  close_connection).

Definition CleanupTasks (schedule : list (nat * loop_event)) : M (option error) := cleanupWithContext Background schedule.

(** ** lifecycle_context.go; BasePlugin.Initialize is a parameter *)

Definition InitializeContext (base_Initialize : M (option error)) (ctx : Context_) : M (option error) :=
  on_err ((ctx_Err ctx)) (λ e, mret (errorf_w "rabbitmq initialize canceled before execution" e)) base_Initialize.

Definition StartContext (ctx : Context_) : M (option error) := startupWithContext ctx.

Definition StopContext (ctx : Context_) (schedule : list (nat * loop_event)) : M (option error) :=
  on_err ((ctx_Err ctx)) (λ e, mret (errorf_w "rabbitmq stop canceled before execution" e))
    (cleanupWithContext ctx schedule).

Definition IsContextAware : bool := true.

(** ** One round of the background goroutines of the helpers *)

(** A tick of a health loop, on the checker it was started on. *)
Definition health_tick (h : holder) : M unit :=
  HC.performHealthCheck (Pointer0 := checker_at h) call_probe (ext ENow).

(** A watcher that was notified of a disconnect marks its manager down... *)
Definition watch_notified (h : holder) : M unit :=
  method (Pointer0 := manager_at h) (λ m : Manager, (tt, CM.set_connected false m)).

(** ...and then tries to reconnect: one iteration of its loop, [true] when it
    succeeded and the next watcher runs. *)
Definition watch_attempt (h : holder) : M bool :=
  r ← call_reconnect reconnect_closure;
  match r with
  | inr _ => mret false
  | inl conn =>
      method (Pointer0 := manager_at h) (λ m : Manager, (tt, CM.set_connected true m)) ;;
      newNotify ← ext (ENotifyClose conn);
      put (λ c, set_goroutines (goroutines c ++ [Watcher h newNotify]) c) ;;
      mret true
  end.

Definition client_ForceReconnect : M unit := CM.ForceReconnect call_reconnect.

End operations.

End client.
