(* ===== verification/Logic.v ===== *)
(** * Reasoning about the client in every environment

    [ensures c m Q]: started with the client in state [c], in any environment that
    records its calls, [m] returns (it neither panics nor blocks), and [Q] holds of
    its result, of the client it leaves and of the calls it made.  The rules below
    execute a program symbolically, one call at a time; [go_run] applies them. *)

From S2P Require Import Prelude Errors Config Metrics HealthChecker ConnectionManager Env Program NetUrl Client.

Section logic.
Context `{TY : Types} `{IP : NetIP}.
Notation LM := (prog RabbitMQClient).
Implicit Types c : RabbitMQClient.

Definition ensures {A} c (m : LM A) (Q : A → RabbitMQClient → list entry → Prop) : Prop :=
  ∀ W (EW : Env W) (w : W) l, ∃ a c' w' new,
    run m (mkSys c (w, l)) = Done (a, mkSys c' (w', l ++ new)) ∧ Q a c' new.

(** Programs that run alike have the same specifications. *)
#[global] Instance ensures_proper {A} c : Proper ((≡) ==> eq ==> iff) (ensures (A := A) c).
Proof.
  intros m m' Hm Q ? <-. unfold ensures.
  split; intros H W EW w l; destruct (H W EW w l) as (a & c' & w' & new & Hrun & HQ); exists a, c', w', new;
    (split; [|done]); rewrite <- Hrun; [symmetry|]; apply Hm.
Qed.

(** An executable observation of a run that starts with an empty log. *)
Definition observe {W} `{!Env W} {A} (m : LM A) c (w : W) (f : A → RabbitMQClient → W → list entry → bool) : bool :=
  match run m (mkSys c (w, [])) with
  | Done (a, s) => f a (cl s) (fst (world s)) (snd (world s))
  | _ => false
  end.

(** What a specification says of a run that starts with an empty log. *)
Lemma ensures_run {W} `{!Env W} {A} c (m : LM A) Q (w : W) :
  ensures c m Q → ∃ a c' w' log, run m (mkSys c (w, [])) = Done (a, mkSys c' (w', log)) ∧ Q a c' log.
Proof. intros Hm. apply (Hm W _ w []). Qed.

Lemma ensures_ret {A} c (a : A) (Q : A → RabbitMQClient → list entry → Prop) : Q a c [] → ensures c (mret a) Q.
Proof. intros HQ W EW w l. exists a, c, w, []. by rewrite app_nil_r. Qed.

Lemma ensures_mono {A} c (m : LM A) (Q Q' : A → RabbitMQClient → list entry → Prop) :
  ensures c m Q → (∀ a c' new, Q a c' new → Q' a c' new) → ensures c m Q'.
Proof. intros Hm HQ W EW w l. destruct (Hm W EW w l) as (a & c' & w' & new & ? & ?). eauto 10. Qed.

Lemma ensures_bind {A B} c (m : LM A) (k : A → LM B) (P : A → RabbitMQClient → list entry → Prop) Q :
  ensures c m P →
  (∀ a c1 n1, P a c1 n1 → ensures c1 (k a) (λ b c2 n2, Q b c2 (n1 ++ n2))) →
  ensures c (m ≫= k) Q.
Proof.
  intros Hm Hk W EW w l. destruct (Hm W EW w l) as (a & c1 & w1 & n1 & Hrun1 & HP).
  destruct (Hk a c1 n1 HP W EW w1 (l ++ n1)) as (b & c2 & w2 & n2 & Hrun2 & HQ).
  exists b, c2, w2, (n1 ++ n2). rewrite run_bind, (bind_eq _ _ _ _ _ Hrun1), Hrun2, app_assoc. done.
Qed.

Lemma ensures_bind_ret {A B} c (a : A) (k : A → LM B) Q :
  ensures c (k a) Q → ensures c (mret a ≫= k) Q.
Proof. done. Qed.

Lemma ensures_bind_assoc {A B C} c (m : LM A) (k : A → LM B) (j : B → LM C) Q :
  ensures c (m ≫= λ a, k a ≫= j) Q → ensures c ((m ≫= k) ≫= j) Q.
Proof. by rewrite bind_assoc. Qed.

Lemma ensures_ext {A} c (e : E A) (Q : A → RabbitMQClient → list entry → Prop) :
  (∀ a, Q a c [mkEntry A e a]) → ensures c (ext e) Q.
Proof.
  intros HQ W EW w l. cbn. destruct (handle e w) as [a w']. exists a, c, w', [mkEntry A e a]. done.
Qed.

Lemma ensures_bind_ext {A B} c (e : E A) (k : A → LM B) (Q : B → RabbitMQClient → list entry → Prop) :
  (∀ a, ensures c (k a) (λ b c' new, Q b c' (mkEntry A e a :: new))) → ensures c (ext e ≫= k) Q.
Proof.
  intros Hk. eapply ensures_bind; [by apply (ensures_ext c e (λ a c' n, c' = c ∧ n = [mkEntry A e a]))|].
  intros a c1 n1 [-> ->]. apply Hk.
Qed.

Lemma ensures_get {A} c (f : RabbitMQClient → A) (Q : A → RabbitMQClient → list entry → Prop) :
  Q (f c) c [] → ensures c (get f) Q.
Proof. intros HQ W EW w l. exists (f c), c, w, []. by rewrite app_nil_r. Qed.

Lemma ensures_bind_get {A B} c (f : RabbitMQClient → A) (k : A → LM B) Q :
  ensures c (k (f c)) Q → ensures c (get f ≫= k) Q.
Proof. done. Qed.

Lemma ensures_put c (f : RabbitMQClient → RabbitMQClient) (Q : unit → RabbitMQClient → list entry → Prop) :
  Q tt (f c) [] → ensures c (put f) Q.
Proof. intros HQ W EW w l. exists tt, (f c), w, []. by rewrite app_nil_r. Qed.

(** A critical section that returns. *)
Lemma ensures_sect {X} c (f : RabbitMQClient → outcome (X * RabbitMQClient)) x c' (Q : X → RabbitMQClient → list entry → Prop) :
  f c = Done (x, c') → Q x c' [] → ensures c (sect f) Q.
Proof. intros Hf HQ W EW w l. exists x, c', w, []. cbn. by rewrite Hf, app_nil_r. Qed.

Lemma ensures_bind_sect {X B} c (f : RabbitMQClient → outcome (X * RabbitMQClient)) x c' (k : X → LM B) Q :
  f c = Done (x, c') → ensures c' (k x) Q → ensures c (sect f ≫= k) Q.
Proof.
  intros Hf Hk. eapply ensures_bind; [by apply (ensures_sect c f x c' (λ y c1 n, y = x ∧ c1 = c' ∧ n = []))|].
  by intros y c1 n (-> & -> & ->).
Qed.

(** A method of the checker or the manager the client points to. *)
Lemma ensures_checker {B} c h (f : Checker → outcome (B * Checker)) b h' (Q : B → RabbitMQClient → list entry → Prop) :
  healthChecker c = Some h → f h = Done (b, h') → Q b (set_healthChecker (Some h') c) [] → ensures c (with_pointer f) Q.
Proof. intros Hh Hf HQ. eapply ensures_sect; [|done]. cbn. by rewrite Hh, Hf. Qed.

Lemma ensures_manager {B} c m (f : Manager → outcome (B * Manager)) b m' (Q : B → RabbitMQClient → list entry → Prop) :
  connectionManager c = Some m → f m = Done (b, m') → Q b (set_connectionManager (Some m') c) [] → ensures c (with_pointer f) Q.
Proof. intros Hm Hf HQ. eapply ensures_sect; [|done]. cbn. by rewrite Hm, Hf. Qed.

Lemma ensures_bind_put {B} c (f : RabbitMQClient → RabbitMQClient) (k : unit → LM B) Q :
  ensures (f c) (k tt) Q → ensures c (put f ≫= k) Q.
Proof. done. Qed.

Lemma ensures_on_err {X} c (m : LM (option X)) wrap k (P : option X → RabbitMQClient → list entry → Prop) Q :
  ensures c m P →
  (∀ e c1 n1, P (Some e) c1 n1 → ensures c1 (wrap e) (λ b c2 n2, Q b c2 (n1 ++ n2))) →
  (∀ c1 n1, P None c1 n1 → ensures c1 k (λ b c2 n2, Q b c2 (n1 ++ n2))) →
  ensures c (on_err m wrap k) Q.
Proof. intros Hm Hw Hk. unfold on_err. eapply ensures_bind; [exact Hm|]. intros [e|] c1 n1 HP; auto. Qed.

Lemma ensures_bind_checker {B X} c h (f : Checker → outcome (B * Checker)) b h' (k : B → LM X) Q :
  healthChecker c = Some h → f h = Done (b, h') → ensures (set_healthChecker (Some h') c) (k b) Q → ensures c (with_pointer f ≫= k) Q.
Proof. intros Hh Hf HQ. eapply ensures_bind_sect; [|done]. cbn. by rewrite Hh, Hf. Qed.

Lemma ensures_bind_manager {B X} c m (f : Manager → outcome (B * Manager)) b m' (k : B → LM X) Q :
  connectionManager c = Some m → f m = Done (b, m') → ensures (set_connectionManager (Some m') c) (k b) Q →
  ensures c (with_pointer f ≫= k) Q.
Proof. intros Hm Hf HQ. eapply ensures_bind_sect; [|done]. cbn. by rewrite Hm, Hf. Qed.

(** ** Loops *)

(** A loop without early exit, with an invariant over what was visited. *)
Lemma ensures_for_all {A} (body : A → LM unit) (P : list A → RabbitMQClient → list entry → Prop) l c :
  P [] c [] →
  (∀ pre x rest c n, l = pre ++ x :: rest → P pre c n →
     ensures c (body x) (λ _ c' n', P (pre ++ [x]) c' (n ++ n'))) →
  ensures c (for_all body l) (λ _ c' n, P l c' n).
Proof.
  intros H0 Hstep.
  assert (∀ rest pre c n, l = pre ++ rest → P pre c n →
            ensures c (for_all body rest) (λ _ c' n', P l c' (n ++ n'))) as Hgen.
  { induction rest as [|x rest IH]; intros pre c1 n Hl HP; cbn [for_all].
    - apply ensures_ret. rewrite app_nil_r in Hl |- *. by subst.
    - eapply ensures_bind; [by eapply Hstep|]. intros [] c2 n2 HP2. cbn in HP2.
      eapply ensures_mono; [apply (IH (pre ++ [x]) c2 (n ++ n2)); [by rewrite <- app_assoc|done]|].
      intros ? c3 n3. by rewrite app_assoc. }
  apply (Hgen l [] c []); done.
Qed.

(** A loop that returns the first error: [P pre] holds after the elements [pre]
    went through without error, [R pre x e] when [x] failed after them. *)
Lemma ensures_for_each {A X} (body : A → LM (option X)) (P : list A → RabbitMQClient → list entry → Prop)
    (R : list A → A → X → RabbitMQClient → list entry → Prop) l c :
  P [] c [] →
  (∀ pre x rest c n, l = pre ++ x :: rest → P pre c n →
     ensures c (body x) (λ r c' n', match r with
                                    | None => P (pre ++ [x]) c' (n ++ n')
                                    | Some e => R pre x e c' (n ++ n')
                                    end)) →
  ensures c (for_each body l) (λ r c' n, match r with
                                         | None => P l c' n
                                         | Some e => ∃ pre x rest, l = pre ++ x :: rest ∧ R pre x e c' n
                                         end).
Proof.
  intros H0 Hstep.
  assert (∀ rest pre c n, l = pre ++ rest → P pre c n →
            ensures c (for_each body rest) (λ r c' n', match r with
                                         | None => P l c' (n ++ n')
                                         | Some e => ∃ pre x rest, l = pre ++ x :: rest ∧ R pre x e c' (n ++ n')
                                         end)) as Hgen.
  { induction rest as [|x rest IH]; intros pre c1 n Hl HP; cbn [for_each].
    - apply ensures_ret. rewrite app_nil_r in Hl |- *. by subst.
    - eapply ensures_bind; [by eapply Hstep|]. intros [e|] c2 n2 HP2; cbn in HP2.
      + apply ensures_ret. rewrite app_nil_r. eauto 10.
      + eapply ensures_mono; [apply (IH (pre ++ [x]) c2 (n ++ n2)); [by rewrite <- app_assoc|done]|].
        intros r c3 n3. by rewrite app_assoc. }
  apply (Hgen l [] c []); done.
Qed.

(** ** Contexts and map iteration *)

Definition ctx_entry (e : entry) : Prop := ∃ id a, e = mkEntry _ (ECtxErr id) a.

Lemma ensures_ctx_Err c ctx :
  ensures c (ctx_Err ctx) (λ r c' n, c' = c ∧ Forall ctx_entry n ∧ (ctx = Background → r = None)).
Proof.
  destruct ctx as [|id]; [by apply ensures_ret|]. apply ensures_ext. intros a.
  split; [done|]. split; [|done]. constructor; [|done]. by exists id, a.
Qed.

Lemma ensures_range_keys {A} c (m : gmap string A) :
  ensures c (range_keys m) (λ keys c' n, c' = c ∧ keys ≡ₚ (map_to_list m).*1 ∧
    ∃ a, n = [mkEntry _ (EMapOrder (map_to_list m).*1) a]).
Proof.
  unfold range_keys. apply ensures_bind_ext. intros a. apply ensures_ret.
  split; [done|]. split; [|by exists a]. by case_bool_decide.
Qed.

(** ** What a program can call at all

    [emits P m]: every call [m] makes, from any state and whatever its outcome is,
    satisfies [P]. *)

Definition emits (P : entry → Prop) {A} (m : LM A) : Prop :=
  ∀ W (EW : Env W) c (w : W) l a s', run m (mkSys c (w, l)) = Done (a, s') → ∃ new, snd (world s') = l ++ new ∧ Forall P new.

Lemma emits_ret (P : entry → Prop) {A} (a : A) : emits P (mret a).
Proof. intros W EW c w l b s' Hrun. cbn in Hrun. simplify_eq/=. exists []. by rewrite app_nil_r. Qed.

Lemma emits_sect (P : entry → Prop) {X} (f : RabbitMQClient → outcome (X * RabbitMQClient)) : emits P (sect f).
Proof.
  intros W EW c w l b s' Hrun. cbn in Hrun. destruct (f c) as [[]| |]; simplify_eq/=. exists []. by rewrite app_nil_r.
Qed.

Lemma emits_from_outcome (P : entry → Prop) {A} (o : outcome A) : emits P (from_outcome o).
Proof. destruct o; [apply emits_ret|apply emits_sect..]. Qed.

Lemma emits_ext (P : entry → Prop) {A} (e : E A) : (∀ a, P (mkEntry A e a)) → emits P (ext e).
Proof.
  intros HP W EW c w l a s' Hrun. cbn in Hrun. destruct (handle e w) as [b w']. simplify_eq/=.
  exists [mkEntry A e a]. split; [done|]. by constructor.
Qed.

Lemma emits_bind (P : entry → Prop) {A B} (m : LM A) (k : A → LM B) :
  emits P m → (∀ a, emits P (k a)) → emits P (m ≫= k).
Proof.
  intros Hm Hk W EW c w l b s' Hrun. rewrite run_bind in Hrun. apply bind_done in Hrun as (a & [c1 [w1 l1]] & H1 & H2).
  destruct (Hm _ _ _ _ _ _ _ H1) as (n1 & Hl1 & HP1). cbn in Hl1. subst.
  destruct (Hk a _ _ _ _ _ _ _ H2) as (n2 & Hl2 & HP2). exists (n1 ++ n2). rewrite app_assoc. split; [done|]. by apply Forall_app.
Qed.

Lemma emits_on_err (P : entry → Prop) {X} (m : LM (option X)) wrap k :
  emits P m → (∀ e, emits P (wrap e)) → emits P k → emits P (on_err m wrap k).
Proof. intros Hm Hw Hk. apply emits_bind; [done|]. intros [e|]; auto. Qed.

Lemma emits_for_each (P : entry → Prop) {A X} (body : A → LM (option X)) l :
  (∀ x, emits P (body x)) → emits P (for_each body l).
Proof.
  intros Hb. induction l as [|x l IH]; [apply emits_ret|]. cbn. apply emits_bind; [done|].
  intros [e|]; [apply emits_ret|done].
Qed.

Lemma ensures_emits (P : entry → Prop) {A} c (m : LM A) Q :
  emits P m → ensures c m Q → ensures c m (λ a c' log, Q a c' log ∧ Forall P log).
Proof.
  intros He Hm W EW w l. destruct (Hm W EW w l) as (a & c' & w' & new & Hrun & HQ).
  destruct (He _ _ _ _ _ _ _ Hrun) as (new' & Hl & HP). cbn in Hl. apply app_inv_head in Hl as <-. by exists a, c', w', new.
Qed.

End logic.

(** Prove [emits] by following the program. *)
Ltac go_emits_step :=
  lazymatch goal with
  | |- emits _ (mret _) => apply emits_ret
  | |- emits _ (sect _) => apply emits_sect
  | |- emits _ (get _) => apply emits_sect
  | |- emits _ (put _) => apply emits_sect
  | |- emits _ panic => apply emits_sect
  | |- emits _ (method _) => apply emits_sect
  | |- emits _ (from_outcome _) => apply emits_from_outcome
  | |- emits _ (ext _) => apply emits_ext; intros ?
  | |- emits _ (on_err _ _ _) => apply emits_on_err; [|intros ?|]
  | |- emits _ (_ ≫= _) => apply emits_bind; [|intros ?]
  | |- emits _ (for_each _ _) => apply emits_for_each; intros ?
  | |- emits _ (match ?x with _ => _ end) => destruct x
  end.

Ltac go_emits := repeat (cbn beta; go_emits_step); try done.

(** ** Automation of [ensures]

    [go_run] executes the next statements of a program until it reaches a call of
    a procedure it does not know; [go_case] splits on the answer a branch depends on. *)
Ltac go_step :=
  lazymatch goal with
  | |- ensures _ (mret _) _ => apply ensures_ret
  | |- ensures _ (mret _ ≫= _) _ => apply ensures_bind_ret
  | |- ensures _ (ext _) _ => apply ensures_ext; intros ?
  | |- ensures _ (ext _ ≫= _) _ => apply ensures_bind_ext; intros ?
  | |- ensures _ (get _) _ => apply ensures_get
  | |- ensures _ (get _ ≫= _) _ => apply ensures_bind_get
  | |- ensures _ (put _) _ => apply ensures_put
  | |- ensures _ (put _ ≫= _) _ => apply ensures_bind_put
  | |- ensures _ ((_ ≫= _) ≫= _) _ => apply ensures_bind_assoc
  | |- ensures _ (on_err _ _ _) _ => unfold on_err
  end; cbn beta iota.

Ltac go_run := cbn beta iota; repeat go_step.

(** Split on the scrutinee of the match a program has at its head. *)
Ltac go_case :=
  lazymatch goal with
  | |- ensures _ (match ?x with _ => _ end) _ => destruct x eqn:?
  | |- ensures _ (match ?x with _ => _ end ≫= _) _ => destruct x eqn:?
  end.

Ltac go_exec := repeat (go_run; try go_case); simplify_eq/=.
