(* ===== verification/ClientMessaging.v ===== *)
(** * Publishing and consuming (src/client.go, lines 775-1075)

    What a publish sends and counts, which channel it uses, what a subscription
    sets up and leaves behind when it fails, and that a dispatch goroutine settles
    every delivery exactly once, after its handler, whatever the handler does. *)

From S2P Require Import Prelude Errors Constants Utils Config Metrics HealthChecker ConnectionManager Env Program NetUrl Sim Client Logic ClientSetup.

Section messaging.
Context `{TY : Types} `{IP : NetIP}.
Notation LM := (prog RabbitMQClient).
Implicit Types c : RabbitMQClient.

(** ** Reading the log *)

(** A publish: channel, exchange, routing key, message and the broker's answer. *)
Definition publish_of (e : entry) : list (Channel * string * string * Publishing * option foreign_error) :=
  match e with
  | mkEntry _ c a =>
      match c in E A return A → list _ with
      | EPublish ch _ exchange key _ _ msg => λ a, [(ch, exchange, key, msg, a)]
      | _ => λ _, []
      end a
  end.

Definition publishes (log : list entry) := log ≫= publish_of.

(** A handler call and its result. *)
Definition handled_by (e : entry) : list (Handler * Delivery * handler_result) :=
  match e with
  | mkEntry _ c a =>
      match c in E A return A → list _ with
      | EHandler h _ d => λ a, [(h, d, a)]
      | _ => λ _, []
      end a
  end.

Definition handler_calls (log : list entry) := log ≫= handled_by.

Definition settlements (log : list entry) := log ≫= settlement.

Lemma handler_calls_app l1 l2 : handler_calls (l1 ++ l2) = handler_calls l1 ++ handler_calls l2.
Proof. apply bind_app. Qed.

Lemma settlements_app l1 l2 : settlements (l1 ++ l2) = settlements l1 ++ settlements l2.
Proof. apply bind_app. Qed.

(** ** Publishing *)

Definition exchange_ok (exchange : string) : Prop := exchange = "" ∨ name_ok invalidNameChars exchange.

(** The message that is sent: the caller's first option or the defaults, with the
    body always replaced and a zero timestamp filled from the clock. *)
Definition filled (opts : list Publishing) (body : string) (pub : Publishing) (log : list entry) : Prop :=
  Body pub = body ∧
  match opts with
  | [] => ContentType pub = "application/octet-stream" ∧ DeliveryMode pub = Persistent ∧ pubRest pub = zeroRest ∧
          mkEntry _ ENow (Timestamp pub) ∈ log
  | o :: _ => ContentType pub = ContentType o ∧ DeliveryMode pub = DeliveryMode o ∧ pubRest pub = pubRest o ∧
              if IsZero (Timestamp o) then mkEntry _ ENow (Timestamp pub) ∈ log else Timestamp pub = Timestamp o
  end.

(** What a publish answered by [a] does to the metrics. *)
Definition published_metrics (a : option foreign_error) (latency : Z) (m : Metrics) : Metrics :=
  match a with
  | None => IncrementProducerMessagesSent (RecordProducerLatency latency m)
  | Some _ => IncrementProducerMessagesFailed (RecordProducerLatency latency m)
  end.

(** The effect of an accepted publish. *)
Definition sent (ch : Channel) (exchange key body : string) (opts : list Publishing)
    (c : RabbitMQClient) (r : option error) (c' : RabbitMQClient) (log : list entry) : Prop :=
  ∃ pub a latency,
    publishes log = [(ch, exchange, key, pub, a)] ∧ filled opts body pub log ∧
    c' = set_metrics (published_metrics a latency <$> metrics c) c ∧
    r = match a with
        | None => None
        | Some e => Some (WrapError (Some (Sentinel ErrPublishMessageFailed)) (f_text e))
        end.

Lemma validateExchange_invalid exchange :
  ¬ exchange_ok exchange → ∃ e, validateExchange exchange = Some e ∧ Is e (TSentinel ErrInvalidExchange) = true.
Proof.
  unfold exchange_ok. rewrite <- validateExchange_ok. unfold validateExchange.
  repeat case_bool_decide; repeat case_match; naive_solver.
Qed.

Lemma publish_validation exchange :
  exchange_ok exchange → (if bool_decide (exchange ≠ "") then validateExchange exchange else None) = None.
Proof. intros [->|Hok]; [done|]. apply validateExchange_ok in Hok. rewrite Hok. by case_bool_decide. Qed.

Lemma set_metrics_set m m' c : set_metrics m (set_metrics m' c) = set_metrics m c.
Proof. done. Qed.

Lemma set_metrics_same c : set_metrics (metrics c) c = c.
Proof. by destruct c. Qed.

Lemma publishToChannel_sent c ctx ch exchange key body opts :
  exchange_ok exchange → body ≠ "" →
  ensures c (publishToChannel ctx ch exchange key body opts : LM _) (λ r c' log, sent ch exchange key body opts c r c' log).
Proof.
  intros Hok Hb. unfold publishToChannel, on_metrics. rewrite publish_validation by done.
  rewrite (bool_decide_eq_false_2 (body = "")) by done. unfold sent.
  go_run. destruct opts as [|o opts]; [|cbn [Timestamp]; destruct (IsZero (Timestamp o)) eqn:Hz]; go_run;
    destruct (metrics c) as [m|] eqn:Hm;
    match goal with a : option foreign_error |- _ => destruct a as [e|] eqn:? end; go_run; subst.
  all: eexists _, _, _; (split; [reflexivity|]); (split; [unfold filled; cbn; rewrite ?Hz; repeat (split; [reflexivity|]); set_solver|]).
  all: (split; [|reflexivity]); cbn; rewrite ?Hm; cbn; first [reflexivity | rewrite <- Hm; by destruct c].
  Unshelve. all: exact 0%Z.
Qed.

(** Whatever it is given, a publish makes at most one publish call, on the channel
    it is given, and returns nil exactly when the broker accepted it. *)
Lemma publishToChannel_once c ctx ch exchange key body opts :
  ensures c (publishToChannel ctx ch exchange key body opts : LM _) (λ r _ log,
    (publishes log = [] ∧ is_Some r) ∨
    ∃ pub a, publishes log = [(ch, exchange, key, pub, a)] ∧ (r = None ↔ a = None)).
Proof.
  destruct (decide (exchange = "" ∨ name_ok invalidNameChars exchange)) as [Hok|Hbad].
  - destruct (decide (body = "")) as [->|Hb].
    + unfold publishToChannel. rewrite publish_validation, (bool_decide_eq_true_2 ("" = "")) by done. go_run. left. by split; [|eexists].
    + eapply ensures_mono; [by apply publishToChannel_sent|]. intros r c' log (pub & a & lat & Hp & _ & _ & ->).
      right. exists pub, a. split; [done|]. by destruct a.
  - destruct (validateExchange_invalid exchange Hbad) as (e & He & _). unfold publishToChannel.
    rewrite bool_decide_eq_true_2 by (intros ->; by apply Hbad; left). rewrite He. go_run. left. by split; [|eexists].
Qed.

(** ** Dispatching a delivery *)

Definition failed (r : handler_result) : bool :=
  match r with HReturn None => false | _ => true end.

(** The settlement of a delivery whose handler answered [r]. *)
Definition settles (autoAck : bool) (d : Delivery) (r : handler_result) : list (Delivery + Delivery * bool) :=
  if autoAck then [] else if failed r then [inr (d, false)] else [inl d].

Definition consumed_metrics (r : handler_result) (latency : Z) (m : Metrics) : Metrics :=
  if failed r then IncrementConsumerMessagesFailed (RecordConsumerLatency latency m)
  else IncrementConsumerMessagesReceived (RecordConsumerLatency latency m).

(** The effect of one dispatch: the handler is called once, before the delivery
    is settled, and one counter moves. *)
Definition dispatched (h : Handler) (autoAck : bool) (d : Delivery) (c c' : RabbitMQClient) (log : list entry) : Prop :=
  ∃ ctx t0 r rest latency,
    log = mkEntry _ ENow t0 :: mkEntry _ (EHandler h ctx d) r :: rest ∧
    handler_calls rest = [] ∧ settlements rest = settles autoAck d r ∧
    c' = set_metrics (consumed_metrics r latency <$> metrics c) c.

Lemma dispatchDelivery_spec c ctx d h autoAck :
  ensures c (dispatchDelivery ctx d h autoAck : LM _) (λ _ c' log, dispatched h autoAck d c c' log).
Proof.
  unfold dispatchDelivery, on_metrics, dispatched, settles, consumed_metrics. go_run.
  destruct (metrics c) as [m|] eqn:Hm;
    match goal with r : handler_result |- _ => destruct r as [[e|]|rec stack] end; go_run; destruct autoAck; go_run.
  all: eexists ctx, _, _, _, _; (split; [reflexivity|]); (split; [reflexivity|]); (split; [reflexivity|]); cbn; rewrite ?Hm; cbn;
    first [reflexivity | rewrite <- Hm; by destruct c].
  Unshelve. all: exact 0%Z.
Qed.

(** ** The dispatch goroutine of one subscription *)

(** Deliveries [ds] processed by a loop, with the results of their handler. *)
Definition processed (h : Handler) (autoAck : bool) (ds : list Delivery) (c c' : RabbitMQClient) (log : list entry) : Prop :=
  ∃ rs, length rs = length ds ∧
    handler_calls log = zip_with (λ d r, (h, d, r)) ds rs ∧
    settlements log = concat (zip_with (settles autoAck) ds rs) ∧
    loops c' = loops c ∧
    (∀ m, metrics c = Some m → ∃ m', metrics c' = Some m' ∧
       wrap64 (consumerMessagesReceived m') = wrap64 (consumerMessagesReceived m + Z.of_nat (count (λ r, negb (failed r)) rs)) ∧
       wrap64 (consumerMessagesFailed m') = wrap64 (consumerMessagesFailed m + Z.of_nat (count failed rs))).

Lemma wrap64_step x y k : wrap64 x = wrap64 (y + k) → wrap64 (wrap64 (x + 1)) = wrap64 (y + (k + 1)).
Proof.
  intros H. rewrite (wrap64_id (wrap64 (x + 1))) by apply wrap64_range.
  rewrite <- (wrap64_add_l x 1), H, wrap64_add_l. f_equal. lia.
Qed.

Lemma consumed_metrics_counters r latency m :
  consumerMessagesReceived (consumed_metrics r latency m) =
    (if failed r then consumerMessagesReceived m else wrap64 (consumerMessagesReceived m + 1)) ∧
  consumerMessagesFailed (consumed_metrics r latency m) =
    (if failed r then wrap64 (consumerMessagesFailed m + 1) else consumerMessagesFailed m).
Proof. unfold consumed_metrics. by destruct (failed r), m. Qed.

Lemma processed_snoc h autoAck ds d c c1 c2 n1 n2 :
  processed h autoAck ds c c1 n1 → dispatched h autoAck d c1 c2 n2 → processed h autoAck (ds ++ [d]) c c2 (n1 ++ n2).
Proof.
  intros (rs & Hlen & Hh & Hs & Hl & Hm) (ctx & t0 & r & rest & latency & -> & Hh2 & Hs2 & ->).
  exists (rs ++ [r]). rewrite handler_calls_app, settlements_app, !length_app, Hlen, Hh, Hs.
  rewrite !zip_with_app by done. split; [done|]. split; [|split; [|split; [exact Hl|]]].
  - cbn. change (rest ≫= handled_by) with (handler_calls rest). by rewrite Hh2.
  - cbn. change (rest ≫= settlement) with (settlements rest). rewrite Hs2, concat_app. cbn. by rewrite app_nil_r.
  - intros m Hc. destruct (Hm m Hc) as (m1 & Hc1 & Hr & Hf). rewrite Hc1. cbn. eexists. split; [done|].
    destruct (consumed_metrics_counters r latency m1) as [-> ->]. rewrite !count_app, !count_cons, !count_nil.
    destruct (failed r); cbn; rewrite ?Nat2Z.inj_add; cbn; split;
      first [by apply wrap64_step | rewrite ?Z.add_0_r; assumption].
Qed.

Lemma loop_delivers c i l ds :
  loops c !! i = Some (Some l) →
  ensures c (for_all (λ d, loop_step i (LDelivery d)) ds : LM _)
    (λ _ c' log, processed (l_handler l) (l_autoAck l) ds c c' log).
Proof.
  intros Hi. eapply (ensures_for_all _ (λ pre c' n, processed (l_handler l) (l_autoAck l) pre c c' n)).
  - exists []. cbn. repeat (split; [done|]). intros m Hm. exists m. rewrite !count_nil, !Z.add_0_r. done.
  - intros pre d rest c1 n -> HP. unfold loop_step, loop_case. go_run.
    assert (loops c1 !! i = Some (Some l)) as -> by (by destruct HP as (rs & _ & _ & _ & -> & _)).
    cbn [mjoin option_join].
    eapply ensures_mono; [apply dispatchDelivery_spec|]. intros ? c2 n2 Hd. by eapply processed_snoc.
Qed.

(** ** Starting a dispatch loop *)

(** The calls of a successful subscription on its dedicated channel. *)
Definition subscription_session (ctx : Context_) (name queue : string) (autoAck : bool) (prefetch : Z)
    (conn : Connection) (ch : Channel) (dl : Deliveries) : list entry :=
  [mkEntry _ (EIsClosed conn) false; mkEntry _ (EChannel conn) (inl ch)] ++
  (if bool_decide (0 < prefetch)%Z then [mkEntry _ (EQos ch prefetch 0 false) None] else []) ++
  [mkEntry _ (EConsume ch ctx queue name autoAck false false false) (inl dl)].

Definition loop_started (ctx : Context_) (name queue : string) (h : Handler) (autoAck : bool) (prefetch : Z)
    (c : RabbitMQClient) (r : option error) (c' : RabbitMQClient) (log : list entry) : Prop :=
  match r with
  | None => ∃ conn ch dl, connection c = Some conn ∧
              log = subscription_session ctx name queue autoAck prefetch conn ch dl ∧
              c' = set_loops (loops c ++ [Some (mkLoop ctx ch dl h autoAck)]) c
  | Some e => c' = c ∧ opens log = closes log ∧
              (e = Sentinel ErrConsumerNotReady ∨ ∃ text, e = WrapError (Some (Sentinel ErrSubscribeFailed)) text)
  end.

Lemma startDispatchLoop_spec c ctx name queue h autoAck prefetch :
  consumer_settings (Consumers (config c)) name = Done (autoAck, prefetch) →
  ensures c (startDispatchLoop ctx name queue h : LM _)
    (λ r c' log, loop_started ctx name queue h autoAck prefetch c r c' log).
Proof.
  intros Hset. unfold startDispatchLoop, conn_IsClosed, loop_started, subscription_session. go_run. rewrite Hset. cbn [from_outcome].
  go_run. destruct (connection c) as [conn|] eqn:Hconn; go_exec; eauto 10.
Qed.

(** The outcome of a subscription that reached its channel: recorded in any case. *)
Definition subscribed (ctx : Context_) (name queue : string) (h : Handler) (autoAck : bool) (prefetch : Z)
    (c : RabbitMQClient) (r : option error) (c' : RabbitMQClient) (log : list entry) : Prop :=
  loop_started ctx name queue h autoAck prefetch (set_subscriptions (subscriptions c ++ [mkSubscription name queue h]) c) r c' log.

(** ** Properties *)

(** C17: a publish either is refused before any call is made (invalid exchange
    name, then empty body) or makes exactly one publish call, with the given
    exchange and routing key, on the given channel, with the body replaced and a
    zero timestamp filled in; the broker's answer decides the result, which wraps
    ErrPublishMessageFailed on failure, and exactly one of the sent and failed
    counters moves. *)
Theorem publish_contract c ctx ch exchange key body opts :
  ensures c (publishToChannel ctx ch exchange key body opts : LM _) (λ r c' log,
    (¬ exchange_ok exchange ∧ c' = c ∧ log = [] ∧ ∃ e, r = Some e ∧ Is e (TSentinel ErrInvalidExchange) = true) ∨
    (exchange_ok exchange ∧ body = "" ∧ c' = c ∧ log = [] ∧ r = Some (Sentinel ErrEmptyMessage)) ∨
    (exchange_ok exchange ∧ body ≠ "" ∧ sent ch exchange key body opts c r c' log)).
Proof.
  destruct (decide (exchange = "" ∨ name_ok invalidNameChars exchange)) as [Hok|Hbad].
  - destruct (decide (body = "")) as [->|Hb].
    + unfold publishToChannel. rewrite publish_validation, (bool_decide_eq_true_2 ("" = "")) by done. go_run. by right; left.
    + eapply ensures_mono; [by apply publishToChannel_sent|]. intros r c' log Hs. by right; right.
  - destruct (validateExchange_invalid exchange Hbad) as (e & He & Hi). unfold publishToChannel.
    rewrite bool_decide_eq_true_2 by (intros ->; by apply Hbad; left). rewrite He. go_run. left. eauto 10.
Qed.

(** A publish goes out on a registered channel only.  By name, the unknown
    producer and the producer without a channel are reported without a call, and
    otherwise the only publish is on that producer's channel; without a name it is
    on the channel of some registered producer, and with no producer at all the
    client reports that it is not ready without touching the network. *)
Theorem publish_routing c ctx name exchange key body opts :
  ensures c (PublishMessageWith ctx name exchange key body opts : LM _) (λ r c' log,
    match producers c !! name with
    | None => r = Some (WrapError (Some (Sentinel ErrProducerNotFound)) ("producer: " +:+ name)) ∧ log = [] ∧ c' = c
    | Some None => r = Some (WrapError (Some (Sentinel ErrProducerNotReady)) ("producer: " +:+ name)) ∧ log = [] ∧ c' = c
    | Some (Some ch) => ∀ p, p ∈ publishes log → p.1.1.1.1 = ch
    end) ∧
  ensures c (PublishMessage ctx exchange key body opts : LM _) (λ r c' log,
    (∀ p, p ∈ publishes log → ∃ name', producers c !! name' = Some (Some p.1.1.1.1)) ∧
    (producers c = ∅ → r = Some (Sentinel ErrProducerNotReady) ∧ c' = c ∧ List.filter is_network log = [])).
Proof.
  assert (∀ ch, ensures c (publishToChannel ctx ch exchange key body opts : LM _)
            (λ _ _ log, ∀ p, p ∈ publishes log → p.1.1.1.1 = ch)) as Hpub.
  { intros ch. eapply ensures_mono; [apply publishToChannel_once|].
    intros r c' log [[-> _]|(pub & a & -> & _)] p Hp; [by inversion Hp|]. by apply list_elem_of_singleton in Hp as ->. }
  split.
  - unfold PublishMessageWith. go_run. destruct (producers c !! name) as [[ch|]|]; go_run; try done.
  - unfold PublishMessage, first_entry. go_run.
    eapply ensures_bind; [apply ensures_range_keys|]. intros keys c1 n1 (-> & Hperm & a & ->). go_run.
    destruct keys as [|k keys].
    { go_run. by split; [intros p Hp; inversion Hp|]. }
    assert (is_Some (producers c !! k)) as [v Hv].
    { assert (k ∈ (map_to_list (producers c)).*1) as Hin by (rewrite <- Hperm; by left).
      apply list_elem_of_fmap in Hin as ([k' v] & -> & Hin). exists v. by apply elem_of_map_to_list in Hin. }
    rewrite Hv. cbn [fmap option_fmap option_map]. assert (producers c ≠ ∅) as Hne by (intros He; by rewrite He, lookup_empty in Hv).
    destruct v as [ch|]; go_run; [|by split; [intros p Hp; inversion Hp|]].
    eapply ensures_mono; [apply Hpub|]. intros r c' log Hl. split; [|done]. cbn. intros p Hp%Hl. exists k. by rewrite Hp.
Qed.

(** C15: a dispatch goroutine settles every delivery exactly once and in order:
    running any sequence of deliveries through a loop calls its handler once per
    delivery, in the goroutine of the loop and in order, and the acknowledgements sent are exactly, in order, an ack
    for each delivery whose handler returned nil and a nack without requeue for
    each whose handler returned an error or panicked (none at all in auto-ack
    mode); the received and failed counters grow by the number of each modulo
    2^64, and the loop keeps running. *)
Theorem loop_settles_every_delivery c i l ds :
  loops c !! i = Some (Some l) →
  ensures c (for_all (λ d, loop_step i (LDelivery d)) ds : LM _)
    (λ _ c' log, processed (l_handler l) (l_autoAck l) ds c c' log).
Proof. apply loop_delivers. Qed.

(** C32: [SubscribeWith] reports an invalid queue, an unknown consumer and a
    consumer without a channel without making a call or changing the client;
    otherwise it records the subscription, and either starts one dispatch loop on
    a channel of its own, with the consumer's prefetch count and acknowledgement
    mode, or returns an error having closed every channel it opened and started
    nothing. *)
Theorem subscribe_contract c ctx name q h autoAck prefetch :
  consumer_settings (Consumers (config c)) name = Done (autoAck, prefetch) →
  ensures c (SubscribeWith ctx name q h : LM _) (λ r c' log,
    (¬ name_ok invalidNameChars q ∧ is_Some r ∧ log = [] ∧ c' = c) ∨
    (name_ok invalidNameChars q ∧
     match consumers c !! name with
     | None => r = Some (WrapError (Some (Sentinel ErrConsumerNotFound)) ("consumer: " +:+ name)) ∧ log = [] ∧ c' = c
     | Some None => r = Some (WrapError (Some (Sentinel ErrConsumerNotReady)) ("consumer: " +:+ name)) ∧ log = [] ∧ c' = c
     | Some (Some _) => subscribed ctx name q h autoAck prefetch c r c' log
     end)).
Proof.
  intros Hset. unfold SubscribeWith. pose proof (validateQueue_ok q) as Hq. destruct (validateQueue q) as [e|].
  - go_run. left. split; [by intros ?%Hq|]. eauto.
  - go_run. assert (name_ok invalidNameChars q) as Hok by by apply Hq.
    destruct (consumers c !! name) as [[ch|]|]; go_run; [|by right..].
    unfold subscribeWithChannel. go_run. eapply ensures_mono; [by apply startDispatchLoop_spec|].
    intros r c' log Hl. by right.
Qed.

End messaging.

(** ** Witnesses *)

Section witnesses.
Import Sim.

Definition ok_handler : Handler := HReturn None.
Definition failing_handler : Handler := HReturn (Some (Errorf "bad message")).
Definition panicking_handler : Handler := HPanic "index out of range" "goroutine 1".

(** A client with the consumer "c" registered on channel 9. *)
Definition sim_subscriber : RabbitMQClient := set_consumers {[ "c" := Some 9 ]} (sim_client ["c"]).

(** A loop with a panicking handler: both deliveries are rejected. *)
Definition sim_looping : RabbitMQClient := set_loops [Some (mkLoop Background 3 4 panicking_handler false)] sim_subscriber.

Lemma loop_settles_every_delivery_witness :
  ensures sim_looping (for_all (λ d, loop_step 0 (LDelivery d)) [5; 6])
    (λ _ c' log, processed panicking_handler false [5; 6] sim_looping c' log) ∧
  observe (for_all (λ d, loop_step 0 (LDelivery d)) [5; 6]) sim_looping (sim_world []) (λ _ c' _ log,
    bool_decide (settlements log = [inr (5, false); inr (6, false)]) &&
    bool_decide (consumerMessagesFailed <$> metrics c' = Some 2%Z)) = true.
Proof.
  split; [|vm_compute; reflexivity].
  exact (loop_settles_every_delivery sim_looping 0 (mkLoop Background 3 4 panicking_handler false) [5; 6] eq_refl).
Defined.

(** The consume call fails: the subscription is recorded, nothing runs. *)
Lemma subscribe_contract_witness :
  (∃ r c' w' log, run (SubscribeWith Background "c" "orders.queue" ok_handler)
                    (mkSys sim_subscriber (sim_world [false; false; true], [])) = Done (r, mkSys c' (w', log)) ∧
     ((¬ name_ok invalidNameChars "orders.queue" ∧ is_Some r ∧ log = [] ∧ c' = sim_subscriber) ∨
      (name_ok invalidNameChars "orders.queue" ∧
       subscribed Background "c" "orders.queue" ok_handler false 5 sim_subscriber r c' log))) ∧
  observe (SubscribeWith Background "c" "orders.queue" ok_handler) sim_subscriber (sim_world [false; false; true]) (λ r c' _ log,
    bool_decide (is_Some r) && bool_decide (length (subscriptions c') = 1) && bool_decide (length (loops c') = 0) &&
    bool_decide (opens log = [1]) && bool_decide (closes log = [1])) = true.
Proof.
  split; [|vm_compute; reflexivity]. apply ensures_run.
  exact (subscribe_contract sim_subscriber Background "c" "orders.queue" ok_handler false 5 eq_refl).
Defined.

End witnesses.
