(* ===== verification/Interfaces.v ===== *)
(** * The interfaces of the package and its registration: src/interfaces.go, src/plug.go

    Each interface is a class over the monad its methods run in, and each type of
    the package that implements it an instance.  [ProducerLaws] and [ConsumerLaws]
    are what users of the interfaces can rely on; the client is shown to obey them.
    They are weaker than the comments of the interfaces where the code is: a ready
    channel need not be live, and the default producer or consumer is any registered
    one.  The factory of the framework, into which [init]
    registers the constructor, and the fields of its plugin protocol that are only
    copied are parameters. *)

From S2P Require Import Prelude Errors Constants Utils Config Metrics HealthChecker ConnectionManager Env Program NetUrl Sim Retry Client Logic ClientSetup ClientMessaging.

(** ** The declarations *)

Module Api.

Section api.
Context `{TY : Types}.

(** func(ctx context.Context, msg amqp.Delivery) error: given to the environment by
    name ([Handler]), which answers with its result. *)
Definition MessageHandler : Type := Handler.

Class Producer (M : Type → Type) : Type := {
  PublishMessage : Context_ → string → string → string → list Publishing → M (option error);
  PublishMessageWith : Context_ → string → string → string → string → list Publishing → M (option error);
  GetProducer : string → M (option Channel * option error)%type;
  IsProducerReady : string → M bool;
}.

Class Consumer (M : Type → Type) : Type := {
  Subscribe : Context_ → string → MessageHandler → M (option error);
  SubscribeWith : Context_ → string → string → MessageHandler → M (option error);
  GetConsumer : string → M (option Channel * option error)%type;
  IsConsumerReady : string → M bool;
}.

Class ClientInterface (M : Type → Type) : Type := {
  #[global] client_producer :: Producer M;
  #[global] client_consumer :: Consumer M;
  InitializeResources : option Runtime → M (option error);
  StartupTasks : M (option error);
  ShutdownTasks : M (option error);
  GetMetrics : M (option Metrics);
}.

Class MetricsProvider (M : Type → Type) : Type := {
  GetStats : M (gmap string (gmap string stat));
  Reset : M unit;
}.

Class HealthCheckerInterface (M : Type → Type) : Type := {
  checker_Start : M unit;
  checker_Stop : M unit;
  IsHealthy : M bool;
  GetLastCheck : M Time;
  GetErrorCount : M Z;
}.

(** [H]: the implementations of HealthCheckerInterface that GetHealthChecker returns
    when it does not return nil. *)
Class ConnectionManagerInterface (M : Type → Type) (H : Type) : Type := {
  manager_Start : M unit;
  manager_Stop : M unit;
  IsConnected : M bool;
  GetHealthChecker : M (option H);
  ForceReconnect : M unit;
}.

Class RetryHandlerInterface (M : Type → Type) : Type := {
  DoWithRetry : Context_ → Operation → M (option error);
}.

(** [T]: tasks. *)
Class GoroutinePoolInterface (M : Type → Type) (T : Type) : Type := {
  Submit : option T → M unit;
  Wait : M unit;
}.

End api.

End Api.

(** ** The implementations *)

Section implementations.
Context `{TY : Types} `{IP : NetIP}.

#[global] Instance RabbitMQClient_Producer : Api.Producer (prog RabbitMQClient) := {|
  Api.PublishMessage := PublishMessage;
  Api.PublishMessageWith := PublishMessageWith;
  Api.GetProducer := GetProducer;
  Api.IsProducerReady := IsProducerReady |}.

#[global] Instance RabbitMQClient_Consumer : Api.Consumer (prog RabbitMQClient) := {|
  Api.Subscribe := Subscribe;
  Api.SubscribeWith := SubscribeWith;
  Api.GetConsumer := GetConsumer;
  Api.IsConsumerReady := IsConsumerReady |}.

(** The client declares no ShutdownTasks: it implements the interface only if the
    base plugin has one. *)
Definition RabbitMQClient_ClientInterface (base_ShutdownTasks : prog RabbitMQClient (option error)) :
    Api.ClientInterface (prog RabbitMQClient) := {|
  Api.InitializeResources := InitializeResources;
  Api.StartupTasks := StartupTasks;
  Api.ShutdownTasks := base_ShutdownTasks;
  Api.GetMetrics := GetMetrics |}.

#[global] Instance Metrics_MetricsProvider : Api.MetricsProvider (prog Metrics) := {|
  Api.GetStats := get GetStats;
  Api.Reset := now ← ext ENow; put (Reset now) |}.

(** A checker with the number of check loops started. *)
#[global] Instance HealthChecker_HealthCheckerInterface : Api.HealthCheckerInterface (prog (Checker * nat)) := {|
  Api.checker_Start := put (λ '(h, n), (h, S n));
  Api.checker_Stop := sect (λ '(h, n), match HC.Stop h with
                                       | Done (_, h) => Done (tt, (h, n))
                                       | Panicked => Panicked
                                       | Blocked => Blocked
                                       end);
  Api.IsHealthy := get (λ '(h, _), HC.IsHealthy h);
  Api.GetLastCheck := get (λ '(h, _), HC.GetLastCheck h);
  Api.GetErrorCount := get (λ '(h, _), HC.GetErrorCount h) |}.

(** A manager with the watchers started; what its callback does is a parameter. *)
#[global] Instance manager_pair_pointer : Pointer Manager (prog (Manager * list NotifyChan)) := λ B f,
  sect (λ '(m, ws), match f m with
                    | Done (b, m) => Done (b, (m, ws))
                    | Panicked => Panicked
                    | Blocked => Blocked
                    end).

Definition ConnectionManager_ConnectionManagerInterface
    (call : reconnect_fn → prog (Manager * list NotifyChan) (Connection + error)) :
    Api.ConnectionManagerInterface (prog (Manager * list NotifyChan)) False := {|
  Api.manager_Start := put (λ '(m, ws), let '(watch, m) := CM.Start m in
                                        (m, ws ++ match watch with Some (n, _) => [n] | None => [] end));
  Api.manager_Stop := with_pointer (λ m : Manager, CM.Stop m);
  Api.IsConnected := get (λ '(m, _), CM.IsConnected m);
  Api.GetHealthChecker := get (λ '(m, _), CM.GetHealthChecker m);
  Api.ForceReconnect := CM.ForceReconnect call |}.

#[global] Instance RetryHandler_RetryHandlerInterface {V} `{!Env V} (r : Retry.RetryHandler) : Api.RetryHandlerInterface (GoM V) := {|
  Api.DoWithRetry := Retry.DoWithRetry r |}.

End implementations.

(** ** What the interfaces promise *)

Section laws.
Context `{TY : Types} `{IP : NetIP}.
Notation P := (prog RabbitMQClient).

(** A producer name is ready exactly when it has a channel; publishing under a name
    that is not ready fails without a call; a publish makes at most one publish
    call, and returns nil only if the broker accepted it on the channel of that
    name, or of some ready name when none is given. *)
Class ProducerLaws `{!Api.Producer P} : Prop := {
  producer_ready c name :
    ensures c (ready ← Api.IsProducerReady name; got ← Api.GetProducer name; mret (ready, got))
      (λ r c' log, c' = c ∧ log = [] ∧ r.1 = bool_decide (is_Some r.2.1) ∧ (is_Some r.2.2 → r.2.1 = None));
  producer_not_ready c ctx name exchange key body opts :
    ensures c (ready ← Api.IsProducerReady name; err ← Api.PublishMessageWith ctx name exchange key body opts; mret (ready, err))
      (λ r c' log, r.1 = false → is_Some r.2 ∧ c' = c ∧ log = []);
  producer_named c ctx name exchange key body opts :
    ensures c (got ← Api.GetProducer name; err ← Api.PublishMessageWith ctx name exchange key body opts; mret (got, err))
      (λ r _ log, length (publishes log) ≤ 1 ∧
         (r.2 = None → ∃ ch pub, r.1 = (Some ch, None) ∧ publishes log = [(ch, exchange, key, pub, None)]));
  producer_default c ctx exchange key body opts :
    ensures c (Api.PublishMessage ctx exchange key body opts)
      (λ err _ log, length (publishes log) ≤ 1 ∧
         (err = None → ∃ name ch pub, ensures c (Api.GetProducer name) (λ got _ _, got = (Some ch, None)) ∧
                         publishes log = [(ch, exchange, key, pub, None)]));
}.

(** The same for consumers: subscribing under a name that is not ready, or to a
    queue name the broker rejects, fails without a call; and a subscription either
    starts exactly one dispatch loop, with the handler and the context it was
    given, or fails with every channel it opened closed. *)
Class ConsumerLaws `{!Api.Consumer P} : Prop := {
  consumer_ready c name :
    ensures c (ready ← Api.IsConsumerReady name; got ← Api.GetConsumer name; mret (ready, got))
      (λ r c' log, c' = c ∧ log = [] ∧ r.1 = bool_decide (is_Some r.2.1) ∧ (is_Some r.2.2 → r.2.1 = None));
  consumer_not_ready c ctx name queue handler :
    Forall is_Some (Consumers (config c)) →
    ensures c (ready ← Api.IsConsumerReady name; err ← Api.SubscribeWith ctx name queue handler; mret (ready, err))
      (λ r c' log, r.1 = false ∨ ¬ name_ok invalidNameChars queue → is_Some r.2 ∧ c' = c ∧ log = []);
  consumer_subscribes c ctx name queue handler :
    Forall is_Some (Consumers (config c)) →
    ensures c (Api.SubscribeWith ctx name queue handler)
      (λ err c' log,
         (err = None → ∃ ch deliveries autoAck, loops c' = loops c ++ [Some (mkLoop ctx ch deliveries handler autoAck)] ∧
                         opens log = [ch] ∧ closes log = []) ∧
         (is_Some err → loops c' = loops c ∧ opens log = closes log));
  consumer_default c ctx queue handler :
    Forall is_Some (Consumers (config c)) →
    ensures c (Api.Subscribe ctx queue handler)
      (λ err c' log,
         (err = None → ∃ ch deliveries autoAck, loops c' = loops c ++ [Some (mkLoop ctx ch deliveries handler autoAck)] ∧
                         opens log = [ch] ∧ closes log = []) ∧
         (is_Some err → loops c' = loops c ∧ opens log = closes log));
}.

(** ** The client obeys the laws *)

Lemma settings_present (l : list (option Config.Consumer)) name :
  Forall is_Some l → ∃ autoAck prefetch, consumer_settings l name = Done (autoAck, prefetch).
Proof.
  induction 1 as [|x l [y ->] _ IH]; [by eexists _, _|]. cbn. case_bool_decide; [by eexists _, _|done].
Qed.

(** What [subscribeWithChannel] does to the loops and the channels. *)
Definition loop_or_nothing (ctx : Context_) (handler : Handler) c (err : option error) c' (log : list entry) : Prop :=
  (err = None → ∃ ch deliveries autoAck, loops c' = loops c ++ [Some (mkLoop ctx ch deliveries handler autoAck)] ∧
                  opens log = [ch] ∧ closes log = []) ∧
  (is_Some err → loops c' = loops c ∧ opens log = closes log).

Lemma subscribeWithChannel_loop c ctx name queue handler :
  Forall is_Some (Consumers (config c)) →
  ensures c (subscribeWithChannel ctx name queue handler : P _) (loop_or_nothing ctx handler c).
Proof.
  intros Hc. destruct (settings_present _ name Hc) as (autoAck & prefetch & Hs). unfold subscribeWithChannel. go_run.
  eapply ensures_mono; [by apply startDispatchLoop_spec|]. intros [e|] c' log Hl; (split; [intros He|intros He]); try done.
  - destruct Hl as (-> & Ho & _). done.
  - destruct Hl as (conn & ch & dl & _ & -> & ->). exists ch, dl, autoAck. split; [done|].
    unfold subscription_session. by case_bool_decide.
Qed.

#[global] Instance RabbitMQClient_ProducerLaws : ProducerLaws.
Proof.
  split; cbn [Api.IsProducerReady Api.GetProducer Api.PublishMessageWith Api.PublishMessage RabbitMQClient_Producer];
    unfold IsProducerReady, GetProducer, PublishMessageWith; intros.
  - go_run. destruct (producers c !! name) as [[ch|]|]; go_run; cbn; repeat split; try done; by intros [? [=]].
  - go_run. destruct (producers c !! name) as [[ch|]|] eqn:Hn; go_run; rewrite ?Hn; go_run; [|cbn; by eauto..].
    eapply ensures_bind; [apply publishToChannel_once|]. intros r c' log _. by go_run.
  - go_run. destruct (producers c !! name) as [[ch|]|] eqn:Hn; go_run; rewrite Hn; go_run; cbn; [|split; [lia|done]..].
    eapply ensures_bind; [apply publishToChannel_once|]. intros r c' log Hp. go_run. cbn. rewrite app_nil_r.
    destruct Hp as [[-> [e ->]]|(pub & a & -> & Hr)]; (split; [cbn; lia|]); [done|]. intros ->%Hr. eauto.
  - unfold PublishMessage, first_entry. go_run. eapply ensures_bind; [apply ensures_range_keys|].
    intros keys c1 n1 (-> & Hperm & order & ->). go_run. destruct keys as [|k keys]; [go_run; cbn; by split; [lia|]|].
    destruct (producers c !! k) as [[ch|]|] eqn:Hk; cbn [fmap option_fmap option_map]; go_run; [|by split; cbn; [lia|]..].
    eapply ensures_mono; [apply publishToChannel_once|]. intros r c' log Hp. cbn beta.
    change (publishes ([_] ++ log)) with (publishes log).
    destruct Hp as [[-> [e ->]]|(pub & a & -> & Hr)]; (split; [cbn; lia|]); [done|]. intros ->%Hr.
    exists k, ch, pub. split; [|done]. go_run. rewrite Hk. by go_run.
Qed.

#[global] Instance RabbitMQClient_ConsumerLaws : ConsumerLaws.
Proof.
  split; cbn [Api.IsConsumerReady Api.GetConsumer Api.SubscribeWith Api.Subscribe RabbitMQClient_Consumer];
    unfold IsConsumerReady, GetConsumer, SubscribeWith.
  - intros c name. go_run. destruct (consumers c !! name) as [[ch|]|]; go_run; cbn; repeat split; try done; by intros [? [=]].
  - intros c ctx name queue handler Hc. go_run. pose proof (validateQueue_ok queue) as Hq.
    destruct (validateQueue queue) as [e|]; go_run; [cbn; by eauto|].
    destruct (consumers c !! name) as [[ch|]|] eqn:Hn; go_run; rewrite ?Hn; go_run; [|cbn; by eauto..].
    eapply ensures_bind; [by apply subscribeWithChannel_loop|]. intros err c' log _. go_run. cbn.
    intros [|Hbad]; [done|]. by destruct Hbad; apply Hq.
  - intros c ctx name queue handler Hc. pose proof (validateQueue_ok queue) as Hq.
    destruct (validateQueue queue) as [e|]; go_run; [done|].
    destruct (consumers c !! name) as [[ch|]|] eqn:Hn; go_run; [|done..]. by apply subscribeWithChannel_loop.
  - intros c ctx queue handler Hc. unfold Subscribe, first_entry. go_run.
    eapply ensures_bind; [apply ensures_range_keys|]. intros keys c1 n1 (-> & Hperm & order & ->). go_run.
    destruct keys as [|k keys]; [by go_run|].
    destruct (consumers c !! k) as [[ch|]|] eqn:Hk; cbn [fmap option_fmap option_map]; go_run; [|done..].
    eapply ensures_mono; [by apply subscribeWithChannel_loop|]. intros err c' log Hl. exact Hl.
Qed.

End laws.

(** ** Registration and the plugin protocol *)

Section plugin.
Context `{TY : Types}.

(** The factory of the framework: [RegisterPlugin] stores a constructor under a name
    and a configuration prefix. *)
Context {Factory : Type} (RegisterPlugin : string → string → (unit → RabbitMQClient) → Factory → Factory).

Definition init : Factory → Factory := RegisterPlugin pluginName confPrefix (λ _, NewRabbitMQClient).

(** plugins.PluginProtocol: the plugin copies it and sets one field. *)
Context {Protocol : Type} (set_ContextLifecycle : bool → Protocol → Protocol).

Definition PluginProtocol (base_PluginProtocol : Protocol) : Protocol :=
  let protocol := base_PluginProtocol in
  set_ContextLifecycle true protocol.

End plugin.

(** ** Properties *)

(** C40: what the client guarantees behind its public interfaces.  As a Producer: a
    name is ready exactly when GetProducer returns a non-nil channel for it (open or
    not: readiness does not look at the channel), publishing
    under a name that is not ready fails without a call, and a publish makes at most
    one publish call and returns nil only when the broker accepted it on the channel
    of that name (of some registered producer, without a name), to the exchange of
    the caller.  As a Consumer, with
    no nil entry in its configuration: the same for names and channels, and a
    subscription either starts exactly one dispatch loop, on a channel it opened,
    with the context and handler it was given, or fails and closes every channel it
    opened. *)
Theorem client_keeps_interface_promises `{TY : Types} `{IP : NetIP} :
  ProducerLaws (H := RabbitMQClient_Producer) ∧ ConsumerLaws (H := RabbitMQClient_Consumer).
Proof. split; apply _. Qed.

(** A factory that keeps a table: what it creates under the name of the plugin is a
    new client, with no connection, no goroutine and the default configuration. *)
Example registered_under_its_name `{TY : Types} :
  let RegisterPlugin name prefix create (f : gmap string (unit → RabbitMQClient)) := <[name := create]> f in
  (λ create, create tt) <$> (init RegisterPlugin ∅ !! pluginName) = Some NewRabbitMQClient.
Proof. done. Qed.
