(* ===== verification/ClientLifecycle.v ===== *)
(** * Startup, shutdown and reconnection (src/client.go lines 247-515, src/health.go,
    src/runtime_contract.go, src/lifecycle_context.go)

    What a startup publishes and leaves behind, that a shutdown terminates and
    closes everything exactly once, that shutting down again does nothing, what a
    reconnect rebuilds; and, on the simulated broker, sequences of lifecycle
    calls whose outcome is not what their callers are told. *)

From S2P Require Import Prelude Errors Constants Utils Config Metrics HealthChecker ConnectionManager Env Program NetUrl Sim Retry Client Logic ClientSetup ClientMessaging.

Section lifecycle.
Context `{TY : Types} `{IP : NetIP}.
Notation LM := (prog RabbitMQClient).
Implicit Types c : RabbitMQClient.

(** ** The runtime contract *)

(** The four registrations of publishRuntimeContract. *)
Definition contract (runtime : Runtime) (ready healthy : bool) (log : list entry) : Prop :=
  ∃ a1 a2 a3 a4, log =
    [mkEntry _ (ERegisterShared runtime sharedReadinessResourceName (ResBool ready)) a1;
     mkEntry _ (ERegisterShared runtime sharedHealthResourceName (ResBool healthy)) a2;
     mkEntry _ (ERegisterPrivate runtime privateReadinessResourceName (ResBool ready)) a3;
     mkEntry _ (ERegisterPrivate runtime privateHealthResourceName (ResBool healthy)) a4].

(** What was published last. *)
Definition last_contract (runtime : option Runtime) (b : bool) (log : list entry) : Prop :=
  match runtime with
  | None => True
  | Some runtime => ∃ pre post, log = pre ++ post ∧ contract runtime b b post
  end.

Lemma last_contract_app runtime b pre log : last_contract runtime b log → last_contract runtime b (pre ++ log).
Proof. destruct runtime; [|done]. intros (p & q & -> & H). exists (pre ++ p), q. by rewrite app_assoc. Qed.

Lemma publishRuntimeContract_spec c ready healthy :
  ensures c (publishRuntimeContract ready healthy : LM _) (λ _ c' log, c' = c ∧
    match rt c with None => log = [] | Some runtime => contract runtime ready healthy log end).
Proof.
  unfold publishRuntimeContract, contract. go_run. destruct (rt c) as [runtime|]; [|by go_run].
  cbn [for_all fst snd]. go_run. split; [done|]. by eexists _, _, _, _.
Qed.

Lemma publish_last c b :
  ensures c (publishRuntimeContract b b : LM _) (λ _ c' log, c' = c ∧ last_contract (rt c) b log).
Proof.
  eapply ensures_mono; [apply publishRuntimeContract_spec|]. intros ? c' log [-> H]. split; [done|].
  unfold last_contract. destruct (rt c); [|done]. by exists [], log.
Qed.

Lemma not_ready_spec c e :
  ensures c (not_ready (Some e) : LM _) (λ r c' log, r = Some e ∧ c' = c ∧ last_contract (rt c) false log).
Proof.
  unfold not_ready. eapply ensures_bind; [apply publish_last|]. intros ? c1 n1 [-> H]. go_run. by rewrite app_nil_r.
Qed.

(** ** connect *)

Definition connected_client (conn : Connection) (notify : NotifyChan) (c : RabbitMQClient) : RabbitMQClient :=
  set_connectionManager
    ((λ m, CM.SetConnectionNotify notify (CM.SetReconnectFunc reconnect_closure m)) <$> connectionManager c)
    (set_connection (Some conn) c).

Lemma connect_spec c :
  ensures c (connect : LM _) (λ r c' log,
    match r with
    | Some _ => c' = c
    | None => ∃ conn, connection c' = Some conn ∧
        (c' = set_connection (Some conn) c ∧ connectionManager c = None ∨
         ∃ notify, c' = connected_client conn notify c ∧ is_Some (connectionManager c))
    end ∧ opens log = [] ∧ closes log = []).
Proof.
  unfold connect. eapply ensures_bind; [apply dial_spec|]. intros r c1 n1 [-> Hd]. unfold dialled in Hd.
  destruct (Urls (config c)) as [|url0 urls] eqn:Hu.
  { destruct Hd as [-> ->]. by go_run. }
  destruct Hd as [(_ & -> & e & ->)|(_ & a & -> & ->)]; [by go_run|].
  destruct a as [conn|e]; [|by go_run]. unfold set_reconnect_func, set_connection_notify, connected_client. go_run.
  cbn [connectionManager set_connection]. destruct (connectionManager c) as [m|] eqn:Hm.
  - go_run. eapply ensures_bind_manager; [exact Hm|reflexivity|]. go_run.
    eapply ensures_bind_manager; [reflexivity|reflexivity|]. go_run.
    cbn [config set_connection set_connectionManager]. rewrite Hu. go_run. split; [|done].
    exists conn. split; [done|]. right. eexists. split; [|done]. cbn. reflexivity.
  - go_run. cbn [config set_connection]. rewrite Hu. go_run. split; [|done]. exists conn. split; [done|]. by left.
Qed.

(** ** CheckHealth *)

Lemma check_ready_spec c what m :
  ensures c (check_ready what m : LM _) (λ r c' log, c' = c ∧ (r = None ↔ map_Forall (λ _ v, v ≠ None) m) ∧
    opens log = [] ∧ closes log = [] ∧ ∀ conn b, mkEntry _ (EIsClosed conn) b ∉ log).
Proof.
  unfold check_ready. eapply ensures_bind; [apply ensures_range_keys|]. intros keys c1 n1 (-> & Hperm & a & ->).
  eapply ensures_mono.
  { apply (ensures_for_each _ (λ pre c' n, c' = c ∧ n = [] ∧ ∀ name, name ∈ pre → m !! name ≠ Some None)
      (λ _ x _ c' n, c' = c ∧ n = [] ∧ m !! x = Some None)); [split; [done|]; split; [done|]; set_solver|].
    intros pre x rest c1 n _ (-> & -> & Hpre). go_run.
    destruct (m !! x) as [[ch|]|] eqn:Hx; (split; [done|]); (split; [done|]); try done;
      intros name; rewrite elem_of_app, list_elem_of_singleton; intros [Hin| ->]; auto; by rewrite Hx. }
  assert (∀ conn b n, n = [] → mkEntry _ (EIsClosed conn) b ∉ [mkEntry _ (EMapOrder (map_to_list m).*1) a] ++ n) as Hnot.
  { intros conn b n ->. rewrite app_nil_r, list_elem_of_singleton. done. }
  intros [e|] c1 n.
  - intros (pre & x & rest & _ & -> & -> & Hx). split; [done|]. split; [|split; [done|]; split; [done|]; auto].
    split; [done|]. intros Hall. by specialize (Hall x None Hx).
  - intros (-> & -> & Hall). split; [done|]. split; [|split; [done|]; split; [done|]; auto].
    split; [intros _|done]. intros name v Hv ->. apply (Hall name); [|done]. rewrite Hperm.
    apply list_elem_of_fmap. exists (name, None). split; [done|]. by apply elem_of_map_to_list.
Qed.

(** The health condition: a connection reported open, a connected manager, a
    health checker that is not unhealthy, and no registered nil channel. *)
Definition healthy_client (c : RabbitMQClient) (log : list entry) : Prop :=
  ∃ conn m, connection c = Some conn ∧ mkEntry _ (EIsClosed conn) false ∈ log ∧
    connectionManager c = Some m ∧ CM.connected m = true ∧
    (∀ h, healthChecker c = Some h → HC.healthy h = true) ∧
    map_Forall (λ _ v, v ≠ None) (producers c) ∧ map_Forall (λ _ v, v ≠ None) (consumers c).

Lemma is_closed_answer conn b b' : mkEntry _ (EIsClosed conn) b = mkEntry _ (EIsClosed conn) b' → b = b'.
Proof.
  intros Heq. apply (f_equal (λ e, match e with mkEntry _ c a =>
    match c in E A return A → bool with EIsClosed _ => id | _ => λ _, true end a end)) in Heq. exact Heq.
Qed.

Lemma CheckHealth_spec c :
  ensures c (CheckHealth : LM _) (λ r c' log, c' = c ∧ (r = None ↔ healthy_client c log) ∧ opens log = [] ∧ closes log = []).
Proof.
  assert (∀ e n, (healthy_client c n → False) → opens n = [] → closes n = [] →
            c = c ∧ (Some (A := error) e = None ↔ healthy_client c n) ∧ opens n = [] ∧ closes n = []) as Hrefuse.
  { intros e n Hn Ho Hc. repeat split; done. }
  unfold CheckHealth, conn_IsClosed, CM.IsConnected, HC.IsHealthy. go_run.
  destruct (connection c) as [conn|] eqn:Hconn; [|go_run; apply Hrefuse; [|done..]; intros (? & ? & Hx & _); congruence]. go_run.
  match goal with a : bool |- _ => destruct a end.
  { go_run. apply Hrefuse; [|done..]. intros (conn' & m & Hx & Hin & _). rewrite Hconn in Hx. injection Hx as <-.
    by apply list_elem_of_singleton, is_closed_answer in Hin. }
  go_run. destruct (connectionManager c) as [m|] eqn:Hcm;
    [|go_run; apply Hrefuse; [|done..]; intros (? & ? & _ & _ & Hx & _); congruence].
  destruct (CM.connected m) eqn:Hm; cbn [negb]; go_run;
    [|apply Hrefuse; [|done..]; intros (? & ? & _ & _ & Hx & Hy & _); congruence].
  lazymatch goal with |- ensures _ (if ?b then _ else _) _ => destruct b eqn:Hh end; go_run.
  { apply Hrefuse; [|done..]. intros (? & ? & _ & _ & _ & _ & Hx & _).
    destruct (healthChecker c) as [h|]; [|done]. by rewrite (Hx h eq_refl) in Hh. }
  assert (∀ h, healthChecker c = Some h → HC.healthy h = true) as Hhealthy.
  { intros h Hx. rewrite Hx in Hh. by apply negb_false_iff in Hh. }
  eapply ensures_bind; [apply check_ready_spec|]. intros r c1 n1 (-> & Hps & Ho1 & Hc1 & _).
  assert (∀ n2, opens (mkEntry _ (EIsClosed conn) false :: n1 ++ n2) = opens n2 ∧
                closes (mkEntry _ (EIsClosed conn) false :: n1 ++ n2) = closes n2) as Hlog.
  { intros n2. change (mkEntry _ (EIsClosed conn) false :: n1 ++ n2) with ([mkEntry _ (EIsClosed conn) false] ++ (n1 ++ n2)).
    rewrite !opens_app, !closes_app, Ho1, Hc1. done. }
  destruct r as [e|]; go_run.
  { apply Hrefuse; [|apply (Hlog [])..]. intros (? & ? & _ & _ & _ & _ & _ & Hp & _). by apply Hps in Hp. }
  eapply ensures_mono; [apply check_ready_spec|]. intros r c1 n2 (-> & Hcs & Ho2 & Hc2 & _).
  destruct (Hlog n2) as [-> ->]. rewrite Hcs. split; [done|]. split; [|done]. split.
  - intros Hc. exists conn, m. split; [done|]. split; [by left|]. repeat (split; [done|]). split; [by apply Hps|done].
  - intros (? & ? & _ & _ & _ & _ & _ & _ & Hc). done.
Qed.

(** ** Startup *)

Lemma initializeProducers_spec c conn ps :
  connection c = Some conn → GetEnabledProducers (config c) = Done ps →
  ensures c (initializeProducers : LM _) (λ r c' log, ∃ m, c' = set_producers m c ∧
    (r = None → all_registered conn (p_Name <$> ps) (producers c) m log)).
Proof.
  intros Hc Hps. apply (initializeProducers_loop c ps Hps). eapply ensures_mono; [by eapply initialize_loop_spec|].
  intros [e|] c' log; [intros (_ & _ & _ & m & _ & _ & _ & -> & _)|intros (m & -> & _ & Hall & _)]; by exists m.
Qed.

Lemma initializeConsumers_spec c conn xs :
  connection c = Some conn → GetEnabledConsumers (config c) = Done xs →
  ensures c (initializeConsumers : LM _) (λ r c' log, ∃ m, c' = set_consumers m c ∧
    (r = None → all_registered conn (c_Name <$> xs) (consumers c) m log)).
Proof.
  intros Hc Hxs. apply (initializeConsumers_loop c xs Hxs). eapply ensures_mono; [by eapply initialize_loop_spec|].
  intros [e|] c' log; [intros (_ & _ & _ & m & _ & _ & _ & -> & _)|intros (m & -> & _ & Hall & _)]; by exists m.
Qed.

(** The goroutines and flags a startup adds. *)
Definition with_health_loop (c : RabbitMQClient) : RabbitMQClient :=
  match healthChecker c with
  | None => c
  | Some h => set_goroutines (goroutines c ++ [HealthLoop Held]) (set_healthChecker (Some (HC.SetProbe connectionProbe_fn h)) c)
  end.

Definition with_watcher (c : RabbitMQClient) : RabbitMQClient :=
  match connectionManager c with
  | None => c
  | Some m =>
      let c := set_connectionManager (Some (CM.set_connected true m)) c in
      match CM.connNotify m, CM.reconnect m with
      | Some notify, Some _ => set_goroutines (goroutines c ++ [Watcher Held notify]) c
      | _, _ => c
      end
  end.

Lemma start_health_checker_spec c :
  ensures c (start_health_checker : LM _) (λ _ c' log, c' = with_health_loop c ∧ log = []).
Proof.
  unfold start_health_checker, with_health_loop. go_run. destruct (healthChecker c) as [h|] eqn:Hh; [|by go_run].
  eapply ensures_bind_checker; [exact Hh|reflexivity|]. by go_run.
Qed.

Lemma start_connection_manager_spec c :
  ensures c (start_connection_manager : LM _) (λ _ c' log, c' = with_watcher c ∧ log = []).
Proof.
  unfold start_connection_manager, with_watcher. go_run. destruct (connectionManager c) as [m|] eqn:Hm; [|by go_run].
  eapply ensures_bind_manager; [exact Hm|reflexivity|]. cbn [fst snd CM.Start CM.connNotify CM.reconnect CM.set_connected].
  destruct (CM.connNotify m), (CM.reconnect m); go_run; done.
Qed.

Lemma register_resources_spec c :
  ensures c (register_resources : LM _) (λ _ c' _, c' = c).
Proof.
  unfold register_resources, registerRuntimePluginAlias, register_private_resources, register_private.
  go_run. destruct (rt c) as [runtime|] eqn:Hrt; [|by go_run]. go_run.
  match goal with a : option error |- _ => destruct a end; [by go_run|]. go_run. rewrite Hrt.
  go_exec; done.
Qed.

(** What no lifecycle operation of a running client changes. *)
Definition same_identity (c c' : RabbitMQClient) : Prop :=
  rt c' = rt c ∧ config c' = config c ∧ closed c' = closed c.

Lemma same_identity_health c : same_identity c (with_health_loop c).
Proof. unfold same_identity, with_health_loop. by destruct (healthChecker c). Qed.

Lemma same_identity_watcher c : same_identity c (with_watcher c).
Proof.
  unfold same_identity, with_watcher. destruct (connectionManager c) as [m|]; [|done].
  by destruct (CM.connNotify m), (CM.reconnect m).
Qed.

Lemma same_identity_trans c1 c2 c3 : same_identity c1 c2 → same_identity c2 c3 → same_identity c1 c3.
Proof. unfold same_identity. intros (-> & -> & ->) (-> & -> & ->). done. Qed.

(** The state after a successful startup. *)
Definition started (ps : list Producer) (xs : list Consumer) (c : RabbitMQClient) : Prop :=
  is_Some (connection c) ∧
  (∀ p, p ∈ ps → ∃ ch, producers c !! p_Name p = Some (Some ch)) ∧
  (∀ x, x ∈ xs → ∃ ch, consumers c !! c_Name x = Some (Some ch)) ∧
  (∃ m notify, connectionManager c = Some m ∧ CM.connected m = true ∧ CM.reconnect m = Some reconnect_closure ∧
     CM.connNotify m = Some notify ∧ Watcher Held notify ∈ goroutines c) ∧
  (∀ h, healthChecker c = Some h → HC.probe h = Some connectionProbe_fn ∧ HealthLoop Held ∈ goroutines c).

Definition startup_post (ps : list Producer) (xs : list Consumer) (c : RabbitMQClient)
    (r : option error) (c' : RabbitMQClient) (log : list entry) : Prop :=
  same_identity c c' ∧
  match r with
  | None => last_contract (rt c) true log ∧ started ps xs c'
  | Some _ => c' = c ∧ Forall ctx_entry log ∨ last_contract (rt c) false log
  end.

Lemma startup_failed ps xs c ci e n :
  same_identity c ci → ensures ci (not_ready (Some e) : LM _) (λ r c' log, startup_post ps xs c r c' (n ++ log)).
Proof.
  intros Hid. eapply ensures_mono; [apply not_ready_spec|]. intros r c' log (-> & -> & Hl). split; [done|].
  right. apply last_contract_app. by destruct Hid as [<- _].
Qed.

Lemma started_after ps xs c m notify :
  is_Some (connection c) →
  (∀ p, p ∈ ps → ∃ ch, producers c !! p_Name p = Some (Some ch)) →
  (∀ x, x ∈ xs → ∃ ch, consumers c !! c_Name x = Some (Some ch)) →
  connectionManager c = Some m → CM.connNotify m = Some notify → CM.reconnect m = Some reconnect_closure →
  started ps xs (with_watcher (with_health_loop c)).
Proof.
  intros Hconn Hps Hxs Hm Hn Hr. unfold started, with_watcher, with_health_loop.
  destruct (healthChecker c) as [h|] eqn:Hh; cbn; rewrite Hm, Hn, Hr; cbn; (do 3 (split; [done|])); split.
  - eexists _, notify. repeat (split; [done|]). set_solver.
  - intros ? [= <-]. split; [done|]. set_solver.
  - eexists _, notify. repeat (split; [done|]). set_solver.
  - by rewrite Hh.
Qed.

Lemma registered_ready conn names m0 m log {A} (xs : list A) f :
  names = f <$> xs → all_registered conn names m0 m log → ∀ x, x ∈ xs → ∃ ch, m !! f x = Some (Some ch).
Proof.
  intros -> [Hall _] x Hx. destruct (Hall (f x)) as (ch & Hm & _); [by apply list_elem_of_fmap_2|]. eauto.
Qed.

(** The steps of startup after the connection is made. *)
Lemma startup_tail ps xs c c0 conn n :
  same_identity c0 c → connection c = Some conn →
  (connectionManager c = None ∨ ∃ m notify, connectionManager c = Some m ∧ CM.connNotify m = Some notify ∧ CM.reconnect m = Some reconnect_closure) →
  (∀ p, p ∈ ps → ∃ ch, producers c !! p_Name p = Some (Some ch)) →
  (∀ x, x ∈ xs → ∃ ch, consumers c !! c_Name x = Some (Some ch)) →
  ensures c (start_health_checker ;; start_connection_manager ;;
      on_err register_resources (λ e, not_ready (Some e)) (
      on_err CheckHealth (λ e, not_ready (Some e)) (
      publishRuntimeContract true true ;; mret None)) : LM _)
    (λ r c' log, startup_post ps xs c0 r c' (n ++ log)).
Proof.
  intros Hid Hconn Hcm Hps Hxs.
  eapply ensures_bind; [apply start_health_checker_spec|]. intros [] c1 n1 [-> ->].
  eapply ensures_bind; [apply start_connection_manager_spec|]. intros [] c1 n1 [-> ->].
  set (c2 := with_watcher (with_health_loop c)).
  assert (same_identity c0 c2) as Hid2.
  { eapply same_identity_trans; [exact Hid|]. eapply same_identity_trans; [apply same_identity_health|apply same_identity_watcher]. }
  cbn [app]. eapply ensures_on_err; [apply register_resources_spec| |].
  { intros e c1 n1 ->. eapply ensures_mono; [by apply (startup_failed ps xs c0 c2 e (n ++ n1))|]. intros r c' log. cbn beta. by rewrite <- app_assoc. }
  intros c1 n1 ->. eapply ensures_on_err; [apply CheckHealth_spec| |].
  { intros e c1 n2 (-> & _). eapply ensures_mono; [by apply (startup_failed ps xs c0 c2 e (n ++ n1 ++ n2))|].
    intros r c' log. cbn beta. by rewrite <- !app_assoc. }
  intros c1 n2 (-> & [Hhealthy _] & _). destruct (Hhealthy eq_refl) as (_ & m' & _ & _ & Hm' & _). clear Hhealthy.
  eapply ensures_bind; [apply publish_last|]. intros [] c1 n3 [-> Hl]. go_run. rewrite app_nil_r.
  split; [done|]. split; [rewrite app_assoc, app_assoc; apply last_contract_app; by destruct Hid2 as [<- _]|].
  destruct Hcm as [Hnone|(m & notify & Hm & Hn & Hr)]; [|by eapply started_after].
  unfold c2, with_watcher, with_health_loop in Hm'. exfalso. destruct (healthChecker c); cbn in Hm'; by rewrite Hnone in Hm'; cbn in Hm'; rewrite ?Hnone in Hm'.
Qed.

Lemma startup_spec c ctx ps xs :
  GetEnabledProducers (config c) = Done ps → GetEnabledConsumers (config c) = Done xs →
  ensures c (startupWithContext ctx : LM _) (startup_post ps xs c).
Proof.
  intros Hps Hxs. unfold startupWithContext.
  eapply ensures_on_err; [apply ensures_ctx_Err| |].
  { intros e c1 n1 (-> & Hctx & _). go_run. rewrite app_nil_r. split; [done|]. by left. }
  intros c1 n1 (-> & _). eapply ensures_bind; [apply publish_last|]. intros [] c1 n2 [-> _].
  eapply ensures_on_err; [apply connect_spec| |].
  { intros e c1 n3 (-> & _). eapply ensures_mono; [by apply (startup_failed ps xs c c _ (n1 ++ n2 ++ n3))|].
    intros r c' log. cbn beta. by rewrite <- !app_assoc. }
  intros c1 n3 ((conn & Hconn & Hshape) & _).
  assert (same_identity c c1 ∧ (connectionManager c1 = None ∨ ∃ m notify, connectionManager c1 = Some m ∧
            CM.connNotify m = Some notify ∧ CM.reconnect m = Some reconnect_closure)) as [Hid Hcm].
  { destruct Hshape as [[-> Hn]|(notify & -> & m & Hm)]; (split; [done|]); [by left|]. right. cbn. rewrite Hm. by eexists _, notify. }
  clear Hshape. eapply ensures_on_err; [apply ensures_ctx_Err| |].
  { intros e ci n4 (-> & _). eapply ensures_mono; [by apply (startup_failed ps xs c c1 _ (n1 ++ n2 ++ n3 ++ n4))|].
    intros r c' log. cbn beta. by rewrite <- !app_assoc. }
  intros ci n4 (-> & _). eapply ensures_on_err.
  { apply (initializeProducers_spec c1 conn ps Hconn). by destruct Hid as (_ & -> & _). }
  { intros e ci n5 (mp & -> & _). eapply ensures_mono; [by apply (startup_failed ps xs c (set_producers mp c1) _ (n1 ++ n2 ++ n3 ++ n4 ++ n5))|].
    intros r c' log. cbn beta. by rewrite <- !app_assoc. }
  intros ci n5 (mp & -> & Hmp). specialize (Hmp eq_refl). eapply ensures_on_err; [apply ensures_ctx_Err| |].
  { intros e ci n6 (-> & _). eapply ensures_mono; [by apply (startup_failed ps xs c (set_producers mp c1) _ (n1 ++ n2 ++ n3 ++ n4 ++ n5 ++ n6))|].
    intros r c' log. cbn beta. by rewrite <- !app_assoc. }
  intros ci n6 (-> & _). eapply ensures_on_err.
  { apply (initializeConsumers_spec (set_producers mp c1) conn xs Hconn). by destruct Hid as (_ & Hcfg & _); cbn; rewrite Hcfg. }
  { intros e ci n7 (mc & -> & _). eapply ensures_mono;
      [by apply (startup_failed ps xs c (set_consumers mc (set_producers mp c1)) _ (n1 ++ n2 ++ n3 ++ n4 ++ n5 ++ n6 ++ n7))|].
    intros r c' log. cbn beta. by rewrite <- !app_assoc. }
  intros ci n7 (mc & -> & Hmc). specialize (Hmc eq_refl).
  eapply ensures_mono.
  { apply (startup_tail ps xs (set_consumers mc (set_producers mp c1)) c conn (n1 ++ n2 ++ n3 ++ n4 ++ n5 ++ n6 ++ n7));
      [done|done|done| |]; cbn; eauto using registered_ready. }
  intros r c' log. cbn beta. by rewrite <- !app_assoc.
Qed.

(** ** Draining under an arbitrary schedule *)

Definition channels_of (ls : list (option loop)) : list Channel := l_ch <$> omap id ls.

Definition registrations (log : list entry) : list (bool * string * resource) := log ≫= registration.

(** Calls that open no channel and register nothing. *)
Definition quiet (log : list entry) : Prop := opens log = [] ∧ registrations log = [].

Lemma registrations_app l1 l2 : registrations (l1 ++ l2) = registrations l1 ++ registrations l2.
Proof. apply bind_app. Qed.

Lemma quiet_app l1 l2 : quiet l1 → quiet l2 → quiet (l1 ++ l2).
Proof. unfold quiet. rewrite opens_app, registrations_app. by intros [-> ->] [-> ->]. Qed.

(** The count of subscriptionWG cannot come to zero unnoticed. *)
Definition wakes (c c' : RabbitMQClient) : Prop :=
  subscriptionWG c ≤ subscriptionWG c' ∧ (running c ≠ [] → running c' = [] → subscriptionWG c < subscriptionWG c').

#[export] Instance wakes_preorder : PreOrder wakes.
Proof.
  split; [by split|]. intros c1 c2 c3 [H1 H1'] [H2 H2']. split; [lia|]. intros Hc1 Hc3.
  destruct (running c2) eqn:Hc2; [specialize (H1' Hc1 eq_refl)|specialize (H2' ltac:(done) Hc3)]; lia.
Qed.

Lemma Done_wakes i c : wakes c (subscriptionWG_Done i c).
Proof.
  unfold wakes, subscriptionWG_Done. destruct (running (set_loops _ c)) eqn:Hr; cbn; split; try lia.
  intros _ H. unfold running in Hr. cbn in Hr. by rewrite H in Hr.
Qed.

Lemma Done_loops i c : ∃ k, subscriptionWG_Done i c = set_subscriptionWG k (set_loops (<[i := None]> (loops c)) c).
Proof. unfold subscriptionWG_Done. destruct (running _); eexists; [done|]. by destruct c. Qed.

Lemma leave_same n c x c' : subscriptionWG_leave n c = Done (x, c') → c' = c.
Proof. unfold subscriptionWG_leave. case_bool_decide; [done|]. destruct (running c); [by intros [= _ ->]|done]. Qed.

(** Whatever the loops do, each of them keeps its channel or has closed it. *)
Definition loops_moved (c c' : RabbitMQClient) (log : list entry) : Prop :=
  ∃ m ls k, c' = set_subscriptionWG k (set_loops ls (set_metrics m c)) ∧ wakes c c' ∧ quiet log ∧
    closes log ++ channels_of ls ≡ₚ channels_of (loops c) ∧ length ls = length (loops c).

Lemma loops_moved_refl c : loops_moved c c [].
Proof. exists (metrics c), (loops c), (subscriptionWG c). split; [by destruct c|]. done. Qed.

Lemma loops_moved_trans c1 c2 c3 n1 n2 : loops_moved c1 c2 n1 → loops_moved c2 c3 n2 → loops_moved c1 c3 (n1 ++ n2).
Proof.
  intros (m1 & ls1 & k1 & -> & Hw1 & Ho1 & Hp1 & Hl1) (m2 & ls2 & k2 & -> & Hw2 & Ho2 & Hp2 & Hl2). exists m2, ls2, k2. cbn in *.
  split; [done|]. split; [by etransitivity|]. split; [by apply quiet_app|].
  rewrite closes_app, <- app_assoc, Hp2. split; [done|]. by rewrite Hl2.
Qed.

Lemma loops_moved_metrics c m log : quiet log → closes log = [] → loops_moved c (set_metrics m c) log.
Proof. intros Ho Hc. exists m, (loops c), (subscriptionWG c). rewrite Hc. done. Qed.

Lemma loops_moved_same c log : quiet log → closes log = [] → loops_moved c c log.
Proof. intros Ho Hc. rewrite <- (set_metrics_same c) at 2. by apply loops_moved_metrics. Qed.

Lemma dispatchDelivery_moves c ctx d h autoAck :
  ensures c (dispatchDelivery ctx d h autoAck : LM _) (λ _ c' log, loops_moved c c' log).
Proof.
  unfold dispatchDelivery, on_metrics. go_run.
  destruct (metrics c) as [m|] eqn:Hm;
    match goal with r : handler_result |- _ => destruct r as [[e|]|rec stack] end; go_run; destruct autoAck; go_run.
  all: rewrite ?set_metrics_set; first [by apply loops_moved_same | by apply loops_moved_metrics].
Qed.

Lemma loop_return_moves c i l :
  loops c !! i = Some (Some l) → ensures c (loop_return i l : LM _) (λ _ c' log,
    c' = subscriptionWG_Done i c ∧ loops_moved c c' log).
Proof.
  intros Hi. unfold loop_return. go_run. split; [done|]. destruct (Done_loops i c) as [k Hk].
  exists (metrics c), (<[i := None]> (loops c)), k.
  split; [by rewrite Hk; destruct c|]. split; [apply Done_wakes|]. split; [done|]. cbn. rewrite length_insert. split; [|done].
  rewrite (insert_take_drop (loops c) i None) by by eapply lookup_lt_Some.
  rewrite <- (take_drop_middle (loops c) i (Some l) Hi) at 3.
  unfold channels_of. rewrite !omap_app. cbn. rewrite !fmap_app. cbn. by rewrite Permutation_middle.
Qed.

Lemma loop_step_moves c i ev : ensures c (loop_step i ev : LM _) (λ _ c' log, loops_moved c c' log).
Proof.
  unfold loop_step, loop_case. go_run. destruct (loops c !! i) as [[l|]|] eqn:Hi; cbn [mjoin option_join]; [|go_run; apply loops_moved_refl..].
  destruct ev as [| |d|].
  - eapply ensures_bind; [apply ensures_ctx_Err|]. intros err c1 n1 (-> & Hn & _).
    assert (quiet n1 ∧ closes n1 = []) as [Ho Hc].
    { induction Hn as [|? ? (id & a & ->) _ IH]; [done|]. exact IH. }
    assert (loops_moved c c n1) as H1 by by apply loops_moved_same.
    destruct err; [|go_run; by rewrite app_nil_r].
    eapply ensures_mono; [by apply loop_return_moves|]. intros ? c2 n2 [_ H2]. by eapply loops_moved_trans.
  - go_run. destruct (closeChan c); [|go_run; apply loops_moved_refl].
    eapply ensures_mono; [by apply loop_return_moves|]. by intros ? c2 n2 [_ H2].
  - apply dispatchDelivery_moves.
  - eapply ensures_mono; [by apply loop_return_moves|]. by intros ? c2 n2 [_ H2].
Qed.

Lemma schedule_moves c sched :
  ensures c (for_all (λ ev, loop_step (fst ev) (snd ev)) sched : LM _) (λ _ c' log, loops_moved c c' log).
Proof.
  apply (ensures_for_all _ (λ _ c' log, loops_moved c c' log)); [apply loops_moved_refl|].
  intros pre ev rest c1 n _ H1. eapply ensures_mono; [apply loop_step_moves|]. intros ? c2 n2. by apply loops_moved_trans.
Qed.

(** The steps in which the loops [k], ..., [k + n - 1] see the closed channel. *)
Definition closing_rounds (k n : nat) : list (nat * loop_event) := (λ i, (i, LCloseChan)) <$> seq k n.

(** The first [k] loops have returned. *)
Definition returned (k : nat) (c : RabbitMQClient) : Prop := ∀ i, i < k → mjoin (loops c !! i) = None.

Lemma closing_step c k :
  closeChan c = true → returned k c →
  ensures c (loop_step k LCloseChan : LM _) (λ _ c' log, loops_moved c c' log ∧ returned (S k) c').
Proof.
  intros Hcl Hk. unfold loop_step, loop_case. go_run.
  assert (mjoin (loops c !! k) = None → returned (S k) c) as Hnone.
  { intros Hn i Hi. destruct (decide (i = k)) as [->|]; [done|]. apply Hk. lia. }
  destruct (loops c !! k) as [[l|]|] eqn:Hi; cbn [mjoin option_join] in *; [|go_run; split; [apply loops_moved_refl|auto]..].
  go_run. rewrite Hcl. eapply ensures_mono; [by apply loop_return_moves|]. intros ? c' log [-> H]. split; [done|].
  destruct (Done_loops k c) as [w ->]. intros i Hlt. cbn. destruct (decide (i = k)) as [->|Hne].
  - by rewrite list_lookup_insert_eq by by eapply lookup_lt_Some.
  - rewrite list_lookup_insert_ne by done. apply Hk. lia.
Qed.

Lemma closing_spec c k n :
  closeChan c = true → returned k c →
  ensures c (for_all (λ ev, loop_step (fst ev) (snd ev)) (closing_rounds k n) : LM _)
    (λ _ c' log, loops_moved c c' log ∧ returned (k + n) c').
Proof.
  revert c k. induction n as [|n IH]; intros c k Hcl Hk; unfold closing_rounds; cbn [seq fmap list_fmap for_all fst snd].
  { go_run. split; [apply loops_moved_refl|]. by rewrite Nat.add_0_r. }
  eapply ensures_bind; [by apply closing_step|]. intros [] c1 n1 [H1 Hk1].
  eapply ensures_mono; [apply (IH c1 (S k)); [by destruct H1 as (? & ? & ? & -> & _)|done]|].
  intros ? c2 n2 [H2 Hk2]. split; [by eapply loops_moved_trans|]. by rewrite Nat.add_succ_r.
Qed.

Lemma all_returned c : returned (length (loops c)) c → running c = [].
Proof.
  unfold returned, running. generalize (loops c). intros ls. induction ls as [|o ls IH]; intros Hr; [done|].
  pose proof (Hr 0 ltac:(cbn; lia)) as H0. cbn in H0. subst. cbn. apply IH. intros i Hi. apply (Hr (S i)). cbn. lia.
Qed.

(** A schedule under which the wait returns: anything, then every loop sees the
    closed channel. *)
Definition draining (c : RabbitMQClient) (sched : list (nat * loop_event)) : list (nat * loop_event) :=
  sched ++ closing_rounds 0 (length (loops c)).

Lemma drain_spec c sched :
  closeChan c = true →
  ensures c (for_all (λ ev, loop_step (fst ev) (snd ev)) (draining c sched) : LM _) (λ _ c' log, loops_moved c c' log ∧ running c' = []).
Proof.
  intros Hcl. unfold draining. rewrite for_all_app.
  eapply ensures_bind; [apply schedule_moves|]. intros [] c1 n1 H1.
  assert (closeChan c1 = true ∧ length (loops c1) = length (loops c)) as [Hcl1 Hlen] by (by destruct H1 as (? & ? & ? & -> & _ & _ & _ & ?)).
  eapply ensures_mono; [by apply closing_spec; [|intros i Hi; lia]|]. intros ? c2 n2 [H2 H3]. split; [by eapply loops_moved_trans|].
  apply all_returned. destruct H2 as (? & ? & ? & -> & _ & _ & _ & Hlen2). cbn in *. by rewrite Hlen2, Hlen.
Qed.

Lemma Wait_spec c sched :
  closeChan c = true →
  ensures c (subscriptionWG_Wait (draining c sched) : LM _) (λ _ c' log, ∃ m ls k,
    c' = set_subscriptionWG k (set_loops ls (set_metrics m c)) ∧ omap id ls = [] ∧ quiet log ∧ closes log ≡ₚ channels_of (loops c)).
Proof.
  intros Hcl. unfold subscriptionWG_Wait, subscriptionWG_enter. go_run. destruct (running c) as [|l0 r0] eqn:Hrun.
  { go_run. exists (metrics c), (loops c), (subscriptionWG c). split; [by destruct c|]. unfold channels_of.
    unfold running in Hrun. by rewrite Hrun. }
  eapply ensures_bind; [by apply drain_spec|].
  intros [] c1 n1 [(m & ls & k & -> & [_ Hw] & Ho & Hp & _) Hls]. unfold running in Hls. cbn in Hls.
  apply (ensures_sect _ _ tt (set_subscriptionWG k (set_loops ls (set_metrics m c)))).
  { specialize (Hw ltac:(by rewrite Hrun) Hls). cbn in Hw. unfold subscriptionWG_leave, running. cbn.
    rewrite bool_decide_eq_false_2 by lia. by rewrite Hls. }
  rewrite app_nil_r. exists m, ls, k. split; [done|]. split; [done|]. split; [done|].
  unfold channels_of at 1 in Hp. by rewrite Hls, app_nil_r in Hp.
Qed.

(** ** Closing the channel maps *)

(** The non-nil channels of a map. *)
Definition map_channels (m : gmap string (option Channel)) : list Channel := omap id (map_to_list m).*2.

Lemma close_channels_spec c m :
  ensures c (close_channels m : LM _) (λ _ c' log, c' = c ∧ quiet log ∧ closes log ≡ₚ map_channels m).
Proof.
  unfold close_channels. eapply ensures_bind; [apply ensures_range_keys|]. intros keys c1 n1 (-> & Hperm & a & ->).
  eapply ensures_mono.
  { apply (ensures_for_all _ (λ pre c' n, c' = c ∧ quiet n ∧ closes n = omap (λ name, m !! name ≫= id) pre)); [done|].
    intros pre x rest c1 n _ (-> & Ho & Hc).
    destruct (m !! x) as [[ch|]|] eqn:Hx; go_run; (split; [done|]); (split; [by apply quiet_app|]);
      rewrite closes_app, Hc, omap_app; cbn; rewrite Hx; cbn; done. }
  intros ? c1 n (-> & Ho & Hc). split; [done|]. split; [by apply quiet_app|]. rewrite closes_app, Hc.
  cbn. rewrite Hperm. unfold map_channels. apply reflexive_eq.
  assert (∀ l : list (string * option Channel), (∀ k v, (k, v) ∈ l → m !! k = Some v) →
            omap (λ name, m !! name ≫= id) l.*1 = omap id l.*2) as Hgen.
  { induction l as [|[k v] l IH]; intros Hl; [done|]. cbn. rewrite (Hl k v) by by left. cbn.
    rewrite IH by (intros; apply Hl; by right). done. }
  apply Hgen. intros k v. by rewrite elem_of_map_to_list.
Qed.

(** ** Shutdown *)

(** The flags that guard the close operations agree with the channels they
    guard, as they do in a fresh client and after every operation of the helpers. *)
Definition stoppable (c : RabbitMQClient) : Prop :=
  closeChan c = closeOnce c ∧
  (∀ h, healthChecker c = Some h → HC.stopChan h = HC.stopOnce h ∧ HC.stopped h = HC.stopOnce h) ∧
  (∀ m, connectionManager c = Some m → CM.stopped m = true → CM.stopChan m = true).

(** A client that has been shut down: nothing runs, nothing is registered. *)
Definition shut (c : RabbitMQClient) : Prop :=
  closed c = true ∧ closeChan c = true ∧ closeOnce c = true ∧ running c = [] ∧ producers c = ∅ ∧ consumers c = ∅ ∧
  (∀ h, healthChecker c = Some h → HC.stopped h = true ∧ HC.stopChan h = true ∧ HC.stopOnce h = true) ∧
  (∀ m, connectionManager c = Some m → CM.stopped m = true ∧ CM.stopChan m = true ∧ CM.connected m = false) ∧
  goroutinePool c ≠ Some false.

Lemma shut_connection o c : shut c → shut (set_connection o c).
Proof. exact id. Qed.

Lemma stoppable_connection o c : stoppable c → stoppable (set_connection o c).
Proof. exact id. Qed.

Lemma close_closeChan_spec c :
  closeChan c = closeOnce c →
  ensures c (close_closeChan : LM _) (λ _ c' log, c' = set_closeOnce true (set_closeChan true c) ∧ log = []).
Proof.
  intros Heq. unfold close_closeChan. eapply ensures_sect; [|by split].
  rewrite Heq. destruct (closeOnce c) eqn:Ho; [|done]. f_equal. destruct c; cbn in *; by subst.
Qed.

Lemma stop_health_checker_spec c :
  (∀ h, healthChecker c = Some h → HC.stopChan h = HC.stopOnce h ∧ HC.stopped h = HC.stopOnce h) →
  ensures c (stop_health_checker : LM _) (λ _ c' log, log = [] ∧ ∃ o, c' = set_healthChecker o c ∧
    ∀ h, o = Some h → HC.stopped h = true ∧ HC.stopChan h = true ∧ HC.stopOnce h = true).
Proof.
  intros Hh. unfold stop_health_checker. go_run. destruct (healthChecker c) as [h|] eqn:Hc.
  - destruct (Hh h eq_refl) as [H1 H2].
    destruct (HC.stopOnce h) eqn:Ho; (eapply ensures_checker; [exact Hc|unfold HC.Stop, HC.close_stopChan; rewrite H1, H2, ?Ho; reflexivity|]);
      (split; [done|]); eexists; (split; [done|]); intros ? [= <-]; cbn; rewrite ?H1, ?H2, ?Ho; done.
  - go_run. split; [done|]. exists None. split; [|done]. destruct c; cbn in *; by subst.
Qed.

Lemma manager_Stop (m : Manager) :
  (CM.stopped m = true → CM.stopChan m = true) →
  ∃ m', CM.Stop m = Done (tt, m') ∧ CM.stopped m' = true ∧ CM.stopChan m' = true ∧ CM.connected m' = false.
Proof.
  destruct m as [up closed_ stopped_ fn notify]. cbn. intros Hm.
  destruct stopped_; [rewrite Hm by done|destruct closed_]; eexists; (split; [reflexivity|]); done.
Qed.

Lemma stop_connection_manager_spec c :
  (∀ m, connectionManager c = Some m → CM.stopped m = true → CM.stopChan m = true) →
  ensures c (stop_connection_manager : LM _) (λ _ c' log, log = [] ∧ ∃ o, c' = set_connectionManager o c ∧
    ∀ m, o = Some m → CM.stopped m = true ∧ CM.stopChan m = true ∧ CM.connected m = false).
Proof.
  intros Hm. unfold stop_connection_manager. go_run. destruct (connectionManager c) as [m|] eqn:Hc.
  - destruct (manager_Stop m (Hm m eq_refl)) as (m' & Hs & Hm'). eapply ensures_manager; [exact Hc|exact Hs|].
    split; [done|]. eexists. split; [done|]. by intros ? [= <-].
  - go_run. split; [done|]. exists None. split; [|done]. destruct c; cbn in *; by subst.
Qed.

(** What a shutdown that was not cancelled did. *)
Definition cleaned (c : RabbitMQClient) (r : option error) (c' : RabbitMQClient) (log : list entry) : Prop :=
  shut c' ∧ stoppable c' ∧ opens log = [] ∧
  closes log ≡ₚ channels_of (loops c) ++ map_channels (consumers c) ++ map_channels (producers c) ∧
  registrations log = match rt c with
    | None => []
    | Some _ => [(true, sharedReadinessResourceName, ResBool false); (true, sharedHealthResourceName, ResBool false);
                 (false, privateReadinessResourceName, ResBool false); (false, privateHealthResourceName, ResBool false)]
    end ∧
  match connection c with
  | None => r = None ∧ connection c' = None
  | Some conn => ∃ pre a, log = pre ++ [mkEntry _ (EConnClose conn) a] ∧ r = as_error <$> a ∧
                   connection c' = match a with None => None | Some _ => Some conn end
  end.

Lemma contract_registrations runtime a b log :
  contract runtime a b log → opens log = [] ∧ closes log = [] ∧ registrations log =
    [(true, sharedReadinessResourceName, ResBool a); (true, sharedHealthResourceName, ResBool b);
     (false, privateReadinessResourceName, ResBool a); (false, privateHealthResourceName, ResBool b)].
Proof. by intros (a1 & a2 & a3 & a4 & ->). Qed.

(** The end of a shutdown: the connection. *)
Lemma close_connection_spec c :
  ensures c (close_connection : LM _) (λ r c' log,
    match connection c with
    | None => r = None ∧ c' = c ∧ log = []
    | Some conn => ∃ a, log = [mkEntry _ (EConnClose conn) a] ∧ r = as_error <$> a ∧
                     c' = match a with None => set_connection None c | Some _ => c end
    end).
Proof. unfold close_connection. go_run. destruct (connection c); go_exec; try done; by eexists. Qed.

(** The helpers have been stopped. *)
Definition helpers_stopped (c : RabbitMQClient) : Prop :=
  closed c = true ∧ closeChan c = true ∧ closeOnce c = true ∧
  (∀ h, healthChecker c = Some h → HC.stopped h = true ∧ HC.stopChan h = true ∧ HC.stopOnce h = true) ∧
  (∀ m, connectionManager c = Some m → CM.stopped m = true ∧ CM.stopChan m = true ∧ CM.connected m = false).

(** The channels, the connection and the runtime are as they were. *)
Definition same_channels (c c' : RabbitMQClient) : Prop :=
  producers c' = producers c ∧ consumers c' = consumers c ∧ connection c' = connection c ∧ rt c' = rt c.

Lemma shut_stoppable c : shut c → stoppable c.
Proof.
  intros (_ & H1 & H2 & _ & _ & _ & Hh & Hm & _). split; [by rewrite H1, H2|]. split.
  - intros h Hc. destruct (Hh h Hc) as (-> & -> & ->). done.
  - intros m Hc _. by apply Hm.
Qed.

(** The first part of a shutdown signals every background task to stop. *)
Definition signal_stop : LM unit :=
  put (set_closed true) ;; close_closeChan ;; stop_health_checker ;; stop_connection_manager.

Lemma signal_stop_spec c :
  stoppable c →
  ensures c signal_stop (λ _ c' log, log = [] ∧ helpers_stopped c' ∧ same_channels c c' ∧ loops c' = loops c).
Proof.
  intros (Hcl & Hh & Hm). unfold signal_stop. go_run.
  eapply ensures_bind; [by apply close_closeChan_spec|]. intros [] c1 n2 [-> ->]. cbn [app].
  eapply ensures_bind; [by apply stop_health_checker_spec|]. intros [] c1 n2 (-> & oh & -> & Hoh). cbn [app].
  eapply ensures_mono; [by apply stop_connection_manager_spec|]. intros [] c1 n2 (-> & om & -> & Hom).
  split; [done|]. split; [|done]. do 3 (split; [done|]). split; [exact Hoh|exact Hom].
Qed.

(** The middle part waits for the goroutines and closes the channels. *)
Definition drain_and_close (sched : list (nat * loop_event)) : LM unit :=
  subscriptionWG_Wait sched ;;
  goroutinePool_Wait ;;
  cs ← get consumers;
  close_channels cs ;;
  put (set_consumers ∅) ;;
  ps ← get producers;
  close_channels ps ;;
  put (set_producers ∅).

Lemma drain_and_close_spec c sched :
  helpers_stopped c →
  ensures c (drain_and_close (draining c sched)) (λ _ c' log, shut c' ∧ quiet log ∧ connection c' = connection c ∧
    closes log ≡ₚ channels_of (loops c) ++ map_channels (consumers c) ++ map_channels (producers c)).
Proof.
  intros (H1 & H2 & H3 & Hh & Hm). unfold drain_and_close.
  eapply ensures_bind; [by apply Wait_spec|]. intros [] c1 n3 (mt & ls & k & -> & Hls & Hq3 & Hc3).
  unfold goroutinePool_Wait. go_run. cbn [consumers set_goroutinePool set_subscriptionWG set_loops set_metrics].
  eapply ensures_bind; [apply close_channels_spec|]. intros [] c1 n4 (-> & Hq4 & Hc4). go_run.
  cbn [producers set_goroutinePool set_subscriptionWG set_loops set_metrics set_consumers].
  eapply ensures_bind; [apply close_channels_spec|]. intros [] c1 n5 (-> & Hq5 & Hc5). go_run.
  rewrite app_nil_r, !closes_app, Hc3, Hc4, Hc5. split; [|split; [by repeat apply quiet_app|done]].
  repeat (split; [first [done|exact Hh|exact Hm]|]). cbn. by destruct (goroutinePool c).
Qed.

Lemma cleanupWithContext_parts ctx sched :
  cleanupWithContext ctx sched ≡
    on_err (ctx_Err ctx) (λ e, mret (errorf_w "rabbitmq cleanup canceled before execution" e))
      (publishRuntimeContract false false ;; signal_stop ;; drain_and_close sched ;; close_connection).
Proof.
  unfold cleanupWithContext, on_err. apply bind_proper; [|done]. intros [e|]; [done|].
  apply bind_proper; [intros []|done]. unfold signal_stop, drain_and_close.
  repeat (rewrite ?bind_assoc; apply bind_proper; [intros ?|done]; try done).
Qed.

Lemma cleanup_spec c ctx sched :
  stoppable c →
  ensures c (cleanupWithContext ctx (draining c sched) : LM _) (λ r c' log,
    (ctx ≠ Background ∧ is_Some r ∧ c' = c ∧ Forall ctx_entry log) ∨
    ∃ pre post, log = pre ++ post ∧ Forall ctx_entry pre ∧ cleaned c r c' post).
Proof.
  intros Hst. rewrite cleanupWithContext_parts.
  eapply ensures_on_err; [apply ensures_ctx_Err| |].
  { intros e c1 n1 (-> & Hctx & Hb). go_run. rewrite app_nil_r. left. split; [by intros Hx; specialize (Hb Hx)|]. done. }
  intros c1 n0 (-> & Hctx & _).
  eapply ensures_mono; [|intros r c' post Hpost; right; exists n0, post; split; [done|]; split; [done|exact Hpost]].
  eapply ensures_bind; [apply publishRuntimeContract_spec|]. intros [] c1 n1 [-> Hpub].
  eapply ensures_bind; [by apply signal_stop_spec|]. intros [] c1 n2 (-> & Hstopped & (Hp & Hc & Hn & _) & Hl). cbn [app].
  assert (draining c sched = draining c1 sched) as -> by (unfold draining; by rewrite Hl).
  eapply ensures_bind; [by apply drain_and_close_spec|]. intros [] c2 n3 (Hshut & [Ho3 Hr3] & Hn2 & Hcl).
  eapply ensures_mono; [apply close_connection_spec|]. intros r c' n4 Hconn. rewrite Hn2, Hn in Hconn. rewrite Hl, Hp, Hc in Hcl.
  assert (opens n1 = [] ∧ closes n1 = [] ∧ registrations n1 = match rt c with None => [] | Some _ => 
      [(true, sharedReadinessResourceName, ResBool false); (true, sharedHealthResourceName, ResBool false);
       (false, privateReadinessResourceName, ResBool false); (false, privateHealthResourceName, ResBool false)] end) as (Ho1 & Hc1 & Hr1).
  { destruct (rt c); [by apply contract_registrations in Hpub|by subst]. }
  assert (quiet n4 ∧ closes n4 = []) as [[Ho4 Hr4] Hc4].
  { destruct (connection c); [by destruct Hconn as (a & -> & _)|by destruct Hconn as (_ & _ & ->)]. }
  assert (shut c') as Hshut'.
  { destruct (connection c); [destruct Hconn as ([] & _ & _ & ->)|destruct Hconn as (_ & -> & _)]; auto using shut_connection. }
  unfold cleaned. rewrite !opens_app, !closes_app, !registrations_app, Ho1, Ho3, Ho4, Hr1, Hr3, Hr4, Hc1, Hc4.
  split; [done|]. split; [by apply shut_stoppable|]. split; [done|].
  split; [cbn; by rewrite app_nil_r|]. split; [by rewrite app_nil_r|].
  destruct (connection c) as [conn|] eqn:Hcc.
  - destruct Hconn as (a & -> & -> & ->). exists (n1 ++ n3), a. rewrite <- !app_assoc. split; [done|]. split; [done|].
    destruct a; [|done]. by rewrite Hn2.
  - destruct Hconn as (-> & -> & _). by rewrite Hn2.
Qed.

(** *** A second shutdown *)

Lemma close_no_channels c :
  ensures c (close_channels ∅ : LM _) (λ _ c' log, c' = c ∧ List.filter is_network log = []).
Proof.
  unfold close_channels. eapply ensures_bind; [apply ensures_range_keys|]. intros keys c1 n1 (-> & Hperm & a & ->).
  rewrite map_to_list_empty in Hperm. apply Permutation_nil_r in Hperm as ->. cbn [for_all]. go_run. done.
Qed.

Lemma stopped_manager (m : Manager) : CM.stopped m = true → CM.connected m = false → CM.Stop m = Done (tt, m).
Proof. destruct m. cbn. by intros -> ->. Qed.

Lemma stop_health_checker_again c :
  (∀ h, healthChecker c = Some h → HC.stopped h = true) →
  ensures c (stop_health_checker : LM _) (λ _ c' log, c' = c ∧ log = []).
Proof.
  intros Hh. unfold stop_health_checker. go_run. destruct (healthChecker c) as [h|] eqn:Hc; [|by go_run].
  eapply ensures_checker; [exact Hc|unfold HC.Stop; by rewrite Hh|]. split; [|done]. destruct c; cbn in *; by subst.
Qed.

Lemma stop_connection_manager_again c :
  (∀ m, connectionManager c = Some m → CM.stopped m = true ∧ CM.connected m = false) →
  ensures c (stop_connection_manager : LM _) (λ _ c' log, c' = c ∧ log = []).
Proof.
  intros Hm. unfold stop_connection_manager. go_run. destruct (connectionManager c) as [m|] eqn:Hc; [|by go_run].
  destruct (Hm m eq_refl). eapply ensures_manager; [exact Hc|by apply stopped_manager|].
  split; [|done]. destruct c; cbn in *; by subst.
Qed.

Lemma signal_stop_again c : shut c → ensures c signal_stop (λ _ c' log, c' = c ∧ log = []).
Proof.
  intros (H1 & H2 & H3 & _ & _ & _ & Hh & Hm & _). unfold signal_stop, close_closeChan.
  assert (set_closed true c = c) as Heq by (destruct c; cbn in *; by subst).
  go_run. rewrite Heq. eapply ensures_bind_sect; [by rewrite H3|].
  eapply ensures_bind; [apply stop_health_checker_again; intros h Hc; by apply Hh|]. intros [] ? ? [-> ->].
  eapply ensures_mono; [apply stop_connection_manager_again; intros m Hc; by destruct (Hm m Hc) as (? & _ & ?)|].
  by intros ? ? ? [-> ->].
Qed.

Lemma drain_again c :
  shut c → ensures c (drain_and_close []) (λ _ c' log, c' = c ∧ List.filter is_network log = []).
Proof.
  intros (_ & _ & _ & Hl & Hp & Hc & _ & _ & Hg). unfold drain_and_close, subscriptionWG_Wait, goroutinePool_Wait.
  unfold subscriptionWG_enter. go_run. rewrite Hl. go_run.
  assert (set_goroutinePool ((λ _ : bool, true) <$> goroutinePool c) c = c) as Heq.
  { destruct c; cbn in *. destruct goroutinePool as [[]|]; done. }
  rewrite Heq, Hc.
  eapply ensures_bind; [apply close_no_channels|]. intros [] c1 n1 [-> Hn1]. go_run.
  assert (set_consumers ∅ c = c) as -> by (destruct c; cbn in *; by subst). rewrite Hp.
  eapply ensures_bind; [apply close_no_channels|]. intros [] c1 n2 [-> Hn2]. go_run.
  split; [destruct c; cbn in *; by subst|]. rewrite app_nil_r, List.filter_app, Hn1, Hn2. done.
Qed.

(** ** Reconnecting *)

(** The calls [session] were made one after the other within [log]. *)
Definition within (session log : list entry) : Prop := ∃ before after, log = before ++ session ++ after.

Lemma within_app session l1 l l2 : within session l → within session (l1 ++ l ++ l2).
Proof. intros (before & after & ->). exists (l1 ++ before), (after ++ l2). by rewrite <- !app_assoc. Qed.

(** The loop a reconnect starts for a recorded subscription: it consumes from the
    recorded queue, on a channel opened for it on the new connection, under the
    consumer's name and settings and the background context. *)
Definition restarted (cfg : RabbitMQ) (conn : Connection) (log : list entry) (sub : subscription) (l : loop) : Prop :=
  l_ctx l = Background ∧ l_handler l = handler sub ∧
  ∃ prefetch, consumer_settings (Consumers cfg) (consumerName sub) = Done (l_autoAck l, prefetch) ∧
    within (subscription_session Background (consumerName sub) (queue sub) (l_autoAck l) prefetch conn (l_ch l) (l_deliveries l)) log.

Lemma restarted_app cfg conn l1 log l2 sub l : restarted cfg conn log sub l → restarted cfg conn (l1 ++ log ++ l2) sub l.
Proof. intros (? & ? & prefetch & ? & ?). do 2 (split; [done|]). exists prefetch. split; [done|]. by apply within_app. Qed.

Lemma all_restarted_app cfg conn l1 log l2 subs ls :
  Forall2 (restarted cfg conn log) subs ls → Forall2 (restarted cfg conn (l1 ++ log ++ l2)) subs ls.
Proof. intros Hls. eapply Forall2_impl; [exact Hls|]. intros. by apply restarted_app. Qed.

Lemma consumer_settings_Done (l : list (option Consumer)) xs name :
  enabled_entries c_Enabled l = Done xs → ∃ a p, consumer_settings l name = Done (a, p).
Proof.
  revert xs. induction l as [|[x|] l IH]; intros xs; cbn; [by eexists _, _| |done].
  destruct (enabled_entries c_Enabled l) as [r| |]; [|done|done]. intros _. case_bool_decide; [by eexists _, _|]. by eapply IH.
Qed.

Definition has_consumer (xs : list Consumer) (sub : subscription) : bool :=
  bool_decide (consumerName sub ∈ c_Name <$> xs).

(** The subscriptions are restarted one by one. *)
Lemma restart_all c xs m conn log0 :
  GetEnabledConsumers (config c) = Done xs → connection c = Some conn → consumers c = m →
  all_registered conn (c_Name <$> xs) ∅ m log0 →
  ensures c (for_each restart_subscription (subscriptions c) : LM _) (λ r c' log,
    ∃ ls, c' = set_loops (loops c ++ (Some <$> ls)) c ∧
      (r = None → Forall2 (restarted (config c) conn log) (List.filter (has_consumer xs) (subscriptions c)) ls)).
Proof.
  intros Hxs Hconn Hm [Hall Hnone].
  eapply ensures_mono; [apply (ensures_for_each _
    (λ pre c' log, ∃ ls, c' = set_loops (loops c ++ (Some <$> ls)) c ∧ Forall2 (restarted (config c) conn log) (List.filter (has_consumer xs) pre) ls)
    (λ _ _ _ c' _, ∃ ls, c' = set_loops (loops c ++ (Some <$> ls)) c))|].
  - exists []. rewrite app_nil_r. split; [by destruct c|]. constructor.
  - intros pre sub rest c1 n _ (ls & -> & Hls). unfold restart_subscription. go_run. cbn [consumers set_loops]. rewrite Hm.
    rewrite List.filter_app. cbn [List.filter].
    destruct (has_consumer xs sub) eqn:Hin; [apply bool_decide_eq_true_1 in Hin|apply bool_decide_eq_false_1 in Hin].
    + destruct (Hall _ Hin) as (ch & -> & _). destruct (consumer_settings_Done _ _ (consumerName sub) Hxs) as (a & p & Hset).
      eapply ensures_on_err; [by apply (startDispatchLoop_spec _ _ _ _ _ a p)| |].
      * intros e c2 n2 (-> & _). go_run. by exists ls.
      * intros c2 n2 (conn' & ch' & dl & Hc' & -> & ->). cbn in Hc'. rewrite Hconn in Hc'. injection Hc' as <-. go_run.
        exists (ls ++ [mkLoop Background ch' dl (handler sub) a]). cbn [loops set_loops]. rewrite fmap_app, <- app_assoc. split; [done|].
        apply Forall2_app; [by apply (all_restarted_app _ _ [])|]. constructor; [|constructor]. split; [done|]. split; [done|].
        exists p. split; [done|]. by exists n, [].
    + rewrite (Hnone _ Hin), lookup_empty. go_run. exists ls. by rewrite !app_nil_r.
  - intros [e|] c' n.
    + intros (_ & _ & _ & _ & ls & ->). by exists ls.
    + intros (ls & -> & Hls). by exists ls.
Qed.

(** What a successful reconnect leaves behind. *)
Definition rebuilt (ps : list Producer) (xs : list Consumer) (c : RabbitMQClient) (conn : Connection) (c' : RabbitMQClient) (log : list entry) : Prop :=
  connection c' = Some conn ∧ same_identity c c' ∧ subscriptions c' = subscriptions c ∧
  (∀ name, is_Some (producers c' !! name) ↔ name ∈ p_Name <$> ps) ∧
  (∀ name, is_Some (consumers c' !! name) ↔ name ∈ c_Name <$> xs) ∧
  map_Forall (λ _ v, ∃ ch, v = Some ch ∧ opened_on conn log ch) (producers c') ∧
  map_Forall (λ _ v, ∃ ch, v = Some ch ∧ opened_on conn log ch) (consumers c') ∧
  ∃ ls, loops c' = loops c ++ (Some <$> ls) ∧ Forall2 (restarted (config c) conn log) (List.filter (has_consumer xs) (subscriptions c)) ls.

Lemma rebuilt_app ps xs c conn c' l1 log l2 : rebuilt ps xs c conn c' log → rebuilt ps xs c conn c' (l1 ++ log ++ l2).
Proof.
  assert (∀ m : gmap string (option Channel), map_Forall (λ _ v, ∃ ch, v = Some ch ∧ opened_on conn log ch) m →
    map_Forall (λ _ v, ∃ ch, v = Some ch ∧ opened_on conn (l1 ++ log ++ l2) ch) m) as Hmono.
  { intros m Hm name v Hv. destruct (Hm name v Hv) as (ch & -> & Hch). exists ch. rewrite !opened_on_app. auto. }
  intros (? & ? & ? & ? & ? & Hp & Hc & ls & ? & Hls). do 5 (split; [done|]). split; [by apply Hmono|]. split; [by apply Hmono|].
  exists ls. split; [done|]. by apply all_restarted_app.
Qed.

Lemma all_registered_exactly conn names m log :
  all_registered conn names ∅ m log →
  (∀ name, is_Some (m !! name) ↔ name ∈ names) ∧ map_Forall (λ _ v, ∃ ch, v = Some ch ∧ opened_on conn log ch) m.
Proof.
  intros [Hall Hnone]. assert (∀ name, is_Some (m !! name) ↔ name ∈ names) as Hdom.
  { intros name. split.
    - intros [v Hv]. destruct (decide (name ∈ names)) as [|Hn]; [done|]. by rewrite (Hnone _ Hn), lookup_empty in Hv.
    - intros Hin. destruct (Hall _ Hin) as (ch & -> & _). done. }
  split; [done|]. intros name v Hv. destruct (Hall name) as (ch & Hch & ?); [apply Hdom; by exists v|]. simplify_eq. by exists ch.
Qed.

Lemma rebuild_spec c ps xs conn :
  GetEnabledProducers (config c) = Done ps → GetEnabledConsumers (config c) = Done xs →
  ensures (set_connection (Some conn) c) (rebuildAfterReconnect : LM _) (λ r c' log,
    connectionManager c' = connectionManager c ∧ connection c' = Some conn ∧ (r = None → rebuilt ps xs c conn c' log)).
Proof.
  intros Hps Hxs. unfold rebuildAfterReconnect. go_run.
  set (c0 := set_consumers ∅ (set_producers ∅ (set_connection (Some conn) c))).
  assert (connection c0 = Some conn) as Hconn by done.
  eapply ensures_on_err; [by apply (initializeProducers_spec c0 conn ps)| |].
  { intros e c1 n2 (mp & -> & _). by go_run. }
  intros c1 n2 (mp & -> & Hmp). specialize (Hmp eq_refl).
  eapply ensures_on_err; [by apply (initializeConsumers_spec (set_producers mp c0) conn xs)| |].
  { intros e c1 n3 (mc & -> & _). by go_run. }
  intros c1 n3 (mc & -> & Hmc). specialize (Hmc eq_refl). go_run.
  eapply ensures_mono; [by eapply (restart_all _ xs mc conn)|].
  intros r c2 n4 (ls & -> & Hls). do 2 (split; [done|]). intros ->. specialize (Hls eq_refl).
  destruct (all_registered_exactly _ _ _ _ Hmp) as [? Hp], (all_registered_exactly _ _ _ _ Hmc) as [? Hc].
  do 5 (split; [done|]). split; [|split].
  - intros name v Hv. destruct (Hp name v Hv) as (ch & -> & ?). exists ch. rewrite !opened_on_app. auto.
  - intros name v Hv. destruct (Hc name v Hv) as (ch & -> & ?). exists ch. rewrite !opened_on_app. auto.
  - exists ls. split; [done|]. rewrite (app_assoc n2), <- (app_nil_r n4). by apply all_restarted_app.
Qed.

Definition dials (log : list entry) : list Connection := log ≫= dialed.
Definition conn_closes (log : list entry) : list Connection := log ≫= closed_connection.
Definition dial_attempts (log : list entry) : list string := log ≫= dial_attempt.

(** Apart from its dial, a reconnect neither opens nor closes a connection. *)
Definition no_connection (e : entry) : Prop := closed_connection e = [] ∧ dialed e = [] ∧ dial_attempt e = [].

Lemma no_connection_log log : Forall no_connection log → dials log = [] ∧ conn_closes log = [] ∧ dial_attempts log = [].
Proof.
  induction 1 as [|e log (H1 & H2 & H3) _ (IH1 & IH2 & IH3)]; [done|]. unfold dials, conn_closes, dial_attempts. cbn.
  by rewrite H1, H2, H3.
Qed.

Lemma createProducer_emits p : emits no_connection (createProducer p : LM _).
Proof. unfold createProducer, connection_Channel, setup_producer. go_emits. Qed.

Lemma createConsumer_emits x : emits no_connection (createConsumer x : LM _).
Proof. unfold createConsumer, connection_Channel, setup_consumer. go_emits. Qed.

Lemma startDispatchLoop_emits ctx name q h : emits no_connection (startDispatchLoop ctx name q h : LM _).
Proof. unfold startDispatchLoop, conn_IsClosed. go_emits. Qed.

Lemma rebuild_emits : emits no_connection (rebuildAfterReconnect : LM _).
Proof.
  unfold rebuildAfterReconnect, initializeProducers, initializeConsumers, restart_subscription.
  go_emits; auto using createProducer_emits, createConsumer_emits, startDispatchLoop_emits.
Qed.

(** A reconnect: what it returns, and which connections it opened and closed. *)
Definition reconnected (ps : list Producer) (xs : list Consumer) (c : RabbitMQClient)
    (r : Connection + error) (c' : RabbitMQClient) (log : list entry) : Prop :=
  connectionManager c' = connectionManager c ∧ conn_closes log = [] ∧ length (dial_attempts log) ≤ 1 ∧
  match dials log with
  | [] => c' = c ∧ ∃ e, r = inr e
  | conn :: more => more = [] ∧ connection c' = Some conn ∧
      match r with inl conn' => conn' = conn ∧ rebuilt ps xs c conn c' log | inr _ => True end
  end.

Lemma call_reconnect_spec c ps xs fn :
  GetEnabledProducers (config c) = Done ps → GetEnabledConsumers (config c) = Done xs →
  ensures c (call_reconnect fn : LM _) (reconnected ps xs c).
Proof.
  intros Hps Hxs. unfold call_reconnect, reconnected. eapply ensures_bind; [apply dial_spec|]. intros r c1 n1 [-> Hd].
  assert (conn_closes n1 = [] ∧ length (dial_attempts n1) ≤ 1 ∧ dials n1 = match r with inl conn => [conn] | inr _ => [] end)
    as (Hc1 & Ha1 & Hd1).
  { unfold dialled in Hd. destruct (Urls (config c)); [destruct Hd as [-> ->]; cbn; split_and!; (done || lia)|].
    destruct Hd as [(_ & -> & e & ->)|(_ & [] & -> & ->)]; cbn; split_and!; (done || lia). }
  destruct r as [conn|e]; go_run; [|rewrite app_nil_r, Hc1, Hd1; eauto 10].
  eapply ensures_bind; [apply (ensures_emits no_connection); [apply rebuild_emits|by apply (rebuild_spec c ps xs)]|].
  intros r c2 n2 [(Hm & Hconn & Hr) (Hd2 & Hc2 & Ha2)%no_connection_log].
  assert (conn_closes (n1 ++ n2) = [] ∧ length (dial_attempts (n1 ++ n2)) ≤ 1 ∧ dials (n1 ++ n2) = [conn]) as (Hcl & Hal & Hdl).
  { unfold conn_closes, dials, dial_attempts in *. rewrite !bind_app, Hc1, Hd1, Hc2, Hd2, Ha2, !app_nil_r. done. }
  destruct r as [e|]; go_run; rewrite app_nil_r, Hcl, Hdl; [done|]. specialize (Hr eq_refl).
  do 6 (split; [done|]). rewrite <- (app_nil_r n2). by apply rebuilt_app.
Qed.

(** ** Properties *)

(** C14: what a startup publishes agrees with what it returns.  For a
    configuration without nil entries, startup always returns; on success it has
    published ready and healthy as its last act, the client holds a connection, a
    live channel for every enabled producer and consumer, a connected manager with
    the reconnect callback and a watcher on the connection's close notifications,
    and a health checker that probes the connection; on failure the last thing
    published is not-ready and not-healthy, unless the context was cancelled
    before anything was done.  The configuration, the runtime and the closed flag
    are never changed. *)
Theorem startup_contract c ctx ps xs :
  GetEnabledProducers (config c) = Done ps → GetEnabledConsumers (config c) = Done xs →
  ensures c (startupWithContext ctx : LM _) (λ r c' log,
    same_identity c c' ∧
    match r with
    | None => last_contract (rt c) true log ∧ started ps xs c'
    | Some _ => c' = c ∧ Forall ctx_entry log ∨ last_contract (rt c) false log
    end).
Proof. apply startup_spec. Qed.

(** C33: [CheckHealth] is read-only, opens nothing, and returns nil exactly when
    the connection exists and reports itself open, the manager is connected, the
    health checker (if any) is healthy, and no registered channel is nil. *)
Theorem CheckHealth_exact c :
  ensures c (CheckHealth : LM _) (λ r c' log, c' = c ∧ (r = None ↔ healthy_client c log) ∧ opens log = [] ∧ closes log = []).
Proof. apply CheckHealth_spec. Qed.

(** C13: a shutdown always terminates and releases everything once.  Whatever the
    dispatch goroutines do first, once they have taken the closed channel the
    shutdown returns; unless it was cancelled before it began, it has withdrawn
    readiness and published nothing else, stopped the helpers, closed the channel
    of every dispatch loop and of every registered consumer and producer exactly
    once, emptied the registries, and closed the connection last; the result is
    the error of that last close, in which case the connection is kept. *)
Theorem cleanup_contract c ctx sched :
  stoppable c →
  ensures c (cleanupWithContext ctx (draining c sched) : LM _) (λ r c' log,
    (ctx ≠ Background ∧ is_Some r ∧ c' = c ∧ Forall ctx_entry log) ∨
    ∃ pre post, log = pre ++ post ∧ Forall ctx_entry pre ∧ cleaned c r c' post).
Proof. apply cleanup_spec. Qed.

(** C34: shutting down twice is harmless: on a client that has been shut down and
    has no connection, a further shutdown returns nil, changes nothing and makes
    no call to the broker. *)
Theorem cleanup_idempotent c :
  shut c → connection c = None →
  ensures c (CleanupTasks [] : LM _) (λ r c' log, r = None ∧ c' = c ∧ List.filter is_network log = []).
Proof.
  intros Hs Hc. unfold CleanupTasks. rewrite cleanupWithContext_parts. go_run.
  eapply ensures_bind; [apply ensures_ctx_Err|]. intros r c1 n0 (-> & Hn0 & Hb). rewrite (Hb eq_refl).
  assert (List.filter is_network n0 = []) as Hnet0 by (by induction Hn0 as [|? ? (id & a & ->)]).
  eapply ensures_bind; [apply publishRuntimeContract_spec|]. intros [] c1 n1 [-> Hpub].
  assert (List.filter is_network n1 = []) as Hnet1.
  { destruct (rt c); [by destruct Hpub as (? & ? & ? & ? & ->)|by subst]. }
  eapply ensures_bind; [by apply signal_stop_again|]. intros [] c1 n2 [-> ->].
  eapply ensures_bind; [by apply drain_again|]. intros [] c1 n3 [-> Hnet3].
  eapply ensures_mono; [apply close_connection_spec|]. rewrite Hc. intros r1 c1 n4 (-> & -> & ->).
  split; [done|]. split; [done|]. by rewrite app_nil_r, !List.filter_app, Hnet0, Hnet1, Hnet3.
Qed.

(** C16: a successful reconnect rebuilds the client on the new connection: the
    registries hold exactly the enabled producers and consumers, each with a
    channel that this reconnect opened on the connection it dialled; one dispatch
    loop is added for every recorded subscription whose consumer is enabled, in
    order, with its handler, on a channel this reconnect opened for it on that
    connection and consumes from the recorded queue, in the consumer's
    acknowledgement mode, and bound to the background context instead of the
    context it was subscribed with; loops that were still running are kept. *)
Theorem reconnect_rebuilds c ps xs :
  GetEnabledProducers (config c) = Done ps → GetEnabledConsumers (config c) = Done xs →
  ensures c (call_reconnect reconnect_closure : LM _) (λ r c' log,
    match r with
    | inl conn => dials log = [conn] ∧ rebuilt ps xs c conn c' log
    | inr _ => True
    end).
Proof.
  intros Hps Hxs. eapply ensures_mono; [by apply (call_reconnect_spec c ps xs)|]. intros r c' log (_ & _ & _ & H).
  destruct r as [conn'|]; [|done]. destruct (dials log) as [|conn more]; [by destruct H as [_ []]|].
  destruct H as (-> & _ & -> & H). done.
Qed.

(** C37: a reconnect replaces the client's connection without closing anything.
    In every environment and from every state it closes no connection; if its dial
    fails the client is unchanged, and if it succeeds the client holds the new
    connection, whether or not the rebuild that follows succeeds: the connection
    held before is dropped as it is, and so is one whose rebuild failed when the
    next attempt dials again. *)
Theorem reconnect_never_closes c ps xs :
  GetEnabledProducers (config c) = Done ps → GetEnabledConsumers (config c) = Done xs →
  ensures c (call_reconnect reconnect_closure : LM _) (λ r c' log,
    conn_closes log = [] ∧
    match dials log with
    | [] => c' = c ∧ ∃ e, r = inr e
    | conn :: more => more = [] ∧ connection c' = Some conn
    end).
Proof.
  intros Hps Hxs. eapply ensures_mono; [by apply (call_reconnect_spec c ps xs)|]. intros r c' log (_ & Hc & _ & H).
  split; [done|]. destruct (dials log); [done|]. by destruct H as (-> & ? & _).
Qed.

(** C36: a subscription that failed is not forgotten: when [SubscribeWith] on a
    registered, enabled consumer returns an error, a later reconnect that succeeds
    starts a dispatch loop for it, on its queue, with its handler and on the
    background context. *)
Theorem reconnect_revives_failed_subscription c ctx name q h ps xs ch :
  GetEnabledProducers (config c) = Done ps → GetEnabledConsumers (config c) = Done xs →
  name ∈ c_Name <$> xs → consumers c !! name = Some (Some ch) → name_ok invalidNameChars q →
  ensures c (e ← SubscribeWith ctx name q h; r ← call_reconnect reconnect_closure; mret (e, r) : LM _) (λ er c' log,
    match er with
    | (Some _, inl conn) => ∃ ls l, loops c' = loops c ++ (Some <$> ls) ∧ l ∈ ls ∧ restarted (config c) conn log (mkSubscription name q h) l
    | _ => True
    end).
Proof.
  intros Hps Hxs Hin Hch Hq. destruct (consumer_settings_Done _ _ name Hxs) as (a & p & Hset).
  unfold SubscribeWith, subscribeWithChannel. apply validateQueue_ok in Hq. rewrite Hq. go_run. rewrite Hch. go_run.
  set (c0 := set_subscriptions (subscriptions c ++ [mkSubscription name q h]) c).
  eapply ensures_bind; [by apply (startDispatchLoop_spec c0 _ _ _ _ a p)|]. intros e c1 n1 He.
  assert (config c1 = config c ∧ subscriptions c1 = subscriptions c ++ [mkSubscription name q h] ∧ (is_Some e → loops c1 = loops c))
    as (Hcfg & Hsubs & Hl).
  { destruct e as [e|]; [destruct He as [-> _]; done|]. destruct He as (conn & ch' & dl & _ & _ & ->). do 2 (split; [done|]). by intros []. }
  clearbody c0. rewrite <- Hcfg in Hps, Hxs.
  eapply ensures_bind; [by apply (call_reconnect_spec c1 ps xs)|]. intros r c2 n2 (_ & _ & _ & H). go_run.
  destruct e as [e|]; [|done]. destruct r as [conn|]; [|done].
  destruct (dials n2) as [|conn' more]; [by destruct H as [_ []]|].
  destruct H as (_ & _ & <- & _ & _ & _ & _ & _ & _ & _ & ls & Hls & Hall). rewrite Hcfg, Hsubs, List.filter_app in Hall.
  apply Forall2_app_inv_l in Hall as (l1 & l2 & _ & Hl2 & ->). cbn in Hl2.
  unfold has_consumer in Hl2. cbn in Hl2. rewrite bool_decide_eq_true_2 in Hl2 by done.
  inversion Hl2 as [|? l ? ? Hr]; subst. exists (l1 ++ l :: l'), l. rewrite Hls, Hl by done. split; [done|].
  split; [set_solver|]. rewrite app_nil_r, <- (app_nil_r n2). by apply restarted_app.
Qed.

(** C35: the closed flag is never cleared.  A client that has been shut down and
    is started again can report success and publish, as its last act, that it is
    ready and healthy; it is not connected nevertheless, and stays closed. *)
Theorem restart_stays_closed c ctx ps xs :
  GetEnabledProducers (config c) = Done ps → GetEnabledConsumers (config c) = Done xs → closed c = true →
  ensures c (r ← startupWithContext ctx; b ← IsConnected; mret (r, b) : LM _) (λ rb c' log,
    snd rb = false ∧ closed c' = true ∧ (fst rb = None → last_contract (rt c) true log ∧ is_Some (connection c'))).
Proof.
  intros Hps Hxs Hcl. eapply ensures_bind; [by apply (startup_spec c ctx ps xs)|]. intros r c1 n1 [(_ & _ & Hid) Hr].
  rewrite Hcl in Hid. unfold IsConnected. go_run. rewrite Hid. go_run. rewrite app_nil_r.
  split; [done|]. split; [done|]. cbn. intros ->. destruct Hr as [Hl [Hconn _]]. done.
Qed.

End lifecycle.

(** ** Witnesses and scenarios on the simulated broker *)

Section scenarios.
Import Sim.
Notation P := (prog RabbitMQClient).

(** A scenario runs programs and lets the world act between them. *)
Notation scenario := (GoM (Sys RabbitMQClient (sim * list entry))).

Definition observe_scenario {A} (w : sim) (m : scenario A) (f : A → RabbitMQClient → sim → list entry → bool) : bool :=
  match m (mkSys NewRabbitMQClient (w, [])) with
  | Done (a, s) => f a (cl s) (fst (world s)) (snd (world s))
  | _ => false
  end.

(** A plugin that is initialized and started. *)
Definition boot : P (option error) := InitializeResources (Some tt) ;; StartupTasks.

(** The broker drops every connection. *)
Definition broker_drops : scenario unit :=
  modify (λ s, mkSys (cl s) (with_conns [] (fst (world s)), snd (world s))).

Definition cancel (id : N) : scenario unit :=
  modify (λ s, mkSys (cl s) (let w := fst (world s) in
    mkSim (now w) (faults w) (id :: cancelled w) (next w) (openConns w) (registry w), snd (world s))).

(** The default client after InitializeResources. *)
Definition sim_ready : RabbitMQClient :=
  match run (InitializeResources (Some tt) : P _) (mkSys NewRabbitMQClient (init [] [])) with Done (_, s) => cl s | _ => NewRabbitMQClient end.

Definition default_producers : list Producer := match GetEnabledProducers (config sim_ready) with Done l => l | _ => [] end.
Definition default_consumers : list Consumer := match GetEnabledConsumers (config sim_ready) with Done l => l | _ => [] end.

Lemma startup_contract_witness :
  ensures sim_ready (startupWithContext (Derived 3)) (λ r c' log,
    same_identity sim_ready c' ∧
    match r with
    | None => last_contract (rt sim_ready) true log ∧ started default_producers default_consumers c'
    | Some _ => c' = sim_ready ∧ Forall ctx_entry log ∨ last_contract (rt sim_ready) false log
    end) ∧
  length default_producers = 1 ∧ length default_consumers = 1 ∧
  observe (startupWithContext (Derived 3)) sim_ready (init [] []) (λ r _ w _,
    bool_decide (r = None) && match registry w !! "rabbitmq.readiness" with Some (ResBool b) => b | _ => false end) = true.
Proof.
  split; [|vm_compute; repeat split; reflexivity].
  exact (startup_contract sim_ready (Derived 3) default_producers default_consumers eq_refl eq_refl).
Defined.

(** A running client with one dispatch loop that receives a delivery while the
    shutdown waits. *)
Definition sim_running : RabbitMQClient := set_loops [Some (mkLoop Background 3 4 ok_handler false)] sim_subscriber.

Definition sim_events : list (nat * loop_event) := [(0, LDelivery (TY := types) 5)].

Lemma cleanup_contract_witness :
  ensures sim_running (cleanupWithContext Background (draining sim_running sim_events)) (λ r c' log,
    (Background ≠ Background ∧ is_Some r ∧ c' = sim_running ∧ Forall ctx_entry log) ∨
    ∃ pre post, log = pre ++ post ∧ Forall ctx_entry pre ∧ cleaned sim_running r c' post) ∧
  observe (cleanupWithContext Background (draining sim_running sim_events)) sim_running (sim_world []) (λ r c' w log,
    bool_decide (r = None) && bool_decide (closes log = [3; 9]) && bool_decide (openConns w = []) && bool_decide (length (settlements log) = 1)) = true.
Proof.
  split; [|vm_compute; reflexivity].
  apply (cleanup_contract sim_running Background sim_events). repeat split; discriminate.
Defined.

Lemma cleanup_idempotent_witness :
  ensures (set_closed true (set_closeChan true (set_closeOnce true NewRabbitMQClient))) (CleanupTasks [])
    (λ r c' log, r = None ∧ c' = set_closed true (set_closeChan true (set_closeOnce true NewRabbitMQClient)) ∧ List.filter is_network log = []).
Proof.
  apply (cleanup_idempotent (set_closed true (set_closeChan true (set_closeOnce true NewRabbitMQClient)))); [|reflexivity].
  repeat split; discriminate.
Defined.

Lemma reconnect_rebuilds_witness :
  ensures sim_ready (call_reconnect reconnect_closure) (λ r c' log,
    match r with
    | inl conn => dials log = [conn] ∧ rebuilt default_producers default_consumers sim_ready conn c' log
    | inr _ => True
    end) ∧
  observe (call_reconnect reconnect_closure) sim_ready (init [] []) (λ r _ _ _,
    match r with inl conn => bool_decide (conn = 0) | inr _ => false end) = true.
Proof.
  split; [|vm_compute; reflexivity].
  exact (reconnect_rebuilds sim_ready default_producers default_consumers eq_refl eq_refl).
Defined.

(** The consequence, in three scenarios: when the rebuild fails after a successful
    dial, the next attempt succeeds with two connections open; a watcher that is
    past its stop check while the client is shut down leaves the closed client
    with an open connection; and ForceReconnect on a live connection leaves two
    connections open and two dispatch loops for one subscription. *)
Lemma reconnect_never_closes_witness :
  ensures sim_ready (call_reconnect reconnect_closure) (λ r c' log,
    conn_closes log = [] ∧
    match dials log with
    | [] => c' = sim_ready ∧ ∃ e, r = inr e
    | conn :: more => more = [] ∧ connection c' = Some conn
    end) ∧
  observe_scenario (init (replicate 8 false ++ [true]) [])
    (run boot ;; broker_drops ;; run (watch_notified Held) ;; a ← run (watch_attempt Held); b ← run (watch_attempt Held); c ← run GetConnection; mret (a, b, c))
    (λ '(a, b, c) _ w _, negb a && b && bool_decide (length (openConns w) = 2) &&
       match c with Some conn => bool_decide (conn ∈ openConns w) | None => false end) = true ∧
  observe_scenario (init [] [])
    (run boot ;; run (watch_notified Held) ;; r ← run (CleanupTasks []); run (watch_attempt Held) ;; c ← run IsConnected; mret (r, c))
    (λ '(r, c) c' w _, bool_decide (r = None) && negb c && bool_decide (length (openConns w) = 1) && closed c' && bool_decide (is_Some (connection c'))) = true ∧
  observe_scenario (init [] [])
    (run boot ;; run (SubscribeWith Background "default-consumer" "lynx.queue" ok_handler) ;; run client_ForceReconnect)
    (λ _ c' w _, bool_decide (length (subscriptions c') = 1) && bool_decide (length (running c') = 2) && bool_decide (length (openConns w) = 2)) = true.
Proof.
  split; [|vm_compute; repeat split; reflexivity].
  exact (reconnect_never_closes sim_ready default_producers default_consumers eq_refl eq_refl).
Defined.

(** The default client with its consumer registered and an open connection. *)
Definition sim_failing : RabbitMQClient := set_connection (Some 0) (set_consumers {[ "default-consumer" := Some 9 ]} sim_ready).

(** The consume call fails; the reconnect that follows starts the loop all the
    same.  Likewise a subscription that ended because its context was cancelled is
    started again, on the background context. *)
Lemma reconnect_revives_failed_subscription_witness :
  ensures sim_failing
    (e ← SubscribeWith (Derived 5) "default-consumer" "lynx.queue" ok_handler; r ← call_reconnect reconnect_closure; mret (e, r) : P _)
    (λ er c' log, match er with
                  | (Some _, inl conn) => ∃ ls l, loops c' = loops sim_failing ++ (Some <$> ls) ∧ l ∈ ls ∧
                      restarted (config sim_failing) conn log (mkSubscription "default-consumer" "lynx.queue" ok_handler) l
                  | _ => True
                  end) ∧
  observe (e ← SubscribeWith (Derived 5) "default-consumer" "lynx.queue" ok_handler; r ← call_reconnect reconnect_closure; mret (e, r) : P _)
    sim_failing (sim_world [false; false; true])
    (λ er c' _ _, match er with (Some _, inl _) => bool_decide (length (running c') = 1) | _ => false end) = true ∧
  observe_scenario (init [] [])
    (run boot ;; run (SubscribeWith (Derived 5) "default-consumer" "lynx.queue" ok_handler) ;; cancel 5 ;; run (loop_step 0 LCtxDone) ;;
     ls ← run (get running); broker_drops ;; run (watch_notified Held) ;; run (watch_attempt Held) ;; mret (length ls))
    (λ n c' _ _, bool_decide (n = 0) && match running c' with [l] => match l_ctx l with Background => true | _ => false end | _ => false end) = true.
Proof.
  split; [|vm_compute; split; reflexivity].
  apply (reconnect_revives_failed_subscription sim_failing (Derived 5) "default-consumer" "lynx.queue" ok_handler
           default_producers default_consumers 9); try reflexivity;
    apply (bool_decide_unpack _); vm_compute; exact I.
Defined.

(** Started, shut down, initialized and started again: success and readiness are
    reported, and yet the client is not connected and a new subscription ends at
    once. *)
Lemma restart_stays_closed_witness :
  ensures (set_closed true sim_ready) (r ← startupWithContext Background; b ← IsConnected; mret (r, b) : P _) (λ rb c' log,
    snd rb = false ∧ closed c' = true ∧
    (fst rb = None → last_contract (rt sim_ready) true log ∧ is_Some (connection c'))) ∧
  observe_scenario (init [] [])
    (run boot ;; run (CleanupTasks []) ;; r ← run boot;
     e ← run (SubscribeWith Background "default-consumer" "lynx.queue" ok_handler);
     c ← run IsConnected; run (loop_step 0 LCloseChan) ;; mret (r, e, c))
    (λ '(r, e, c) c' w _, bool_decide (r = None) && bool_decide (e = None) && negb c &&
       match registry w !! "rabbitmq.readiness" with Some (ResBool b) => b | _ => false end &&
       bool_decide (length (running c') = 0)) = true.
Proof.
  split; [|vm_compute; reflexivity].
  exact (restart_stays_closed (set_closed true sim_ready) Background default_producers default_consumers eq_refl eq_refl eq_refl).
Defined.

(** Shutting down a client whose connection was already closed by the broker
    returns that connection's error, every time. *)
Theorem cleanup_of_dropped_connection_fails :
  observe_scenario (init [] [])
    (run boot ;; broker_drops ;; a ← run (CleanupTasks []); b ← run (CleanupTasks []); mret (a, b))
    (λ '(a, b) c' _ _, bool_decide (is_Some a) && bool_decide (is_Some b) && bool_decide (is_Some (connection c'))) = true.
Proof. vm_compute. reflexivity. Qed.

End scenarios.
