(* ===== verification/ClientInvariant.v ===== *)
(** * The invariant of the client, under interference (src/client.go, src/health.go)

    [rsafe c m Q] is a judgment on programs that other goroutines may interrupt
    between any two critical sections.  It says that a goroutine that last saw the
    client as [c] and is about to run [m] does not panic, keeps the invariant
    [consistent] and its guarantee at each of its steps, blocks only where it may,
    and ends in [Q]; all provided that the others keep the invariant and change the
    client only as [rely] allows.  With [rely] equality it speaks of a program that
    runs alone, with a weaker [rely] of any interleaving; each operation is proved
    once for both.

    What goroutines rely on is that some things only grow ([grows]): a manager or a
    checker that is there stays, also one that was replaced, a closed channel stays
    closed, and, as long as nobody shuts the client down, a connection stays. *)

From S2P Require Import Prelude Errors Constants Utils Config Metrics HealthChecker ConnectionManager Env Program NetUrl Sim Retry Client Logic ClientSetup ClientMessaging ClientLifecycle.

(** ** The invariant and the guarantee *)

Section invariant.
Context `{TY : Types}.
Implicit Types c : RabbitMQClient.

Record consistent c : Prop := mkInv {
  inv_guard : closeChan c = closeOnce c;
  inv_checker h : healthChecker c = Some h → HC.stopChan h = HC.stopOnce h;
  inv_health_loop : HealthLoop Held ∈ goroutines c → is_Some (healthChecker c);
  inv_watcher n : Watcher Held n ∈ goroutines c → is_Some (connectionManager c);
  inv_former_loop k : HealthLoop (Replaced k) ∈ goroutines c → is_Some (formerCheckers c !! k);
  inv_former_watcher k n : Watcher (Replaced k) n ∈ goroutines c → is_Some (formerManagers c !! k);
  inv_producers : map_Forall (λ _, is_Some) (producers c);
  inv_consumers : map_Forall (λ _, is_Some) (consumers c);
  inv_config_producers : Forall is_Some (Producers (config c));
  inv_config_consumers : Forall is_Some (Consumers (config c));
}.

(** [keep]: does a connection stay?  [still]: is no dispatch loop started?  In any
    case the count of subscriptionWG does not come to zero unnoticed. *)
Record grows (keep still : Prop) c c' : Prop := mkGrows {
  grow_manager : is_Some (connectionManager c) → is_Some (connectionManager c');
  grow_checker : is_Some (healthChecker c) → is_Some (healthChecker c');
  grow_managers k : is_Some (formerManagers c !! k) → is_Some (formerManagers c' !! k);
  grow_checkers k : is_Some (formerCheckers c !! k) → is_Some (formerCheckers c' !! k);
  grow_closed : closeChan c = true → closeChan c' = true;
  grow_urls : Urls (config c) ≠ [] → Urls (config c') ≠ [];
  grow_connection : keep → is_Some (connection c) → is_Some (connection c');
  grow_wakes : wakes c c';
  grow_still : still → running c = [] ∨ subscriptionWG c < subscriptionWG c' → running c' = [];
}.

#[global] Instance grows_preorder keep still : PreOrder (grows keep still).
Proof.
  split; [by split; try done; intros _ [|?]; [|lia]|]. intros c1 c2 c3 [] []. split; auto; [by etransitivity|].
  intros Hs [H|H]; [auto|]. destruct (decide (subscriptionWG c1 < subscriptionWG c2)); [auto|].
  apply grow_still1; [done|]. right. lia.
Qed.

Lemma grows_weaken (keep keep' still still' : Prop) c c' :
  (keep' → keep) → (still' → still) → grows keep still c c' → grows keep' still' c c'.
Proof. intros ? ? []. split; auto. Qed.

(** Assignments that touch neither the loops nor their count. *)
Lemma grows_aside (keep still : Prop) c c' :
  loops c' = loops c → subscriptionWG c' = subscriptionWG c →
  (is_Some (connectionManager c) → is_Some (connectionManager c')) →
  (is_Some (healthChecker c) → is_Some (healthChecker c')) →
  (∀ k, is_Some (formerManagers c !! k) → is_Some (formerManagers c' !! k)) →
  (∀ k, is_Some (formerCheckers c !! k) → is_Some (formerCheckers c' !! k)) → (closeChan c = true → closeChan c' = true) →
  (Urls (config c) ≠ [] → Urls (config c') ≠ []) → (keep → is_Some (connection c) → is_Some (connection c')) →
  grows keep still c c'.
Proof.
  intros Hl Hw. assert (running c' = running c) as Hr by (unfold running; by rewrite Hl).
  intros. split; auto.
  - split; [lia|]. by rewrite Hr.
  - intros _ [?|?]; [by rewrite Hr|lia].
Qed.

Lemma fresh_consistent : consistent NewRabbitMQClient.
Proof.
  split; cbn; try done; try solve [intros; exfalso; by eapply not_elem_of_nil].
  - repeat constructor; by eexists.
  - repeat constructor; by eexists.
Qed.

(** A goroutine has what it was started on. *)
Lemma goroutine_checker h c : consistent c → HealthLoop h ∈ goroutines c → is_Some (checker_of h c).
Proof. intros Hi. destruct h; [apply (inv_health_loop _ Hi)|apply (inv_former_loop _ Hi)]. Qed.

Lemma goroutine_manager h n c : consistent c → Watcher h n ∈ goroutines c → is_Some (manager_of h c).
Proof. intros Hi. destruct h; [apply (inv_watcher _ Hi)|apply (inv_former_watcher _ Hi)]. Qed.

(** *** Assignments that keep both *)

Definition keeps keep still (f : RabbitMQClient → RabbitMQClient) c : Prop := consistent c → consistent (f c) ∧ grows keep still c (f c).

Ltac keeps_fields :=
  let H := fresh in intros H; destruct H; split; [split|apply grows_aside]; cbn; auto; try done.

Lemma keep_rt keep still v c : keeps keep still (set_rt v) c.
Proof. keeps_fields. Qed.

Lemma keep_metrics keep still f c : keeps keep still (λ c, set_metrics (f <$> metrics c) c) c.
Proof. keeps_fields. Qed.

Lemma keep_subscriptions keep still s c : keeps keep still (λ c, set_subscriptions (subscriptions c ++ s) c) c.
Proof. keeps_fields. Qed.

Lemma running_add l c : running (subscriptionWG_Add l c) ≠ [].
Proof. unfold running. cbn. rewrite omap_app. cbn. by destruct (omap id (loops c)). Qed.

Lemma keep_new_loop keep (still : Prop) l c : (still → False) → keeps keep still (subscriptionWG_Add l) c.
Proof.
  intros Hs H. destruct H. split; split; cbn; auto; try done.
  split; [done|]. intros _ Hr. by destruct (running_add l c).
Qed.

Lemma running_return i c : running c = [] → running (set_loops (<[i := None]> (loops c)) c) = [].
Proof.
  unfold running. cbn. generalize (loops c). intros ls. revert i. induction ls as [|[l|] ls IH]; intros [|i] Hr; try done.
  by apply IH.
Qed.

Lemma keep_loop keep still i c : keeps keep still (subscriptionWG_Done i) c.
Proof.
  intros H. pose proof (Done_wakes i c) as Hw. revert Hw. unfold subscriptionWG_Done.
  destruct (running (set_loops _ c)) eqn:Hr; intros Hw; (split; [by destruct H|]); split; try done; intros _ [Hc|Hlt]; cbn in *; try lia; try done.
  apply (running_return i) in Hc. unfold running in *. cbn in *. congruence.
Qed.

Lemma keep_closed keep still v c : keeps keep still (set_closed v) c.
Proof. keeps_fields. Qed.

Lemma keep_pool keep still f c : keeps keep still (λ c, set_goroutinePool (f <$> goroutinePool c) c) c.
Proof. keeps_fields. Qed.

Lemma keep_new_pool keep still v c : keeps keep still (set_goroutinePool v) c.
Proof. keeps_fields. Qed.

Lemma keep_retry keep still v c : keeps keep still (set_retryHandler v) c.
Proof. keeps_fields. Qed.

Lemma keep_connected keep still conn c : keeps keep still (set_connection (Some conn)) c.
Proof. keeps_fields. Qed.

Lemma keep_disconnected (keep still : Prop) c : (keep → False) → keeps keep still (set_connection None) c.
Proof. intros Hk. keeps_fields. Qed.

Lemma keep_config keep still cfg c :
  Urls cfg ≠ [] → Forall is_Some (Producers cfg) → Forall is_Some (Consumers cfg) → keeps keep still (set_config cfg) c.
Proof. intros ? ? ?. keeps_fields. Qed.

Lemma keep_manager keep still m c : keeps keep still (set_connectionManager (Some m)) c.
Proof. keeps_fields. Qed.

Lemma keep_checker keep still h c : HC.stopChan h = HC.stopOnce h → keeps keep still (set_healthChecker (Some h)) c.
Proof. intros Hs. keeps_fields. intros ? [= <-]. done. Qed.

Lemma keep_no_producers keep still c : keeps keep still (set_producers ∅) c.
Proof. keeps_fields. Qed.

Lemma keep_no_consumers keep still c : keeps keep still (set_consumers ∅) c.
Proof. keeps_fields. Qed.

Lemma keep_producer keep still name ch c : keeps keep still (λ c, set_producers (<[name := Some ch]> (producers c)) c) c.
Proof. keeps_fields. apply map_Forall_insert_2; [by eexists|done]. Qed.

Lemma keep_consumer keep still name ch c : keeps keep still (λ c, set_consumers (<[name := Some ch]> (consumers c)) c) c.
Proof. keeps_fields. apply map_Forall_insert_2; [by eexists|done]. Qed.

(** The list of goroutines with one more. *)
Lemma keep_goroutine keep still g c :
  (g = HealthLoop Held → is_Some (healthChecker c)) → (∀ n, g = Watcher Held n → is_Some (connectionManager c)) →
  (∀ k, g = HealthLoop (Replaced k) → is_Some (formerCheckers c !! k)) →
  (∀ k n, g = Watcher (Replaced k) n → is_Some (formerManagers c !! k)) →
  keeps keep still (λ c, set_goroutines (goroutines c ++ [g]) c) c.
Proof.
  intros H1 H2 H3 H4. keeps_fields.
  - intros [?|Hg%list_elem_of_singleton]%elem_of_app; auto.
  - intros n [?|Hg%list_elem_of_singleton]%elem_of_app; eauto.
  - intros k [?|Hg%list_elem_of_singleton]%elem_of_app; eauto.
  - intros k n [?|Hg%list_elem_of_singleton]%elem_of_app; eauto.
Qed.

Lemma keep_health_loop keep still c : is_Some (healthChecker c) → keeps keep still (λ c, set_goroutines (goroutines c ++ [HealthLoop Held]) c) c.
Proof. intros Hs. by apply keep_goroutine. Qed.

Lemma keep_watcher keep still h n c : is_Some (manager_of h c) → keeps keep still (λ c, set_goroutines (goroutines c ++ [Watcher h n]) c) c.
Proof. intros Hs. apply keep_goroutine; try done; [by intros ? [= ->]|by intros ? ? [= ->]]. Qed.

(** A replaced checker or manager is kept for the goroutines that have it. *)
Lemma is_Some_snoc {A} (l : list A) x k : is_Some (l !! k) → is_Some ((l ++ [x]) !! k).
Proof. rewrite !lookup_lt_is_Some, length_app. lia. Qed.

Lemma keep_assign_checker keep still h c : HC.stopChan h = HC.stopOnce h → keeps keep still (assign_healthChecker h) c.
Proof.
  intros Hs Hi. unfold assign_healthChecker. destruct (healthChecker c) as [old|] eqn:Hold; [|by apply keep_checker].
  destruct Hi. split; [split|apply grows_aside]; cbn; auto using is_Some_snoc; try done.
  - by intros ? [= <-].
  - intros n ([[|]|[|] ?] & Hg & ?)%list_elem_of_fmap; cbn in Hg; simplify_eq; eauto.
  - intros k ([[|j]|[|] ?] & Hg & ?)%list_elem_of_fmap; cbn in Hg; simplify_eq; [|by apply is_Some_snoc; eauto].
    rewrite lookup_app_r, Nat.sub_diag by done. by eexists.
  - intros k n ([[|j]|[|] ?] & Hg & ?)%list_elem_of_fmap; cbn in Hg; simplify_eq; eauto.
Qed.

Lemma keep_assign_manager keep still m c : keeps keep still (assign_connectionManager m) c.
Proof.
  intros Hi. unfold assign_connectionManager. destruct (connectionManager c) as [old|] eqn:Hold; [|by apply keep_manager].
  destruct Hi. split; [split|apply grows_aside]; cbn; auto using is_Some_snoc; try done.
  - intros ([[|]|[|] ?] & Hg & ?)%list_elem_of_fmap; cbn in Hg; simplify_eq; eauto.
  - intros k ([[|j]|[|] ?] & Hg & ?)%list_elem_of_fmap; cbn in Hg; simplify_eq; eauto.
  - intros k n ([[|j]|[|j] ?] & Hg & ?)%list_elem_of_fmap; cbn in Hg; simplify_eq; [|by apply is_Some_snoc; eauto].
    rewrite lookup_app_r, Nat.sub_diag by done. by eexists.
Qed.

Lemma keep_former_checker keep still k h c :
  keeps keep still (λ c, set_formerCheckers (<[k := h]> (formerCheckers c)) c) c.
Proof.
  keeps_fields; intros j Hj; rewrite lookup_lt_is_Some, length_insert, <- lookup_lt_is_Some; auto.
Qed.

Lemma keep_former_manager keep still k m c :
  keeps keep still (λ c, set_formerManagers (<[k := m]> (formerManagers c)) c) c.
Proof.
  keeps_fields; intros j; intros; rewrite lookup_lt_is_Some, length_insert, <- lookup_lt_is_Some; eauto.
Qed.

Lemma keep_close_chan keep still c : keeps keep still (λ c, set_closeOnce true (set_closeChan true c)) c.
Proof. keeps_fields. Qed.

End invariant.

Create HintDb keeps discriminated.
#[export] Hint Resolve keep_rt keep_metrics keep_subscriptions keep_new_loop keep_loop keep_closed keep_pool keep_new_pool keep_retry keep_connected
  keep_config keep_manager keep_checker keep_assign_manager keep_no_producers keep_no_consumers keep_producer keep_consumer keep_close_chan : keeps.

(** ** The judgment *)

(** What a goroutine may rely on, whether it must keep a connection, and where it
    may block. *)
Class Setting `{Types} : Type := {
  rely : relation RabbitMQClient;
  relied : Prop;                           (* do the others keep a connection? *)
  guarded : Prop;                          (* must this goroutine keep it? *)
  still : Prop;                            (* does nobody start a dispatch loop? *)
  blockable : RabbitMQClient → Prop;
  rely_grows c c' : rely c c' → grows relied still c c';
}.

Section judgment.
Context `{TY : Types} `{ST : !Setting} `{IP : NetIP}.
Notation P := (prog RabbitMQClient).
Implicit Types c : RabbitMQClient.

Fixpoint rsafe {A} c (m : P A) (Q : A → RabbitMQClient → Prop) : Prop :=
  match m with
  | Ret a => Q a c
  | Sect f k => ∀ c1, rely c c1 → consistent c1 →
      match f c1 with
      | Done (x, c2) => consistent c2 ∧ grows guarded still c1 c2 ∧ rsafe c2 (k x) Q
      | Panicked => False
      | Blocked => blockable c1
      end
  | Call e k => ∀ x, rsafe c (k x) Q
  end.

(** *** Rules, one per construct *)

Lemma rsafe_ret {A} c (a : A) (Q : A → RabbitMQClient → Prop) : Q a c → rsafe c (mret a) Q.
Proof. done. Qed.

Lemma rsafe_mono {A} c (m : P A) (Q Q' : A → RabbitMQClient → Prop) :
  rsafe c m Q → (∀ a c', Q a c' → Q' a c') → rsafe c m Q'.
Proof.
  revert c. induction m as [a|X f k IH|X e k IH]; intros c Hm HQ; cbn in *; [auto| |by eauto].
  intros c1 Hr Hi. specialize (Hm c1 Hr Hi). destruct (f c1) as [[x c2]| |]; [|done..].
  destruct Hm as (? & ? & ?). eauto.
Qed.

Lemma rsafe_bind {A B} c (m : P A) (k : A → P B) (Q1 : A → RabbitMQClient → Prop) Q :
  rsafe c m Q1 → (∀ a c', Q1 a c' → rsafe c' (k a) Q) → rsafe c (m ≫= k) Q.
Proof.
  revert c. induction m as [a|X f j IH|X e j IH]; intros c Hm Hk; cbn in *; [auto| |intros x; by apply IH].
  intros c1 Hr Hi. specialize (Hm c1 Hr Hi). destruct (f c1) as [[x c2]| |]; [|done..].
  destruct Hm as (? & ? & ?). split; [done|]. split; [done|]. by apply IH.
Qed.

Lemma rsafe_bind_assoc {A B D} c (m : P A) (k : A → P B) (j : B → P D) Q :
  rsafe c (m ≫= λ a, k a ≫= j) Q → rsafe c ((m ≫= k) ≫= j) Q.
Proof.
  revert c. induction m as [a|X f i IH|X e i IH]; intros c Hm; cbn in *; [done| |intros x; by apply IH].
  intros c1 Hr Hi. specialize (Hm c1 Hr Hi). destruct (f c1) as [[x c2]| |]; [|done..].
  destruct Hm as (? & ? & ?). split; [done|]. split; [done|]. by apply IH.
Qed.

Lemma rsafe_bind_ret {A B} c (a : A) (k : A → P B) Q : rsafe c (k a) Q → rsafe c (mret a ≫= k) Q.
Proof. done. Qed.

Lemma rsafe_ext {A} c (e : E A) (Q : A → RabbitMQClient → Prop) : (∀ a, Q a c) → rsafe c (ext e) Q.
Proof. done. Qed.

Lemma rsafe_bind_ext {A B} c (e : E A) (k : A → P B) Q : (∀ a, rsafe c (k a) Q) → rsafe c (ext e ≫= k) Q.
Proof. done. Qed.

(** A read sees a state that has grown since. *)
Lemma rsafe_bind_get {A B} c (f : RabbitMQClient → A) (k : A → P B) Q :
  (∀ c1, grows relied still c c1 → consistent c1 → rsafe c1 (k (f c1)) Q) → rsafe c (get f ≫= k) Q.
Proof. intros Hk c1 Hr Hi. cbn. split; [done|]. split; [done|]. apply Hk; [by apply rely_grows|done]. Qed.

Lemma rsafe_bind_put {B} c f (k : unit → P B) Q :
  (∀ c1, grows relied still c c1 → consistent c1 → keeps guarded still f c1 ∧ rsafe (f c1) (k tt) Q) → rsafe c (put f ≫= k) Q.
Proof.
  intros Hk c1 Hr Hi. destruct (Hk c1 (rely_grows _ _ Hr) Hi) as [Hf Hs]. destruct (Hf Hi). done.
Qed.

Lemma rsafe_put c f (Q : unit → RabbitMQClient → Prop) :
  (∀ c1, grows relied still c c1 → consistent c1 → keeps guarded still f c1 ∧ Q tt (f c1)) → rsafe c (put f) Q.
Proof.
  intros Hk c1 Hr Hi. destruct (Hk c1 (rely_grows _ _ Hr) Hi) as [Hf Hs]. destruct (Hf Hi). done.
Qed.

(** A method on the manager, which was there. *)
Lemma rsafe_manager {B} c (f : Manager → outcome (B * Manager)) (Q : B → RabbitMQClient → Prop) :
  is_Some (connectionManager c) →
  (∀ c1 m, grows relied still c c1 → connectionManager c1 = Some m →
     match f m with
     | Done (b, m') => Q b (set_connectionManager (Some m') c1)
     | Panicked => False
     | Blocked => blockable c1
     end) →
  rsafe c (with_pointer f) Q.
Proof.
  intros Hm Hf c1 Hr Hi. destruct (grow_manager _ _ _ _ (rely_grows _ _ Hr) Hm) as [m Hm1].
  specialize (Hf c1 m (rely_grows _ _ Hr) Hm1). cbn. rewrite Hm1. destruct (f m) as [[b m']| |]; [|done..].
  cbn. destruct (keep_manager guarded still m' c1 Hi). done.
Qed.

(** A method on the checker, which keeps its stop channel and its Once in step. *)
Lemma rsafe_checker {B} c (f : Checker → outcome (B * Checker)) (Q : B → RabbitMQClient → Prop) :
  is_Some (healthChecker c) →
  (∀ c1 h, grows relied still c c1 → HC.stopChan h = HC.stopOnce h →
     match f h with
     | Done (b, h') => HC.stopChan h' = HC.stopOnce h' ∧ Q b (set_healthChecker (Some h') c1)
     | Panicked => False
     | Blocked => blockable c1
     end) →
  rsafe c (with_pointer f) Q.
Proof.
  intros Hh Hf c1 Hr Hi. destruct (grow_checker _ _ _ _ (rely_grows _ _ Hr) Hh) as [h Hh1].
  specialize (Hf c1 h (rely_grows _ _ Hr) (inv_checker _ Hi h Hh1)). cbn. rewrite Hh1.
  destruct (f h) as [[b h']| |]; [|done..]. destruct Hf as [Hs HQ]. cbn. destruct (keep_checker guarded still h' c1 Hs Hi). done.
Qed.

(** Loops preserve what each iteration preserves. *)
Lemma rsafe_for_each {A X} (J : RabbitMQClient → Prop) (body : A → P (option X)) l c :
  J c → (∀ x c', x ∈ l → J c' → rsafe c' (body x) (λ _, J)) → rsafe c (for_each body l) (λ _, J).
Proof.
  revert c. induction l as [|x l IH]; intros c HI Hb; [done|]. cbn [for_each].
  eapply rsafe_bind; [apply (Hb x); [left|done]|]. intros [e|] c' HI'; [done|].
  apply IH; [done|]. intros y c2 Hy. apply Hb. by right.
Qed.

Lemma rsafe_for_all {A} (J : RabbitMQClient → Prop) (body : A → P unit) l c :
  J c → (∀ x c', x ∈ l → J c' → rsafe c' (body x) (λ _, J)) → rsafe c (for_all body l) (λ _, J).
Proof.
  revert c. induction l as [|x l IH]; intros c HI Hb; [done|]. cbn [for_all].
  eapply rsafe_bind; [apply (Hb x); [left|done]|]. intros [] c' HI'.
  apply IH; [done|]. intros y c2 Hy. apply Hb. by right.
Qed.

Definition anything {A} : A → RabbitMQClient → Prop := λ _ _, True.

Lemma rsafe_anything {A} c (m : P A) Q : rsafe c m Q → rsafe c m anything.
Proof. intros H. by eapply rsafe_mono. Qed.

(** Calls that do not touch the client. *)
Fixpoint calls_only {A} (m : P A) : Prop :=
  match m with
  | Ret _ => True
  | Sect f k => (∀ c, ∃ x, f c = Done (x, c)) ∧ ∀ x, calls_only (k x)
  | Call e k => ∀ x, calls_only (k x)
  end.

Lemma rsafe_calls {A} c (m : P A) (J : RabbitMQClient → Prop) :
  calls_only m → J c → (∀ c1 c2, J c1 → grows relied still c1 c2 → J c2) → rsafe c m (λ _, J).
Proof.
  revert c. induction m as [a|X f k IH|X e k IH]; intros c Hm HJ Hst; cbn in *; [done| |by auto].
  destruct Hm as [Hf Hk]. intros c1 Hr Hi. destruct (Hf c1) as [x ->]. split; [done|]. split; [done|].
  apply IH; [done|by eapply Hst, rely_grows|done].
Qed.

Lemma calls_bind {A B} (m : P A) (k : A → P B) : calls_only m → (∀ a, calls_only (k a)) → calls_only (m ≫= k).
Proof.
  intros Hm Hk. induction m as [a|X f j IH|X e j IH]; cbn in *; [done| |by auto]. destruct Hm. split; auto.
Qed.

Lemma calls_get {A} (f : RabbitMQClient → A) : calls_only (get f).
Proof. split; [|done]. intros c. by eexists. Qed.

Lemma calls_for_each {A X} (body : A → P (option X)) l : (∀ x, calls_only (body x)) → calls_only (for_each body l).
Proof. intros Hb. induction l as [|x l IH]; [done|]. apply calls_bind; [done|]. by intros [e|]. Qed.

Lemma calls_for_all {A} (body : A → P unit) l : (∀ x, calls_only (body x)) → calls_only (for_all body l).
Proof. intros Hb. induction l as [|x l IH]; [done|]. by apply calls_bind. Qed.

Lemma calls_ctx_Err ctx : calls_only (ctx_Err ctx).
Proof. by destruct ctx. Qed.

End judgment.

(** Prove [calls_only] by following the program. *)
Ltac go_calls :=
  repeat (cbn beta iota; lazymatch goal with
  | |- calls_only (mret _) => exact I
  | |- calls_only (ext _) => intros ?; exact I
  | |- calls_only (get _) => apply calls_get
  | |- calls_only (ctx_Err _) => apply calls_ctx_Err
  | |- calls_only (_ ≫= _) => apply calls_bind; [|intros ?]
  | |- calls_only (on_err _ _ _) => unfold on_err
  | |- calls_only (conn_IsClosed _) => unfold conn_IsClosed
  | |- calls_only (for_each _ _) => apply calls_for_each; intros ?
  | |- calls_only (for_all _ _) => apply calls_for_all; intros ?
  | |- calls_only (match ?x with _ => _ end) => destruct x
  end); try done.

(** Execute the next statements under interference. *)
Ltac rsafe_step :=
  lazymatch goal with
  | |- rsafe _ (mret _) _ => apply rsafe_ret
  | |- rsafe _ (mret _ ≫= _) _ => apply rsafe_bind_ret
  | |- rsafe _ (ext _) _ => apply rsafe_ext; intros ?
  | |- rsafe _ (ext _ ≫= _) _ => apply rsafe_bind_ext; intros ?
  | |- rsafe _ (get _ ≫= _) _ => apply rsafe_bind_get; intros ?c ?Hgrow ?Hinv
  | |- rsafe _ (put _) _ => apply rsafe_put; intros ?c ?Hgrow ?Hinv; split; [solve [auto with keeps]|]
  | |- rsafe _ (put _ ≫= _) _ => apply rsafe_bind_put; intros ?c ?Hgrow ?Hinv; split; [solve [auto with keeps]|]
  | |- rsafe _ ((_ ≫= _) ≫= _) _ => apply rsafe_bind_assoc
  | |- rsafe _ (on_err _ _ _) _ => unfold on_err
  | |- rsafe _ (conn_IsClosed _) _ => unfold conn_IsClosed
  | |- rsafe _ (conn_IsClosed _ ≫= _) _ => unfold conn_IsClosed
  | |- rsafe _ (match ?x with _ => _ end) _ => destruct x eqn:?
  | |- rsafe _ (match ?x with _ => _ end ≫= _) _ => destruct x eqn:?
  end; cbn beta iota.

Ltac rsafe_run := cbn beta iota; repeat rsafe_step.

(** ** The operations *)

Section operations.
Context `{TY : Types} `{ST : !Setting} `{IP : NetIP}.
Notation P := (prog RabbitMQClient).
Implicit Types c : RabbitMQClient.

Lemma normalized_entries cfg r :
  normalizeRabbitMQConfig (Some cfg) = r →
  match r with
  | (Some cfg', None) => Urls cfg' ≠ [] ∧ Forall is_Some (Producers cfg') ∧ Forall is_Some (Consumers cfg')
  | (_, Some _) => True
  | (None, None) => False
  end.
Proof.
  intros <-. destruct (acceptable cfg) eqn:Ha.
  - rewrite normalize_acceptable by done. unfold acceptable in Ha. rewrite !andb_true_iff in Ha.
    destruct Ha as [[_ Hp] Hc]. rewrite forallb_forall in Hp, Hc. cbn.
    split; [unfold fill_urls; by case_bool_decide|].
    split; apply Forall_fmap, Forall_forall; intros x Hx%list_elem_of_In; [specialize (Hp x Hx)|specialize (Hc x Hx)];
      destruct x; cbn; by eauto.
  - apply normalize_unacceptable in Ha as [e He]. destruct (normalizeRabbitMQConfig _) as [? [?|]]; [by destruct o|done].
Qed.

Lemma InitializeResources_rsafe runtime c : rsafe c (InitializeResources runtime : P _) anything.
Proof.
  unfold InitializeResources. unfold on_err. apply rsafe_bind_ext. intros [e|]; [done|].
  rsafe_step. eapply (rsafe_bind _ _ _ anything); [by rsafe_run|]. intros [cfg err] c1 _. cbn beta iota.
  eapply (rsafe_bind _ _ _ anything); [by rsafe_run|]. intros [e|] c2 _; [done|].
  destruct (normalizeRabbitMQConfig (Some cfg)) as [[cfg'|] [e|]] eqn:Hn; try done; apply normalized_entries in Hn; [|done].
  destruct Hn as (Hu & Hp & Hc). apply rsafe_bind_put. intros c3 _ Hi. split; [by apply keep_config|].
  apply rsafe_bind_put. intros c4 _ Hi4. split; [by apply keep_assign_checker|]. by rsafe_run.
Qed.

(** Whether the client has a connection. *)
Definition connected c : Prop := is_Some (connection c).

Lemma connected_grows c c' : relied → grows relied still c c' → connected c → connected c'.
Proof. intros HR Hg. by apply (grow_connection _ _ _ _ Hg). Qed.

(** Carry along what has grown. *)
Ltac track :=
  repeat match goal with
  | HR : relied, Hg : grows relied still ?a ?b |- _ =>
      lazymatch goal with H : connected b |- _ => fail | _ => idtac end;
      assert (connected b) by (apply (connected_grows a b HR Hg); match goal with H : connected _ |- _ => exact H end)
  end;
  try match goal with H : connected _ |- _ => exact H end.

Lemma connection_Channel_rsafe c : relied → connected c → rsafe c (connection_Channel : P _) (λ _, connected).
Proof. intros HR Hc. unfold connection_Channel. rsafe_run; track. unfold connected in *. rewrite Heqo in *. by destruct H. Qed.

Lemma createProducer_rsafe p c : relied → connected c → rsafe c (createProducer p : P _) (λ _, connected).
Proof.
  intros HR Hc. unfold createProducer, setup_producer. destruct (validate_producer p); [done|].
  eapply rsafe_bind; [by apply connection_Channel_rsafe|]. intros r c0 H0. cbn beta in H0. rsafe_run; track.
Qed.

Lemma createConsumer_rsafe x c : relied → connected c → rsafe c (createConsumer x : P _) (λ _, connected).
Proof.
  intros HR Hc. unfold createConsumer, setup_consumer. destruct (validate_consumer x); [done|].
  eapply rsafe_bind; [by apply connection_Channel_rsafe|]. intros r c0 H0. cbn beta in H0. rsafe_run; track.
Qed.

Lemma enabled_entries_done {A} (en : A → bool) (l : list (option A)) :
  Forall is_Some l → ∃ xs, enabled_entries en l = Done xs.
Proof.
  induction 1 as [|x l [y ->] _ [xs IH]]; [by eexists|]. cbn. rewrite IH. destruct (en y); by eexists.
Qed.

Lemma consumer_settings_done name (l : list (option Consumer)) :
  Forall is_Some l → ∃ a p, consumer_settings l name = Done (a, p).
Proof.
  induction 1 as [|x l [y ->] _ IH]; [by eexists _, _|]. cbn. case_bool_decide; [by eexists _, _|done].
Qed.

Lemma initializeProducers_rsafe c : relied → connected c → rsafe c (initializeProducers : P _) (λ _, connected).
Proof.
  intros HR Hc. unfold initializeProducers, GetEnabledProducers. rsafe_step.
  destruct (enabled_entries_done p_Enabled (Producers (config c0))) as [ps ->]; [apply Hinv|].
  cbn [from_outcome]. rsafe_step. apply (rsafe_for_each connected); [track|]. intros p c' _ Hc'.
  unfold on_err. eapply rsafe_bind; [by apply createProducer_rsafe|]. by intros [e|] c2.
Qed.

Lemma initializeConsumers_rsafe c : relied → connected c → rsafe c (initializeConsumers : P _) (λ _, connected).
Proof.
  intros HR Hc. unfold initializeConsumers, GetEnabledConsumers. rsafe_step.
  destruct (enabled_entries_done c_Enabled (Consumers (config c0))) as [xs ->]; [apply Hinv|].
  cbn [from_outcome]. rsafe_step. apply (rsafe_for_each connected); [track|]. intros x c' _ Hc'.
  unfold on_err. eapply rsafe_bind; [by apply createConsumer_rsafe|]. by intros [e|] c2.
Qed.

(** ** Connecting and reconnecting *)

Lemma startDispatchLoop_rsafe ctx name q h c (J : RabbitMQClient → Prop) :
  (still → False) → J c → (∀ c1 c2, J c1 → grows relied still c1 c2 → J c2) → (∀ c1 ls, J c1 → J (set_loops ls c1)) →
  rsafe c (startDispatchLoop ctx name q h : P _) (λ _, J).
Proof.
  intros Hadd HJ Hst Hl. unfold startDispatchLoop. rsafe_step.
  destruct (consumer_settings_done name (Consumers (config c0))) as (a & p & ->); [apply Hinv|].
  cbn [from_outcome]. rsafe_run; eauto 10.
Qed.

Lemma restart_subscription_rsafe sub c : (still → False) → relied → connected c → rsafe c (restart_subscription sub : P _) (λ _, connected).
Proof.
  intros Hadd HR Hc. unfold restart_subscription. rsafe_step. destruct (consumers c0 !! _) as [[ch|]|]; try (rsafe_step; track).
  unfold on_err. eapply rsafe_bind.
  { apply (startDispatchLoop_rsafe _ _ _ _ _ connected); [done|track|intros; by eapply connected_grows|done]. }
  by intros [e|] c'.
Qed.

Lemma rebuild_rsafe c : (still → False) → relied → connected c → rsafe c (rebuildAfterReconnect : P _) (λ _, connected).
Proof.
  intros Hadd HR Hc. unfold rebuildAfterReconnect. do 3 rsafe_step.
  eapply rsafe_bind; [apply initializeProducers_rsafe; [done|track]|]. intros [e|] c2 H2; [done|].
  cbn beta iota. unfold on_err. eapply rsafe_bind; [by apply initializeConsumers_rsafe|]. intros [e|] c3 H3; [done|].
  cbn beta iota. rsafe_step. apply (rsafe_for_each connected); [track|]. intros sub c' _ Hc'. by apply restart_subscription_rsafe.
Qed.

Lemma dial_rsafe c : rsafe c (dial : P _) anything.
Proof. apply (rsafe_calls c _ (λ _, True)); [|done..]. unfold dial. go_calls. Qed.

Lemma call_reconnect_rsafe fn c : (still → False) → relied → rsafe c (call_reconnect fn : P _) anything.
Proof.
  intros Hadd HR. unfold call_reconnect. eapply rsafe_bind; [apply dial_rsafe|]. intros [conn|e] c1 _; [|done].
  rsafe_step. eapply rsafe_bind; [apply rebuild_rsafe; [done..|by eexists]|]. by intros [e|] c3 _.
Qed.

(** What only grows is kept by every program. *)
Lemma rsafe_frame {A} (J : RabbitMQClient → Prop) c (m : P A) Q :
  (∀ c1 c2, J c1 → grows False still c1 c2 → J c2) → J c → rsafe c m Q → rsafe c m (λ a c', Q a c' ∧ J c').
Proof.
  intros Hst. revert c. induction m as [a|X f k IH|X e k IH]; intros c HJ Hm; cbn in *; [done| |by auto].
  intros c1 Hr Hi. specialize (Hm c1 Hr Hi). destruct (f c1) as [[x c2]| |]; [|done..].
  destruct Hm as (? & Hg & ?). split; [done|]. split; [done|]. apply IH; [|done].
  eapply Hst; [|by eapply grows_weaken, Hg]. eapply Hst; [exact HJ|]. by eapply grows_weaken, rely_grows.
Qed.

Definition has_manager c : Prop := is_Some (connectionManager c).

Lemma rsafe_frame_manager {A} c (m : P A) Q : has_manager c → rsafe c m Q → rsafe c m (λ a c', Q a c' ∧ has_manager c').
Proof. apply rsafe_frame. intros c1 c2 H Hg. by apply (grow_manager _ _ _ _ Hg). Qed.

(** A method that always returns, on the checker or the manager of a goroutine. *)
Lemma checker_of_grows keep st h c c' : grows keep st c c' → is_Some (checker_of h c) → is_Some (checker_of h c').
Proof. intros Hg. destruct h; [apply (grow_checker _ _ _ _ Hg)|apply (grow_checkers _ _ _ _ Hg)]. Qed.

Lemma manager_of_grows keep st h c c' : grows keep st c c' → is_Some (manager_of h c) → is_Some (manager_of h c').
Proof. intros Hg. destruct h; [apply (grow_manager _ _ _ _ Hg)|apply (grow_managers _ _ _ _ Hg)]. Qed.

Lemma checker_at_rsafe {B} h c (f : Checker → B * Checker) :
  is_Some (checker_of h c) → (∀ x, HC.stopChan (snd (f x)) = HC.stopChan x ∧ HC.stopOnce (snd (f x)) = HC.stopOnce x) →
  rsafe c (method (Pointer0 := checker_at h) f : P B) (λ _ c', is_Some (checker_of h c')).
Proof.
  intros Hh Hf. destruct h as [|k].
  - apply rsafe_checker; [done|]. intros c1 x Hg Hx. destruct (Hf x) as [H1 H2]. destruct (f x). cbn in *.
    split; [by rewrite H1, H2|by eexists].
  - intros c1 Hr Hi. destruct (checker_of_grows _ _ _ _ _ (rely_grows _ _ Hr) Hh) as [x Hx]. cbn in *. rewrite Hx.
    destruct (f x) as [b x']. destruct (keep_former_checker guarded still k x' c1 Hi). split; [done|]. split; [done|]. cbn.
    rewrite list_lookup_insert_eq; [by eexists|by eapply lookup_lt_Some].
Qed.

Lemma manager_at_rsafe {B} h c (f : Manager → B * Manager) :
  is_Some (manager_of h c) → rsafe c (method (Pointer0 := manager_at h) f : P B) (λ _ c', is_Some (manager_of h c')).
Proof.
  intros Hm. destruct h as [|k].
  - apply rsafe_manager; [done|]. intros c1 m Hg Hm1. destruct (f m). cbn. by eexists.
  - intros c1 Hr Hi. destruct (manager_of_grows _ _ _ _ _ (rely_grows _ _ Hr) Hm) as [x Hx]. cbn in *. rewrite Hx.
    destruct (f x) as [b x']. destruct (keep_former_manager guarded still k x' c1 Hi). split; [done|]. split; [done|]. cbn.
    rewrite list_lookup_insert_eq; [by eexists|by eapply lookup_lt_Some].
Qed.

Lemma manager_method_rsafe {B} c (f : Manager → B * Manager) : has_manager c → rsafe c (method f : P B) (λ _, has_manager).
Proof. apply (manager_at_rsafe Held). Qed.

(** A dial that succeeds found a URL. *)
Lemma dial_urls c : rsafe c (dial : P _) (λ r c', match r with inl _ => Urls (config c') ≠ [] | inr _ => True end).
Proof.
  unfold dial. rsafe_step. destruct (Urls (config c0)) as [|u us] eqn:Hu; [done|].
  destruct (validateVirtualHost _); [done|]. rsafe_step. destruct a; cbn; [by rewrite Hu|done].
Qed.

Lemma connect_rsafe c : relied → rsafe c (connect : P _) (λ r c', r = None → connected c').
Proof.
  intros HR. unfold connect, set_reconnect_func, set_connection_notify.
  eapply rsafe_bind; [apply dial_urls|]. intros [conn|e] c1 Hu; [|done]. cbn in Hu. rsafe_step. rsafe_step.
  assert (connected c2) as Hc2 by (apply (connected_grows _ _ HR Hgrow0); by eexists). assert (Urls (config c2) ≠ []) as Hu2.
  { apply (grow_urls _ _ _ _ Hgrow0). cbn. by apply (grow_urls _ _ _ _ Hgrow). }
  eapply (rsafe_bind _ _ _ (λ _ c', connected c' ∧ Urls (config c') ≠ [])).
  - destruct (connectionManager c2) as [m|] eqn:Hm; [|rsafe_step; split; [track|done]].
    assert (has_manager c2) as Hm2 by by eexists. apply (rsafe_bind _ _ _ (λ _ c', has_manager c' ∧ connected c' ∧ Urls (config c') ≠ [])).
    { apply rsafe_manager; [done|]. intros c3 m3 Hg Hm3. cbn. split; [by eexists|]. split; [track|by apply (grow_urls _ _ _ _ Hg)]. }
    intros [] c3 (Hm3 & Hc3 & Hu3). rsafe_step. apply rsafe_manager; [done|]. intros c4 m4 Hg Hm4. cbn.
    split; [track|by apply (grow_urls _ _ _ _ Hg)].
  - intros [] c3 [H3 Hu3]. rsafe_step. destruct (Urls (config c4)) eqn:Hu4.
    + by destruct (grow_urls _ _ _ _ Hgrow1 Hu3).
    + intros _. track.
Qed.

(** ** Startup *)

Lemma publishRuntimeContract_calls ready healthy : calls_only (publishRuntimeContract ready healthy : P _).
Proof. unfold publishRuntimeContract. go_calls. Qed.

Lemma not_ready_calls err : calls_only (not_ready err : P _).
Proof. unfold not_ready. apply calls_bind; [apply publishRuntimeContract_calls|done]. Qed.

Lemma register_resources_calls : calls_only (register_resources : P _).
Proof. unfold register_resources, registerRuntimePluginAlias, register_private_resources, register_private. go_calls. Qed.

Lemma check_ready_calls what m : calls_only (check_ready what m : P _).
Proof. unfold check_ready, range_keys. go_calls. Qed.

Lemma CheckHealth_calls : calls_only (CheckHealth : P _).
Proof.
  unfold CheckHealth. go_calls; try apply check_ready_calls.
Qed.

Lemma calls_rsafe {A} c (m : P A) : calls_only m → rsafe c m anything.
Proof. intros Hm. by apply (rsafe_calls c m (λ _, True)). Qed.

Lemma calls_connected {A} c (m : P A) : relied → connected c → calls_only m → rsafe c m (λ _, connected).
Proof. intros HR Hc Hm. apply rsafe_calls; [done..|]. intros c1 c2 H1 Hg. by eapply connected_grows. Qed.

Lemma start_health_checker_rsafe c : rsafe c (start_health_checker : P _) anything.
Proof.
  unfold start_health_checker. rsafe_step. destruct (healthChecker c0) as [h|] eqn:Hh; [|done].
  eapply (rsafe_bind _ _ _ (λ _ c', is_Some (healthChecker c'))).
  { apply rsafe_checker; [by eexists|]. intros c1 h1 Hg Hs. cbn. split; [done|by eexists]. }
  intros [] c1 H1. apply rsafe_put. intros c2 Hg Hi. split; [|done]. apply keep_health_loop. by apply (grow_checker _ _ _ _ Hg).
Qed.

Lemma start_connection_manager_rsafe c : rsafe c (start_connection_manager : P _) anything.
Proof.
  unfold start_connection_manager. rsafe_step. destruct (connectionManager c0) as [m|] eqn:Hm; [|done].
  eapply rsafe_bind; [apply manager_method_rsafe; by eexists|].
  intros [[notify fn]|] c1 H1; [|done]. apply rsafe_put. intros c2 Hg Hi. split; [|done].
  apply keep_watcher. by apply (grow_manager _ _ _ _ Hg).
Qed.

Lemma startupWithContext_rsafe ctx c : relied → rsafe c (startupWithContext ctx : P _) anything.
Proof.
  intros HR. unfold startupWithContext, on_err.
  assert (∀ c err, rsafe c (not_ready err : P _) anything) as Hnot by (intros; apply calls_rsafe, not_ready_calls).
  assert (∀ c, connected c → rsafe c (ctx_Err ctx : P _) (λ _, connected)) as Hctx.
  { intros. by apply calls_connected, calls_ctx_Err. }
  eapply rsafe_bind; [apply calls_rsafe, calls_ctx_Err|]. intros [e|] c1 _; [done|].
  eapply rsafe_bind; [apply calls_rsafe, publishRuntimeContract_calls|]. intros [] c2 _.
  eapply rsafe_bind; [by apply connect_rsafe|]. intros [e|] c3 H3; [done|]. specialize (H3 eq_refl).
  eapply rsafe_bind; [by apply Hctx|]. intros [e|] c4 H4; [done|].
  eapply rsafe_bind; [by apply initializeProducers_rsafe|]. intros [e|] c5 H5; [done|].
  eapply rsafe_bind; [by apply Hctx|]. intros [e|] c6 H6; [done|].
  eapply rsafe_bind; [by apply initializeConsumers_rsafe|]. intros [e|] c7 H7; [done|].
  eapply rsafe_bind; [apply start_health_checker_rsafe|]. intros [] c8 _.
  eapply rsafe_bind; [apply start_connection_manager_rsafe|]. intros [] c9 _.
  eapply rsafe_bind; [apply calls_rsafe, register_resources_calls|]. intros [e|] c10 _; [done|].
  eapply rsafe_bind; [apply calls_rsafe, CheckHealth_calls|]. intros [e|] c11 _; [done|].
  apply calls_rsafe, calls_bind; [apply publishRuntimeContract_calls|done].
Qed.

(** ** Publishing and consuming *)

Lemma publishToChannel_rsafe ctx ch ex rk body opts c : rsafe c (publishToChannel ctx ch ex rk body opts : P _) anything.
Proof. unfold publishToChannel, on_metrics. by rsafe_run. Qed.

Lemma first_entry_calls {A} (m : gmap string A) : calls_only (first_entry m : P _).
Proof. unfold first_entry, range_keys. go_calls. Qed.

Lemma PublishMessage_rsafe ctx ex rk body opts c : rsafe c (PublishMessage ctx ex rk body opts : P _) anything.
Proof.
  unfold PublishMessage. rsafe_step. eapply rsafe_bind; [apply calls_rsafe, first_entry_calls|].
  intros [[k [ch|]]|] c1 _; [apply publishToChannel_rsafe|done..].
Qed.

Lemma PublishMessageWith_rsafe ctx name ex rk body opts c : rsafe c (PublishMessageWith ctx name ex rk body opts : P _) anything.
Proof.
  unfold PublishMessageWith. rsafe_step. destruct (producers c0 !! name) as [[ch|]|]; [apply publishToChannel_rsafe|done..].
Qed.

Lemma subscribeWithChannel_rsafe ctx name q h c : (still → False) → rsafe c (subscribeWithChannel ctx name q h : P _) anything.
Proof. intros Hadd. unfold subscribeWithChannel. rsafe_step. by apply (startDispatchLoop_rsafe _ _ _ _ _ (λ _, True)). Qed.

Lemma Subscribe_rsafe ctx q h c : (still → False) → rsafe c (Subscribe ctx q h : P _) anything.
Proof.
  intros Hadd. unfold Subscribe. rsafe_step. eapply rsafe_bind; [apply calls_rsafe, first_entry_calls|].
  intros [[k [ch|]]|] c1 _; [by apply subscribeWithChannel_rsafe|done..].
Qed.

Lemma SubscribeWith_rsafe ctx name q h c : (still → False) → rsafe c (SubscribeWith ctx name q h : P _) anything.
Proof.
  intros Hadd. unfold SubscribeWith. destruct (validateQueue q); [done|]. rsafe_step.
  destruct (consumers c0 !! name) as [[ch|]|]; [by apply subscribeWithChannel_rsafe|done..].
Qed.

Lemma loop_case_rsafe i l ev c : rsafe c (loop_case i l ev : P _) anything.
Proof.
  unfold loop_case. destruct ev; unfold loop_return, dispatchDelivery, on_metrics; [|by rsafe_run..].
  eapply rsafe_bind; [apply calls_rsafe, calls_ctx_Err|]. intros [e|] c1 _; [|done]. by rsafe_run.
Qed.

Lemma loop_step_rsafe i ev c : rsafe c (loop_step i ev : P _) anything.
Proof.
  unfold loop_step. rsafe_step. destruct (mjoin (loops c0 !! i)) as [l|]; [apply loop_case_rsafe|done].
Qed.

(** ** Shutdown *)

Lemma close_closeChan_rsafe {B} (k : unit → P B) Q c :
  (∀ c', rsafe c' (k tt) Q) → rsafe c (close_closeChan ≫= k) Q.
Proof.
  intros Hk c1 Hr Hi. cbn. pose proof (inv_guard _ Hi) as Hg. destruct (closeOnce c1) eqn:Ho; [split; [done|split; [done|apply Hk]]|].
  rewrite Hg. destruct (keep_close_chan guarded still c1 Hi). split; [done|split; [done|apply Hk]].
Qed.

Lemma stop_health_checker_rsafe c : rsafe c (stop_health_checker : P _) anything.
Proof.
  unfold stop_health_checker. rsafe_step. destruct (healthChecker c0) as [h|] eqn:Hh; [|done].
  apply rsafe_checker; [by eexists|]. intros c1 h1 Hg Hs. unfold HC.Stop, HC.close_stopChan.
  destruct (HC.stopped h1); [done|]. destruct (HC.stopOnce h1) eqn:Ho; [by rewrite Hs, Ho|]. by rewrite Hs.
Qed.

Lemma stop_connection_manager_rsafe c : rsafe c (stop_connection_manager : P _) anything.
Proof.
  unfold stop_connection_manager. rsafe_step. destruct (connectionManager c0) as [m|] eqn:Hm; [|done].
  apply rsafe_manager; [by eexists|]. intros c1 m1 Hg Hm1. unfold CM.Stop, CM.stop_section, CM.close_stopChan.
  destruct (CM.stopped _); [done|]. by destruct (CM.stopChan _).
Qed.

Lemma close_channels_calls m : calls_only (close_channels m : P _).
Proof. unfold close_channels, range_keys. go_calls. Qed.

(** *** The wait, when no dispatch loop is started meanwhile *)

(** What a goroutine knows that has seen the count [seen] and sleeps. *)
Definition sleeping (seen : nat) c : Prop :=
  seen ≤ subscriptionWG c ∧ (subscriptionWG c = seen → running c ≠ []) ∧ (seen < subscriptionWG c → running c = []).

Lemma sleeping_grows seen (keep : Prop) c c' : still → sleeping seen c → grows keep still c c' → sleeping seen c'.
Proof.
  intros Hs (H1 & H2 & H3) Hg. destruct (grow_wakes _ _ _ _ Hg) as [Hle Hlt]. pose proof (grow_still _ _ _ _ Hg Hs) as Hz.
  split; [lia|]. split.
  - intros He Hr. assert (running c ≠ []) as Hc by (apply H2; lia). specialize (Hlt Hc Hr). lia.
  - intros Hc. apply Hz. destruct (decide (seen < subscriptionWG c)); [left; auto|right; lia].
Qed.

Lemma Wait_rsafe schedule c :
  still → (∀ c1, running c1 ≠ [] → blockable c1) → rsafe c (subscriptionWG_Wait schedule : P _) anything.
Proof.
  intros Hs Hb. unfold subscriptionWG_Wait, subscriptionWG_enter. rsafe_step. destruct (running c0) as [|l ls] eqn:Hr; [done|].
  assert (sleeping (subscriptionWG c0) c0) as H0 by (split; [lia|]; split; [by rewrite Hr|lia]).
  eapply (rsafe_bind _ _ _ (λ _, sleeping (subscriptionWG c0))).
  { apply (rsafe_for_all (sleeping (subscriptionWG c0))); [done|]. intros x c' _ Hc'.
    eapply rsafe_mono; [apply (rsafe_frame (sleeping (subscriptionWG c0))); [|done|apply loop_step_rsafe]|by intros ? ? [_ ?]].
    intros c1 c2 H Hg. by eapply sleeping_grows. }
  intros [] c1 H1 c2 Hrely Hi. apply rely_grows in Hrely. destruct (sleeping_grows _ _ _ _ Hs H1 Hrely) as (Hle & Hz & Hd).
  unfold subscriptionWG_leave. case_bool_decide; [by apply Hb, Hz|]. rewrite Hd by lia. done.
Qed.

(** A shutdown blocks only while a dispatch goroutine runs. *)
Lemma cleanupWithContext_rsafe ctx schedule c :
  (guarded → False) → still → (∀ c1, running c1 ≠ [] → blockable c1) →
  rsafe c (cleanupWithContext ctx schedule : P _) anything.
Proof.
  intros Hg Hs Hb. unfold cleanupWithContext, on_err.
  eapply rsafe_bind; [apply calls_rsafe, calls_ctx_Err|]. intros [e|] c1 _; [done|].
  eapply rsafe_bind; [apply calls_rsafe, publishRuntimeContract_calls|]. intros [] c2 _. rsafe_step.
  apply close_closeChan_rsafe. intros c3.
  eapply rsafe_bind; [apply stop_health_checker_rsafe|]. intros [] c4 _.
  eapply rsafe_bind; [apply stop_connection_manager_rsafe|]. intros [] c5 _.
  eapply rsafe_bind; [by apply Wait_rsafe|]. intros [] c6 _. unfold goroutinePool_Wait. do 2 rsafe_step.
  eapply rsafe_bind; [apply calls_rsafe, close_channels_calls|]. intros [] c10 _. do 2 rsafe_step.
  eapply rsafe_bind; [apply calls_rsafe, close_channels_calls|]. intros [] c13 _. rsafe_step.
  unfold close_connection, on_err. rsafe_step. destruct (connection _); [|done]. rsafe_step. destruct a; [done|].
  apply rsafe_bind_put. intros c' _ _. split; [by apply keep_disconnected|done].
Qed.

(** ** The goroutines of the helpers *)

Lemma health_tick_rsafe h c : is_Some (checker_of h c) → rsafe c (health_tick h : P _) anything.
Proof.
  intros Hh. unfold health_tick, HC.performHealthCheck.
  eapply (rsafe_bind _ _ _ (λ _ c', is_Some (checker_of h c'))); [by apply checker_at_rsafe|].
  intros pr c1 H1. eapply (rsafe_bind _ _ _ (λ _ c', is_Some (checker_of h c'))).
  { destruct pr; [|done]. apply rsafe_calls; [unfold call_probe, connectionProbe; go_calls|done|].
    intros c2 c3 Hc2 Hg. by eapply checker_of_grows. }
  intros e c2 H2. rsafe_step. eapply rsafe_anything, checker_at_rsafe; [done|]. intros x. by destruct e.
Qed.

Lemma watch_attempt_rsafe h c : (still → False) → relied → is_Some (manager_of h c) → rsafe c (watch_attempt h : P _) anything.
Proof.
  intros Hadd HR Hm. unfold watch_attempt.
  eapply rsafe_bind; [apply (rsafe_frame (λ c', is_Some (manager_of h c'))); [|done|by apply call_reconnect_rsafe]|].
  { intros c1 c2 H1 Hg. by eapply manager_of_grows. }
  intros [conn|e] c1 [_ H1]; [|done]. eapply rsafe_bind; [by apply manager_at_rsafe|]. intros [] c2 H2. rsafe_step.
  apply rsafe_bind_put. intros c3 Hg _. split; [|done]. apply keep_watcher. by eapply manager_of_grows.
Qed.

Lemma client_ForceReconnect_rsafe c : (still → False) → relied → has_manager c → rsafe c (client_ForceReconnect : P _) anything.
Proof.
  intros Hadd HR Hm. unfold client_ForceReconnect, CM.ForceReconnect.
  eapply rsafe_bind; [by apply manager_method_rsafe|]. intros [fn|] c1 H1; [|by eapply rsafe_anything, manager_method_rsafe].
  eapply rsafe_bind; [by apply manager_method_rsafe|]. intros [] c2 H2.
  eapply rsafe_bind; [apply rsafe_frame_manager; [done|by apply call_reconnect_rsafe]|].
  intros [conn|e] c3 [_ H3]; [by eapply rsafe_anything, manager_method_rsafe|done].
Qed.

End operations.

(** ** The operations of the package and the steps of its goroutines *)

Section ops.
Context `{TY : Types} `{IP : NetIP}.
Notation P := (prog RabbitMQClient).

(** What a goroutine started by a helper of the client does next. *)
Inductive goroutine_event : Type := GTick | GNotified | GAttempt.

Definition goroutine_step (i : nat) (ev : goroutine_event) : P unit :=
  gs ← get goroutines;
  match gs !! i, ev with
  | Some (HealthLoop h), GTick => health_tick h
  | Some (Watcher h _), GNotified => watch_notified h
  | Some (Watcher h _), GAttempt => watch_attempt h ;; mret tt
  | _, _ => mret tt
  end.

(** [ForceReconnect] is called on the manager the client holds. *)
Definition force_reconnect : P unit :=
  cm ← get connectionManager;
  match cm with None => mret tt | Some _ => client_ForceReconnect end.

Inductive op : Type :=
| OpInitialize (runtime : option Runtime)
| OpStart (ctx : Context_)
| OpStop (ctx : Context_) (schedule : list (nat * loop_event))
| OpPublish (ctx : Context_) (exchange routingKey body : string) (opts : list Publishing)
| OpPublishWith (ctx : Context_) (name exchange routingKey body : string) (opts : list Publishing)
| OpSubscribe (ctx : Context_) (queue : string) (handler : Handler)
| OpSubscribeWith (ctx : Context_) (name queue : string) (handler : Handler)
| OpCheckHealth
| OpIsConnected
| OpForceReconnect
| OpLoop (i : nat) (ev : loop_event)
| OpGoroutine (i : nat) (ev : goroutine_event).

Definition run_op (o : op) : P unit :=
  match o with
  | OpInitialize runtime => InitializeResources runtime ;; mret tt
  | OpStart ctx => StartContext ctx ;; mret tt
  | OpStop ctx schedule => StopContext ctx schedule ;; mret tt
  | OpPublish ctx ex rk body opts => PublishMessage ctx ex rk body opts ;; mret tt
  | OpPublishWith ctx name ex rk body opts => PublishMessageWith ctx name ex rk body opts ;; mret tt
  | OpSubscribe ctx q h => Subscribe ctx q h ;; mret tt
  | OpSubscribeWith ctx name q h => SubscribeWith ctx name q h ;; mret tt
  | OpCheckHealth => CheckHealth ;; mret tt
  | OpIsConnected => IsConnected ;; mret tt
  | OpForceReconnect => force_reconnect
  | OpLoop i ev => loop_step i ev
  | OpGoroutine i ev => goroutine_step i ev
  end.

(** The operations that drop the connection (and wait for the dispatch
    goroutines), and those that need one while they run. *)
Definition drops (o : op) : bool := match o with OpStop _ _ => true | _ => false end.

Definition subscribes (o : op) : bool := match o with OpSubscribe _ _ _ | OpSubscribeWith _ _ _ _ => true | _ => false end.

Definition connects (o : op) : bool :=
  match o with OpStart _ | OpForceReconnect | OpGoroutine _ GAttempt => true | _ => false end.

Lemma drop_rsafe `{ST : !Setting} {A} c (m : P A) : rsafe c m anything → rsafe c (m ;; mret tt) anything.
Proof. intros Hm. by eapply rsafe_bind. Qed.

Lemma run_op_rsafe `{ST : !Setting} o c :
  (drops o = true → (guarded → False) ∧ still ∧ ∀ c1, running c1 ≠ [] → blockable c1) →
  (connects o = true → relied ∧ (still → False)) → (subscribes o = true → still → False) →
  rsafe c (run_op o) anything.
Proof.
  intros Hd Hc Hsub. destruct o as [runtime|ctx|ctx sched|ctx ex rk body opts|ctx name ex rk body opts|ctx q h|ctx name q h| | | |i ev|i ev]; cbn [run_op].
  - apply drop_rsafe, InitializeResources_rsafe.
  - by apply drop_rsafe, startupWithContext_rsafe, Hc.
  - destruct (Hd eq_refl) as (? & ? & ?). apply drop_rsafe. unfold StopContext, on_err.
    eapply rsafe_bind; [apply calls_rsafe, calls_ctx_Err|]. intros [e|] c1 _; [done|]. by apply cleanupWithContext_rsafe.
  - apply drop_rsafe, PublishMessage_rsafe.
  - apply drop_rsafe, PublishMessageWith_rsafe.
  - by apply drop_rsafe, Subscribe_rsafe, Hsub.
  - by apply drop_rsafe, SubscribeWith_rsafe, Hsub.
  - apply drop_rsafe, calls_rsafe, CheckHealth_calls.
  - apply drop_rsafe, calls_rsafe. unfold IsConnected. go_calls.
  - unfold force_reconnect. rsafe_step. destruct (connectionManager c0) as [m|] eqn:Hm; [|done].
    destruct (Hc eq_refl). apply client_ForceReconnect_rsafe; [done..|by eexists].
  - apply loop_step_rsafe.
  - unfold goroutine_step. rsafe_step.
    destruct (goroutines c0 !! i) as [[h|h n]|] eqn:Hi; [| |by destruct ev]; apply list_elem_of_lookup_2 in Hi.
    + destruct ev; [|done..]. by apply health_tick_rsafe, goroutine_checker.
    + assert (is_Some (manager_of h c0)) as Hm by (by eapply goroutine_manager).
      destruct ev; [done|by eapply rsafe_anything, manager_at_rsafe|].
      destruct (Hc eq_refl). by apply drop_rsafe, watch_attempt_rsafe.
Qed.

End ops.

(** ** Alone: any sequence of operations *)

Section alone.
Context `{TY : Types} `{IP : NetIP}.
Notation P := (prog RabbitMQClient).

(** Nobody interferes. *)
Definition alone (still_ blocks : Prop) : Setting := {|
  rely := eq; relied := True; guarded := False; still := still_; blockable := λ _, blocks;
  rely_grows c c' Heq := eq_ind c (grows True still_ c) (reflexivity c) c' Heq |}.

Lemma rsafe_alone {W} `{!Env W} still_ blocks {A} c (m : P A) Q (w : W) :
  rsafe (ST := alone still_ blocks) c m Q → consistent c →
  match run m (mkSys c w) with
  | Done (a, s) => consistent (cl s) ∧ Q a (cl s)
  | Panicked => False
  | Blocked => blocks
  end.
Proof.
  revert c w. induction m as [a|X f k IH|X e k IH]; intros c w Hm Hi; cbn in *; [done| |].
  - specialize (Hm c eq_refl Hi). destruct (f c) as [[x c2]| |]; [|done..]. destruct Hm as (Hi2 & _ & Hk). by apply IH.
  - destruct (handle e w) as [x w']. by apply IH.
Qed.

Definition run_ops (ops : list op) : P unit := for_all run_op ops.

(** One operation alone: a shutdown starts no dispatch loop. *)
Lemma run_op_alone o c : rsafe (ST := alone (drops o = true) (drops o = true)) c (run_op o) anything.
Proof.
  apply run_op_rsafe.
  - intros Hd. split; [by intros []|]. split; [done|]. by intros.
  - intros Hc. split; [done|]. by destruct o.
  - intros Hs. by destruct o.
Qed.

Lemma run_ops_alone {W} `{!Env W} ops c (w : W) :
  consistent c →
  match run (run_ops ops) (mkSys c w) with
  | Done (_, s) => consistent (cl s)
  | Panicked => False
  | Blocked => Exists (λ o, drops o = true) ops
  end.
Proof.
  revert c w. induction ops as [|o ops IH]; intros c w Hi; [done|].
  change (run_ops (o :: ops)) with (run_op o ;; run_ops ops). rewrite run_bind. unfold mbind, GoM_bind.
  pose proof (rsafe_alone _ _ _ _ _ w (run_op_alone o c) Hi) as Ho.
  destruct (run (run_op o) _) as [[[] [c1 w1]]| |]; [|done|by left].
  destruct Ho as [Hi1 _]. specialize (IH c1 w1 Hi1). destruct (run (run_ops ops) _) as [[[] s]| |]; [done..|by right].
Qed.

(** C1: from the client NewRabbitMQClient makes, in every environment and for every
    sequence of operations of the package (initialization among them, as often as
    one likes) and steps of its goroutines (dispatch loops, health loops and
    connection watchers, those of replaced checkers and managers too), in any order: nothing panics (no
    channel is closed twice, no nil connection, manager, checker or configuration
    entry is dereferenced), nothing blocks but the wait of a shutdown, and the
    client left satisfies the invariant. *)
Theorem client_never_panics {W} `{!Env W} (ops : list op) (w : W) :
  match run (run_ops ops) (mkSys NewRabbitMQClient w) with
  | Done (_, s) => consistent (cl s)
  | Panicked => False
  | Blocked => Exists (λ o, drops o = true) ops
  end.
Proof. apply run_ops_alone, fresh_consistent. Qed.

End alone.

(** A whole life: initialize, start, subscribe, publish, lose the connection and
    reconnect, stop with the dispatch loops ending on the closed channel, stop again,
    initialize and start again; the goroutines of the first life go on, and reconnect. *)
Definition life : list (op (TY := Sim.types)) :=
  [OpInitialize (Some (tt : Runtime (Types := Sim.types))); OpStart Background;
   OpSubscribe Background "jobs" (HReturn None : Handler (Types := Sim.types));
   OpPublish Background "" "jobs" "payload" [];
   OpLoop 0 (LDelivery (0 : Delivery (Types := Sim.types)));
   OpGoroutine 0 GTick; OpGoroutine 1 GNotified; OpGoroutine 1 GAttempt;
   OpStop Background [(1, LCloseChan); (0, LCloseChan)]; OpStop Background [];
   OpInitialize (Some (tt : Runtime (Types := Sim.types))); OpStart Background; OpGoroutine 0 GTick; OpGoroutine 1 GAttempt].

Example life_returns :
  match run (Env0 := Sim.env) (run_ops (IP := Sim.netip) life) (mkSys NewRabbitMQClient (Sim.init [] [])) with
  | Done (_, s) => closed (cl s) && (length (goroutines (cl s)) =? 6) && (length (formerCheckers (cl s)) =? 1) && (length (running (cl s)) =? 1)
  | _ => false
  end = true.
Proof. vm_compute. reflexivity. Qed.
