(* ===== verification/ClientLedger.v ===== *)
(** * What becomes of the channels (src/client.go)

    A ledger of the AMQP channels of a client that runs alone: every channel it
    opens is held (registered as a producer or a consumer, or owned by a dispatch
    loop), closed, or lost, that is, dropped from a registry without being closed.
    [books] is the judgment that a program keeps such a ledger.  Two theorems: over
    any sequence of operations nothing is closed twice or still held after being
    closed; and a life without reconnects, from the start to a shutdown, loses
    nothing, channel or connection, whether its operations succeed or fail. *)

From stdpp Require Import fin_maps.
From S2P Require Import Prelude Errors Constants Utils Config Metrics HealthChecker ConnectionManager Env Program NetUrl Sim Retry Client Logic ClientSetup ClientMessaging ClientLifecycle ClientInvariant.

(** ** Programs that keep a view of the client *)

Section preserves.
Context `{TY : Types} {V : Type} (v : RabbitMQClient → V) (ok : entry → Prop).
Notation P := (prog RabbitMQClient).
Implicit Types c : RabbitMQClient.

(** [preserves v ok p]: no section of [p] changes the view, and its calls are all [ok]. *)
Fixpoint preserves {A} (p : P A) : Prop :=
  match p with
  | Ret _ => True
  | Sect f k => (∀ c x c', f c = Done (x, c') → v c' = v c) ∧ ∀ x, preserves (k x)
  | Call e k => ∀ x, ok (mkEntry _ e x) ∧ preserves (k x)
  end.

Lemma preserves_run {W} `{!Env W} {A} (p : P A) c (w : W) l a s :
  preserves p → run p (mkSys c (w, l)) = Done (a, s) → v (cl s) = v c ∧ ∃ new, snd (world s) = l ++ new ∧ Forall ok new.
Proof.
  revert c w l. induction p as [b|X f k IH|X e k IH]; intros c w l; cbn.
  - intros _ [= <- <-]. split; [done|]. exists []. by rewrite app_nil_r.
  - intros [Hf Hk]. destruct (f c) as [[x c']| |] eqn:Hx; [|done..]. rewrite <- (Hf _ _ _ Hx). by apply IH.
  - intros Hk. destruct (handle e w) as [x w']. destruct (Hk x) as [He Hx]. intros Hr.
    destruct (IH x c w' (l ++ [mkEntry _ e x]) Hx Hr) as (Hv & new & -> & Hn). split; [done|].
    exists (mkEntry _ e x :: new). rewrite <- app_assoc. split; [done|]. by constructor.
Qed.

Lemma preserves_sect {X} (f : RabbitMQClient → outcome (X * RabbitMQClient)) :
  (∀ c x c', f c = Done (x, c') → v c' = v c) → preserves (sect f).
Proof. by split. Qed.

Lemma preserves_run_bind {W} `{!Env W} {A B} (m : P A) (k : A → P B) c (w : W) l b s :
  preserves m → run (m ≫= k) (mkSys c (w, l)) = Done (b, s) →
  ∃ a c1 w1 n1, v c1 = v c ∧ Forall ok n1 ∧ run (k a) (mkSys c1 (w1, l ++ n1)) = Done (b, s).
Proof.
  intros Hm. rewrite run_bind. intros (a & [c1 [w1 l1]] & H1 & H2)%bind_done.
  destruct (preserves_run m c w l _ _ Hm H1) as (Hv & n1 & Hl & Hn). cbn in *. subst. eauto 10.
Qed.

Lemma preserves_bind {A B} (m : P A) (k : A → P B) : preserves m → (∀ a, preserves (k a)) → preserves (m ≫= k).
Proof.
  intros Hm Hk. induction m as [a|X f j IH|X e j IH]; cbn in *; [done| |].
  - destruct Hm as [Hf Hj]. split; [done|]. intros x. by apply IH.
  - intros x. destruct (Hm x). split; [done|]. by apply IH.
Qed.

Lemma preserves_get {A} (f : RabbitMQClient → A) : preserves (get f).
Proof. apply preserves_sect. by intros c x c' [= _ <-]. Qed.

Lemma preserves_put f : (∀ c, v (f c) = v c) → preserves (put f).
Proof. intros Hf. apply preserves_sect. by intros c x c' [= _ <-]. Qed.

Lemma preserves_Done i : (∀ k ls c, v (set_subscriptionWG k (set_loops ls c)) = v c) → preserves (put (subscriptionWG_Done i)).
Proof. intros Hv. apply preserves_put. intros c. destruct (Done_loops i c) as [k ->]. apply Hv. Qed.

Lemma preserves_leave n : preserves (sect (subscriptionWG_leave n)).
Proof. apply preserves_sect. by intros c x c' ->%leave_same. Qed.

Lemma preserves_from_outcome {A} (o : outcome A) : preserves (from_outcome o).
Proof. destruct o; [done|by split..]. Qed.

Lemma preserves_for_each {A X} (body : A → P (option X)) l : (∀ x, preserves (body x)) → preserves (for_each body l).
Proof. intros Hb. induction l as [|x l IH]; [done|]. apply preserves_bind; [done|]. by intros [e|]. Qed.

Lemma preserves_for_all {A} (body : A → P unit) l : (∀ x, preserves (body x)) → preserves (for_all body l).
Proof. intros Hb. induction l as [|x l IH]; [done|]. by apply preserves_bind. Qed.

Lemma preserves_manager {B} (f : Manager → outcome (B * Manager)) :
  (∀ c m b m', connectionManager c = Some m → f m = Done (b, m') → v (set_connectionManager (Some m') c) = v c) →
  preserves (with_pointer f : P B).
Proof.
  intros Hf. apply preserves_sect. intros c x c'. destruct (connectionManager c) as [m|] eqn:Hm; [|done].
  destruct (f m) as [[b m']| |] eqn:Hb; [|done..]. intros [= _ <-]. by eapply Hf.
Qed.

Lemma preserves_checker {B} (f : Checker → outcome (B * Checker)) :
  (∀ c h b h', healthChecker c = Some h → f h = Done (b, h') → v (set_healthChecker (Some h') c) = v c) →
  preserves (with_pointer f : P B).
Proof.
  intros Hf. apply preserves_sect. intros c x c'. destruct (healthChecker c) as [h|] eqn:Hh; [|done].
  destruct (f h) as [[b h']| |] eqn:Hb; [|done..]. intros [= _ <-]. by eapply Hf.
Qed.

(** A method on the checker or the manager of a goroutine. *)
Lemma preserves_checker_at {B} h (f : Checker → B * Checker) :
  preserves (method (Pointer0 := checker_pointer) f : P B) → (∀ l c, v (set_formerCheckers l c) = v c) →
  preserves (method (Pointer0 := checker_at h) f : P B).
Proof.
  intros Hheld Hf. destruct h as [|k]; [done|]. apply preserves_sect. intros c x c'. destruct (checker_of (Replaced k) c); [|done].
  destruct (f _). intros [= _ <-]. apply Hf.
Qed.

Lemma preserves_manager_at {B} h (f : Manager → B * Manager) :
  preserves (method (Pointer0 := manager_pointer) f : P B) → (∀ l c, v (set_formerManagers l c) = v c) →
  preserves (method (Pointer0 := manager_at h) f : P B).
Proof.
  intros Hheld Hf. destruct h as [|k]; [done|]. apply preserves_sect. intros c x c'. destruct (manager_of (Replaced k) c); [|done].
  destruct (f _). intros [= _ <-]. apply Hf.
Qed.

End preserves.

Lemma preserves_weaken `{TY : Types} {V V' A} (v : RabbitMQClient → V) (v' : RabbitMQClient → V') ok (p : prog RabbitMQClient A) :
  (∀ c c', v c' = v c → v' c' = v' c) → preserves v ok p → preserves v' ok p.
Proof.
  intros Hv. induction p as [a|X f k IH|X e k IH]; cbn; [done| |].
  - intros [Hf Hk]. split; [eauto|auto].
  - intros Hk x. destruct (Hk x). auto.
Qed.

Create HintDb preserves discriminated.

(** Prove [preserves] by following the program; assignments out of view by computation. *)
Ltac go_preserves :=
  repeat (cbn beta iota; lazymatch goal with
  | |- preserves _ _ (mret _) => exact I
  | |- preserves _ _ (ext _) => intros ?; split; [by repeat split|exact I]
  | |- preserves _ _ (call _) => intros ?; split; [by repeat split|exact I]
  | |- preserves _ _ (get _) => apply preserves_get
  | |- preserves _ _ (put (subscriptionWG_Done _)) => apply preserves_Done; intros; reflexivity
  | |- preserves _ _ (put (assign_healthChecker _)) => apply preserves_put; intros ?; unfold assign_healthChecker; case_match; reflexivity
  | |- preserves _ _ (put (assign_connectionManager _)) => apply preserves_put; intros ?; unfold assign_connectionManager; case_match; reflexivity
  | |- preserves _ _ (put _) => apply preserves_put; intros ?; reflexivity
  | |- preserves _ _ panic => by split
  | |- preserves _ _ (sect (subscriptionWG_leave _)) => apply preserves_leave
  | |- preserves _ _ (from_outcome _) => apply preserves_from_outcome
  | |- preserves _ _ (ctx_Err ?ctx) => destruct ctx; [exact I|intros ?; split; [by repeat split|exact I]]
  | |- preserves _ _ (on_err _ _ _) => unfold on_err
  | |- preserves _ _ (on_metrics _) => unfold on_metrics
  | |- preserves _ _ (conn_IsClosed _) => unfold conn_IsClosed
  | |- preserves _ _ (range_keys _) => unfold range_keys
  | |- preserves _ _ (_ ≫= _) => apply preserves_bind; [|intros ?]
  | |- preserves _ _ (for_each _ _) => apply preserves_for_each; intros ?
  | |- preserves _ _ (for_all _ _) => apply preserves_for_all; intros ?
  | |- preserves _ _ (match ?x with _ => _ end) => destruct x
  end); try solve [auto with preserves].

(** ** Programs that leave the channels alone *)

Section idle.
Context `{TY : Types} `{IP : NetIP}.
Notation P := (prog RabbitMQClient).
Implicit Types c : RabbitMQClient.

Definition registries c := (producers c, consumers c, loops c).
Definition no_channel (e : entry) : Prop := opened e = [] ∧ closed_channel e = [].
Notation idle := (preserves registries no_channel).

Lemma publishRuntimeContract_idle ready healthy : idle (publishRuntimeContract ready healthy : P _).
Proof. unfold publishRuntimeContract. go_preserves. Qed.

Lemma dial_idle : idle (dial : P _).
Proof. unfold dial. go_preserves. Qed.
#[local] Hint Resolve publishRuntimeContract_idle dial_idle : preserves.

Lemma method_manager_idle {B} (f : Manager → B * Manager) : idle (method f : P B).
Proof. by apply preserves_manager. Qed.

Lemma method_checker_idle {B} (f : Checker → B * Checker) : idle (method f : P B).
Proof. by apply preserves_checker. Qed.

Lemma manager_at_idle {B} h (f : Manager → B * Manager) : idle (method (Pointer0 := manager_at h) f : P B).
Proof. apply preserves_manager_at; [apply method_manager_idle|done]. Qed.

Lemma checker_at_idle {B} h (f : Checker → B * Checker) : idle (method (Pointer0 := checker_at h) f : P B).
Proof. apply preserves_checker_at; [apply method_checker_idle|done]. Qed.
#[local] Hint Resolve method_manager_idle method_checker_idle manager_at_idle checker_at_idle : preserves.

Lemma connect_idle : idle (connect : P _).
Proof. unfold connect, set_reconnect_func, set_connection_notify. go_preserves. Qed.

Lemma CheckHealth_idle : idle (CheckHealth : P _).
Proof. unfold CheckHealth, check_ready. go_preserves. Qed.

Lemma register_resources_idle : idle (register_resources : P _).
Proof. unfold register_resources, registerRuntimePluginAlias, register_private_resources, register_private. go_preserves. Qed.

Lemma not_ready_idle err : idle (not_ready err : P _).
Proof. unfold not_ready. go_preserves. Qed.

Lemma start_health_checker_idle : idle (start_health_checker : P _).
Proof. unfold start_health_checker. go_preserves. Qed.

Lemma start_connection_manager_idle : idle (start_connection_manager : P _).
Proof. unfold start_connection_manager. go_preserves. Qed.

Lemma publishToChannel_idle ctx ch ex rk body opts : idle (publishToChannel ctx ch ex rk body opts : P _).
Proof. unfold publishToChannel. go_preserves. Qed.
#[local] Hint Resolve publishToChannel_idle : preserves.

Lemma PublishMessage_idle ctx ex rk body opts : idle (PublishMessage ctx ex rk body opts : P _).
Proof. unfold PublishMessage, first_entry. go_preserves. Qed.

Lemma PublishMessageWith_idle ctx name ex rk body opts : idle (PublishMessageWith ctx name ex rk body opts : P _).
Proof. unfold PublishMessageWith. go_preserves. Qed.

Lemma first_entry_idle (m : gmap string (option Channel)) : idle (first_entry m : P _).
Proof. unfold first_entry. go_preserves. Qed.

Lemma dispatchDelivery_idle ctx d h autoAck : idle (dispatchDelivery ctx d h autoAck : P _).
Proof. unfold dispatchDelivery. go_preserves. Qed.

Lemma InitializeResources_idle runtime : idle (InitializeResources runtime : P _).
Proof. unfold InitializeResources. go_preserves. Qed.

Lemma signal_stop_idle : idle (signal_stop : P _).
Proof.
  unfold signal_stop, close_closeChan, stop_health_checker, stop_connection_manager.
  go_preserves; [|by apply preserves_checker|by apply preserves_manager].
  apply preserves_sect. intros c x c'. repeat case_match; try done; by intros [= _ <-].
Qed.

Lemma close_connection_idle : idle (close_connection : P _).
Proof. unfold close_connection. go_preserves. Qed.

End idle.

(** ** The ledger *)

Section ledger.
Context `{TY : Types} `{IP : NetIP}.
Notation P := (prog RabbitMQClient).
Implicit Types c : RabbitMQClient.

(** The channels the client holds. *)
Definition held c : list Channel := map_channels (producers c) ++ map_channels (consumers c) ++ channels_of (loops c).

(** What a program that left [c'] and made the calls [log] did to the ledger of [c]. *)
Definition balanced c c' (log : list entry) (lost : list Channel) : Prop :=
  held c ++ opens log ≡ₚ closes log ++ held c' ++ lost.

Definition books {A} c (m : P A) (Q : A → RabbitMQClient → list Channel → Prop) : Prop :=
  ∀ W (EW : Env W) (w : W) l a s, run m (mkSys c (w, l)) = Done (a, s) →
    ∃ new lost, snd (world s) = l ++ new ∧ balanced c (cl s) new lost ∧ Q a (cl s) lost.

#[global] Instance books_proper {A} c : Proper ((≡) ==> eq ==> iff) (books (A := A) c).
Proof.
  intros m m' Hm Q ? <-. unfold books.
  split; intros H W EW w l a s Hr; apply (H W EW w l a s); rewrite <- Hr; [|symmetry]; apply Hm.
Qed.

Lemma balanced_refl c log : opens log = closes log → balanced c c log [].
Proof. unfold balanced. intros ->. rewrite app_nil_r. apply Permutation_app_comm. Qed.

Lemma balanced_trans c1 c2 c3 log1 log2 lost1 lost2 :
  balanced c1 c2 log1 lost1 → balanced c2 c3 log2 lost2 → balanced c1 c3 (log1 ++ log2) (lost1 ++ lost2).
Proof.
  unfold balanced. rewrite opens_app, closes_app. intros H1 H2.
  rewrite app_assoc, H1, <- !app_assoc, (Permutation_app_comm lost1), (app_assoc (held c2)), H2. solve_Permutation.
Qed.

Lemma books_mono {A} c (m : P A) (Q Q' : A → RabbitMQClient → list Channel → Prop) :
  books c m Q → (∀ a c' lost, Q a c' lost → Q' a c' lost) → books c m Q'.
Proof. intros Hm HQ W EW w l a s Hr. destruct (Hm W EW w l a s Hr) as (new & lost & ? & ? & ?). eauto 10. Qed.

Lemma books_ret {A} c (a : A) (Q : A → RabbitMQClient → list Channel → Prop) : Q a c [] → books c (mret a) Q.
Proof.
  intros HQ W EW w l b s. cbn. intros [= <- <-]. exists [], []. rewrite app_nil_r.
  split; [done|]. split; [by apply balanced_refl|done].
Qed.

Lemma books_bind {A B} c (m : P A) (k : A → P B) P1 Q :
  books c m P1 → (∀ a c1 lost1, P1 a c1 lost1 → books c1 (k a) (λ b c2 lost2, Q b c2 (lost1 ++ lost2))) →
  books c (m ≫= k) Q.
Proof.
  intros Hm Hk W EW w l b s. rewrite run_bind. intros (a & [c1 [w1 l1]] & H1 & H2)%bind_done.
  destruct (Hm W EW w l _ _ H1) as (n1 & lost1 & Hl1 & Hb1 & HP). cbn in Hl1, Hb1, HP. subst l1.
  destruct (Hk _ _ _ HP W EW w1 (l ++ n1) _ _ H2) as (n2 & lost2 & Hl2 & Hb2 & HQ).
  exists (n1 ++ n2), (lost1 ++ lost2). rewrite app_assoc. split; [done|]. split; [by eapply balanced_trans|done].
Qed.

Lemma books_get {A B} c (f : RabbitMQClient → A) (k : A → P B) Q : books c (k (f c)) Q → books c (get f ≫= k) Q.
Proof. done. Qed.

Lemma books_bind_ret {A B} c (a : A) (k : A → P B) Q : books c (k a) Q → books c (mret a ≫= k) Q.
Proof. done. Qed.

(** A program that leaves the channels alone. *)
Lemma books_idle {A} c (m : P A) : preserves registries no_channel m → books c m (λ _ c' lost, registries c' = registries c ∧ lost = []).
Proof.
  intros Hm W EW w l a s Hr. destruct (preserves_run _ _ m c w l a s Hm Hr) as (Hv & new & Hl & Hn).
  exists new, []. split; [done|]. split; [|done].
  assert (opens new = [] ∧ closes new = []) as [Ho Hc].
  { clear -Hn. unfold opens, closes. induction Hn as [|e log [H1 H2] _ [IH1 IH2]]; [done|]. cbn. by rewrite H1, H2. }
  unfold balanced, held. rewrite Ho, Hc, !app_nil_r. by injection Hv as -> -> ->.
Qed.

(** A program with a specification. *)
Lemma books_ensures {A} c (m : P A) Q :
  ensures c m (λ a c' log, ∃ lost, balanced c c' log lost ∧ Q a c' lost) → books c m Q.
Proof.
  intros Hm W EW w l a s Hr. destruct (Hm W EW w l) as (a' & c' & w' & new & Hr' & lost & Hb & HQ).
  rewrite Hr' in Hr. simplify_eq/=. by exists new, lost.
Qed.

(** Both at once. *)
Lemma ensures_books {A} c (m : P A) Q1 Q2 :
  ensures c m Q1 → books c m Q2 → ensures c m (λ a c' log, Q1 a c' log ∧ ∃ lost, balanced c c' log lost ∧ Q2 a c' lost).
Proof.
  intros H1 H2 W EW w l. destruct (H1 W EW w l) as (a & c' & w' & new & Hr & HQ1).
  destruct (H2 W EW w l _ _ Hr) as (new' & lost & Hl & Hb & HQ2). cbn in Hl. apply app_inv_head in Hl as <-.
  exists a, c', w', new. eauto.
Qed.

Definition any {A} (_ : A) c (_ : list Channel) : Prop := True.

Lemma books_any {A} c (m : P A) Q : books c m Q → books c m any.
Proof. intros Hm. by eapply books_mono. Qed.

Lemma books_idle_any {A} c (m : P A) : preserves registries no_channel m → books c m any.
Proof. intros Hm. by eapply books_any, books_idle. Qed.

Lemma books_bind_any {A B} c (m : P A) (k : A → P B) : books c m any → (∀ a c1, books c1 (k a) any) → books c (m ≫= k) any.
Proof. intros Hm Hk. by eapply books_bind. Qed.

(** *** The maps and the slots *)

Lemma map_channels_insert (m : gmap string (option Channel)) name ch :
  map_channels (<[name := Some ch]> m) ≡ₚ ch :: map_channels (delete name m).
Proof. unfold map_channels. by rewrite <- insert_delete_eq, map_to_list_insert by apply lookup_delete_eq. Qed.

Lemma map_channels_delete (m : gmap string (option Channel)) name :
  map_channels m ≡ₚ option_list (m !! name ≫= id) ++ map_channels (delete name m).
Proof.
  destruct (m !! name) as [o|] eqn:Hm; [|by rewrite delete_id].
  rewrite <- (insert_delete_id m name o Hm) at 1. unfold map_channels.
  rewrite map_to_list_insert by apply lookup_delete_eq. by destruct o.
Qed.

Lemma channels_of_return (ls : list (option loop)) i l :
  ls !! i = Some (Some l) → channels_of ls ≡ₚ l_ch l :: channels_of (<[i := None]> ls).
Proof.
  intros Hi. rewrite <- (take_drop_middle ls i _ Hi) at 1. rewrite insert_take_drop by (by apply lookup_lt_is_Some; eexists).
  unfold channels_of. rewrite !omap_app, !fmap_app. cbn. solve_Permutation.
Qed.

(** *** Creating the registered channels *)

Section create.
Context {A : Type} `{KA : !ChannelKind A} (rest : RabbitMQClient → list Channel).
Context (Hheld : ∀ m c, held (k_set (A := A) m c) ≡ₚ map_channels m ++ rest c).
Context (Hnone : ∀ c (x : A), connection c = None → books c (k_create x) (λ _ c' lost, c' = c ∧ lost = [])).
Implicit Types x : A.

(** One instance: a channel is lost only by overwriting. *)
Lemma create_books c x :
  books c (k_create x) (λ _ c' lost, ∃ m, c' = k_set (A := A) m c ∧
    (∀ name, name ≠ k_name x → m !! name = k_map (A := A) c !! name) ∧ (k_map (A := A) c !! k_name x = None → lost = [])).
Proof.
  destruct (connection c) as [conn|] eqn:Hc; cycle 1.
  { eapply books_mono; [by apply Hnone|]. intros r c' lost [-> ->]. exists (k_map (A := A) c). by rewrite k_set_map. }
  apply books_ensures. eapply ensures_mono; [by apply k_create_spec|]. intros r c' log Hr. cbn beta in Hr.
  assert (c' = c ∧ opens log = closes log ∨
          ∃ ch, log = k_session x conn ch ∧ c' = k_set (<[k_name x := Some ch]> (k_map c)) c) as [[-> Ho]|(ch & -> & ->)].
  { destruct (k_validate x); [destruct Hr as (_ & -> & ->); by left|]. destruct r; [destruct Hr as (-> & _ & ?); by left|by right]. }
  - exists []. split; [by apply balanced_refl|]. exists (k_map (A := A) c). by rewrite k_set_map.
  - exists (option_list (k_map (A := A) c !! k_name x ≫= id)). destruct (k_session_opens x conn ch) as [Ho Hcl]. split.
    + unfold balanced. rewrite Ho, Hcl, Hheld, map_channels_insert. rewrite <- (k_set_map (A := A) c) at 1.
      rewrite Hheld, (map_channels_delete _ (k_name x)). cbn. solve_Permutation.
    + eexists. split; [done|]. split; [intros name Hn; by rewrite lookup_insert_ne|by intros ->].
Qed.

(** All of them: none is lost if the names are distinct and were free. *)
Lemma initialize_loop_books c pre xs :
  books c (initialize_loop pre xs) (λ _ c' lost, ∃ m, c' = k_set (A := A) m c ∧
    (NoDup (k_name <$> xs) → (∀ name, name ∈ k_name <$> xs → k_map (A := A) c !! name = None) → lost = [])).
Proof.
  unfold initialize_loop. revert c. induction xs as [|x xs IH]; intros c; cbn [for_each].
  - apply books_ret. exists (k_map (A := A) c). by rewrite k_set_map.
  - unfold on_err. rewrite bind_assoc. eapply books_bind; [apply create_books|]. intros r c1 lost1 (m & -> & Hother & Hl1).
    destruct r as [e|].
    + apply books_ret. rewrite app_nil_r. exists m. split; [done|]. intros _ Hfree. apply Hl1, Hfree. cbn. by left.
    + cbn. eapply books_mono; [apply IH|]. intros r c2 lost2 (m2 & -> & Hl2). rewrite k_map_set, k_set_set in *.
      exists m2. split; [done|]. cbn. intros [Hx Hnd]%NoDup_cons Hfree. rewrite Hl1 by (apply Hfree; by left). cbn.
      apply Hl2; [done|]. intros name Hn. rewrite Hother by (by intros ->). apply Hfree. by right.
Qed.

End create.

Lemma createProducer_none c p : connection c = None → books c (createProducer p : P _) (λ _ c' lost, c' = c ∧ lost = []).
Proof.
  intros Hc. unfold createProducer, connection_Channel. destruct (validate_producer p); [by apply books_ret|].
  intros W EW w l a s. cbn. by rewrite Hc.
Qed.

Lemma createConsumer_none c x : connection c = None → books c (createConsumer x : P _) (λ _ c' lost, c' = c ∧ lost = []).
Proof.
  intros Hc. unfold createConsumer, connection_Channel. destruct (validate_consumer x); [by apply books_ret|].
  intros W EW w l a s. cbn. by rewrite Hc.
Qed.

Lemma initializeProducers_books c :
  books c (initializeProducers : P _) (λ _ c' lost, ∃ m, c' = set_producers m c ∧
    ∀ ps, GetEnabledProducers (config c) = Done ps → NoDup (p_Name <$> ps) →
      (∀ name, name ∈ p_Name <$> ps → producers c !! name = None) → lost = []).
Proof.
  unfold initializeProducers. apply books_get. destruct (GetEnabledProducers (config c)) as [ps| |]; [|by intros W EW w l a s..].
  cbn [from_outcome]. apply books_bind_ret. eapply books_mono;
    [eapply (initialize_loop_books (KA := producer_kind) (λ c, map_channels (consumers c) ++ channels_of (loops c)) _ _ c "failed to create producer " ps)|].
  Unshelve. 2: done. 2: apply createProducer_none.
  intros r c' lost (m & -> & Hl). exists m. split; [done|]. by intros ps' [= <-].
Qed.

Lemma initializeConsumers_books c :
  books c (initializeConsumers : P _) (λ _ c' lost, ∃ m, c' = set_consumers m c ∧
    ∀ xs, GetEnabledConsumers (config c) = Done xs → NoDup (c_Name <$> xs) →
      (∀ name, name ∈ c_Name <$> xs → consumers c !! name = None) → lost = []).
Proof.
  unfold initializeConsumers. apply books_get. destruct (GetEnabledConsumers (config c)) as [xs| |]; [|by intros W EW w l a s..].
  cbn [from_outcome]. apply books_bind_ret. eapply books_mono;
    [eapply (initialize_loop_books (KA := consumer_kind) (λ c, map_channels (producers c) ++ channels_of (loops c)) _ _ c "failed to create consumer " xs)|].
  Unshelve. 2: { intros m c1. unfold held. cbn. solve_Permutation. } 2: apply createConsumer_none.
  intros r c' lost (m & -> & Hl). exists m. split; [done|]. by intros xs' [= <-].
Qed.

(** *** Loops, probes and registries *)

(** Only the loops have changed. *)
Definition same_registries c c' : Prop := producers c' = producers c ∧ consumers c' = consumers c.

(** A program that only opens channels for loops and closes the channels of loops. *)
Definition loops_only {A} c (_ : A) c' (lost : list Channel) : Prop := same_registries c c' ∧ lost = [].

Lemma startDispatchLoop_books ctx name q h c : books c (startDispatchLoop ctx name q h : P _) (loops_only c).
Proof.
  destruct (consumer_settings (Consumers (config c)) name) as [[autoAck prefetch]| |] eqn:Hs.
  2, 3: by intros W EW w l a s; cbn; rewrite Hs.
  apply books_ensures. eapply ensures_mono; [by apply startDispatchLoop_spec|]. intros r c' log Hr. exists [].
  destruct r as [e|]; cbn in Hr; [destruct Hr as (-> & Ho & _); split; [by apply balanced_refl|done]|].
  destruct Hr as (conn & ch & dl & _ & -> & ->). split; [|done].
  unfold balanced, subscription_session, held, channels_of. cbn. rewrite omap_app, fmap_app. cbn.
  case_bool_decide; cbn; solve_Permutation.
Qed.

Lemma moved_books {A} c (m : P A) : ensures c m (λ _ c' log, loops_moved c c' log) → books c m (loops_only c).
Proof.
  intros Hm. apply books_ensures. eapply ensures_mono; [exact Hm|]. intros a c' log (mt & ls & k & -> & _ & [Ho _] & Hcl & _).
  exists []. split; [|done]. unfold balanced, held. cbn. rewrite Ho, <- Hcl. solve_Permutation.
Qed.

Lemma loop_step_books i ev c : books c (loop_step i ev : P _) (loops_only c).
Proof. apply moved_books, loop_step_moves. Qed.

Lemma connectionProbe_books c : books c (connectionProbe : P _) (λ _ c' lost, c' = c ∧ lost = []).
Proof.
  apply books_ensures. unfold connectionProbe, conn_IsClosed. go_exec; exists []; (split; [by apply balanced_refl|done]).
Qed.

Lemma health_tick_books h c : books c (health_tick h : P _) (loops_only c).
Proof.
  unfold health_tick, HC.performHealthCheck.
  eapply books_bind; [apply books_idle, checker_at_idle|]. intros pr c1 lost1 [[= Hp Hc Hl] ->].
  eapply books_bind.
  { apply (books_mono _ _ (λ _ c' lost, c' = c1 ∧ lost = [])); [|intros e c' lost H; exact H].
    destruct pr as [fn|]; [apply connectionProbe_books|by apply books_ret]. }
  intros e c2 lost2 [-> ->]. eapply books_mono; [apply books_idle|].
  - apply preserves_bind; [intros t; split; [done|exact I]|]. intros t. apply checker_at_idle.
  - intros [] c' lost [[= Hp2 Hc2 _] ->]. split; [|done]. split; congruence.
Qed.

(** Closing the channels of a registry and emptying it loses none. *)
Lemma close_last_registry_books c m clear :
  held c ≡ₚ map_channels m ++ held (clear c) →
  books c (close_channels m ;; put clear : P _) (λ _ c' lost, c' = clear c ∧ lost = []).
Proof.
  intros Hheld. apply books_ensures. eapply ensures_bind; [apply close_channels_spec|].
  intros [] c1 n1 (-> & [Ho _] & Hcl). go_run. exists []. split; [|done].
  unfold balanced. by rewrite !app_nil_r, Ho, app_nil_r, Hcl, Hheld.
Qed.

Lemma close_registry_books {A} c m clear (k : P A) Q :
  held c ≡ₚ map_channels m ++ held (clear c) →
  books (clear c) k Q → books c (close_channels m ;; put clear ;; k) Q.
Proof.
  intros Hheld Hk. rewrite <- bind_assoc. eapply books_bind; [by apply close_last_registry_books|].
  by intros [] c1 lost1 [-> ->].
Qed.

(** *** Every operation *)

#[local] Hint Resolve publishRuntimeContract_idle dial_idle connect_idle CheckHealth_idle register_resources_idle not_ready_idle
  start_health_checker_idle start_connection_manager_idle PublishMessage_idle PublishMessageWith_idle first_entry_idle
  InitializeResources_idle signal_stop_idle close_connection_idle method_manager_idle manager_at_idle : preserves.

(** Follow a program of which nothing but its ledger matters. *)
Ltac go_books :=
  repeat (cbn beta iota; lazymatch goal with
  | |- books _ (mret _) any => by apply books_ret
  | |- books _ (get _ ≫= _) any => apply books_get
  | |- books _ (on_err _ _ _) any => unfold on_err
  | |- books _ (from_outcome _) any => apply books_idle_any, preserves_from_outcome
  | |- books _ (close_channels _ ≫= _) any =>
      first [apply close_registry_books; [|] | eapply books_any, close_last_registry_books]; [unfold held; cbn; solve_Permutation|..]
  | |- books _ (_ ≫= _) any => apply books_bind_any; [|intros ? ?]
  | |- books _ (match ?x with _ => _ end) any => destruct x
  end); try solve [auto with books | apply books_idle_any; auto with preserves | apply books_idle_any; go_preserves].

Lemma for_all_books {A} (body : A → P unit) l c : (∀ x c', books c' (body x) any) → books c (for_all body l) any.
Proof. intros Hb. revert c. induction l as [|x l IH]; intros c; cbn [for_all]; [by apply books_ret|]. by apply books_bind_any. Qed.

Lemma for_each_books {A X} (body : A → P (option X)) l c : (∀ x c', books c' (body x) any) → books c (for_each body l) any.
Proof.
  intros Hb. revert c. induction l as [|x l IH]; intros c; cbn [for_each]; [by apply books_ret|].
  apply books_bind_any; [done|]. intros [e|] c1; [by apply books_ret|done].
Qed.

(** A registry that is dropped: its channels are lost. *)
Lemma drop_registry_books {A} c f lost (k : P A) :
  held c ≡ₚ held (f c) ++ lost → books (f c) k any → books c (put f ;; k) any.
Proof.
  intros Hheld Hk. apply (books_bind _ _ _ (λ _ c' _, c' = f c)); [|by intros [] c1 lost1 ->].
  intros W EW w l a s. cbn. intros [= <- <-]. exists [], lost. rewrite app_nil_r. split; [done|]. split; [|done].
  unfold balanced. cbn. by rewrite app_nil_r.
Qed.

Lemma rebuild_books c : books c (rebuildAfterReconnect : P _) any.
Proof.
  unfold rebuildAfterReconnect.
  apply (drop_registry_books _ _ (map_channels (producers c))); [unfold held; cbn; solve_Permutation|].
  apply (drop_registry_books _ _ (map_channels (consumers c))); [unfold held; cbn; solve_Permutation|].
  go_books; [by eapply books_any, initializeProducers_books|by eapply books_any, initializeConsumers_books|].
  apply for_each_books. intros sub c'. unfold restart_subscription. go_books; eapply books_any, startDispatchLoop_books.
Qed.
#[local] Hint Resolve rebuild_books : books.

Lemma call_reconnect_books fn c : books c (call_reconnect fn : P _) any.
Proof. unfold call_reconnect. go_books. Qed.

Lemma startup_books ctx c : books c (startupWithContext ctx : P _) any.
Proof.
  unfold startupWithContext. go_books; [by eapply books_any, initializeProducers_books|by eapply books_any, initializeConsumers_books].
Qed.

Lemma subscribeWithChannel_books ctx name q h c : books c (subscribeWithChannel ctx name q h : P _) any.
Proof. unfold subscribeWithChannel. go_books. eapply books_any, startDispatchLoop_books. Qed.

Lemma cleanup_books ctx sched c : books c (cleanupWithContext ctx sched : P _) any.
Proof.
  rewrite cleanupWithContext_parts. unfold drain_and_close, subscriptionWG_Wait, goroutinePool_Wait.
  go_books. apply for_all_books. intros. eapply books_any, loop_step_books.
Qed.
#[local] Hint Resolve call_reconnect_books startup_books subscribeWithChannel_books cleanup_books : books.

Lemma run_op_books o c : books c (run_op o : P _) any.
Proof.
  destruct o; cbn [run_op];
    unfold StartContext, StopContext, Subscribe, SubscribeWith, IsConnected, force_reconnect, client_ForceReconnect,
      CM.ForceReconnect, goroutine_step, watch_notified, watch_attempt;
    go_books; eapply books_any; solve [apply loop_step_books | apply health_tick_books].
Qed.

Lemma run_ops_books ops c : books c (run_ops ops : P _) any.
Proof. apply for_all_books, run_op_books. Qed.

(** ** Nothing is closed twice *)

(** C7: over any sequence of operations (initialization, starts, stops, reconnects,
    publishes, subscriptions, goroutine steps) on a new client, in every
    environment: the channels closed, those registered and those owned by running
    dispatch loops are, counted together, among the channels opened.  So no channel
    is closed more often than it was opened, none the client did not open is
    closed, and none that was closed is still registered or consumed from. *)
Theorem channels_closed_at_most_once {W} `{!Env W} (ops : list op) (w : W) :
  match run (run_ops ops) (mkSys NewRabbitMQClient (w, [])) with
  | Done (_, s) => closes (snd (world s)) ++ held (cl s) ⊆+ opens (snd (world s))
  | Panicked => False
  | Blocked => Exists (λ o, drops o = true) ops
  end.
Proof.
  pose proof (run_ops_alone ops NewRabbitMQClient (w, []) fresh_consistent) as H.
  destruct (run (run_ops ops) _) as [[[] s]| |] eqn:Hr; [|done..].
  destruct (run_ops_books ops _ _ _ _ _ _ _ Hr) as (new & lost & -> & Hb & _). cbn. unfold balanced in Hb.
  cbn in Hb. rewrite Hb, app_assoc. apply submseteq_inserts_r, reflexivity.
Qed.

(** ** A life without reconnects loses nothing *)

(** Operations of a client that is up and keeps its connection. *)
Definition steady (o : op) : bool :=
  match o with
  | OpInitialize _ | OpStart _ | OpStop _ _ | OpForceReconnect | OpGoroutine _ GAttempt => false
  | _ => true
  end.

Definition none {A} (_ : A) c (lost : list Channel) : Prop := lost = [].

Lemma books_none {A} c (m : P A) Q : books c m Q → (∀ a c' lost, Q a c' lost → lost = []) → books c m none.
Proof. apply books_mono. Qed.

Lemma books_idle_none {A} c (m : P A) : preserves registries no_channel m → books c m none.
Proof. intros Hm. eapply books_none; [by apply books_idle|]. by intros a c' lost [_ ->]. Qed.

Lemma books_bind_none {A B} c (m : P A) (k : A → P B) : books c m none → (∀ a c1, books c1 (k a) none) → books c (m ≫= k) none.
Proof. intros Hm Hk. eapply books_bind; [exact Hm|]. by intros a c1 lost1 ->. Qed.

Lemma loops_only_none {A} c (m : P A) : books c m (loops_only c) → books c m none.
Proof. intros Hm. eapply books_none; [exact Hm|]. by intros a c' lost [_ ->]. Qed.

Ltac go_none :=
  repeat (cbn beta iota; lazymatch goal with
  | |- books _ (mret _) none => by apply books_ret
  | |- books _ (get _ ≫= _) none => apply books_get
  | |- books _ (on_err _ _ _) none => unfold on_err
  | |- books _ (_ ≫= _) none => apply books_bind_none; [|intros ? ?]
  | |- books _ (match ?x with _ => _ end) none => destruct x; try discriminate
  end); try solve [auto with books | apply books_idle_none; auto with preserves | apply books_idle_none; go_preserves].

Lemma subscribeWithChannel_none ctx name q h c : books c (subscribeWithChannel ctx name q h : P _) none.
Proof. unfold subscribeWithChannel. go_none. apply loops_only_none, startDispatchLoop_books. Qed.
#[local] Hint Resolve subscribeWithChannel_none : books.

Lemma steady_books o c : steady o = true → books c (run_op o : P _) none.
Proof.
  intros Ho. destruct o; try discriminate; cbn [run_op]; unfold Subscribe, SubscribeWith, IsConnected, goroutine_step, watch_notified;
    go_none; apply loops_only_none; solve [apply loop_step_books | apply health_tick_books].
Qed.

Lemma steady_ops_books ops c : Forall (λ o, steady o = true) ops → books c (run_ops ops : P _) none.
Proof.
  intros Hops. revert c. induction Hops as [|o ops Ho _ IH]; intros c; [by apply books_ret|].
  apply books_bind_none; [by apply steady_books|done].
Qed.

(** *** The start *)

(** The registries with the configuration they are made from. *)
Definition settled c := (registries c, config c).

Lemma books_settled {A} c (m : P A) : preserves settled no_channel m → books c m (λ _ c' lost, settled c' = settled c ∧ lost = []).
Proof.
  intros Hm W EW w l a s Hr. destruct (preserves_run _ _ m c w l a s Hm Hr) as (Hv & _).
  assert (preserves registries no_channel m) as Hi by (eapply preserves_weaken; [|exact Hm]; intros c1 c2 [=]; unfold registries; congruence).
  destruct (books_idle c m Hi W EW w l a s Hr) as (new & lost & ? & ? & _ & ->). eauto 10.
Qed.

Lemma on_err_settled {X} c (m : P (option X)) wrap k :
  preserves settled no_channel m → (∀ e c1, books c1 (wrap e) none) → (∀ c1, settled c1 = settled c → books c1 k none) →
  books c (on_err m wrap k) none.
Proof.
  intros Hm Hw Hk. eapply books_bind; [by apply books_settled|]. intros [e|] c1 lost1 [Hc1 ->]; [apply Hw|by apply Hk].
Qed.

Lemma ctx_Err_settled ctx : preserves settled no_channel (ctx_Err ctx : P _).
Proof. go_preserves. Qed.

Lemma publishRuntimeContract_settled ready healthy : preserves settled no_channel (publishRuntimeContract ready healthy : P _).
Proof. unfold publishRuntimeContract. go_preserves. Qed.

Lemma connect_settled : preserves settled no_channel (connect : P _).
Proof. unfold connect, dial, set_reconnect_func, set_connection_notify. go_preserves; by apply preserves_manager. Qed.

(** Starting with empty registries loses nothing if the names are distinct. *)
Lemma startup_none ctx c ps xs :
  producers c = ∅ → consumers c = ∅ →
  GetEnabledProducers (config c) = Done ps → NoDup (p_Name <$> ps) →
  GetEnabledConsumers (config c) = Done xs → NoDup (c_Name <$> xs) →
  books c (startupWithContext ctx : P _) none.
Proof.
  intros Hp Hc Hps Hndp Hxs Hndx. unfold startupWithContext.
  assert (∀ err c1, books c1 (not_ready err : P _) none) as Hnot by (intros; apply books_idle_none, not_ready_idle).
  apply on_err_settled; [apply ctx_Err_settled|by intros; apply books_ret|]. intros c1 H1.
  eapply books_bind; [apply books_settled, publishRuntimeContract_settled|]. intros [] c2 lost2 [H2 ->].
  apply on_err_settled; [apply connect_settled|done|]. intros c3 H3.
  apply on_err_settled; [apply ctx_Err_settled|done|]. intros c4 H4.
  assert (settled c4 = settled c) as [= Hp4 Hc4 Hl4 Hcfg4] by congruence.
  eapply books_bind; [apply initializeProducers_books|]. intros r c5 lost5 (m & -> & Hl5).
  rewrite (Hl5 ps) by (rewrite ?Hcfg4, ?Hp4, ?Hp; done || (intros; apply lookup_empty)). destruct r as [e|]; [by apply Hnot|].
  apply on_err_settled; [apply ctx_Err_settled|done|]. intros c6 [= Hp6 Hc6 Hl6 Hcfg6].
  eapply books_bind; [apply initializeConsumers_books|]. intros r c7 lost7 (m' & -> & Hl7).
  rewrite (Hl7 xs) by (rewrite ?Hcfg6, ?Hcfg4, ?Hc6, ?Hc4, ?Hc; done || (intros; apply lookup_empty)). destruct r as [e|]; [by apply Hnot|].
  go_none.
Qed.

(** *** The connection *)

(** The flags that guard the close operations. *)
Definition flags c :=
  (closeChan c, closeOnce c, (λ h : Checker, (HC.stopChan h, HC.stopOnce h, HC.stopped h)) <$> healthChecker c,
   (λ m : Manager, (CM.stopChan m, CM.stopped m)) <$> connectionManager c).

Definition wiring c := (connection c, flags c).
Notation wired := (preserves wiring no_connection).

(** The connections dialled are those the client holds now; none has been closed. *)
Definition carried c c' (log : list entry) : Prop :=
  conn_closes log = [] ∧ flags c' = flags c ∧ option_list (connection c') = option_list (connection c) ++ dials log.

Definition wires {A} c (m : P A) : Prop :=
  ∀ W (EW : Env W) (w : W) l a s, run m (mkSys c (w, l)) = Done (a, s) → ∃ new, snd (world s) = l ++ new ∧ carried c (cl s) new.

Lemma conn_closes_app l1 l2 : conn_closes (l1 ++ l2) = conn_closes l1 ++ conn_closes l2.
Proof. apply bind_app. Qed.

Lemma dials_app l1 l2 : dials (l1 ++ l2) = dials l1 ++ dials l2.
Proof. apply bind_app. Qed.

Lemma carried_trans c1 c2 c3 n1 n2 : carried c1 c2 n1 → carried c2 c3 n2 → carried c1 c3 (n1 ++ n2).
Proof.
  unfold carried. rewrite conn_closes_app, dials_app. intros (-> & -> & Hd1) (-> & -> & ->). by rewrite Hd1, app_assoc.
Qed.

Lemma preserves_carried {A} c (m : P A) {W} `{!Env W} (w : W) l a s :
  wired m → run m (mkSys c (w, l)) = Done (a, s) →
  connection (cl s) = connection c ∧ ∃ new, snd (world s) = l ++ new ∧ carried c (cl s) new.
Proof.
  intros Hm Hr. destruct (preserves_run _ _ m c w l a s Hm Hr) as (Hv & new & Hl & Hn). unfold wiring in Hv.
  apply pair_eq in Hv as [Hc Hf]. apply no_connection_log in Hn as (Hd & Hcl & _). split; [done|]. exists new. split; [done|].
  unfold carried. by rewrite Hd, app_nil_r, Hc.
Qed.

Lemma wires_preserves {A} c (m : P A) : wired m → wires c m.
Proof. intros Hm W EW w l a s Hr. by destruct (preserves_carried c m w l a s Hm Hr). Qed.

(** Until it dials, the client has no connection. *)
Lemma wires_bind_preserves {A B} c (m : P A) (k : A → P B) :
  wired m → (∀ a c1, connection c1 = connection c → wires c1 (k a)) → wires c (m ≫= k).
Proof.
  intros Hm Hk W EW w l b s. rewrite run_bind. intros (a & [c1 [w1 l1]] & H1 & H2)%bind_done.
  destruct (preserves_carried c m w l _ _ Hm H1) as (Hcn & n1 & Hl1 & Hc1). cbn in Hcn, Hl1, Hc1. subst l1.
  destruct (Hk a c1 Hcn W EW w1 (l ++ n1) _ _ H2) as (n2 & Hl2 & Hc2).
  exists (n1 ++ n2). rewrite app_assoc. split; [done|by eapply carried_trans].
Qed.

Lemma wires_bind {A B} c (m : P A) (k : A → P B) : wires c m → (∀ a c1, wires c1 (k a)) → wires c (m ≫= k).
Proof.
  intros Hm Hk W EW w l b s. rewrite run_bind. intros (a & [c1 [w1 l1]] & H1 & H2)%bind_done.
  destruct (Hm W EW w l _ _ H1) as (n1 & Hl1 & Hc1). cbn in Hl1, Hc1. subst l1.
  destruct (Hk a c1 W EW w1 (l ++ n1) _ _ H2) as (n2 & Hl2 & Hc2).
  exists (n1 ++ n2). rewrite app_assoc. split; [done|by eapply carried_trans].
Qed.

Lemma wires_ensures {A} c (m : P A) : ensures c m (λ _ c' log, carried c c' log) → wires c m.
Proof.
  intros Hm W EW w l a s Hr. destruct (Hm W EW w l) as (a' & c' & w' & new & Hr' & HQ).
  rewrite Hr' in Hr. injection Hr as <- <-. by exists new.
Qed.

Lemma connect_wires c : connection c = None → wires c (connect : P _).
Proof.
  intros Hc. apply wires_ensures. unfold connect, carried. eapply ensures_bind; [apply dial_spec|]. intros r c1 n1 [-> Hd].
  unfold dialled in Hd. destruct (Urls (config c)) as [|url0 urls] eqn:Hu.
  { destruct Hd as [-> ->]. go_run. by rewrite Hc. }
  destruct Hd as [(_ & -> & e & ->)|(_ & a & -> & ->)]; [go_run; by rewrite Hc|].
  destruct a as [conn|e]; [|go_run; by rewrite Hc]. unfold set_reconnect_func, set_connection_notify. go_run.
  cbn [connectionManager set_connection]. destruct (connectionManager c) as [m|] eqn:Hm.
  - go_run. eapply ensures_bind_manager; [exact Hm|reflexivity|]. go_run. eapply ensures_bind_manager; [reflexivity|reflexivity|]. go_run.
    cbn [config set_connection set_connectionManager]. rewrite Hu. go_run. rewrite Hc. split; [done|]. split; [|done].
    unfold flags. cbn. by rewrite Hm.
  - go_run. cbn [config set_connection]. rewrite Hu. go_run. by rewrite Hc.
Qed.

Lemma method_manager_wired {B} (f : Manager → B * Manager) :
  (∀ m, CM.stopChan (snd (f m)) = CM.stopChan m ∧ CM.stopped (snd (f m)) = CM.stopped m) → wired (method f : P B).
Proof.
  intros Hf. apply preserves_manager. intros c m b m' Hm [= Hb]. unfold wiring, flags. cbn. rewrite Hm. cbn.
  destruct (Hf m) as [H1 H2]. rewrite Hb in H1, H2. cbn in H1, H2. by rewrite H1, H2.
Qed.

Lemma method_checker_wired {B} (f : Checker → B * Checker) :
  (∀ h, (HC.stopChan (snd (f h)), HC.stopOnce (snd (f h)), HC.stopped (snd (f h))) = (HC.stopChan h, HC.stopOnce h, HC.stopped h)) →
  wired (method f : P B).
Proof.
  intros Hf. apply preserves_checker. intros c h b h' Hh [= Hb]. unfold wiring, flags. cbn. rewrite Hh. cbn.
  specialize (Hf h). rewrite Hb in Hf. cbn in Hf. by rewrite Hf.
Qed.

Lemma publishRuntimeContract_wired ready healthy : wired (publishRuntimeContract ready healthy : P _).
Proof. unfold publishRuntimeContract. go_preserves. Qed.

Lemma createProducer_wired p : wired (createProducer p : P _).
Proof. unfold createProducer, connection_Channel, setup_producer. go_preserves. Qed.

Lemma createConsumer_wired x : wired (createConsumer x : P _).
Proof. unfold createConsumer, connection_Channel, setup_consumer. go_preserves. Qed.
#[local] Hint Resolve publishRuntimeContract_wired createProducer_wired createConsumer_wired : preserves.

Lemma not_ready_wired err : wired (not_ready err : P _).
Proof. unfold not_ready. go_preserves. Qed.

Lemma initializeProducers_wired : wired (initializeProducers : P _).
Proof. unfold initializeProducers. go_preserves. Qed.

Lemma initializeConsumers_wired : wired (initializeConsumers : P _).
Proof. unfold initializeConsumers. go_preserves. Qed.

Lemma start_health_checker_wired : wired (start_health_checker : P _).
Proof. unfold start_health_checker. go_preserves. by apply method_checker_wired. Qed.

Lemma start_connection_manager_wired : wired (start_connection_manager : P _).
Proof. unfold start_connection_manager. go_preserves. by apply method_manager_wired. Qed.

Lemma register_resources_wired : wired (register_resources : P _).
Proof. unfold register_resources, registerRuntimePluginAlias, register_private_resources, register_private. go_preserves. Qed.

Lemma CheckHealth_wired : wired (CheckHealth : P _).
Proof. unfold CheckHealth, check_ready. go_preserves. Qed.
#[local] Hint Resolve not_ready_wired initializeProducers_wired initializeConsumers_wired start_health_checker_wired
  start_connection_manager_wired register_resources_wired CheckHealth_wired : preserves.

Lemma startup_wires ctx c : connection c = None → wires c (startupWithContext ctx : P _).
Proof.
  intros Hc. unfold startupWithContext. unfold on_err at 1. apply wires_bind_preserves; [go_preserves|].
  intros [e|] c1 H1; [by apply wires_preserves|]. apply wires_bind_preserves; [go_preserves|]. intros [] c2 H2.
  unfold on_err at 1. apply wires_bind; [apply connect_wires; congruence|]. intros [e|] c3; [apply wires_preserves; go_preserves|].
  apply wires_preserves. go_preserves.
Qed.

Lemma publishToChannel_wired ctx ch ex rk body opts : wired (publishToChannel ctx ch ex rk body opts : P _).
Proof. unfold publishToChannel. go_preserves. Qed.

Lemma subscribeWithChannel_wired ctx name q h : wired (subscribeWithChannel ctx name q h : P _).
Proof. unfold subscribeWithChannel, startDispatchLoop. go_preserves. Qed.

Lemma loop_step_wired i ev : wired (loop_step i ev : P _).
Proof. unfold loop_step, loop_case, loop_return, dispatchDelivery. go_preserves. Qed.

Lemma health_tick_wired h : wired (health_tick h : P _).
Proof.
  unfold health_tick, HC.performHealthCheck, call_probe, connectionProbe. go_preserves; (apply preserves_checker_at; [apply method_checker_wired|done]); [done|].
  by intros x; destruct a0.
Qed.
#[local] Hint Resolve publishToChannel_wired subscribeWithChannel_wired loop_step_wired health_tick_wired : preserves.

Lemma steady_wired o : steady o = true → wired (run_op o : P _).
Proof.
  intros Ho. destruct o; try discriminate; cbn [run_op];
    unfold PublishMessage, PublishMessageWith, Subscribe, SubscribeWith, first_entry, IsConnected, goroutine_step, watch_notified.
  all: go_preserves; try discriminate. apply preserves_manager_at; [by apply method_manager_wired|done].
Qed.

Lemma steady_ops_wired ops : Forall (λ o, steady o = true) ops → wired (run_ops ops : P _).
Proof. intros Hops. induction Hops as [|o ops Ho _ IH]; [done|]. apply preserves_bind; [by apply steady_wired|by intros []]. Qed.

Lemma stoppable_flags c c' : flags c' = flags c → stoppable c → stoppable c'.
Proof.
  unfold flags, stoppable. intros [= -> -> Hh Hm] (H1 & H2 & H3). split; [done|]. split.
  - intros h' Hh'. rewrite Hh' in Hh. destruct (healthChecker c) as [h|]; [|done]. cbn in Hh. injection Hh as -> -> ->. by apply H2.
  - intros m' Hm'. rewrite Hm' in Hm. destruct (connectionManager c) as [m|]; [|done]. cbn in Hm. injection Hm as -> ->. by apply H3.
Qed.

(** *** The end *)

(** A shutdown during which, at the latest after the steps of [sched], every
    dispatch goroutine sees the closed channel. *)
Definition shutdown (sched : list (nat * loop_event)) : P (option error) :=
  c ← get (λ c, c);
  CleanupTasks (draining c sched).

Lemma drain_and_close_carries sched : preserves connection no_connection (drain_and_close sched : P _).
Proof.
  unfold drain_and_close, subscriptionWG_Wait, goroutinePool_Wait, close_channels, loop_step, loop_case, loop_return, dispatchDelivery.
  go_preserves.
Qed.

Lemma signal_stop_carries : preserves connection no_connection (signal_stop : P _).
Proof.
  unfold signal_stop, close_closeChan, stop_health_checker, stop_connection_manager.
  go_preserves; [|by apply preserves_checker|by apply preserves_manager].
  apply preserves_sect. intros c x c'. repeat case_match; try done; by intros [= _ <-].
Qed.

(** A shutdown closes the connection the client has, once, and dials none. *)
Lemma CleanupTasks_closes c sched {W} `{!Env W} (w : W) l a s :
  run (CleanupTasks sched : P _) (mkSys c (w, l)) = Done (a, s) →
  ∃ new, snd (world s) = l ++ new ∧ dials new = [] ∧ conn_closes new = option_list (connection c).
Proof.
  unfold CleanupTasks. rewrite (cleanupWithContext_parts Background sched _ _ _). unfold on_err. cbn [ctx_Err]. rewrite run_bind.
  intros (r & [c1 [w1 l1]] & H0 & H)%bind_done. cbn in H0. injection H0 as <- <- <- <-. cbn beta iota in H.
  apply preserves_run_bind with (v := connection) (ok := no_connection) in H as ([] & c1 & w1 & n1 & Hc1 & H1 & H);
    [|unfold publishRuntimeContract; go_preserves].
  apply preserves_run_bind with (v := connection) (ok := no_connection) in H as ([] & c2 & w2 & n2 & Hc2 & H2 & H); [|apply signal_stop_carries].
  apply preserves_run_bind with (v := connection) (ok := no_connection) in H as ([] & c3 & w3 & n3 & Hc3 & H3 & H); [|apply drain_and_close_carries].
  apply no_connection_log in H1 as (Hd1 & Hl1 & _), H2 as (Hd2 & Hl2 & _), H3 as (Hd3 & Hl3 & _).
  destruct (close_connection_spec c3 W _ w3 (((l ++ n1) ++ n2) ++ n3)) as (a' & c4 & w4 & n4 & Hr & HQ). rewrite Hr in H. injection H as <- <-.
  exists (n1 ++ n2 ++ n3 ++ n4). rewrite !dials_app, !conn_closes_app, Hd1, Hl1, Hd2, Hl2, Hd3, Hl3. cbn. rewrite !app_assoc. split; [done|].
  rewrite <- Hc1, <- Hc2, <- Hc3. destruct (connection c3) as [conn|]; [by destruct HQ as (a & -> & _)|by destruct HQ as (_ & _ & ->)].
Qed.

(** *** A client before its start *)

(** Nothing has been opened, and the flags are in order. *)
Definition unstarted c : Prop :=
  consistent c ∧ stoppable c ∧ connection c = None ∧ producers c = ∅ ∧ consumers c = ∅ ∧ loops c = [].

(** The names under which instances are registered differ. *)
Definition distinct_names (cfg : RabbitMQ) : Prop :=
  ∃ ps xs, GetEnabledProducers cfg = Done ps ∧ NoDup (p_Name <$> ps) ∧ GetEnabledConsumers cfg = Done xs ∧ NoDup (c_Name <$> xs).

(** Initializing a new client, with whatever result, leaves it so. *)
Lemma initialize_stoppable runtime c :
  stoppable c → connection c = None → ensures c (InitializeResources runtime : P _) (λ _ c' _, stoppable c' ∧ connection c' = None).
Proof.
  intros (Hcl & Hh & Hm) Hc. unfold InitializeResources, on_err. go_run. destruct a as [e|]; go_run; [done|].
  eapply (ensures_bind _ _ _ (λ _ c' _, c' = set_rt runtime c)).
  { destruct runtime as [r|]; go_run; [|done]. destruct a; by go_run. }
  intros [cfg err] c1 n1 ->. cbn beta iota.
  eapply (ensures_bind _ _ _ (λ _ c' _, c' = set_rt runtime c)); [destruct err; [case_match|]; by go_run|].
  intros [e|] c1 n2 ->; [by go_run|].
  destruct (normalizeRabbitMQConfig (Some cfg)) as [[cfg'|] [e|]] eqn:Hn; go_run; try done; [|by apply normalized_entries in Hn].
  unfold assign_connectionManager, assign_healthChecker. cbn. repeat case_match; cbn;
    (split; [|done]; split; [done|]; split; [by intros ? [= <-]|by intros ? [= <-]]).
Qed.

Lemma initialize_unstarted runtime :
  ensures NewRabbitMQClient (InitializeResources runtime : P _) (λ _ c' _, unstarted c').
Proof.
  intros W EW w l.
  destruct (initialize_stoppable runtime NewRabbitMQClient) with (W := W) (EW := EW) (w := w) (l := l)
    as (r & c' & w' & new & Hr & Hst & Hc); [repeat split; discriminate|done|].
  exists r, c', w', new. split; [done|].
  pose proof (rsafe_alone False False _ _ _ (w, l) (InitializeResources_rsafe (ST := alone False False) runtime NewRabbitMQClient) fresh_consistent) as H.
  rewrite Hr in H. destruct H as [Hi _].
  destruct (preserves_run _ _ _ _ _ _ _ _ (InitializeResources_idle runtime) Hr) as ([= Hp Hcs Hl] & _).
  split; [exact Hi|]. by split.
Qed.

(** From start to shutdown. *)
Definition lifetime ctx ops sched : P (option error) := run_ops (OpStart ctx :: ops) ;; shutdown sched.

(** The first part: what it leaves is in good order, and the books are balanced. *)
Lemma start_and_use ctx ops c :
  unstarted c → distinct_names (config c) → Forall (λ o, steady o = true) ops →
  ensures c (run_ops (OpStart ctx :: ops)) (λ _ c' log, stoppable c' ∧ balanced c c' log [] ∧ carried c c' log).
Proof.
  intros (Hi & Hst & Hcn & Hp & Hc & _) (ps & xs & Hps & Hndp & Hxs & Hndx) Hops W EW w l.
  pose proof (run_ops_alone (OpStart ctx :: ops) c (w, l) Hi) as H.
  destruct (run _ _) as [[[] [c' [w' l']]]| |] eqn:Hr; [clear H|done|].
  - exists tt, c', w'.
    assert (books c (run_ops (OpStart ctx :: ops) : P _) none) as Hb.
    { apply (books_bind_none c (run_op (OpStart ctx))); [|intros [] c1; by apply steady_ops_books].
      apply books_bind_none; [by eapply startup_none|]. intros r c1. by apply books_ret. }
    assert (wires c (run_ops (OpStart ctx :: ops) : P _)) as Hw.
    { apply (wires_bind c (run_op (OpStart ctx))); [|intros [] c1; by apply wires_preserves, steady_ops_wired].
      apply wires_bind; [by apply startup_wires|]. intros r c1. by apply wires_preserves. }
    destruct (Hb W EW w l _ _ Hr) as (new & lost & Hl & Hbal & ->). destruct (Hw W EW w l _ _ Hr) as (new' & Hl' & Hcarry).
    cbn in Hl, Hl', Hbal, Hcarry. subst l'. apply app_inv_head in Hl' as <-. exists new. split; [done|].
    split; [|done]. destruct Hcarry as (_ & Hf & _). by eapply stoppable_flags.
  - exfalso. apply Exists_cons in H as [H|H]; [done|]. apply Exists_exists in H as (o & Ho & Hd).
    rewrite Forall_forall in Hops. specialize (Hops o Ho). by destruct o.
Qed.

Lemma ctx_entries_idle log : Forall ctx_entry log → opens log = [] ∧ closes log = [].
Proof. by induction 1 as [|e log (id & a & ->) _ [IH1 IH2]]. Qed.

(** C6: a life without reconnects leaves nothing open.  An initialized client whose
    enabled producers, and enabled consumers, have distinct names is started (with
    success or not), used in any way (publishing, subscribing, health ticks,
    deliveries, cancelled subscriptions, broken delivery streams), and shut down.
    In every environment this comes to its end; the client is shut; every channel
    it ever opened, for a registry, a subscription or a probe, has been closed
    exactly as often as it was opened; and so has the connection it dialled. *)
Theorem lifetime_leaves_nothing_open ctx ops sched c :
  unstarted c → distinct_names (config c) → Forall (λ o, steady o = true) ops →
  ensures c (lifetime ctx ops sched) (λ _ c' log, shut c' ∧ opens log ≡ₚ closes log ∧ conn_closes log = dials log).
Proof.
  intros Hun Hnames Hops W EW w l. unfold lifetime. rewrite run_bind.
  destruct (start_and_use ctx ops c Hun Hnames Hops W EW w l)
    as ([] & c1 & w1 & n1 & Hr1 & Hst1 & Hb1 & Hcl1 & _ & Hd1).
  destruct (cleanup_spec c1 Background sched Hst1 W EW w1 (l ++ n1)) as (r & c2 & w2 & n2 & Hr2 & [[[] _]|(pre & post & -> & Hpre & Hcleaned)]);
    [done|].
  destruct (CleanupTasks_closes c1 _ w1 (l ++ n1) _ _ Hr2) as (n2' & Hl2 & Hd2 & Hcl2). cbn in Hl2. apply app_inv_head in Hl2 as <-.
  exists r, c2, w2, (n1 ++ pre ++ post). rewrite (bind_eq _ _ _ _ _ Hr1). unfold shutdown. cbn [get]. rewrite app_assoc.
  split; [exact Hr2|]. destruct Hcleaned as (Hshut & _ & Ho2 & Hclose2 & _). apply ctx_entries_idle in Hpre as [Ho Hcl].
  destruct Hun as (_ & _ & Hcn & Hp & Hcs & Hl). split; [done|]. split.
  - rewrite !opens_app, !closes_app, Ho, Ho2, Hcl, Hclose2. unfold balanced, held in Hb1. rewrite Hp, Hcs, Hl in Hb1. cbn in Hb1 |- *.
    rewrite !app_nil_r in *. rewrite Hb1. solve_Permutation.
  - rewrite conn_closes_app, dials_app, Hcl1, Hd2, Hcl2, Hd1, Hcn. cbn. by rewrite app_nil_r.
Qed.

End ledger.

(** ** Witnesses *)

Section witnesses.
Import Sim.

(** The first life, with a reconnect: the two registered channels of the first connection are lost. *)
Example reconnect_loses_channels :
  match run (run_ops (IP := netip) (take 10 life)) (mkSys NewRabbitMQClient (init [] [], [])) with
  | Done (_, s) => (length (opens (snd (world s))), length (closes (snd (world s))), length (held (cl s)))
  | _ => (0, 0, 0)
  end = (7, 5, 0).
Proof. vm_compute. reflexivity. Qed.

(** Two subscriptions, a delivery, a tick, a publish,
    and a delivery stream that ends. *)
Definition some_use : list (op (TY := types)) :=
  [OpSubscribe Background "jobs" (HReturn None : Handler (Types := types));
   OpSubscribe (Derived 3) "jobs" (HReturn None : Handler (Types := types));
   OpLoop 0 (LDelivery (0 : Delivery (Types := types))); OpGoroutine 0 GTick;
   OpPublish Background "" "jobs" "payload" []; OpLoop 1 LDeliveriesClosed; OpCheckHealth].

(** The client after InitializeResources. *)
Definition ready : RabbitMQClient :=
  match run (InitializeResources (Some (tt : Runtime (Types := types)))) (mkSys NewRabbitMQClient (init [] [], [])) with Done (_, s) => cl s | _ => NewRabbitMQClient end.

Lemma ready_unstarted : unstarted ready.
Proof.
  destruct (initialize_unstarted (Some (tt : Runtime (Types := types))) sim env (init [] []) []) as (r & c' & w' & new & Hr & Hun).
  unfold ready. by rewrite Hr.
Qed.

Lemma ready_names : distinct_names (config ready).
Proof.
  exists default_producers, default_consumers. split; [vm_compute; reflexivity|].
  split; [apply (bool_decide_unpack _); vm_compute; exact I|]. split; [vm_compute; reflexivity|].
  apply (bool_decide_unpack _). vm_compute. exact I.
Qed.

Lemma lifetime_leaves_nothing_open_witness :
  ensures ready (lifetime Background some_use []) (λ _ c' log, shut c' ∧ opens log ≡ₚ closes log ∧ conn_closes log = dials log) ∧
  observe (lifetime Background some_use []) ready (init [] []) (λ r c' w log,
    bool_decide (r = None) && bool_decide (length (opens log) = 5) && bool_decide (length (dials log) = 1)) = true ∧
  observe (lifetime Background some_use []) ready (init [false; false; false; true] []) (λ r c' w log,
    bool_decide (length (opens log) = 1) && bool_decide (length (dials log) = 1)) = true.
Proof.
  split; [|split; vm_compute; reflexivity].
  apply (lifetime_leaves_nothing_open Background some_use [] ready ready_unstarted ready_names). repeat constructor.
Defined.

End witnesses.
