(* ===== verification/ClientConcurrency.v ===== *)
(** * The client under concurrency

    Any number of goroutines run the operations of the package, the dispatch loops,
    the health loop and the connection watchers at the same time.  A [machine] is
    the shared client, the programs that are in progress, and where each watcher
    and health loop is.  A label says what happens next: a call begins, a goroutine
    leaves its select, a program in progress executes one critical section or one
    call to the environment, or ends.  [play] executes a list of labels, so that a
    statement about all lists is a statement about all interleavings.

    Critical sections are those of the mutexes, of the atomic fields and of the
    unprotected accesses.  Where the code holds a mutex across several accesses
    (closing the channels and the connection in cleanupWithContext) the model lets
    others run in between: it has more interleavings than the code.  [Stop] of the
    manager and of the checker are one section here; their interleavings are the
    subject of [ConnectionManager] and [HealthChecker]. *)

From stdpp Require Import fin_maps.
From S2P Require Import Prelude Errors Constants Utils Config Metrics HealthChecker ConnectionManager Env Program NetUrl Sim Retry Client Logic ClientSetup ClientMessaging ClientLifecycle ClientInvariant.

Section concurrency.
Context `{TY : Types} `{IP : NetIP}.
Notation P := (prog RabbitMQClient).
Implicit Types c : RabbitMQClient.

(** ** Goroutines *)

(** Where a health loop or a watcher is when it is not executing: at the select at
    its top, inside the reconnect loop of watchConnection, or gone. *)
Inductive phase : Type := AtSelect | Retrying | Ended.

(** What wakes it up: its ticker, a close notification with an error, one without,
    the stop channel, the timer of the reconnect loop. *)
Inductive wakeup : Type := Tick | Disconnected | NotifyClosed | Stopped | RetryNow.

Definition checker_stopped (h : holder) c : bool := match checker_of h c with Some x => HC.stopChan x | None => false end.
Definition manager_stopped (h : holder) c : bool := match manager_of h c with Some m => CM.stopChan m | None => false end.

(** The code from one blocking point to the next, returning the next phase. *)
Definition routine_code (g : goroutine) (ph : phase) (ev : wakeup) : option (P phase) :=
  match g, ph, ev with
  | HealthLoop h, AtSelect, Tick => Some (health_tick h ;; mret AtSelect)
  | HealthLoop h, AtSelect, Stopped =>
      Some (s ← get (checker_stopped h); mret (if s : bool then Ended else AtSelect))
  | Watcher h _, AtSelect, Disconnected => Some (watch_notified h ;; mret Retrying)
  | Watcher _ _, AtSelect, NotifyClosed => Some (mret Ended)
  | Watcher h _, (AtSelect | Retrying), Stopped =>
      Some (s ← get (manager_stopped h); mret (if s : bool then Ended else ph))
  | Watcher h _, Retrying, RetryNow =>
      Some (s ← get (manager_stopped h);
            if s : bool then mret Ended
            else ok ← watch_attempt h; mret (if ok : bool then Ended else Retrying))
  | _, _, _ => None
  end.

(** Programs in progress: calls by users of the package, numbered; iterations of
    the dispatch loops and of the goroutines of the client, by their index. *)
Inductive thread : Type :=
| Caller (n : nat)
| Dispatcher (i : nat)
| Routine (i : nat).

#[global] Instance thread_eq_dec : EqDecision thread.
Proof. solve_decision. Defined.

#[global] Instance thread_countable : Countable thread.
Proof.
  refine (inj_countable' (λ t, match t with Caller n => inl n | Dispatcher i => inr (inl i) | Routine i => inr (inr i) end)
            (λ s, match s with inl n => Caller n | inr (inl i) => Dispatcher i | inr (inr i) => Routine i end) _).
  by intros [].
Defined.

Record machine (W : Type) : Type := mkMachine {
  phases : gmap nat phase;            (* AtSelect where undefined *)
  active : gmap thread (P phase);
  sys : Sys RabbitMQClient W;
}.
Arguments mkMachine {W}.
Arguments phases {W}.
Arguments active {W}.
Arguments sys {W}.

Inductive label : Type :=
| LCall (n : nat) (o : op)
| LLoop (i : nat) (ev : loop_event)
| LRoutine (i : nat) (ev : wakeup)
| LExec (t : thread)
| LReturn (t : thread).

(** The operations users call; the steps of the goroutines have labels of their
    own (so that the wait of a shutdown needs no schedule), and the client is
    initialized before it is shared. *)
Definition is_call (o : op) : bool :=
  match o with OpInitialize _ | OpLoop _ _ | OpGoroutine _ _ | OpStop _ (_ :: _) => false | _ => true end.

Definition is_idle {W} (t : thread) (m : machine W) : bool := bool_decide (active m !! t = None).

Definition begin {W} (t : thread) (p : P phase) (m : machine W) : machine W :=
  mkMachine (phases m) (<[t := p]> (active m)) (sys m).

Definition phase_of {W} (m : machine W) (i : nat) : phase := default AtSelect (phases m !! i).

(** What a label does; [Blocked] when it is not enabled. *)
Definition do_label {W} `{!Env W} (l : label) (m : machine W) : outcome (machine W) :=
  match l with
  | LCall n o =>
      if is_call o && is_idle (Caller n) m then Done (begin (Caller n) (run_op o ;; mret Ended) m) else Blocked
  | LLoop i ev =>
      match mjoin (loops (cl (sys m)) !! i) with
      | Some l => if is_idle (Dispatcher i) m then Done (begin (Dispatcher i) (loop_case i l ev ;; mret AtSelect) m) else Blocked
      | None => Blocked
      end
  | LRoutine i ev =>
      match goroutines (cl (sys m)) !! i with
      | Some g =>
          match routine_code g (phase_of m i) ev with
          | Some p => if is_idle (Routine i) m then Done (begin (Routine i) p m) else Blocked
          | None => Blocked
          end
      | None => Blocked
      end
  | LExec t =>
      match active m !! t with
      | Some p =>
          match exec p (sys m) with
          | Done (p', s) => Done (mkMachine (phases m) (<[t := p']> (active m)) s)
          | Panicked => Panicked
          | Blocked => Blocked
          end
      | None => Blocked
      end
  | LReturn t =>
      match active m !! t with
      | Some (Ret ph) =>
          Done (mkMachine (match t with Routine i => <[i := ph]> (phases m) | _ => phases m end)
                  (delete t (active m)) (sys m))
      | _ => Blocked
      end
  end.

Fixpoint play {W} `{!Env W} (ls : list label) (m : machine W) : outcome (machine W) :=
  match ls with
  | [] => Done m
  | l :: ls' =>
      match do_label l m with
      | Done m' => play ls' m'
      | Panicked => Panicked
      | Blocked => Blocked
      end
  end.

(** Nothing is in progress. *)
Definition quiescent {W} (s : Sys RabbitMQClient W) : machine W := mkMachine ∅ ∅ s.

(** ** No interleaving panics *)

Definition is_caller (t : thread) : bool := match t with Caller _ => true | _ => false end.

(** The others keep what grows, and so must everybody: with [keep] a connection, and
    without it nobody starts a dispatch loop.  Only callers wait, while a dispatch
    goroutine runs. *)
Definition sharing (keep : Prop) (caller : bool) : Setting := {|
  rely := grows keep (¬ keep); relied := keep; guarded := keep; still := ¬ keep;
  blockable := λ c, caller = true ∧ running c ≠ [];
  rely_grows c c' H := H |}.

(** Labels that shut the client down, labels that subscribe, and labels that dial. *)
Definition label_drops (l : label) : bool := match l with LCall _ o => drops o | _ => false end.

Definition label_subscribes (l : label) : bool := match l with LCall _ o => subscribes o | _ => false end.

Definition label_connects (l : label) : bool :=
  match l with LCall _ o => connects o | LRoutine _ RetryNow => true | _ => false end.

(** With [keep] nobody drops the connection, without it nobody counts on it or
    starts a dispatch loop. *)
Definition permitted (keep : Prop) (l : label) : Prop :=
  (label_drops l = true → keep → False) ∧ (label_connects l || label_subscribes l = true → keep).

(** A label that starts no dispatch loop and does not dial. *)
Definition no_start (l : label) : bool := negb (label_connects l || label_subscribes l).

Lemma permitted_no_start l : no_start l = true → permitted False l.
Proof. unfold no_start. intros Hl%negb_true_iff. split; [by intros _ []|]. by rewrite Hl. Qed.

Definition machine_inv {W} (keep : Prop) (m : machine W) : Prop :=
  consistent (cl (sys m)) ∧
  ∀ t p, active m !! t = Some p → rsafe (ST := sharing keep (is_caller t)) (cl (sys m)) p anything.

Lemma rsafe_grow keep b {A} c c' (p : P A) :
  grows keep (¬ keep) c c' → rsafe (ST := sharing keep b) c p anything → rsafe (ST := sharing keep b) c' p anything.
Proof.
  intros Hg. induction p as [a|X f k IH|X e k IH]; cbn; [done| |by auto].
  intros Hp c1 Hr. apply Hp. by transitivity c'.
Qed.

(** One step of a program in progress. *)
Lemma exec_rsafe {W} `{!Env W} keep b {A} (p : P A) (s : Sys RabbitMQClient W) :
  consistent (cl s) → rsafe (ST := sharing keep b) (cl s) p anything →
  match exec p s with
  | Done (p', s') => consistent (cl s') ∧ grows keep (¬ keep) (cl s) (cl s') ∧ rsafe (ST := sharing keep b) (cl s') p' anything
  | Panicked => False
  | Blocked => (∃ a, p = Ret a) ∨ b = true ∧ running (cl s) ≠ []
  end.
Proof.
  intros Hi Hp. destruct p as [a|X f k|X e k]; cbn in *; [by left; eexists| |].
  - specialize (Hp (cl s) (reflexivity _) Hi). destruct (f (cl s)) as [[x c2]| |]; [done..|by right].
  - destruct (handle e (world s)) as [x w]. done.
Qed.

Lemma routine_rsafe keep c i g ph ev p :
  consistent c → goroutines c !! i = Some g → routine_code g ph ev = Some p → (ev = RetryNow → keep) →
  rsafe (ST := sharing keep false) c p anything.
Proof.
  intros Hi Hg Hp Hk. apply list_elem_of_lookup_2 in Hg.
  destruct g as [h|h n]; destruct ph, ev; cbn [routine_code] in Hp; try discriminate Hp; apply (inj Some) in Hp as <-; try done.
  - eapply rsafe_bind; [by apply health_tick_rsafe, goroutine_checker|done].
  - eapply rsafe_bind; [by eapply manager_at_rsafe, goroutine_manager|done].
  - rsafe_step. destruct (manager_stopped h c0); [done|].
    eapply rsafe_bind; [apply watch_attempt_rsafe; [by intros []; apply Hk|by apply Hk|]|done].
    eapply manager_of_grows; [exact Hgrow|by eapply goroutine_manager].
Qed.

Lemma do_label_inv {W} `{!Env W} keep l (m : machine W) :
  machine_inv keep m → permitted keep l →
  match do_label l m with
  | Done m' => machine_inv keep m' ∧ grows keep (¬ keep) (cl (sys m)) (cl (sys m'))
  | Panicked => False
  | Blocked => True
  end.
Proof.
  intros [Hi Ha] [Hd Hc].
  assert (∀ t p, rsafe (ST := sharing keep (is_caller t)) (cl (sys m)) p anything → machine_inv keep (begin t p m)) as Hbegin.
  { intros t p Hp. split; [done|]. intros t' p'. cbn. destruct (decide (t = t')) as [<-|Hne].
    - rewrite lookup_insert_eq. by intros [= <-].
    - rewrite lookup_insert_ne by done. apply Ha. }
  destruct l as [n o|i ev|i ev|t|t]; cbn [do_label].
  - destruct (is_call o && is_idle (Caller n) m); [|done]. split; [|done]. apply Hbegin.
    cbn in Hd, Hc. eapply rsafe_bind; [apply run_op_rsafe|done].
    + intros Ho. split; [by intros Hk; apply Hd|]. split; [by intros Hk; apply (Hd Ho)|]. done.
    + intros Ho. assert keep by (apply Hc; by rewrite Ho). by split.
    + intros Ho. assert keep by (apply Hc; by rewrite Ho, orb_true_r). by intros [].
  - destruct (mjoin _) as [l|]; [|done]. destruct (is_idle _ _); [|done]. split; [|done]. apply Hbegin.
    eapply rsafe_bind; [apply loop_case_rsafe|done].
  - destruct (goroutines (cl (sys m)) !! i) as [g|] eqn:Hg; [|done].
    destruct (routine_code g _ ev) as [p|] eqn:Hp; [|done]. destruct (is_idle _ _); [|done]. split; [|done].
    apply Hbegin. eapply routine_rsafe; [done..|]. intros ->. by apply Hc.
  - destruct (active m !! t) as [p|] eqn:Ht; [|done].
    pose proof (exec_rsafe keep (is_caller t) p (sys m) Hi (Ha t p Ht)) as He.
    destruct (exec p (sys m)) as [[p' s]| |]; [|done..]. destruct He as (Hi' & Hg & Hp'). split; [|done]. split; [done|].
    intros t' q. cbn. destruct (decide (t = t')) as [<-|Hne].
    + rewrite lookup_insert_eq. by intros [= <-].
    + rewrite lookup_insert_ne by done. intros Hq. by eapply rsafe_grow, Ha.
  - destruct (active m !! t) as [[ph| |]|] eqn:Ht; [|done..]. split; [|done]. split; [done|]. cbn.
    intros t' q. rewrite lookup_delete_Some. intros [_ Hq]. by apply Ha.
Qed.

Lemma play_inv {W} `{!Env W} keep ls (m : machine W) :
  machine_inv keep m → Forall (permitted keep) ls →
  match play ls m with
  | Done m' => machine_inv keep m' ∧ grows keep (¬ keep) (cl (sys m)) (cl (sys m'))
  | Panicked => False
  | Blocked => True
  end.
Proof.
  intros Hm Hls. revert m Hm. induction Hls as [|l ls Hl _ IH]; intros m Hm; cbn [play]; [done|].
  pose proof (do_label_inv keep l m Hm Hl) as H. destruct (do_label l m) as [m'| |]; [|done..].
  destruct H as [Hm' Hg]. specialize (IH m' Hm'). destruct (play ls m') as [m''| |]; [|done..].
  destruct IH. split; [done|]. by etransitivity.
Qed.

Lemma quiescent_inv {W} keep (s : Sys RabbitMQClient W) : consistent (cl s) → machine_inv keep (quiescent s).
Proof. intros Hi. split; [done|]. intros t p. cbn. by rewrite lookup_empty. Qed.

(** C2: in every environment, no interleaving of any number of calls, dispatch
    loops, health loops and watchers panics, the panics of sync.WaitGroup included,
    as long as a shutdown takes part in it only together with neither a subscription
    nor an attempt to connect (startup, ForceReconnect, a retry of a watcher); and
    every client it leads to satisfies the invariant. *)
Theorem interleavings_never_panic {W} `{!Env W} (ls : list label) (s : Sys RabbitMQClient W) :
  consistent (cl s) →
  Forall (λ l, label_drops l = false) ls ∨ Forall (λ l, label_connects l = false ∧ label_subscribes l = false) ls →
  match play ls (quiescent s) with
  | Done m => consistent (cl (sys m))
  | Panicked => False
  | Blocked => True
  end.
Proof.
  intros Hi Hls.
  assert (∃ keep, Forall (permitted keep) ls) as [keep Hp].
  { destruct Hls as [Hls|Hls]; [exists True|exists False]; eapply Forall_impl; try exact Hls.
    - intros l Hl. split; [by rewrite Hl|done].
    - intros l [Hl1 Hl2]. apply permitted_no_start. unfold no_start. by rewrite Hl1, Hl2. }
  pose proof (play_inv keep ls (quiescent s) (quiescent_inv keep s Hi) Hp) as H.
  destruct (play ls _) as [m| |]; [by destruct H as [[? _] _]|done..].
Qed.

(** ** Nothing deadlocks *)

(** Running alone is one of the interleavings. *)
Lemma run_rsafe {W} `{!Env W} keep b {A} (p : P A) (s : Sys RabbitMQClient W) :
  consistent (cl s) → rsafe (ST := sharing keep b) (cl s) p anything →
  match run p s with
  | Done (_, s') => consistent (cl s') ∧ grows keep (¬ keep) (cl s) (cl s')
  | Panicked => False
  | Blocked => b = true
  end.
Proof.
  revert s. induction p as [a|X f k IH|X e k IH]; intros s Hi Hp; cbn [run]; [done| |].
  - pose proof (exec_rsafe keep b _ s Hi Hp) as He. cbn [exec] in He. destruct (f (cl s)) as [[x c2]| |]; [|done|].
    + destruct He as (Hi2 & Hg & Hk). specialize (IH x (mkSys c2 (world s)) Hi2 Hk).
      destruct (run _ _) as [[a s']| |]; [|done..]. destruct IH. split; [done|]. by etransitivity.
    + destruct He as [[? ?]|[? _]]; done.
  - specialize (Hp). destruct (handle e (world s)) as [x w]. by apply (IH x (mkSys (cl s) w)).
Qed.

Definition alone_steps (t : thread) (n : nat) : list label := replicate n (LExec t) ++ [LReturn t].

Lemma play_app {W} `{!Env W} l1 l2 (m : machine W) :
  play (l1 ++ l2) m = match play l1 m with Done m' => play l2 m' | Panicked => Panicked | Blocked => Blocked end.
Proof. revert m. induction l1 as [|l l1 IH]; intros m; [done|]. cbn. destruct (do_label l m); auto. Qed.

Lemma play_run {W} `{!Env W} t p (m : machine W) ph s' :
  active m !! t = Some p → run p (sys m) = Done (ph, s') →
  ∃ n phs, play (alone_steps t n) m = Done (mkMachine phs (delete t (active m)) s').
Proof.
  revert m. induction p as [a|X f k IH|X e k IH]; intros m Ht Hr; cbn [run] in Hr.
  - simplify_eq. exists 0. cbn. rewrite Ht. by eexists.
  - destruct (f (cl (sys m))) as [[x c]| |] eqn:Hf; [|done..].
    destruct (IH x (mkMachine (phases m) (<[t := k x]> (active m)) (mkSys c (world (sys m))))) as (n & phs & Hn); [apply lookup_insert_eq|done|].
    exists (S n), phs. change (alone_steps t (S n)) with (LExec t :: alone_steps t n). cbn [play do_label]. rewrite Ht. cbn [exec].
    rewrite Hf, Hn. cbn. by rewrite delete_insert_eq.
  - destruct (handle e (world (sys m))) as [x w] eqn:Hh.
    destruct (IH x (mkMachine (phases m) (<[t := k x]> (active m)) (mkSys (cl (sys m)) w))) as (n & phs & Hn); [apply lookup_insert_eq|done|].
    exists (S n), phs. change (alone_steps t (S n)) with (LExec t :: alone_steps t n). cbn [play do_label]. rewrite Ht. cbn [exec].
    rewrite Hh, Hn. cbn. by rewrite delete_insert_eq.
Qed.

(** Labels that begin nothing but the return of a dispatch loop. *)
Definition winds_down (l : label) : bool :=
  match l with LCall _ _ | LRoutine _ _ => false | LLoop _ ev => match ev with LCloseChan => true | _ => false end | _ => true end.

Lemma winds_down_permitted l : winds_down l = true → permitted False l.
Proof. destruct l as [| | | |]; cbn; try done; by split. Qed.

(** The machine can get from [m] to [m'] by winding down. *)
Definition winds {W} `{!Env W} (m m' : machine W) : Prop :=
  ∃ ls, Forall (λ l, winds_down l = true) ls ∧ play ls m = Done m'.

#[global] Instance winds_preorder {W} `{!Env W} : PreOrder (winds (W := W)).
Proof.
  split.
  - intros m. by exists [].
  - intros m1 m2 m3 (l1 & H1 & Hp1) (l2 & H2 & Hp2). exists (l1 ++ l2). split; [by apply Forall_app|].
    by rewrite play_app, Hp1.
Qed.

Lemma winds_label {W} `{!Env W} l (m m' : machine W) : winds_down l = true → do_label l m = Done m' → winds m m'.
Proof. intros Hl Hd. exists [l]. split; [by constructor|]. cbn. by rewrite Hd. Qed.

(** What a machine that is shutting down keeps. *)
Definition closing {W} (m : machine W) : Prop := machine_inv False m ∧ closeChan (cl (sys m)) = true.

Lemma winds_closing {W} `{!Env W} (m m' : machine W) : winds m m' → closing m → closing m'.
Proof.
  intros (ls & Hls & Hp) [Hm Hc].
  pose proof (play_inv False ls m Hm (Forall_impl _ _ _ Hls winds_down_permitted)) as H. rewrite Hp in H.
  destruct H as [Hm' Hg]. split; [done|]. by apply (grow_closed _ _ _ _ Hg).
Qed.

(** A goroutine of the client that is executing can reach its next select. *)
Lemma finish_goroutine {W} `{!Env W} t (m : machine W) :
  closing m → is_Some (active m !! t) → is_caller t = false → ∃ m', winds m m' ∧ active m' = delete t (active m).
Proof.
  intros [[Hi Ha] _] [p Ht] Hnc. specialize (Ha t p Ht). rewrite Hnc in Ha.
  pose proof (run_rsafe False false p (sys m) Hi Ha) as Hr. destruct (run p (sys m)) as [[ph s']| |] eqn:Hrun; [|done..].
  destruct (play_run t p m ph s' Ht Hrun) as (n & phs & Hn). exists (mkMachine phs (delete t (active m)) s'). split; [|done].
  exists (alone_steps t n). split; [|done]. apply Forall_app. split; [by apply Forall_replicate|by constructor].
Qed.

Definition only_callers {W} (m : machine W) : Prop := ∀ t, is_Some (active m !! t) → is_caller t = true.

Definition same_callers {W} (m m' : machine W) : Prop := ∀ n, active m' !! Caller n = active m !! Caller n.

Lemma finish_goroutines {W} `{!Env W} (m : machine W) :
  closing m → ∃ m', winds m m' ∧ only_callers m' ∧ same_callers m m'.
Proof.
  remember (size (active m)) as k eqn:Hk. revert m Hk. induction k as [k IH] using lt_wf_ind. intros m -> Hm.
  destruct (decide (map_Exists (λ t _, is_caller t = false) (active m))) as [Hex|Hno].
  - destruct Hex as (t & p & Ht & Hnc). destruct (finish_goroutine t m Hm) as (m1 & Hw & Ha); [by eexists|done|].
    destruct (IH (size (active m1))) with (m := m1) as (m2 & Hw2 & Ho & Hs); [|done|by eapply winds_closing|].
    { rewrite Ha, map_size_delete_Some by by eexists. assert (size (active m) ≠ 0); [|lia].
      apply map_size_non_empty_iff. intros He. by rewrite He, lookup_empty in Ht. }
    exists m2. split; [by etransitivity|]. split; [done|]. intros n. rewrite Hs, Ha, lookup_delete_ne; [done|]. by intros ->.
  - exists m. split; [done|]. split; [|done]. intros t [p Ht]. destruct (is_caller t) eqn:Hnc; [done|]. destruct Hno. by exists t, p.
Qed.

(** A dispatch loop at its select sees the closed channel and returns. *)
Lemma loop_returns {W} `{!Env W} i l (s : Sys RabbitMQClient W) :
  closeChan (cl s) = true → loops (cl s) !! i = Some (Some l) →
  ∃ w, run (loop_case i l LCloseChan ;; mret AtSelect) s =
    Done (AtSelect, mkSys (subscriptionWG_Done i (cl s)) w).
Proof.
  intros Hc Hl. rewrite run_bind. unfold mbind, GoM_bind, loop_case. cbn. rewrite Hc. cbn.
  destruct (handle _ _) as [x w]. by exists w.
Qed.

Lemma return_loop {W} `{!Env W} i (m : machine W) :
  closing m → only_callers m →
  ∃ m', winds m m' ∧ active m' = active m ∧ loops (cl (sys m')) = <[i := None]> (loops (cl (sys m))).
Proof.
  intros [_ Hc] Ho. destruct (loops (cl (sys m)) !! i) as [[l|]|] eqn:Hl.
  - assert (active m !! Dispatcher i = None) as Hidle.
    { destruct (active m !! Dispatcher i) eqn:Ha; [|done]. by specialize (Ho (Dispatcher i) ltac:(by rewrite Ha)). }
    set (m1 := begin (Dispatcher i) (loop_case i l LCloseChan ;; mret AtSelect) m).
    destruct (loop_returns i l (sys m1) Hc Hl) as [w Hrun].
    destruct (play_run (Dispatcher i) _ m1 _ _ (lookup_insert_eq _ _ _) Hrun) as (n & phs & Hn).
    exists (mkMachine phs (active m) (mkSys (subscriptionWG_Done i (cl (sys m))) w)).
    split; [|split; [done|]; cbn; by destruct (Done_loops i (cl (sys m))) as [k ->]]. transitivity m1.
    + apply (winds_label (LLoop i LCloseChan)); [done|]. cbn. rewrite Hl. cbn. unfold is_idle. by rewrite Hidle, bool_decide_eq_true_2.
    + exists (alone_steps (Dispatcher i) n). split; [apply Forall_app; split; [by apply Forall_replicate|by constructor]|].
      rewrite Hn. cbn. by rewrite delete_insert_id.
  - exists m. split; [done|]. split; [done|]. by rewrite list_insert_id.
  - exists m. split; [done|]. split; [done|]. rewrite list_insert_ge; [done|]. by apply lookup_ge_None.
Qed.

Lemma drain_loops {W} `{!Env W} (m : machine W) :
  closing m → only_callers m →
  ∃ m', winds m m' ∧ active m' = active m ∧ running (cl (sys m')) = [].
Proof.
  intros Hm Ho.
  assert (∀ k, ∃ m', winds m m' ∧ active m' = active m ∧ length (loops (cl (sys m'))) = length (loops (cl (sys m))) ∧
            returned k (cl (sys m'))) as Hk.
  { induction k as [|k (m1 & Hw & Ha & Hl & Hr)]; [exists m; repeat (split; [done|]); intros i Hi; lia|].
    destruct (return_loop k m1) as (m2 & Hw2 & Ha2 & Hl2); [by eapply winds_closing|unfold only_callers; by rewrite Ha|].
    exists m2. split; [by etransitivity|]. split; [by rewrite Ha2|]. rewrite Hl2, length_insert. split; [done|].
    intros j Hj. rewrite Hl2. destruct (decide (j = k)) as [->|Hne].
    - destruct (decide (k < length (loops (cl (sys m1))))).
      + by rewrite list_lookup_insert_eq.
      + by rewrite list_insert_ge, lookup_ge_None_2 by lia.
    - rewrite list_lookup_insert_ne by done. apply Hr. lia. }
  destruct (Hk (length (loops (cl (sys m))))) as (m' & Hw & Ha & Hl & Hr). exists m'. split; [done|]. split; [done|].
  apply all_returned. by rewrite Hl.
Qed.

(** With no dispatch loop left a caller can always go on, to its end. *)
Lemma finish_caller {W} `{!Env W} n p (m : machine W) :
  closing m → only_callers m → running (cl (sys m)) = [] → active m !! Caller n = Some p →
  ∃ m', winds m m' ∧ active m' = delete (Caller n) (active m) ∧ running (cl (sys m')) = [].
Proof.
  revert m. induction p as [a|X f k IH|X e k IH]; intros m Hm Ho Hr Hp.
  - exists (mkMachine (phases m) (delete (Caller n) (active m)) (sys m)). split; [|done].
    apply (winds_label (LReturn (Caller n))); [done|]. cbn. by rewrite Hp.
  - pose proof Hm as [[Hi Ha] _].
    pose proof (exec_rsafe False true _ (sys m) Hi (Ha (Caller n) _ Hp)) as He. cbn [exec] in He.
    destruct (f (cl (sys m))) as [[x c2]| |] eqn:Hf; [|done|by destruct He as [[? ?]|[_ []]]].
    set (m1 := mkMachine (phases m) (<[Caller n := k x]> (active m)) (mkSys c2 (world (sys m)))).
    assert (winds m m1) as Hw1.
    { apply (winds_label (LExec (Caller n))); [done|]. cbn [do_label]. rewrite Hp. cbn [exec]. by rewrite Hf. }
    assert (only_callers m1) as Ho1.
    { intros t. cbn. destruct (decide (t = Caller n)) as [->|Hne]; [done|]. rewrite lookup_insert_ne by done. apply Ho. }
    destruct (drain_loops m1) as (m2 & Hw2 & Ha2 & Hr2); [by eapply winds_closing|done|].
    destruct (IH x m2) as (m3 & Hw3 & Ha3 & Hr3); [by eapply winds_closing, winds_closing|unfold only_callers; by rewrite Ha2|done| |].
    { rewrite Ha2. apply lookup_insert_eq. }
    exists m3. split; [by do 2 etransitivity|]. split; [|done]. rewrite Ha3, Ha2. cbn. by rewrite delete_insert_eq.
  - destruct (handle e (world (sys m))) as [x w] eqn:Hh.
    set (m1 := mkMachine (phases m) (<[Caller n := k x]> (active m)) (mkSys (cl (sys m)) w)).
    assert (winds m m1) as Hw1.
    { apply (winds_label (LExec (Caller n))); [done|]. cbn [do_label]. rewrite Hp. cbn [exec]. by rewrite Hh. }
    destruct (IH x m1) as (m3 & Hw3 & Ha3 & Hr3); [by eapply winds_closing| |done|apply lookup_insert_eq|].
    { intros t. cbn. destruct (decide (t = Caller n)) as [->|Hne]; [done|]. rewrite lookup_insert_ne by done. apply Ho. }
    exists m3. split; [by etransitivity|]. split; [|done]. rewrite Ha3. cbn. by rewrite delete_insert_eq.
Qed.

Lemma finish_callers {W} `{!Env W} (m : machine W) :
  closing m → only_callers m → running (cl (sys m)) = [] →
  ∃ m', winds m m' ∧ active m' = ∅ ∧ running (cl (sys m')) = [].
Proof.
  remember (size (active m)) as k eqn:Hk. revert m Hk. induction k as [k IH] using lt_wf_ind. intros m -> Hm Ho Hr.
  destruct (decide (active m = ∅)) as [He|Hne]; [by exists m|].
  apply map_choose in Hne as (t & p & Ht). pose proof (Ho t ltac:(by eexists)) as Hc. destruct t as [n|i|i]; [|done..].
  destruct (finish_caller n p m Hm Ho Hr Ht) as (m1 & Hw & Ha & Hr1).
  destruct (IH (size (active m1))) with (m := m1) as (m2 & Hw2 & Hd & Hr2); [|done|by eapply winds_closing| |done|].
  - rewrite Ha, map_size_delete_Some by by eexists. assert (size (active m) ≠ 0); [|lia].
    apply map_size_non_empty_iff. intros He. by rewrite He, lookup_empty in Ht.
  - intros t. rewrite Ha. intros [q [_ Hq]%lookup_delete_Some]. apply Ho. by eexists.
  - exists m2. split; [by etransitivity|done].
Qed.

(** C3: nothing deadlocks during a shutdown.  In every environment, in every state
    that interleaved calls, dispatch loops, health loops and watchers, none of them
    connecting or subscribing, can reach once the close channel is closed, everything
    in progress can be brought to its end without anything new being started: all
    calls return, among them every waiting shutdown, every goroutine reaches its
    select, and every dispatch loop returns. *)
Theorem shutdown_can_complete {W} `{!Env W} (ls : list label) (s : Sys RabbitMQClient W) (m : machine W) :
  consistent (cl s) → Forall (λ l, label_connects l = false ∧ label_subscribes l = false) ls →
  play ls (quiescent s) = Done m → closeChan (cl (sys m)) = true →
  ∃ ls' m', Forall (λ l, winds_down l = true) ls' ∧ play ls' m = Done m' ∧
    active m' = ∅ ∧ running (cl (sys m')) = [] ∧ consistent (cl (sys m')).
Proof.
  intros Hi Hls Hp Hc.
  assert (Forall (permitted False) ls) as Hperm.
  { eapply Forall_impl; [exact Hls|]. intros l [Hl1 Hl2]. apply permitted_no_start. unfold no_start. by rewrite Hl1, Hl2. }
  pose proof (play_inv False ls (quiescent s) (quiescent_inv False s Hi) Hperm) as H. rewrite Hp in H.
  assert (closing m) as Hm by (by destruct H).
  destruct (finish_goroutines m Hm) as (m1 & Hw1 & Ho1 & _).
  destruct (drain_loops m1) as (m2 & Hw2 & Ha2 & Hr2); [by eapply winds_closing|done|].
  destruct (finish_callers m2) as (m3 & Hw3 & Ha3 & Hr3); [apply (winds_closing m); [by etransitivity|done]|unfold only_callers; by rewrite Ha2|done|].
  assert (winds m m3) as Hw by (by do 2 etransitivity).
  destruct (winds_closing _ _ Hw Hm) as [[Hi3 _] _]. destruct Hw as (ls' & Hw & Hp'). by exists ls', m3.
Qed.

End concurrency.

#[global] Arguments mkMachine {TY W}.
#[global] Arguments phases {TY W}.
#[global] Arguments active {TY W}.
#[global] Arguments sys {TY W}.

(** ** Scenarios on the simulated broker *)

Section scenarios.
Import Sim.

(** A client that was initialized and started. *)
Definition served : Sys RabbitMQClient sim :=
  match run (run_ops [OpInitialize (Some tt); OpStart Background]) (mkSys NewRabbitMQClient (init [] [])) with
  | Done (_, s) => s
  | _ => mkSys NewRabbitMQClient (init [] [])
  end.

Lemma served_consistent : consistent (cl served).
Proof.
  unfold served.
  pose proof (run_ops_alone [OpInitialize (Some tt); OpStart Background] NewRabbitMQClient (init [] []) fresh_consistent) as H.
  destruct (run _ _) as [[[] s]| |]; [done|apply fresh_consistent..].
Qed.

Definition execs (n : nat) (t : thread) : list label := replicate n (LExec t).

(** The same with a subscription. *)
Definition listening : Sys RabbitMQClient sim :=
  match run (run_ops [OpSubscribe Background "jobs" (HReturn None : Handler (Types := types))]) (mkSys (cl served) (world served)) with
  | Done (_, s) => s
  | _ => served
  end.

Lemma listening_consistent : consistent (cl listening).
Proof.
  unfold listening. pose proof (run_ops_alone [OpSubscribe Background "jobs" (HReturn None : Handler (Types := types))] (cl served)
    (world served) served_consistent) as H.
  destruct (run _ _) as [[[] s]| |]; [done|apply served_consistent..].
Qed.

(** A caller publishes while two shutdowns run, one of them in the middle of the
    other, and a dispatch loop handles a delivery. *)
Definition busy_shutdown : list label :=
  [LCall 1 (OpPublish Background "" "jobs" "payload" []); LExec (Caller 1); LExec (Caller 1);
   LLoop 0 (LDelivery (TY := types) 5); LExec (Dispatcher 0)] ++
  [LCall 2 (OpStop Background [])] ++ execs 7 (Caller 2) ++ [LCall 3 (OpStop Background [])] ++ execs 9 (Caller 3) ++
  execs 4 (Caller 2) ++ execs 3 (Caller 1).

Lemma interleavings_never_panic_witness :
  match play busy_shutdown (quiescent listening) with
  | Done m => consistent (cl (sys m))
  | Panicked => False
  | Blocked => True
  end ∧
  match play busy_shutdown (quiescent listening) with
  | Done m => closeChan (cl (sys m)) && (size (active m) =? 4)
  | _ => false
  end = true.
Proof.
  split; [|vm_compute; reflexivity].
  apply (interleavings_never_panic busy_shutdown listening listening_consistent).
  right. repeat constructor.
Defined.

(** The machine in the middle of [busy_shutdown]. *)
Definition busy_machine : machine sim :=
  match play busy_shutdown (quiescent listening) with Done m => m | _ => quiescent listening end.

Lemma busy_plays : play busy_shutdown (quiescent listening) = Done busy_machine.
Proof.
  assert (match play busy_shutdown (quiescent listening) with Done _ => true | _ => false end = true) as H by (vm_compute; reflexivity).
  unfold busy_machine. by destruct (play busy_shutdown (quiescent listening)).
Qed.

Lemma shutdown_can_complete_witness :
  (∃ ls' m', Forall (λ l, winds_down l = true) ls' ∧ play ls' busy_machine = Done m' ∧
    active m' = ∅ ∧ running (cl (sys m')) = [] ∧ consistent (cl (sys m'))) ∧
  (length (running (cl (sys busy_machine))) =? 1) && (size (active busy_machine) =? 4) = true.
Proof.
  split; [|vm_compute; reflexivity].
  apply (shutdown_can_complete busy_shutdown listening busy_machine listening_consistent).
  - repeat constructor.
  - exact busy_plays.
  - vm_compute. reflexivity.
Defined.

(** A watcher is notified, dials again and discards the old channels; before it
    re-creates them, a shutdown runs from beginning to end. *)
Definition shutdown_inside_reconnect : list label :=
  [LRoutine 1 Disconnected; LExec (Routine 1); LReturn (Routine 1); LRoutine 1 RetryNow] ++ execs 7 (Routine 1) ++
  [LCall 0 (OpStop Background [])] ++ execs 22 (Caller 0) ++ [LReturn (Caller 0)].

(** C4: a shutdown in the middle of a reconnect crashes the process.  In every
    environment, creating a valid producer on a client without a connection
    panics; and on a started client there is an interleaving of one watcher and
    one shutdown, in which the shutdown returns, closes the new connection and
    clears it, and the next steps of the watcher, which re-creates the first
    producer, panic. *)
Theorem shutdown_inside_reconnect_panics :
  (∀ W (EW : Env W) (s : Sys RabbitMQClient W) p,
     producer_valid p → connection (cl s) = None → run (createProducer p) s = Panicked) ∧
  match play shutdown_inside_reconnect (quiescent served) with
  | Done m => bool_decide (connection (cl (sys m)) = None) && (size (active m) =? 1) && bool_decide (openConns (world (sys m)) = [0])
  | _ => false
  end = true ∧
  play (shutdown_inside_reconnect ++ execs 2 (Routine 1)) (quiescent served) = Panicked.
Proof.
  split; [|split; vm_compute; reflexivity].
  intros W EW s p Hp Hc. apply validate_producer_valid in Hp. unfold createProducer, connection_Channel. rewrite Hp. cbn.
  by rewrite Hc.
Qed.

(** A subscription has its channel and its deliveries and is about to add a dispatch
    goroutine, while a shutdown waits for the only one there is, which returns. *)
Definition subscribe_during_shutdown : list label :=
  [LCall 0 (OpSubscribe Background "jobs" (HReturn None : Handler (Types := types)))] ++ execs 9 (Caller 0) ++
  [LCall 1 (OpStop Background [])] ++ execs 12 (Caller 1) ++
  [LLoop 0 LCloseChan] ++ execs 3 (Dispatcher 0) ++ [LReturn (Dispatcher 0)].

(** C5: a subscription in the middle of a shutdown can crash the process, without any
    attempt to connect.  In every environment and whatever follows, a goroutine that
    sleeps in the Wait of a shutdown and has been woken panics if a dispatch
    goroutine was added meanwhile; and there is an interleaving of one Subscribe and
    one CleanupTasks on a client with one dispatch loop in which that happens: no
    goroutine connects, the loop has returned, the shutdown could return from Wait,
    but Subscribe adds its goroutine first. *)
Theorem subscribe_during_shutdown_panics :
  (∀ W (EW : Env W) A (k : unit → prog RabbitMQClient A) seen (s : Sys RabbitMQClient W),
     subscriptionWG (cl s) ≠ seen → running (cl s) ≠ [] → exec (sect (subscriptionWG_leave seen) ≫= k) s = Panicked) ∧
  Forall (λ l, label_connects l = false) subscribe_during_shutdown ∧
  match play (subscribe_during_shutdown ++ [LExec (Caller 1)]) (quiescent listening) with
  | Done m => closeChan (cl (sys m)) && bool_decide (length (running (cl (sys m))) = 0)
  | _ => false
  end = true ∧
  match play (subscribe_during_shutdown ++ [LExec (Caller 0)]) (quiescent listening) with
  | Done m => closeChan (cl (sys m)) && bool_decide (length (running (cl (sys m))) = 1)
  | _ => false
  end = true ∧
  play (subscribe_during_shutdown ++ [LExec (Caller 0); LExec (Caller 1)]) (quiescent listening) = Panicked.
Proof.
  split; [|split; [repeat constructor|split; [|split]; vm_compute; reflexivity]].
  intros W EW A k seen s Hne Hr. cbn. unfold subscriptionWG_leave. rewrite bool_decide_eq_false_2 by done.
  by destruct (running (cl s)).
Qed.

End scenarios.
