(* ===== verification/ClientFrame.v ===== *)
(** * What the operations of the client change

    A [focus] is a view of the client, the way others may move it, the way a program
    may move it itself, and a set of calls.  [tracks F c p] says that the program
    [p], started when the client was [c] and interrupted by others, moves the view as
    the focus allows and makes only calls of its set.  Each operation is shown once
    to respect every focus that looks at the health checker or the metrics only;
    [play_moves] lifts this to all interleavings. *)

From stdpp Require Import fin_maps.
From S2P Require Import Prelude Errors Constants Utils Config Metrics HealthChecker ConnectionManager Env Program NetUrl Retry Client Logic ClientSetup ClientMessaging ClientLifecycle ClientInvariant ClientConcurrency.

(** Calls of user handlers, acknowledgements and publishes. *)
Definition notable `{TY : Types} {A} (e : E A) : bool :=
  match e with EHandler _ _ _ | EAck _ _ | ENack _ _ _ | EPublish _ _ _ _ _ _ _ => true | _ => false end.

Section focus.
Context `{TY : Types} `{IP : NetIP}.
Notation P := (prog RabbitMQClient).
Implicit Types c : RabbitMQClient.

Record focus : Type := mkFocus {
  view_type : Type;
  view : RabbitMQClient → view_type;
  others : relation view_type;              (* how others may move the view *)
  mine : relation view_type;                (* how the program may *)
  silent : ∀ A, E A → Prop;                 (* the calls it may make *)
}.
Arguments silent _ {A} _.

Class Focus (F : focus) : Prop := {
  #[global] others_preorder :: PreOrder (others F);
  #[global] mine_reflexive :: Reflexive (mine F);
  mine_others x y : mine F x y → others F x y;
  quiet_call A (e : E A) : notable e = false → silent F e;
}.

(** The fields that no focus looks at. *)
Class Unseen (F : focus) : Prop := {
  unseen_connection v c : view F (set_connection v c) = view F c;
  unseen_producers v c : view F (set_producers v c) = view F c;
  unseen_consumers v c : view F (set_consumers v c) = view F c;
  unseen_closeChan v c : view F (set_closeChan v c) = view F c;
  unseen_closeOnce v c : view F (set_closeOnce v c) = view F c;
  unseen_closed v c : view F (set_closed v c) = view F c;
  unseen_manager v c : view F (set_connectionManager v c) = view F c;
  unseen_pool v c : view F (set_goroutinePool v c) = view F c;
  unseen_subscriptions v c : view F (set_subscriptions v c) = view F c;
  unseen_loops v c : view F (set_loops v c) = view F c;
  unseen_goroutines v c : view F (set_goroutines v c) = view F c;
  unseen_wg v c : view F (set_subscriptionWG v c) = view F c;
  unseen_former_checkers v c : view F (set_formerCheckers v c) = view F c;
  unseen_former_managers v c : view F (set_formerManagers v c) = view F c;
}.

Context (F : focus).

Fixpoint tracks {A} c (p : P A) : Prop :=
  match p with
  | Ret _ => True
  | Sect f k => ∀ c1 x c2, others F (view F c) (view F c1) → f c1 = Done (x, c2) →
      mine F (view F c1) (view F c2) ∧ tracks c2 (k x)
  | Call e k => silent F e ∧ ∀ x, tracks c (k x)
  end.

Context `{!Focus F}.

Lemma tracks_later {A} c c' (p : P A) : others F (view F c) (view F c') → tracks c p → tracks c' p.
Proof.
  intros Hc. induction p as [a|X f k IH|X e k IH]; cbn; [done| |by intros [He Hp]; auto].
  intros Hp c1 x c2 H1. apply Hp. by transitivity (view F c').
Qed.

Lemma tracks_bind {A B} c (m : P A) (k : A → P B) :
  tracks c m → (∀ a c', others F (view F c) (view F c') → tracks c' (k a)) → tracks c (m ≫= k).
Proof.
  revert c. induction m as [a|X f j IH|X e j IH]; intros c Hm Hk; cbn in *; [by apply Hk| |].
  - intros c1 x c2 H1 Hf. destruct (Hm c1 x c2 H1 Hf) as [H2 Hj]. split; [done|]. apply IH; [done|].
    intros a c' H'. apply Hk. transitivity (view F c1); [done|]. transitivity (view F c2); [by apply mine_others|done].
  - destruct Hm as [He Hm]. split; [done|]. intros x. by apply IH.
Qed.

Lemma tracks_sect {X} c (f : RabbitMQClient → outcome (X * RabbitMQClient)) :
  (∀ c1 x c2, others F (view F c) (view F c1) → f c1 = Done (x, c2) → mine F (view F c1) (view F c2)) → tracks c (sect f).
Proof. intros Hf c1 x c2 H1 H. split; [by eapply Hf|done]. Qed.

Lemma tracks_get {A} c (f : RabbitMQClient → A) : tracks c (get f).
Proof. by apply tracks_sect; intros c1 x c2 _ [= _ <-]. Qed.

Lemma tracks_put c f : (∀ c, view F (f c) = view F c) → tracks c (put f).
Proof. intros Hf. apply tracks_sect. intros c1 x c2 _ [= _ <-]. by rewrite Hf. Qed.

Lemma tracks_Add `{!Unseen F} c l : tracks c (put (subscriptionWG_Add l)).
Proof. apply tracks_put. intros c1. apply unseen_loops. Qed.

Lemma tracks_Done `{!Unseen F} c i : tracks c (put (subscriptionWG_Done i)).
Proof. apply tracks_put. intros c1. destruct (Done_loops i c1) as [k ->]. by rewrite unseen_wg, unseen_loops. Qed.

Lemma tracks_leave c n : tracks c (sect (subscriptionWG_leave n)).
Proof. apply tracks_sect. by intros c1 x c2 _ ->%leave_same. Qed.

Lemma tracks_from_outcome {A} c (o : outcome A) : tracks c (from_outcome o).
Proof. by destruct o. Qed.

Lemma tracks_for_each {A X} c (body : A → P (option X)) l : (∀ x c', tracks c' (body x)) → tracks c (for_each body l).
Proof. intros Hb. revert c. induction l as [|x l IH]; intros c; [done|]. apply tracks_bind; [done|]. by intros [e|] c' _. Qed.

Lemma tracks_for_all {A} c (body : A → P unit) l : (∀ x c', tracks c' (body x)) → tracks c (for_all body l).
Proof. intros Hb. revert c. induction l as [|x l IH]; intros c; [done|]. by apply tracks_bind. Qed.

Lemma tracks_ext {A} c (e : E A) : notable e = false → tracks c (ext e).
Proof. split; [by apply quiet_call|done]. Qed.

Lemma tracks_ctx_Err c ctx : tracks c (ctx_Err ctx).
Proof. destruct ctx; [done|]. by apply tracks_ext. Qed.

Lemma tracks_manager `{!Unseen F} {B} c (f : Manager → outcome (B * Manager)) : tracks c (with_pointer f).
Proof.
  apply tracks_sect. intros c1 x c2 _. destruct (connectionManager c1) as [h|]; [|done].
  destruct (f h) as [[b h']| |]; [|done..]. intros [= _ <-]. by rewrite unseen_manager.
Qed.

Lemma tracks_manager_at `{!Unseen F} {B} h c (f : Manager → B * Manager) : tracks c (method (Pointer0 := manager_at h) f).
Proof.
  destruct h as [|k]; [by apply tracks_manager|]. apply tracks_sect. intros c1 x c2 _. destruct (manager_of (Replaced k) c1); [|done].
  destruct (f _). intros [= _ <-]. by rewrite unseen_former_managers.
Qed.

Lemma tracks_checker c {B} (f : Checker → outcome (B * Checker)) :
  (∀ c1 h b h', others F (view F c) (view F c1) → healthChecker c1 = Some h → f h = Done (b, h') →
     mine F (view F c1) (view F (set_healthChecker (Some h') c1))) →
  tracks c (with_pointer f).
Proof.
  intros Hf. apply tracks_sect. intros c1 x c2 H1. destruct (healthChecker c1) as [h|] eqn:Hh; [|done].
  destruct (f h) as [[b h']| |] eqn:Hb; [|done..]. intros [= _ <-]. by eapply Hf.
Qed.

(** A method on a checker that the client no longer holds, or on the one it holds. *)
Lemma tracks_checker_at `{!Unseen F} {B} h c (f : Checker → B * Checker) :
  tracks c (method (Pointer0 := checker_pointer) f) → tracks c (method (Pointer0 := checker_at h) f).
Proof.
  intros Hheld. destruct h as [|k]; [done|]. apply tracks_sect. intros c1 x c2 _. destruct (checker_of (Replaced k) c1); [|done].
  destruct (f _). intros [= _ <-]. by rewrite unseen_former_checkers.
Qed.

(** How the operations move the checker. *)
Class CheckerMoves : Prop := {
  moves_probe c h fn : healthChecker c = Some h → mine F (view F c) (view F (set_healthChecker (Some (HC.SetProbe fn h)) c));
  moves_stop c h h' : healthChecker c = Some h → HC.Stop h = Done (tt, h') → mine F (view F c) (view F (set_healthChecker (Some h') c));
}.

(** ... and a tick on the checker the client holds. *)
Class TickTracks : Prop := tracks_tick c : tracks c (health_tick Held : P unit).

(** For focuses on the checker alone: nothing else matters. *)
Class MetricsUnseen : Prop := {
  unseen_metrics v c : view F (set_metrics v c) = view F c;
  any_call A (e : E A) : silent F e;
}.

End focus.

Arguments silent {TY} _ {A} _.

(** Prove that an assignment is out of view. *)
Ltac out_of_view :=
  intros ?; rewrite ?unseen_connection, ?unseen_producers, ?unseen_consumers, ?unseen_closeChan, ?unseen_closeOnce, ?unseen_closed,
    ?unseen_manager, ?unseen_pool, ?unseen_subscriptions, ?unseen_loops, ?unseen_goroutines; reflexivity.

Create HintDb tracks discriminated.

(** Prove [tracks] by following the program. *)
Ltac go_tracks :=
  repeat (cbn beta iota; lazymatch goal with
  | |- tracks _ _ (mret _) => exact I
  | |- tracks _ _ (ext _) => apply tracks_ext; [exact _|reflexivity]
  | |- tracks ?F ?c (call ?e) => apply (tracks_ext F c e); reflexivity
  | |- tracks _ _ (get _) => apply tracks_get; exact _
  | |- tracks _ _ (put (subscriptionWG_Add _)) => apply tracks_Add; exact _
  | |- tracks _ _ (put (subscriptionWG_Done _)) => apply tracks_Done; exact _
  | |- tracks _ _ (put _) => apply tracks_put; [exact _|out_of_view]
  | |- tracks _ _ panic => by apply tracks_sect
  | |- tracks _ _ (sect (subscriptionWG_leave _)) => apply tracks_leave; exact _
  | |- tracks _ _ (from_outcome _) => apply tracks_from_outcome
  | |- tracks _ _ (ctx_Err _) => apply tracks_ctx_Err; exact _
  | |- tracks _ _ (method (Pointer0 := manager_at _) _) => apply tracks_manager_at; exact _
  | |- tracks _ _ (method _) => apply tracks_manager
  | |- tracks _ _ (with_pointer _) => apply tracks_manager
  | |- tracks _ _ (on_err _ _ _) => unfold on_err
  | |- tracks _ _ (conn_IsClosed _) => unfold conn_IsClosed
  | |- tracks _ _ (range_keys _) => unfold range_keys
  | |- tracks _ _ (_ ≫= _) => apply tracks_bind; [exact _| |intros ? ? _]
  | |- tracks _ _ (for_each _ _) => apply tracks_for_each; [exact _|intros ? ?]
  | |- tracks _ _ (for_all _ []) => exact I
  | |- tracks _ _ (for_all _ _) => apply tracks_for_all; [exact _|intros ? ?]
  | |- tracks _ _ (match ?x with _ => _ end) => destruct x
  end); try exact _; try solve [auto with tracks].

Section operations.
Context `{TY : Types} `{IP : NetIP} (F : focus) `{HF : !Focus F} `{HU : !Unseen F}.
Notation P := (prog RabbitMQClient).
Implicit Types c : RabbitMQClient.

Lemma publishRuntimeContract_tracks r h c : tracks F c (publishRuntimeContract r h : P _).
Proof. unfold publishRuntimeContract. go_tracks. Qed.

Lemma dial_tracks c : tracks F c (dial : P _).
Proof. unfold dial. go_tracks. Qed.
#[local] Hint Resolve publishRuntimeContract_tracks dial_tracks : tracks.

Lemma createProducer_tracks p c : tracks F c (createProducer p : P _).
Proof. unfold createProducer, connection_Channel, setup_producer. go_tracks. Qed.

Lemma createConsumer_tracks x c : tracks F c (createConsumer x : P _).
Proof. unfold createConsumer, connection_Channel, setup_consumer. go_tracks. Qed.
#[local] Hint Resolve createProducer_tracks createConsumer_tracks : tracks.

Lemma initializeProducers_tracks c : tracks F c (initializeProducers : P _).
Proof. unfold initializeProducers. go_tracks. Qed.

Lemma initializeConsumers_tracks c : tracks F c (initializeConsumers : P _).
Proof. unfold initializeConsumers. go_tracks. Qed.

Lemma connect_tracks c : tracks F c (connect : P _).
Proof. unfold connect, set_reconnect_func, set_connection_notify. go_tracks. Qed.

Lemma startDispatchLoop_tracks ctx name q h c : tracks F c (startDispatchLoop ctx name q h : P _).
Proof. unfold startDispatchLoop. go_tracks. Qed.
#[local] Hint Resolve initializeProducers_tracks initializeConsumers_tracks connect_tracks startDispatchLoop_tracks : tracks.

Lemma call_reconnect_tracks fn c : tracks F c (call_reconnect fn : P _).
Proof. unfold call_reconnect, rebuildAfterReconnect, restart_subscription. go_tracks. Qed.
#[local] Hint Resolve call_reconnect_tracks : tracks.

Lemma CheckHealth_tracks c : tracks F c (CheckHealth : P _).
Proof. unfold CheckHealth, check_ready. go_tracks. Qed.

Lemma register_resources_tracks c : tracks F c (register_resources : P _).
Proof. unfold register_resources, registerRuntimePluginAlias, register_private_resources, register_private. go_tracks. Qed.
#[local] Hint Resolve CheckHealth_tracks register_resources_tracks : tracks.

Lemma call_probe_tracks fn c : tracks F c (call_probe fn : P _).
Proof. unfold call_probe, connectionProbe. go_tracks. Qed.

(** A tick on a checker that was replaced. *)
Lemma former_tick_tracks k c : tracks F c (health_tick (Replaced k) : P _).
Proof.
  assert (∀ B (f : Checker → B * Checker) c1, tracks F c1 (method (Pointer0 := checker_at (Replaced k)) f)) as Hm.
  { intros B f c1. apply tracks_sect. intros c2 x c3 _. destruct (checker_of (Replaced k) c2); [|done].
    destruct (f _). intros [= _ <-]. by rewrite unseen_former_checkers. }
  unfold health_tick, HC.performHealthCheck.
  apply tracks_bind; [exact _|apply Hm|]. intros pr c1 _.
  apply tracks_bind; [exact _|destruct pr; [apply call_probe_tracks|done]|]. intros e c2 _.
  apply tracks_bind; [exact _|by apply tracks_ext; [exact _|]|]. intros t c3 _. apply Hm.
Qed.

(** *** The operations that use the checker *)

Context `{HC : !CheckerMoves F}.

Lemma start_health_checker_tracks c : tracks F c (start_health_checker : P _).
Proof.
  unfold start_health_checker. go_tracks. apply tracks_checker. intros c1 h b h' _ Hh [= _ <-]. by apply moves_probe.
Qed.

Lemma stop_health_checker_tracks c : tracks F c (stop_health_checker : P _).
Proof.
  unfold stop_health_checker. go_tracks. apply tracks_checker. intros c1 h [] h' _ Hh Hs. by eapply moves_stop.
Qed.

Lemma close_closeChan_tracks c : tracks F c (close_closeChan : P _).
Proof.
  apply tracks_sect. intros c1 x c2 _. repeat case_match; try done; intros [= _ <-]; [done|].
  by rewrite unseen_closeOnce, unseen_closeChan.
Qed.
#[local] Hint Resolve start_health_checker_tracks stop_health_checker_tracks close_closeChan_tracks former_tick_tracks : tracks.

Lemma startupWithContext_tracks ctx c : tracks F c (startupWithContext ctx : P _).
Proof. unfold startupWithContext, start_connection_manager, not_ready. go_tracks. Qed.

Lemma cleanupWithContext_tracks ctx c : tracks F c (cleanupWithContext ctx [] : P _).
Proof.
  unfold cleanupWithContext, stop_connection_manager, subscriptionWG_Wait, goroutinePool_Wait, close_channels, close_connection.
  go_tracks.
Qed.

Lemma watch_attempt_tracks h c : tracks F c (watch_attempt h : P _).
Proof. unfold watch_attempt. go_tracks. Qed.

Lemma client_ForceReconnect_tracks c : tracks F c (client_ForceReconnect : P _).
Proof. unfold client_ForceReconnect, CM.ForceReconnect. go_tracks. Qed.

Lemma subscribeWithChannel_tracks ctx name q h c : tracks F c (subscribeWithChannel ctx name q h : P _).
Proof. unfold subscribeWithChannel. go_tracks. Qed.
#[local] Hint Resolve startupWithContext_tracks cleanupWithContext_tracks watch_attempt_tracks client_ForceReconnect_tracks
  subscribeWithChannel_tracks : tracks.

Definition is_publish (o : op) : bool :=
  match o with OpPublish _ _ _ _ _ | OpPublishWith _ _ _ _ _ _ => true | _ => false end.

Lemma run_op_tracks o c : is_call o = true → is_publish o = false → tracks F c (run_op o : P _).
Proof.
  intros Hc Ho.
  destruct o as [| |ctx [|]| | | | | | | | |]; try discriminate; cbn [run_op];
    unfold StartContext, StopContext, Subscribe, SubscribeWith, first_entry, IsConnected, force_reconnect; go_tracks.
Qed.

Lemma routine_tracks_quiet g ph ev p c : g ≠ HealthLoop Held → routine_code g ph ev = Some p → tracks F c p.
Proof.
  intros Hg Hp. destruct g as [[|k]|], ph, ev; cbn [routine_code] in Hp; try discriminate Hp; apply (inj Some) in Hp as <-;
    try done; unfold watch_notified; go_tracks.
Qed.

Lemma routine_tracks `{HT : !TickTracks F} g ph ev p c : routine_code g ph ev = Some p → tracks F c p.
Proof.
  intros Hp. destruct g as [[|k]|]; [|by refine (routine_tracks_quiet _ ph ev p c _ Hp)..].
  destruct ph, ev; cbn [routine_code] in Hp; try discriminate Hp; apply (inj Some) in Hp as <-; go_tracks.
Qed.

Definition is_delivery (ev : loop_event) : bool := match ev with LDelivery _ => true | _ => false end.

Lemma loop_case_tracks i l ev c : is_delivery ev = false → tracks F c (loop_case i l ev : P _).
Proof. destruct ev; try discriminate; intros _; unfold loop_case, loop_return; go_tracks. Qed.

(** *** The operations that write the metrics *)

Context `{HM : !MetricsUnseen F}.

Lemma tracks_any {A} c (e : E A) : tracks F c (ext e).
Proof. split; [by apply any_call|done]. Qed.

Lemma on_metrics_tracks c f : tracks F c (on_metrics f : P _).
Proof. apply tracks_put; [done|]. intros c1. by apply unseen_metrics. Qed.
#[local] Hint Resolve tracks_any on_metrics_tracks : tracks.

Ltac go_tracks_any :=
  repeat (cbn beta iota; lazymatch goal with
  | |- tracks _ _ (ext _) => apply tracks_any
  | |- tracks _ _ (on_metrics _) => apply on_metrics_tracks
  | |- tracks _ _ (_ ≫= _) => apply tracks_bind; [exact _| |intros ? ? _]
  | |- tracks _ _ (match ?x with _ => _ end) => destruct x
  | |- _ => progress go_tracks
  end).

Lemma publishToChannel_tracks ctx ch ex rk body opts c : tracks F c (publishToChannel ctx ch ex rk body opts : P _).
Proof. unfold publishToChannel. go_tracks_any. Qed.

Lemma loop_case_tracks_any i l ev c : tracks F c (loop_case i l ev : P _).
Proof.
  destruct (is_delivery ev) eqn:Hd; [|by apply loop_case_tracks]. destruct ev; try discriminate.
  unfold loop_case, dispatchDelivery. go_tracks_any.
Qed.
#[local] Hint Resolve publishToChannel_tracks : tracks.

Lemma run_op_tracks_any o c : is_call o = true → tracks F c (run_op o : P _).
Proof.
  intros Hc. destruct (is_publish o) eqn:Hp; [|by apply run_op_tracks].
  destruct o; try discriminate; cbn [run_op]; unfold PublishMessage, PublishMessageWith, first_entry; go_tracks.
Qed.

(** ** Interleavings *)

(** Every program in progress tracks the view. *)
Definition tracking {W} (m : machine W) : Prop := ∀ t p, active m !! t = Some p → tracks F (cl (sys m)) p.

Lemma exec_moves {W} `{!Env W} {A} (p p' : P A) (s s' : Sys RabbitMQClient W) :
  tracks F (cl s) p → exec p s = Done (p', s') → mine F (view F (cl s)) (view F (cl s')) ∧ tracks F (cl s') p'.
Proof.
  destruct p as [a|X f k|X e k]; cbn; [done| |].
  - intros Hp. destruct (f (cl s)) as [[x c2]| |] eqn:Hf; [|done..]. intros [= <- <-]. by eapply Hp.
  - intros [_ Hp]. destruct (handle e (world s)) as [x w]. intros [= <- <-]. by split.
Qed.

Lemma label_moves `{HT : !TickTracks F} {W} `{!Env W} l (m m' : machine W) :
  tracking m → do_label l m = Done m' → others F (view F (cl (sys m))) (view F (cl (sys m'))) ∧ tracking m'.
Proof.
  intros Hm Hd.
  assert (∀ t p, tracks F (cl (sys m)) p → m' = begin t p m → others F (view F (cl (sys m))) (view F (cl (sys m'))) ∧ tracking m') as Hbegin.
  { intros t p Hp ->. split; [done|]. intros t' q. cbn. rewrite lookup_insert_Some. intros [[<- <-]|[_ Hq]]; [done|by eapply Hm]. }
  destruct l as [n o|i ev|i ev|t|t]; cbn [do_label] in Hd.
  - destruct (is_call o) eqn:Hc, (is_idle (Caller n) m) eqn:Hi; cbn in Hd; try done. injection Hd as <-.
    eapply Hbegin; [|done]. apply tracks_bind; [done|by apply run_op_tracks_any|done].
  - destruct (mjoin _) as [lp|]; [|done]. destruct (is_idle _ m); [|done]. injection Hd as <-.
    eapply Hbegin; [|done]. apply tracks_bind; [done|apply loop_case_tracks_any|done].
  - destruct (goroutines (cl (sys m)) !! i) as [g|]; [|done]. destruct (routine_code g (phase_of m i) ev) as [p|] eqn:Hp; [|done].
    destruct (is_idle _ m); [|done]. injection Hd as <-. eapply Hbegin; [by eapply routine_tracks|done].
  - destruct (active m !! t) as [p|] eqn:Ht; [|done]. destruct (exec p (sys m)) as [[p' s']| |] eqn:He; [|done..].
    injection Hd as <-. destruct (exec_moves p p' (sys m) s' (Hm t p Ht) He) as [H1 H2]. apply mine_others in H1.
    split; [done|]. intros t' q. cbn. rewrite lookup_insert_Some. intros [[<- <-]|[_ Hq]]; [done|].
    eapply tracks_later; [done|done|by eapply Hm].
  - destruct (active m !! t) as [[ph| |]|] eqn:Ht; [|done..]. injection Hd as <-. split; [done|].
    intros t' q. cbn. rewrite lookup_delete_Some. intros [_ Hq]. by eapply Hm.
Qed.

(** In every interleaving the view moves as the focus allows. *)
Lemma play_moves `{HT : !TickTracks F} {W} `{!Env W} ls (s : Sys RabbitMQClient W) (m : machine W) :
  play ls (quiescent s) = Done m → others F (view F (cl s)) (view F (cl (sys m))).
Proof.
  assert (∀ m0 : machine W, tracking m0 → play ls m0 = Done m → others F (view F (cl (sys m0))) (view F (cl (sys m)))) as Hgen.
  { induction ls as [|l ls IH]; intros m0 Hm0; cbn [play]; [by intros [= ->]|].
    destruct (do_label l m0) as [m1| |] eqn:Hl; [|done..]. destruct (label_moves l m0 m1 Hm0 Hl) as [H1 Hm1].
    intros Hp. etransitivity; [done|]. by apply IH. }
  intros Hp. apply (Hgen (quiescent s)); [|done]. intros t p. cbn. by rewrite lookup_empty.
Qed.

End operations.
