(* ===== verification/ClientAccounting.v ===== *)
(** * Accounting under concurrency: deliveries and counters

    An [account] assigns an amount to every call with its answer and a level to every
    state of the client; [yields a p n] says that every complete run of the program [p], however
    it is interrupted, moves the balance of the account by [n].  Since every
    operation of the client has a yield of its own, the balance of a machine is
    determined by what has begun, in every interleaving: deliveries are settled
    exactly once, and the counters count, modulo 2^64, exactly the calls that were
    made. *)

From stdpp Require Import fin_maps.
From S2P Require Import Prelude Errors Constants Utils Config Metrics HealthChecker ConnectionManager Env Program NetUrl Sim Retry Client Logic ClientSetup ClientMessaging ClientLifecycle ClientInvariant ClientConcurrency ClientFrame.

(** ** Programs that leave the metrics alone and make no notable call *)

Section plain.
Context `{TY : Types} `{IP : NetIP}.
Notation P := (prog RabbitMQClient).

Definition metrics_focus : focus := {|
  view := metrics;
  others _ _ := True;
  mine := eq;
  silent A e := notable e = false |}.

#[export] Instance metrics_focus_ok : Focus metrics_focus.
Proof. by split. Qed.

#[export] Instance metrics_unseen : Unseen metrics_focus.
Proof. by split. Qed.

#[export] Instance metrics_checker : CheckerMoves metrics_focus.
Proof.
  by split.
Qed.

#[export] Instance metrics_tick : TickTracks metrics_focus.
Proof.
  intros c. unfold health_tick, HC.performHealthCheck.
  apply tracks_bind; [exact _|by apply tracks_checker|]. intros pr c1 _.
  apply tracks_bind; [exact _|destruct pr; [by apply call_probe_tracks; exact _|done]|]. intros e c2 _.
  apply tracks_bind; [exact _|by apply tracks_ext; [exact _|]|]. intros t c3 _. by apply tracks_checker.
Qed.

Definition plain {A} (p : P A) : Prop := ∀ c, tracks metrics_focus c p.

End plain.

(** ** Accounts *)

Section accounts.
Context `{TY : Types} `{IP : NetIP}.
Notation P := (prog RabbitMQClient).
Implicit Types c : RabbitMQClient.

(** What a call with its answer is worth, the level of the client, defined while
    something is [present], the modulus the balance is counted in (0: exactly), and
    what the dispatch of a delivery is to yield. *)
Record account : Type := mkAccount {
  amount : ∀ A, E A → A → Z;
  level : RabbitMQClient → Z;
  present : RabbitMQClient → Prop;
  modulus : Z;
  expects : loop → Delivery → Z;
}.
Arguments amount _ {A} _ _.

Context (a : account).

(** The worth of a log. *)
Definition worth (log : list entry) : Z := foldr (λ e z, (amount a (entry_call e) (entry_answer e) + z)%Z) 0%Z log.

(** Every complete run of the program moves the balance by [n]. *)
Fixpoint yields {A} (p : P A) (n : Z) : Prop :=
  match p with
  | Ret _ => (modulus a | n)%Z
  | Sect f k => ∀ c x c', present a c → f c = Done (x, c') →
      present a c' ∧ yields (k x) (n - (level a c' - level a c))
  | Call e k => ∀ x, yields (k x) (n - amount a e x)
  end.

Lemma yields_congruent {A} (p : P A) n n' : (modulus a | n - n')%Z → yields p n → yields p n'.
Proof.
  revert n n'. induction p as [b|X f k IH|X e k IH]; cbn; intros n n' Hd Hp.
  - replace n' with (n - (n - n'))%Z by lia. by apply Z.divide_sub_r.
  - intros c x c' Hm Hf. destruct (Hp c x c' Hm Hf) as [Hm' Hk]. split; [done|].
    eapply IH, Hk. by replace (_ - _ - _)%Z with (n - n')%Z by lia.
  - intros x. eapply IH, Hp. by replace (_ - _ - _)%Z with (n - n')%Z by lia.
Qed.

Lemma yields_bind {A B} (m : P A) (k : A → P B) n1 n2 :
  yields m n1 → (∀ x, yields (k x) n2) → yields (m ≫= k) (n1 + n2).
Proof.
  intros Hm Hk. revert n1 Hm. induction m as [b|X f j IH|X e j IH]; cbn; intros n1 Hm.
  - eapply yields_congruent, Hk. replace (n2 - (n1 + n2))%Z with (- n1)%Z by lia. by apply Z.divide_opp_r.
  - intros c x c' Hs Hf. destruct (Hm c x c' Hs Hf) as [Hs' Hj]. split; [done|].
    replace (n1 + n2 - _)%Z with (n1 - (level a c' - level a c) + n2)%Z by lia. by apply IH.
  - intros x. replace (n1 + n2 - _)%Z with (n1 - amount a e x + n2)%Z by lia. by apply IH.
Qed.

Lemma yields_ret {A} (x : A) : yields (mret x) 0.
Proof. apply Z.divide_0_r. Qed.

Lemma yields_then {A B} (m : P A) (k : A → P B) n : yields m n → (∀ x, yields (k x) 0) → yields (m ≫= k) n.
Proof. intros Hm Hk. rewrite <- (Z.add_0_r n). by apply yields_bind. Qed.

Lemma yields_bind_assoc {A B D} (m : P A) (k : A → P B) (j : B → P D) n :
  yields (m ≫= λ x, k x ≫= j) n → yields ((m ≫= k) ≫= j) n.
Proof.
  revert n. induction m as [b|X f i IH|X e i IH]; cbn; intros n Hm; [done| |intros x; by apply IH].
  intros c x c' Hs Hf. destruct (Hm c x c' Hs Hf). split; [done|]. by apply IH.
Qed.

Lemma yields_bind_ext {A B} (e : E A) (k : A → P B) n : (∀ x, yields (k x) (n - amount a e x)) → yields (ext e ≫= k) n.
Proof. done. Qed.

(** A read. *)
Lemma yields_bind_get {A B} (f : RabbitMQClient → A) (k : A → P B) n :
  (∀ c, present a c → yields (k (f c)) n) → yields (get f ≫= k) n.
Proof. intros Hk c x c' Hm [= <- <-]. split; [done|]. cbn. rewrite Z.sub_diag, Z.sub_0_r. by apply Hk. Qed.

(** A method of the metrics that moves the level by [d]. *)
Definition moves (f : Metrics → Metrics) (d : Z) : Prop := ∀ c, present a c →
  let c' := set_metrics (f <$> metrics c) c in present a c' ∧ (modulus a | (level a c' - level a c) - d)%Z.

Lemma yields_metrics f d n : moves f d → (modulus a | n - d)%Z → yields (on_metrics f) n.
Proof.
  intros Hf Hn c x c' Hc [= <- <-]. destruct (Hf c Hc) as [Hc' Hd]. split; [done|]. cbn.
  replace (n - _)%Z with (n - d - (level a (set_metrics (f <$> metrics c) c) - level a c - d))%Z by lia. by apply Z.divide_sub_r.
Qed.

Lemma yields_bind_metrics {B} f d (k : unit → P B) n :
  moves f d → (∀ x, yields (k x) (n - d)) → yields (on_metrics f ≫= k) n.
Proof.
  intros Hf Hk. replace n with (d + (n - d))%Z by lia. apply yields_bind; [|done].
  eapply yields_metrics; [done|]. rewrite Z.sub_diag. apply Z.divide_0_r.
Qed.

(** An account that ignores everything but the notable calls, and in which the two
    operations that make them yield what is expected. *)
Class Fair : Prop := {
  fair_quiet A (e : E A) x : notable e = false → amount a e x = 0%Z;
  fair_metrics c c' : metrics c = metrics c' → (present a c → present a c') ∧ level a c = level a c';
  fair_publish ctx ch ex rk body opts : yields (publishToChannel ctx ch ex rk body opts) 0;
  fair_dispatch i l d : yields (loop_case i l (LDelivery d)) (expects a l d);
}.

Context `{!Fair}.

Lemma plain_yields {A} (p : P A) : plain p → yields p 0.
Proof.
  intros Hp. specialize (Hp NewRabbitMQClient). revert Hp. generalize NewRabbitMQClient.
  induction p as [b|X f k IH|X e k IH]; cbn; intros c0 Hp; [apply Z.divide_0_r| |].
  - intros c x c' Hm Hf. destruct (Hp c x c' I Hf) as [He Hk]. destruct (fair_metrics _ _ He) as [Hpr ->].
    split; [auto|]. rewrite Z.sub_diag. by eapply IH.
  - destruct Hp as [He Hk]. intros x. rewrite fair_quiet by done. by eapply IH.
Qed.

Lemma run_op_yields o : is_call o = true → yields (run_op o) 0.
Proof.
  intros Hc. destruct o eqn:Ho; try by apply plain_yields; intros c0; apply run_op_tracks; try exact _.
  - cbn [run_op]. apply yields_then; [|intros; apply yields_ret]. apply yields_bind_get. intros c _.
    apply (yields_then (first_entry (producers c))).
    + apply plain_yields. intros c0. unfold first_entry. go_tracks.
    + intros [[k [ch|]]|]; [apply fair_publish|apply yields_ret..].
  - cbn [run_op]. apply yields_then; [|intros; apply yields_ret]. apply yields_bind_get. intros c _.
    destruct (producers c !! name) as [[ch|]|]; [apply fair_publish|apply yields_ret..].
Qed.

Lemma loop_case_yields i l ev :
  yields (loop_case i l ev) (match ev with LDelivery d => expects a l d | _ => 0 end).
Proof.
  destruct ev; [..|apply fair_dispatch|]; apply plain_yields; intros c; by apply loop_case_tracks; try exact _.
Qed.

(** ** Machines *)

(** The delivery a label dispatches. *)
Definition dispatches {W} (f : loop → Delivery → Z) (l : label) (m : machine W) : Z :=
  match l with
  | LLoop i (LDelivery d) => match mjoin (loops (cl (sys m)) !! i) with Some lp => f lp d | None => 0 end
  | _ => 0
  end.

(** The sum of what is dispatched along an execution. *)
Fixpoint dispatched {W} `{!Env W} (f : loop → Delivery → Z) (ls : list label) (m : machine W) : Z :=
  match ls with
  | [] => 0
  | l :: ls' => dispatches f l m + match do_label l m with Done m' => dispatched f ls' m' | _ => 0 end
  end.

(** What the programs in progress still have to yield. *)
Definition owing {W} (owed : gmap thread Z) (m : machine W) : Prop :=
  ∀ t, match active m !! t, owed !! t with
       | Some p, Some n => yields p n
       | None, None => True
       | _, _ => False
       end.

Definition sum (owed : gmap thread Z) : Z := map_fold (λ _, Z.add) 0%Z owed.

Lemma sum_insert owed t n : owed !! t = None → sum (<[t := n]> owed) = (n + sum owed)%Z.
Proof. intros Ht. unfold sum. rewrite map_fold_insert_L; [done|intros; lia|done]. Qed.

Lemma sum_delete owed t n : owed !! t = Some n → sum owed = (n + sum (delete t owed))%Z.
Proof. intros Ht. unfold sum. rewrite (map_fold_delete_L _ _ t n owed); [done|intros; lia|done]. Qed.

Lemma sum_update owed t n n' : owed !! t = Some n → sum (<[t := n']> owed) = (sum owed - n + n')%Z.
Proof.
  intros Ht. rewrite (sum_delete owed t n Ht), <- insert_delete_eq, sum_insert by apply lookup_delete_eq. lia.
Qed.

(** The balance of a machine, with what is still owed. *)
Definition balance {W} (owed : gmap thread Z) (m : machine (W * list entry)) : Z :=
  level a (cl (sys m)) + worth (snd (world (sys m))) + sum owed.

Lemma worth_app l1 l2 : worth (l1 ++ l2) = (worth l1 + worth l2)%Z.
Proof. unfold worth. rewrite foldr_app. induction l1 as [|e l1 IH]; cbn; [lia|]. rewrite IH. lia. Qed.

Lemma worth_single A (e : E A) x : worth [mkEntry A e x] = amount a e x.
Proof. unfold worth. cbn. lia. Qed.

Lemma owing_insert {W} owed (m m' : machine W) t p n :
  owing owed m → active m' = <[t := p]> (active m) → yields p n → owing (<[t := n]> owed) m'.
Proof.
  intros Ho Ha Hp t'. rewrite Ha. destruct (decide (t = t')) as [<-|Hne].
  - by rewrite !lookup_insert_eq.
  - rewrite !lookup_insert_ne by done. apply Ho.
Qed.

Lemma owing_None {W} owed (m : machine W) t : owing owed m → active m !! t = None → owed !! t = None.
Proof. intros Ho Ht. specialize (Ho t). rewrite Ht in Ho. by destruct (owed !! t). Qed.

Lemma owing_Some {W} owed (m : machine W) t p : owing owed m → active m !! t = Some p → ∃ n, owed !! t = Some n ∧ yields p n.
Proof. intros Ho Ht. specialize (Ho t). rewrite Ht in Ho. destruct (owed !! t); [by eexists|done]. Qed.

Lemma begin_balance {W} owed (m : machine (W * list entry)) t p n :
  owing owed m → is_idle t m = true → yields p n →
  owing (<[t := n]> owed) (begin t p m) ∧ balance (<[t := n]> owed) (begin t p m) = (balance owed m + n)%Z.
Proof.
  intros Ho Ht%bool_decide_eq_true Hp. split; [by eapply owing_insert|].
  unfold balance. rewrite sum_insert by by eapply owing_None. cbn. lia.
Qed.

Lemma exec_balance {W} `{!Env W} (owed : gmap thread Z) (m : machine (W * list entry)) t p p' s' n :
  present a (cl (sys m)) → active m !! t = Some p → owed !! t = Some n → yields p n →
  exec p (sys m) = Done (p', s') →
  ∃ n', present a (cl s') ∧ yields p' n' ∧
    (level a (cl s') + worth (snd (world s')) + n' = level a (cl (sys m)) + worth (snd (world (sys m))) + n)%Z.
Proof.
  intros Hs Ht Hn Hp He. destruct m as [phs act [c [w l]]]. cbn in *. destruct p as [b|X f k|X e k]; cbn in *; [done| |].
  - destruct (f c) as [[x c']| |] eqn:Hf; [|done..]. injection He as <- <-. destruct (Hp c x c' Hs Hf) as [Hs' Hk].
    eexists. split; [done|]. split; [exact Hk|]. cbn. lia.
  - destruct (handle e w) as [x w']. injection He as <- <-. eexists. split; [done|]. split; [apply Hp|].
    change (level a c + worth (l ++ [mkEntry X e x]) + (n - amount a e x) = level a c + worth l + n)%Z.
    rewrite worth_app, worth_single. lia.
Qed.

(** One label. *)
Lemma label_balance {W} `{!Env W} owed l (m m' : machine (W * list entry)) :
  present a (cl (sys m)) → owing owed m → do_label l m = Done m' →
  ∃ owed', present a (cl (sys m')) ∧ owing owed' m' ∧
    (modulus a | balance owed' m' - balance owed m - dispatches (expects a) l m)%Z.
Proof.
  intros Hs Ho Hd.
  assert (∀ t p n, is_idle t m = true → yields p n → m' = begin t p m → dispatches (expects a) l m = n →
    ∃ owed', present a (cl (sys m')) ∧ owing owed' m' ∧
      (modulus a | balance owed' m' - balance owed m - dispatches (expects a) l m)%Z) as Hbegin.
  { intros t p n Ht Hp -> ->. destruct (begin_balance owed m t p n Ho Ht Hp) as [Ho' Hb].
    eexists. split; [done|]. split; [done|]. rewrite Hb. replace (_ - _)%Z with 0%Z by lia. apply Z.divide_0_r. }
  destruct l as [n o|i ev|i ev|t|t]; cbn [do_label] in Hd.
  - destruct (is_call o) eqn:Hc, (is_idle (Caller n) m) eqn:Hi; cbn in Hd; try done. injection Hd as <-.
    eapply (Hbegin (Caller n)); [done| |done|done]. apply yields_then; [by apply run_op_yields|intros; apply yields_ret].
  - destruct (mjoin (loops (cl (sys m)) !! i)) as [lp|] eqn:Hlp; [|done]. destruct (is_idle (Dispatcher i) m) eqn:Hi; [|done].
    injection Hd as <-. eapply (Hbegin (Dispatcher i)); [done| |done|].
    + apply yields_then; [by apply loop_case_yields|intros; apply yields_ret].
    + cbn. rewrite Hlp. by destruct ev.
  - destruct (goroutines (cl (sys m)) !! i) as [g|]; [|done]. destruct (routine_code g (phase_of m i) ev) as [p|] eqn:Hp; [|done].
    destruct (is_idle (Routine i) m) eqn:Hi; [|done]. injection Hd as <-. eapply (Hbegin (Routine i)); [done| |done|done].
    eapply plain_yields. intros c. by eapply routine_tracks; try exact _.
  - destruct (active m !! t) as [p|] eqn:Ht; [|done]. destruct (owing_Some owed m t p Ho Ht) as (n & Hn & Hy).
    destruct (exec p (sys m)) as [[p' s']| |] eqn:He; [|done..]. injection Hd as <-.
    destruct (exec_balance owed m t p p' s' n Hs Ht Hn Hy He) as (n' & Hs' & Hy' & Heq).
    exists (<[t := n']> owed). split; [done|]. split; [by eapply owing_insert|]. unfold balance. cbn.
    rewrite (sum_update owed t n n' Hn). replace (_ - _)%Z with 0%Z by lia. apply Z.divide_0_r.
  - destruct (active m !! t) as [[ph| |]|] eqn:Ht; [|done..]. injection Hd as <-.
    destruct (owing_Some owed m t _ Ho Ht) as (n & Hn & Hy). cbn in Hy. exists (delete t owed). split; [done|]. split.
    + intros t'. cbn. destruct (decide (t = t')) as [<-|Hne]; [by rewrite !lookup_delete_eq|].
      rewrite !lookup_delete_ne by done. apply Ho.
    + unfold balance. cbn. rewrite (sum_delete owed t n Hn). replace (_ - _)%Z with (- n)%Z by lia. by apply Z.divide_opp_r.
Qed.

Lemma play_balance {W} `{!Env W} owed ls (m m' : machine (W * list entry)) :
  present a (cl (sys m)) → owing owed m → play ls m = Done m' →
  ∃ owed', present a (cl (sys m')) ∧ owing owed' m' ∧
    (modulus a | balance owed' m' - balance owed m - dispatched (expects a) ls m)%Z.
Proof.
  revert owed m. induction ls as [|l ls IH]; intros owed m Hs Ho Hp; cbn [play dispatched] in *.
  { injection Hp as <-. exists owed. split; [done|]. split; [done|]. rewrite Z.sub_diag. apply Z.divide_0_r. }
  destruct (do_label l m) as [m1| |] eqn:Hd; [|done..].
  destruct (label_balance owed l m m1 Hs Ho Hd) as (owed1 & Hs1 & Ho1 & H1).
  destruct (IH owed1 m1 Hs1 Ho1 Hp) as (owed2 & Hs2 & Ho2 & H2). exists owed2. split; [done|]. split; [done|].
  replace (_ - _)%Z with (balance owed1 m1 - balance owed m - dispatches (expects a) l m +
    (balance owed2 m' - balance owed1 m1 - dispatched (expects a) ls m1))%Z by lia. by apply Z.divide_add_r.
Qed.

(** From nothing in progress to nothing in progress. *)
Lemma quiescent_balance {W} `{!Env W} ls c (w : W) (m : machine (W * list entry)) :
  present a c → play ls (quiescent (mkSys c (w, []))) = Done m → active m = ∅ →
  present a (cl (sys m)) ∧
  (modulus a | level a (cl (sys m)) + worth (snd (world (sys m))) - level a c - dispatched (expects a) ls (quiescent (mkSys c (w, []))))%Z.
Proof.
  intros Hs Hp Hq.
  destruct (play_balance ∅ ls (quiescent (mkSys c (w, []))) m Hs) as (owed & Hs' & Ho & Hb); [intros t; cbn; by rewrite !lookup_empty|done|].
  split; [done|]. assert (owed = ∅) as ->.
  { apply map_eq. intros t. rewrite lookup_empty. apply (owing_None _ m); [done|]. by rewrite Hq, lookup_empty. }
  unfold balance in Hb. cbn in Hb. unfold sum in Hb. rewrite !map_fold_empty in Hb.
  by replace (_ - _)%Z with (level a (cl (sys m)) + worth (snd (world (sys m))) + 0 - (level a c + 0 + 0) - dispatched (expects a) ls (quiescent (mkSys c (w, []))))%Z by lia.
Qed.

End accounts.

#[global] Arguments mkAccount {TY}.
#[global] Arguments amount {TY} _ {A} _ _.

(** Evaluate the yield of a program, one statement at a time; [moves] facts about the
    methods of the metrics are in the database [moves]. *)
Create HintDb moves discriminated.

Ltac yields_step :=
  lazymatch goal with
  | |- yields _ (mret _) _ => cbn
  | |- yields _ (ext (EHandler _ _ _) ≫= _) _ => apply yields_bind_ext; intros [[?|]|? ?]
  | |- yields _ (ext _ ≫= _) _ => apply yields_bind_ext; intros ?
  | |- yields _ (get _ ≫= _) _ => apply yields_bind_get; intros ?c [?m ?Hm]; cbn beta; rewrite ?Hm
  | |- yields _ (on_metrics _ ≫= _) _ => eapply yields_bind_metrics; [solve [auto with moves]|intros _]
  | |- yields _ (on_metrics _) _ => eapply yields_metrics; [solve [auto with moves]|]
  | |- yields _ ((_ ≫= _) ≫= _) _ => apply yields_bind_assoc
  | |- yields ?a (mret ?x ≫= ?k) ?n => change (yields a (k x) n)
  | |- yields _ (match ?x with _ => _ end) _ => destruct x
  | |- yields _ (match ?x with _ => _ end ≫= _) _ => destruct x
  end; cbn beta iota.

(** Congruences between numbers, by evaluating the amounts. *)
Ltac congruence_by_computation :=
  cbn; repeat case_match; rewrite ?Z.add_0_l, ?Z.sub_0_r, ?Z.sub_diag; try apply Z.divide_0_r.

Ltac yields_run := repeat yields_step; congruence_by_computation.

Section concrete.
Context `{TY : Types} `{IP : NetIP}.
Notation P := (prog RabbitMQClient).
Implicit Types c : RabbitMQClient.

(** Handler calls, and acknowledgements of either kind, for the deliveries [w]. *)
Definition handler_account (w : Delivery → bool) : account := {|
  amount A e _ := match e with EHandler _ _ d => Z.b2z (w d) | _ => 0%Z end;
  level _ := 0%Z;
  present c := is_Some (metrics c);
  modulus := 0%Z;
  expects _ d := Z.b2z (w d) |}.

Definition settlement_account (w : Delivery → bool) : account := {|
  amount A e _ := match e with EAck d _ | ENack d _ _ => Z.b2z (w d) | _ => 0%Z end;
  level _ := 0%Z;
  present c := is_Some (metrics c);
  modulus := 0%Z;
  expects l d := if l_autoAck l then 0%Z else Z.b2z (w d) |}.

(** A counter against the calls that it counts, by their answers. *)
Definition counter_account (field : Metrics → Z) (counts : ∀ A, E A → A → bool) : account := {|
  amount A e x := (- Z.b2z (counts A e x))%Z;
  level c := from_option field 0%Z (metrics c);
  present c := is_Some (metrics c);
  modulus := two64;
  expects _ _ := 0%Z |}.

Definition published (ok : bool) A (e : E A) : A → bool :=
  match e in E A return A → bool with
  | EPublish _ _ _ _ _ _ _ => λ r, match r with None => ok | Some _ => negb ok end
  | _ => λ _, false
  end.

Definition handled (ok : bool) A (e : E A) : A → bool :=
  match e in E A return A → bool with
  | EHandler _ _ _ => λ r, match r with HReturn None => ok | _ => negb ok end
  | _ => λ _, false
  end.

Lemma wrap64_divide z : (two64 | wrap64 z - z)%Z.
Proof.
  exists (- ((z + two63) / two64))%Z. unfold wrap64. pose proof (Z.div_mod (z + two63) two64). unfold two64 in *. lia.
Qed.

(** *** The methods of the metrics move the counters they should *)

Lemma moves_level0 w f : moves (handler_account w) f 0 ∧ moves (settlement_account w) f 0.
Proof. by split; intros c [m Hm]; (split; [cbn; rewrite Hm; by eexists|apply Z.divide_refl]). Qed.

Lemma moves_same field counts f : (∀ m, field (f m) = field m) → moves (counter_account field counts) f 0.
Proof.
  intros Hf c [m Hm]. cbn. rewrite Hm. cbn. split; [by eexists|].
  rewrite Hf. replace (_ - _)%Z with 0%Z by lia. apply Z.divide_0_r.
Qed.

Lemma moves_one field counts f : (∀ m, field (f m) = wrap64 (field m + 1)) → moves (counter_account field counts) f 1.
Proof.
  intros Hf c [m Hm]. cbn. rewrite Hm. cbn. split; [by eexists|].
  rewrite Hf. replace (_ - _)%Z with (wrap64 (field m + 1) - (field m + 1))%Z by lia. apply wrap64_divide.
Qed.

End concrete.

#[export] Hint Extern 1 (moves (handler_account _) _ _) => apply moves_level0 : moves.
#[export] Hint Extern 1 (moves (settlement_account _) _ _) => apply moves_level0 : moves.
#[export] Hint Extern 1 (moves (counter_account _ _) _ _) =>
  first [ apply moves_same; by intros [] | apply moves_one; by intros [] ] : moves.

Section fair.
Context `{TY : Types} `{IP : NetIP}.
Notation P := (prog RabbitMQClient).

Ltac fair :=
  split;
  [ intros A []; done
  | intros ? ? Hm; cbn; by rewrite ?Hm
  | intros; unfold publishToChannel; yields_run
  | intros ? l ?; unfold loop_case, dispatchDelivery; cbn [expects handler_account settlement_account counter_account];
    destruct (l_autoAck l); yields_run ].

#[export] Instance handler_calls_fair w : Fair (handler_account w).
Proof. fair. Qed.

#[export] Instance acknowledgements_fair w : Fair (settlement_account w).
Proof. fair. Qed.

#[export] Instance sent_fair : Fair (counter_account producerMessagesSent (published true)).
Proof. fair. Qed.

#[export] Instance publish_failed_fair : Fair (counter_account producerMessagesFailed (published false)).
Proof. fair. Qed.

#[export] Instance received_fair : Fair (counter_account consumerMessagesReceived (handled true)).
Proof. fair. Qed.

#[export] Instance consume_failed_fair : Fair (counter_account consumerMessagesFailed (handled false)).
Proof. fair. Qed.

End fair.

(** ** Properties *)

Section properties.
Context `{TY : Types} `{IP : NetIP}.
Implicit Types c : RabbitMQClient.

(** The delivery an entry hands to a handler, and the one it settles. *)
Definition handed (e : entry) : list Delivery :=
  match e with mkEntry _ c _ => match c with EHandler _ _ d => [d] | _ => [] end end.

Definition settled (e : entry) : list Delivery :=
  match e with mkEntry _ c _ => match c with EAck d _ | ENack d _ _ => [d] | _ => [] end end.

Definition counted (counts : ∀ A, E A → A → bool) (log : list entry) : Z :=
  Z.of_nat (count (λ e, counts _ (entry_call e) (entry_answer e)) log).

Lemma worth_handler_calls w log : worth (handler_account w) log = Z.of_nat (count w (log ≫= handed)).
Proof.
  induction log as [|[A e x] log IH]; [done|]. rewrite bind_cons, count_app, Nat2Z.inj_add, <- IH.
  change (worth (handler_account w) (mkEntry A e x :: log)) with (amount (handler_account w) e x + worth (handler_account w) log)%Z.
  f_equal. destruct e; try done. cbn [handed]. rewrite count_cons, count_nil. cbn. by destruct (w d).
Qed.

Lemma worth_acknowledgements w log : worth (settlement_account w) log = Z.of_nat (count w (log ≫= settled)).
Proof.
  induction log as [|[A e x] log IH]; [done|]. rewrite bind_cons, count_app, Nat2Z.inj_add, <- IH.
  change (worth (settlement_account w) (mkEntry A e x :: log)) with (amount (settlement_account w) e x + worth (settlement_account w) log)%Z.
  f_equal. destruct e; try done; cbn [settled]; rewrite count_cons, count_nil; cbn; by destruct (w d).
Qed.

Lemma worth_counter field counts log : worth (counter_account field counts) log = (- counted counts log)%Z.
Proof.
  unfold counted. induction log as [|e log IH]; [done|]. rewrite count_cons, Nat2Z.inj_add.
  change (worth (counter_account field counts) (e :: log)) with
    (- Z.b2z (counts _ (entry_call e) (entry_answer e)) + worth (counter_account field counts) log)%Z.
  rewrite IH. destruct (counts _ _ _); cbn; lia.
Qed.

Lemma dispatched_nothing {W} `{!Env W} ls (m : machine W) : dispatched (λ _ _, 0%Z) ls m = 0%Z.
Proof.
  revert m. induction ls as [|l ls IH]; intros m; [done|]. cbn. destruct (do_label l m); rewrite ?IH;
    (destruct l as [|? []| | |]; try done; cbn; by destruct (mjoin _)).
Qed.

Lemma wrap64_congruent x y : (two64 | x - y)%Z → wrap64 x = wrap64 y.
Proof.
  intros [k Hk]. unfold wrap64. f_equal. replace (x + two63)%Z with (y + two63 + k * two64)%Z by lia.
  by apply Z.mod_add.
Qed.

(** A counter against its calls, when nothing is in progress. *)
Lemma counter_balance {W} `{!Env W} field counts `{!Fair (counter_account field counts)} ls c (w : W) (m : machine (W * list entry)) ms :
  metrics c = Some ms → play ls (quiescent (mkSys c (w, []))) = Done m → active m = ∅ →
  ∃ ms', metrics (cl (sys m)) = Some ms' ∧ wrap64 (field ms') = wrap64 (field ms + counted counts (snd (world (sys m)))).
Proof.
  intros Hms Hp Hq. destruct (quiescent_balance (counter_account field counts) ls c w m) as [[ms' Hms'] Hb]; [by eexists|done..|].
  exists ms'. split; [done|]. apply wrap64_congruent. cbn [level counter_account] in Hb. rewrite Hms, Hms' in Hb. cbn [from_option] in Hb.
  rewrite worth_counter in Hb. cbn [expects counter_account] in Hb. rewrite dispatched_nothing in Hb. cbn [modulus counter_account] in Hb.
  by replace (_ - _)%Z with (field ms' + - counted counts (world (sys m)).2 - field ms - 0)%Z by lia.
Qed.

(** C8: no delivery is lost or settled twice, in any interleaving.  In every
    environment, when nothing is in progress any more after any number of calls,
    dispatch loops, health loops and watchers have run concurrently: for every set
    of deliveries, the user handlers were called exactly as often as dispatch loops
    received one of them, and the acknowledgements sent (acks and nacks together)
    are exactly as many as the receptions by loops that are not in auto-ack mode. *)
Theorem deliveries_settled_exactly_once {W} `{!Env W} (ls : list label) c (w : W) (m : machine (W * list entry)) (p : Delivery → bool) :
  is_Some (metrics c) → play ls (quiescent (mkSys c (w, []))) = Done m → active m = ∅ →
  Z.of_nat (count p (snd (world (sys m)) ≫= handed)) =
    dispatched (λ _ d, Z.b2z (p d)) ls (quiescent (mkSys c (w, []))) ∧
  Z.of_nat (count p (snd (world (sys m)) ≫= settled)) =
    dispatched (λ l d, if l_autoAck l then 0%Z else Z.b2z (p d)) ls (quiescent (mkSys c (w, []))).
Proof.
  intros Hs Hp Hq.
  destruct (quiescent_balance (handler_account p) ls c w m Hs Hp Hq) as [[ms Hms] H1].
  destruct (quiescent_balance (settlement_account p) ls c w m Hs Hp Hq) as [_ H2].
  rewrite worth_handler_calls in H1. rewrite worth_acknowledgements in H2.
  apply Z.divide_0_l in H1, H2. cbn [level handler_account settlement_account expects] in H1, H2. split; lia.
Qed.

(** C9: the counters lose no update, in any interleaving.  In every environment,
    when nothing is in progress any more, the counters of sent and failed messages
    have grown by the number of publish calls the broker accepted and refused, and
    those of received and failed deliveries by the number of handler calls that
    returned nil and that failed or panicked, modulo 2^64. *)
Theorem counters_agree_with_calls {W} `{!Env W} (ls : list label) c (w : W) (m : machine (W * list entry)) ms :
  metrics c = Some ms → play ls (quiescent (mkSys c (w, []))) = Done m → active m = ∅ →
  ∃ ms', metrics (cl (sys m)) = Some ms' ∧
    wrap64 (producerMessagesSent ms') = wrap64 (producerMessagesSent ms + counted (published true) (snd (world (sys m)))) ∧
    wrap64 (producerMessagesFailed ms') = wrap64 (producerMessagesFailed ms + counted (published false) (snd (world (sys m)))) ∧
    wrap64 (consumerMessagesReceived ms') = wrap64 (consumerMessagesReceived ms + counted (handled true) (snd (world (sys m)))) ∧
    wrap64 (consumerMessagesFailed ms') = wrap64 (consumerMessagesFailed ms + counted (handled false) (snd (world (sys m)))).
Proof.
  intros Hms Hp Hq.
  destruct (counter_balance producerMessagesSent (published true) ls c w m ms Hms Hp Hq) as (ms' & Hms' & H1).
  destruct (counter_balance producerMessagesFailed (published false) ls c w m ms Hms Hp Hq) as (? & ? & H2).
  destruct (counter_balance consumerMessagesReceived (handled true) ls c w m ms Hms Hp Hq) as (? & ? & H3).
  destruct (counter_balance consumerMessagesFailed (handled false) ls c w m ms Hms Hp Hq) as (? & ? & H4).
  exists ms'. simplify_eq. auto.
Qed.

End properties.

(** ** Witnesses *)

Section witnesses.
Import Sim.

(** A subscriber whose handler fails, two concurrent publishers and a dispatch loop
    that receives the delivery 5 twice and the delivery 6 once among them. *)
Definition traffic : list label :=
  [LCall 0 (OpSubscribe Background "jobs" (HReturn (Some (Errorf "bad message")) : Handler (Types := types)))] ++
  execs 10 (Caller 0) ++
  [LReturn (Caller 0); LCall 1 (OpPublish Background "" "jobs" "a" []); LCall 2 (OpPublish Background "" "jobs" "b" [])] ++
  execs 4 (Caller 1) ++ execs 5 (Caller 2) ++ [LLoop 0 (LDelivery (TY := types) 5)] ++ execs 3 (Dispatcher 0) ++
  execs 4 (Caller 2) ++ execs 5 (Caller 1) ++ execs 4 (Dispatcher 0) ++
  [LReturn (Dispatcher 0); LReturn (Caller 2); LLoop 0 (LDelivery (TY := types) 6)] ++ execs 7 (Dispatcher 0) ++
  [LReturn (Dispatcher 0); LLoop 0 (LDelivery (TY := types) 5)] ++ execs 7 (Dispatcher 0) ++
  [LReturn (Dispatcher 0); LReturn (Caller 1)].

Definition before_traffic : machine (sim * list entry) := quiescent (mkSys (cl served) (world served, [])).

Definition after_traffic : machine (sim * list entry) :=
  match play traffic before_traffic with Done m => m | _ => before_traffic end.

Lemma traffic_plays : play traffic before_traffic = Done after_traffic.
Proof.
  assert (match play traffic before_traffic with Done _ => true | _ => false end = true) as H by (vm_compute; reflexivity).
  unfold after_traffic. by destruct (play traffic before_traffic).
Qed.

Lemma after_traffic_idle : active after_traffic = ∅.
Proof. apply map_size_empty_iff. vm_compute. reflexivity. Qed.

Lemma served_metrics : metrics (cl served) = Some zeroMetrics.
Proof. vm_compute. reflexivity. Qed.

Lemma deliveries_settled_exactly_once_witness :
  Z.of_nat (count (λ d : Delivery, d =? 5) (snd (world (sys after_traffic)) ≫= settled)) = 2%Z ∧
  Z.of_nat (count (λ d : Delivery, d =? 6) (snd (world (sys after_traffic)) ≫= handed)) = 1%Z.
Proof.
  split.
  - etransitivity; [eapply (deliveries_settled_exactly_once traffic (cl served) (world served) after_traffic (λ d, d =? 5))|].
    + rewrite served_metrics. by eexists.
    + exact traffic_plays.
    + exact after_traffic_idle.
    + vm_compute. reflexivity.
  - etransitivity; [eapply (deliveries_settled_exactly_once traffic (cl served) (world served) after_traffic (λ d, d =? 6))|].
    + rewrite served_metrics. by eexists.
    + exact traffic_plays.
    + exact after_traffic_idle.
    + vm_compute. reflexivity.
Defined.

Lemma counters_agree_with_calls_witness :
  (∃ ms, metrics (cl (sys after_traffic)) = Some ms ∧
    wrap64 (producerMessagesSent ms) = wrap64 (0 + counted (published true) (snd (world (sys after_traffic)))) ∧
    wrap64 (producerMessagesFailed ms) = wrap64 (0 + counted (published false) (snd (world (sys after_traffic)))) ∧
    wrap64 (consumerMessagesReceived ms) = wrap64 (0 + counted (handled true) (snd (world (sys after_traffic)))) ∧
    wrap64 (consumerMessagesFailed ms) = wrap64 (0 + counted (handled false) (snd (world (sys after_traffic))))) ∧
  counted (published true) (snd (world (sys after_traffic))) = 2%Z ∧
  counted (handled false) (snd (world (sys after_traffic))) = 3%Z.
Proof.
  split; [|split; vm_compute; reflexivity].
  exact (counters_agree_with_calls traffic (cl served) (world served) after_traffic zeroMetrics
           served_metrics traffic_plays after_traffic_idle).
Defined.

End witnesses.
