(* ===== verification/ClientHealth.v ===== *)
(** * Health and forced reconnection (src/health.go, src/managers.go with src/client.go)

    The client and its two helpers together: what a tick of the health loop does to
    the client and what CheckHealth then says, what ForceReconnect does, and that
    the checker a client holds is, in every interleaving of everything, in a state
    that the stand-alone checker of [HealthChecker] can reach, so that the theorems
    about the latter hold of the former, and counts exactly the probes that failed.

    For the count, [tick_log] collects the calls that the ticks of health loops make
    along an execution, and the method of [ClientAccounting] is used on the threads
    that tick; everything else leaves the count alone ([count_focus]). *)

From stdpp Require Import fin_maps.
From S2P Require Import Prelude Errors Constants Utils Config Metrics HealthChecker ConnectionManager Env Program NetUrl Sim Retry Client Logic ClientSetup ClientMessaging ClientLifecycle ClientInvariant ClientConcurrency ClientFrame ClientAccounting.

(** ** The checker of a client refines the stand-alone checker, and counts *)

Section refinement.
Context `{TY : Types} `{IP : NetIP}.
Notation P := (prog RabbitMQClient).
Implicit Types c : RabbitMQClient.

(** A checker stays there, stays reachable, and keeps having a probe. *)
Definition checker_moves (o o' : option Checker) : Prop :=
  ∀ h, o = Some h → ∃ h', o' = Some h' ∧ (HC.reachable h → HC.reachable h') ∧ (is_Some (HC.probe h) → is_Some (HC.probe h')).

#[export] Instance checker_moves_preorder : PreOrder checker_moves.
Proof.
  split.
  - intros o h Hh. by exists h.
  - intros o1 o2 o3 H12 H23 h Hh. destruct (H12 h Hh) as (h2 & H2 & Hr & Hp). destruct (H23 h2 H2) as (h3 & H3 & Hr' & Hp').
    exists h3. auto.
Qed.

(** A checker with a probe stays; what everything but a tick does to it: the error
    count stays too. *)
Definition checker_stays (o o' : option Checker) : Prop :=
  ∀ h, o = Some h → ∃ h', o' = Some h' ∧ (is_Some (HC.probe h) → is_Some (HC.probe h')).

#[export] Instance checker_stays_preorder : PreOrder checker_stays.
Proof.
  split.
  - intros o h Hh. by exists h.
  - intros o1 o2 o3 H12 H23 h Hh. destruct (H12 h Hh) as (h2 & H2 & Hp). destruct (H23 h2 H2) as (h3 & H3 & Hp'). exists h3. auto.
Qed.

Definition checker_counts (o o' : option Checker) : Prop :=
  checker_stays o o' ∧ (HC.errorCount <$> o') = (HC.errorCount <$> o).

Definition checker_focus : focus := {|
  view := healthChecker;
  others := checker_moves;
  mine := checker_moves;
  silent _ _ := True |}.

Definition count_focus : focus := {|
  view := healthChecker;
  others := checker_stays;
  mine := checker_counts;
  silent _ _ := True |}.

#[export] Instance checker_focus_ok : Focus checker_focus.
Proof. split; cbn; try apply _; done. Qed.

#[export] Instance count_focus_ok : Focus count_focus.
Proof. split; cbn; try apply _; try done. by intros x y []. Qed.

#[export] Instance checker_focus_unseen : Unseen checker_focus.
Proof. by split. Qed.

#[export] Instance count_focus_unseen : Unseen count_focus.
Proof. by split. Qed.

#[export] Instance checker_focus_metrics : MetricsUnseen checker_focus.
Proof. by split. Qed.

#[export] Instance count_focus_metrics : MetricsUnseen count_focus.
Proof. by split. Qed.

Lemma Stop_report (h h' : Checker) : HC.Stop h = Done (tt, h') → HC.probe h' = HC.probe h ∧ HC.errorCount h' = HC.errorCount h.
Proof.
  unfold HC.Stop, HC.close_stopChan. destruct (HC.stopped h); [by intros [= <-]|].
  destruct (HC.stopOnce h); [by intros [= <-]|]. destruct (HC.stopChan h); [done|by intros [= <-]].
Qed.

Lemma moves_stays o o' : checker_moves o o' → checker_stays o o'.
Proof. intros Hm h Hh. destruct (Hm h Hh) as (h' & ? & _ & ?). by exists h'. Qed.

Lemma SetProbe_moves (h : Checker) fn : checker_moves (Some h) (Some (HC.SetProbe fn h)).
Proof. intros h0 [= <-]. eexists. split; [done|]. split; [apply HC.reachable_probe|by eexists]. Qed.

Lemma Stop_moves (h h' : Checker) : HC.Stop h = Done (tt, h') → checker_moves (Some h) (Some h').
Proof.
  intros Hs h0 [= <-]. exists h'. split; [done|]. destruct (Stop_report _ _ Hs) as [Hp _].
  split; [intros Hr; by eapply HC.reachable_stop|by rewrite Hp].
Qed.

#[export] Instance checker_focus_checker : CheckerMoves checker_focus.
Proof. split; cbn; intros c h h' Hh; rewrite Hh; [apply SetProbe_moves|apply Stop_moves]. Qed.

#[export] Instance count_focus_checker : CheckerMoves count_focus.
Proof.
  split; cbn; intros c h h' Hh; rewrite Hh; [by split; [apply moves_stays, SetProbe_moves|]|].
  intros Hs. split; [by apply moves_stays, Stop_moves|]. cbn. by destruct (Stop_report _ _ Hs) as [_ ->].
Qed.

#[export] Instance tick_tracks : TickTracks checker_focus.
Proof.
  intros c. unfold health_tick, HC.performHealthCheck. intros c1 pr c2 _. cbn.
  destruct (healthChecker c1) as [h|] eqn:Hh; [|done]. intros [= <- <-]. split; [intros h0 [= ->]; by exists h0|].
  set (c2 := set_healthChecker (Some h) c1).
  (* the result of a probe is an error only if there is a probe *)
  assert (∀ e c', others checker_focus (view checker_focus c2) (view checker_focus c') → (HC.probe h = None → e = None) →
    tracks checker_focus c' (t ← ext ENow; method (λ h : Checker, (tt, HC.record_check t e h)) : P _)) as Hrecord.
  { intros e c' Hc' He. split; [done|]. intros t c3 [] c4 H3. cbn.
    destruct (Hc' h eq_refl) as (h1 & H1 & _ & Hp1). destruct (H3 h1 H1) as (h3 & Hh3 & _ & Hp3). cbn in Hh3. rewrite Hh3.
    intros [= <-]. split; [|done]. intros h4 [= <-]. eexists. split; [done|]. split; [|by destruct e].
    intros Hr. apply HC.reachable_record; [done|]. intros Hno. apply He. destruct (HC.probe h) as [fn|]; [|done].
    destruct (Hp3 (Hp1 (mk_is_Some _ _ eq_refl))) as [fn' Hfn]. by rewrite Hno in Hfn. }
  destruct (HC.probe h) as [fn|]; [|by apply (Hrecord None c2)].
  apply tracks_bind; [exact _|by apply (call_probe_tracks checker_focus fn)|]. intros e c' Hc'. by apply Hrecord.
Qed.

(** *** The account of the health loops *)

(** A tick asks for the time once, when it records, and its probe opens a channel
    exactly when it passes: the error count against these calls. *)
Definition probe_passed (e : entry) : bool :=
  match e with mkEntry _ c x =>
    (match c in E A return A → bool with EChannel _ => λ r, match r with inl _ => true | inr _ => false end | _ => λ _, false end) x
  end.

Definition probe_recorded (e : entry) : bool :=
  match e with mkEntry _ c _ => match c with ENow => true | _ => false end end.

Definition probe_account : account := {|
  amount A e x := (Z.b2z (probe_passed (mkEntry A e x)) - Z.b2z (probe_recorded (mkEntry A e x)))%Z;
  level c := from_option HC.errorCount 0%Z (healthChecker c);
  present c := ∃ h, healthChecker c = Some h ∧ is_Some (HC.probe h);
  modulus := two64;
  expects _ _ := 0%Z |}.

Lemma probe_worth log :
  worth probe_account log = (Z.of_nat (count probe_passed log) - Z.of_nat (count probe_recorded log))%Z.
Proof.
  induction log as [|[A e x] log IH]; [done|]. rewrite !count_cons, !Nat2Z.inj_add.
  change (worth probe_account (mkEntry A e x :: log)) with (amount probe_account e x + worth probe_account log)%Z.
  rewrite IH. cbn [amount probe_account]. destruct (probe_passed _), (probe_recorded _); cbn; lia.
Qed.

(** Recording a result when the probe has been paid for. *)
Lemma record_yields e :
  yields probe_account (t ← ext ENow; method (λ h : Checker, (tt, HC.record_check t e h)) : P _)
    (match e with None => -1 | Some _ => 0 end).
Proof.
  intros t c x c' (h & Hh & fn & Hfn). cbn. rewrite Hh. intros [= _ <-]. cbn. split.
  - eexists. split; [done|]. destruct e; by eexists.
  - destruct e as [e|]; cbn.
    + replace (_ - _)%Z with (- (wrap64 (HC.errorCount h + 1) - (HC.errorCount h + 1)))%Z by lia.
      apply Z.divide_opp_r, wrap64_divide.
    + exists 0%Z. lia.
Qed.

Lemma probe_yields :
  yields probe_account (e ← connectionProbe; t ← ext ENow; method (λ h : Checker, (tt, HC.record_check t e h)) : P _) 0.
Proof.
  unfold connectionProbe, conn_IsClosed. repeat yields_step.
  all: first [ apply (record_yields None) | apply (record_yields (Some _)) ].
Qed.

Lemma tick_yields : yields probe_account (health_tick Held : P _) 0.
Proof.
  unfold health_tick, HC.performHealthCheck. intros c pr c' (h & Hh & [[] Hfn]). cbn. rewrite Hh.
  intros [= <- <-]. split; [by exists h; split; [|eexists]|]. cbn [level probe_account]. rewrite Z.sub_diag, Hfn. exact probe_yields.
Qed.

(** *** What the ticks call *)

(** The iterations of health loops on the checker the client holds that are in
    progress: [T] before a label, [follow l m T] after it. *)
Definition follow {W} (l : label) (m : machine W) (T : gset thread) : gset thread :=
  match l with
  | LRoutine i _ => match goroutines (cl (sys m)) !! i with Some (HealthLoop Held) => {[Routine i]} ∪ T | _ => T end
  | LReturn t => T ∖ {[t]}
  | _ => T
  end.

(** The call a label makes, with its answer, if one of [T] makes it. *)
Definition made_by {W} `{!Env W} (T : gset thread) (l : label) (m : machine W) : list entry :=
  match l with
  | LExec t =>
      if bool_decide (t ∈ T) then
        match active m !! t with Some (Call e k) => [mkEntry _ e (fst (handle e (world (sys m))))] | _ => [] end
      else []
  | _ => []
  end.

(** The calls of the ticks along an execution. *)
Fixpoint tick_log {W} `{!Env W} (T : gset thread) (ls : list label) (m : machine W) : list entry :=
  match ls with
  | [] => []
  | l :: ls' => made_by T l m ++ match do_label l m with Done m' => tick_log (follow l m T) ls' m' | _ => [] end
  end.

(** Ticks in progress still have to yield what they owe; everything else leaves the
    count alone. *)
Record counting {W} (owed : gmap thread Z) (m : machine W) : Prop := {
  counting_present : present probe_account (cl (sys m));
  counting_owed t n : owed !! t = Some n → ∃ p, active m !! t = Some p ∧ yields probe_account p n;
  counting_others t p : active m !! t = Some p → owed !! t = None → tracks count_focus (cl (sys m)) p;
}.

Definition count_balance {W} (owed : gmap thread Z) (m : machine W) : Z := level probe_account (cl (sys m)) + sum owed.

Lemma present_stays c c' : present probe_account c → checker_stays (healthChecker c) (healthChecker c') → present probe_account c'.
Proof. intros (h & Hh & Hp) Hm. destruct (Hm h Hh) as (h' & Hh' & Hp'). exists h'. auto. Qed.

Lemma stays_present c c' : present probe_account c' → checker_stays (healthChecker c) (healthChecker c').
Proof. intros (h & Hh & Hp) h0 _. by exists h. Qed.

Lemma count_focus_level c c' : checker_counts (healthChecker c) (healthChecker c') → level probe_account c' = level probe_account c.
Proof. intros [_ He]. cbn. destruct (healthChecker c'), (healthChecker c); naive_solver. Qed.

(** A program begins. *)
Lemma counting_begin {W} owed (m : machine W) t p :
  counting owed m → is_idle t m = true → tracks count_focus (cl (sys m)) p → counting owed (begin t p m).
Proof.
  intros [Hp Ho Ht] Hi%bool_decide_eq_true Hq. split; [done|..]; cbn.
  - intros t' n Hn. destruct (Ho t' n Hn) as (q & Hq' & Hy). exists q. by rewrite lookup_insert_ne by congruence.
  - intros t' q. rewrite lookup_insert_Some. intros [[<- <-]|[_ Hq']]; [done|]. by apply Ht.
Qed.

Lemma counting_tick {W} owed (m : machine W) t p :
  counting owed m → is_idle t m = true → yields probe_account p 0 → counting (<[t := 0%Z]> owed) (begin t p m) ∧ owed !! t = None.
Proof.
  intros [Hp Ho Ht] Hi%bool_decide_eq_true Hq. split; [split; [done|..]; cbn|].
  - intros t' n. rewrite lookup_insert_Some. intros [[<- <-]|[Hne Hn]]; [exists p; by rewrite lookup_insert_eq|].
    rewrite lookup_insert_ne by done. by apply Ho.
  - intros t' q. rewrite lookup_insert_Some, lookup_insert_None. intros [[<- <-]|[Hne Hq']] [Hn ?]; [done|]. by apply (Ht t').
  - destruct (owed !! t) eqn:Hn; [|done]. destruct (Ho _ _ Hn) as (q & ? & _). congruence.
Qed.

Lemma loop_yields h ev p ph : h = Held → routine_code (HealthLoop h) ph ev = Some p → yields probe_account p 0.
Proof.
  intros -> Hp. destruct ph, ev; cbn [routine_code] in Hp; try discriminate Hp; apply (inj Some) in Hp as <-.
  - apply yields_then; [exact tick_yields|intros; apply yields_ret].
  - apply yields_bind_get. intros c _. apply yields_ret.
Qed.

(** One step of a program in progress. *)
Lemma exec_counting {W} `{!Env W} owed (m : machine W) t (p p' : P phase) s' :
  counting owed m → active m !! t = Some p → exec p (sys m) = Done (p', s') →
  ∃ owed', dom owed' = dom owed ∧ counting owed' (mkMachine (phases m) (<[t := p']> (active m)) s') ∧
    (count_balance owed' (mkMachine (phases m) (<[t := p']> (active m)) s') + worth probe_account (made_by (dom owed) (LExec t) m) =
      count_balance owed m)%Z.
Proof.
  intros [Hp Ho Ht] Hm He. unfold made_by, count_balance. rewrite Hm. destruct (owed !! t) as [n|] eqn:Hn.
  - (* a tick *)
    rewrite bool_decide_eq_true_2 by by eapply elem_of_dom_2. destruct (Ho t n Hn) as (q & Hq & Hy). simplify_eq.
    assert (∃ n', yields probe_account p' n' ∧ present probe_account (cl s') ∧
      level probe_account (cl s') + n' + worth probe_account (match p with Call e k => [mkEntry _ e (fst (handle e (world (sys m))))] | _ => [] end) =
        level probe_account (cl (sys m)) + n)%Z as (n' & Hy' & Hp' & Heq).
    { destruct p as [b|X f k|X e k]; cbn [exec] in He; [done|..].
      - destruct (f (cl (sys m))) as [[x c']| |] eqn:Hf; [|done..]. injection He as <- <-. destruct (Hy _ x c' Hp Hf) as [Hp' Hk].
        eexists. split; [exact Hk|]. split; [done|]. cbn [cl worth foldr]. lia.
      - destruct (handle e (world (sys m))) as [x w]. injection He as <- <-. eexists. split; [apply Hy|]. split; [done|].
        rewrite worth_single. cbn [fst cl]. lia. }
    exists (<[t := n']> owed). split; [rewrite dom_insert_lookup_L; [done|by eexists]|]. split.
    + split; [done|..]; cbn.
      * intros t' k. rewrite lookup_insert_Some. intros [[<- <-]|[Hne Hk]]; [exists p'; by rewrite lookup_insert_eq|].
        rewrite lookup_insert_ne by done. by apply Ho.
      * intros t' r. rewrite lookup_insert_Some, lookup_insert_None. intros [[<- <-]|[Hne Hr]] [Hk ?]; [done|].
        eapply tracks_later; [exact _| |by apply (Ht t')]. by apply stays_present.
    + cbn [sys]. rewrite (sum_update owed t n n' Hn). lia.
  - (* something else *)
    rewrite bool_decide_eq_false_2 by by apply not_elem_of_dom. destruct (exec_moves _ p p' (sys m) s' (Ht t p Hm Hn) He) as [H1 H2].
    assert (present probe_account (cl s')) as Hp' by (by eapply present_stays, H1). exists owed. split; [done|]. split.
    + split; [done|..]; cbn.
      * intros t' k Hk. destruct (Ho t' k Hk) as (q & Hq & Hy). exists q. rewrite lookup_insert_ne; [done|]. intros <-. congruence.
      * intros t' r. rewrite lookup_insert_Some. intros [[<- <-]|[Hne Hr]] Hk; [done|].
        eapply tracks_later; [exact _| |by apply (Ht t')]. by apply stays_present.
    + cbn [sys]. rewrite (count_focus_level _ _ H1). cbn. lia.
Qed.

(** One label. *)
Lemma label_counting {W} `{!Env W} owed l (m m' : machine W) :
  counting owed m → do_label l m = Done m' →
  ∃ owed', dom owed' = follow l m (dom owed) ∧ counting owed' m' ∧
    (two64 | count_balance owed' m' + worth probe_account (made_by (dom owed) l m) - count_balance owed m)%Z.
Proof.
  intros Hc Hd.
  assert (∀ t p, is_idle t m = true → tracks count_focus (cl (sys m)) p → m' = begin t p m → follow l m (dom owed) = dom owed →
    made_by (dom owed) l m = [] → ∃ owed', dom owed' = follow l m (dom owed) ∧ counting owed' m' ∧
      (two64 | count_balance owed' m' + worth probe_account (made_by (dom owed) l m) - count_balance owed m)%Z) as Hquiet.
  { intros t p Hi Hp -> Hf Hm. exists owed. split; [by rewrite Hf|]. split; [by apply counting_begin|].
    rewrite Hm. exists 0%Z. unfold count_balance. cbn. lia. }
  destruct l as [n o|i ev|i ev|t|t]; cbn [do_label] in Hd.
  - destruct (is_call o) eqn:Ho, (is_idle (Caller n) m) eqn:Hi; cbn in Hd; try done. injection Hd as <-.
    eapply (Hquiet (Caller n)); [done| |done..]. apply tracks_bind; [exact _|by apply run_op_tracks_any; try exact _|done].
  - destruct (mjoin _) as [lp|]; [|done]. destruct (is_idle _ m) eqn:Hi; [|done]. injection Hd as <-.
    eapply (Hquiet (Dispatcher i)); [done| |done..]. apply tracks_bind; [exact _|apply loop_case_tracks_any; exact _|done].
  - destruct (goroutines (cl (sys m)) !! i) as [g|] eqn:Hg; [|done]. destruct (routine_code g _ ev) as [p|] eqn:Hp; [|done].
    destruct (is_idle _ m) eqn:Hi; [|done]. injection Hd as <-.
    destruct g as [[|k]|h n]; [|(eapply (Hquiet (Routine i)); [done| |done|by cbn; rewrite Hg|done]);
      by refine (routine_tracks_quiet count_focus _ _ _ _ _ _ Hp)..].
    destruct (counting_tick owed m (Routine i) p Hc Hi) as [Hc' Hn]; [by eapply loop_yields|].
    exists (<[Routine i := 0%Z]> owed). split; [cbn; by rewrite Hg, dom_insert_L|]. split; [done|].
    exists 0%Z. unfold count_balance. cbn [made_by worth foldr sys begin]. rewrite sum_insert by done. lia.
  - destruct (active m !! t) as [p|] eqn:Ht; [|done]. destruct (exec p (sys m)) as [[p' s']| |] eqn:He; [|done..].
    injection Hd as <-. destruct (exec_counting owed m t p p' s' Hc Ht He) as (owed' & Hdom & Hc' & Hb).
    exists owed'. split; [done|]. split; [done|]. exists 0%Z. lia.
  - destruct (active m !! t) as [[ph| |]|] eqn:Ht; [|done..]. injection Hd as <-. destruct Hc as [Hp Ho Hq].
    exists (delete t owed). split; [cbn; apply dom_delete_L|]. split.
    + split; [done|..]; cbn.
      * intros t' n. rewrite lookup_delete_Some. intros [Hne Hn]. rewrite lookup_delete_ne by done. by apply Ho.
      * intros t' q. rewrite lookup_delete_Some. intros [Hne Hq']. rewrite lookup_delete_ne by done. by apply Hq.
    + unfold count_balance. cbn [made_by worth foldr sys]. destruct (owed !! t) as [n|] eqn:Hn.
      * destruct (Ho t n Hn) as (q & Hq' & Hy). simplify_eq. cbn in Hy. rewrite (sum_delete owed t n Hn).
        replace (_ - _)%Z with (- n)%Z by lia. by apply Z.divide_opp_r.
      * rewrite delete_id by done. exists 0%Z. lia.
Qed.

Lemma play_counting {W} `{!Env W} owed ls (m m' : machine W) :
  counting owed m → play ls m = Done m' →
  ∃ owed', counting owed' m' ∧
    (two64 | count_balance owed' m' + worth probe_account (tick_log (dom owed) ls m) - count_balance owed m)%Z.
Proof.
  revert owed m. induction ls as [|l ls IH]; intros owed m Hc Hp; cbn [play tick_log] in *.
  { injection Hp as <-. exists owed. split; [done|]. exists 0%Z. cbn. lia. }
  destruct (do_label l m) as [m1| |] eqn:Hd; [|done..].
  destruct (label_counting owed l m m1 Hc Hd) as (owed1 & Hdom & Hc1 & H1).
  destruct (IH owed1 m1 Hc1 Hp) as (owed2 & Hc2 & H2). exists owed2. split; [done|].
  rewrite worth_app, <- Hdom. eapply Z.divide_add_r in H2; [|exact H1]. eapply eq_ind; [exact H2|]. lia.
Qed.

(** What a checker reports is determined by the results of its probes, latest first. *)
Definition reports (h : Checker) (results : list (option error)) : Prop :=
  HC.IsHealthy h = match results with Some _ :: _ => false | _ => true end ∧
  HC.GetLastError h = match results with e :: _ => e | [] => None end ∧
  HC.GetErrorCount h = wrap64 (HC.failures results).

(** C10: the checker of a client refines the checker on its own and counts every
    failed probe once.  In every environment and every interleaving of calls
    (startups, shutdowns and reconnects among them), dispatch loops, any number of
    health loops and watchers, a client whose checker has a probe and is in a state
    that the concurrent system of the health checker can reach has its checker in
    such a state throughout; and when nothing is in progress any more, its error
    count has grown, modulo 2^64, by the number of probes that were recorded (each
    asks for the time once) less those that passed (each opened a channel), counted
    in the calls that the health loops made. *)
Theorem client_refines_health_checker {W} `{!Env W} (ls : list label) (s : Sys RabbitMQClient W) (m : machine W) h :
  play ls (quiescent s) = Done m → healthChecker (cl s) = Some h → is_Some (HC.probe h) → HC.reachable h →
  ∃ h', healthChecker (cl (sys m)) = Some h' ∧ HC.reachable h' ∧ (∃ results, reports h' results) ∧
    (active m = ∅ → let log := tick_log ∅ ls (quiescent s) in
     HC.GetErrorCount h' =
       wrap64 (HC.GetErrorCount h + (Z.of_nat (count probe_recorded log) - Z.of_nat (count probe_passed log)))).
Proof.
  intros Hp Hh Hpr Hr. destruct (play_moves checker_focus ls s m Hp h Hh) as (h' & Hh' & Hr' & _).
  cbn [view checker_focus] in Hh'. exists h'. split; [done|]. specialize (Hr' Hr). split; [done|]. destruct Hr' as (n & k & x & Hx & <-).
  assert (reports (HC.hc x) (HC.history x)) as Hrep by by destruct (HC.hc_reachable_inv _ _ _ Hx).
  split; [by eexists|]. intros Hq. cbn zeta.
  destruct (play_counting ∅ ls (quiescent s) m) as (owed & [_ Ho _] & Hb); [|done|].
  { split; [by exists h|..]; cbn; intros t; by rewrite lookup_empty. }
  assert (owed = ∅) as ->.
  { apply map_eq. intros t. rewrite lookup_empty. destruct (owed !! t) eqn:Ht; [|done].
    destruct (Ho t _ Ht) as (q & Hq' & _). by rewrite Hq, lookup_empty in Hq'. }
  rewrite probe_worth, dom_empty_L in Hb. unfold count_balance, sum in Hb. rewrite !map_fold_empty in Hb. cbn in Hb. rewrite Hh, Hh' in Hb. cbn in Hb.
  assert (HC.GetErrorCount (HC.hc x) = wrap64 (HC.errorCount (HC.hc x))) as ->.
  { destruct Hrep as (_ & _ & He). unfold HC.GetErrorCount in *. rewrite He. symmetry. apply wrap64_congruent, wrap64_divide. }
  apply wrap64_congruent. eapply eq_ind; [exact Hb|]. unfold HC.GetErrorCount. lia.
Qed.

End refinement.

(** ** A tick of the health loop, and what CheckHealth says after it *)

Section health.
Context `{TY : Types} `{IP : NetIP}.
Notation LM := (prog RabbitMQClient).
Implicit Types c : RabbitMQClient.

(** A probe succeeds when the client is open and its connection both reports itself
    open and opens a channel, which is closed again. *)
Definition probe_passes c (log : list entry) : Prop :=
  closed c = false ∧ ∃ conn ch answer, connection c = Some conn ∧
    log = [mkEntry _ (EIsClosed conn) false; mkEntry _ (EChannel conn) (inl ch); mkEntry _ (EChClose ch) answer].

Lemma connectionProbe_spec c :
  ensures c (connectionProbe : LM _) (λ e c' log, c' = c ∧ opens log = closes log ∧ (e = None ↔ probe_passes c log)).
Proof.
  unfold connectionProbe, conn_IsClosed, probe_passes. go_run.
  destruct (closed c); go_run; [split; [done|]; split; [done|]; split; [done|by intros [? _]]|].
  destruct (connection c) as [conn|]; go_run;
    [|split; [done|]; split; [done|]; split; [done|by intros (_ & ? & ? & ? & ? & _)]].
  match goal with a : bool |- _ => destruct a end; go_run;
    [split; [done|]; split; [done|]; split; [done|by intros (_ & ? & ? & ? & _ & Hlen%(f_equal length))]|].
  match goal with a : (Channel + foreign_error)%type |- _ => destruct a as [ch|err] end; go_run.
  - split; [done|]. split; [done|]. split; [|done]. intros _. split; [done|]. by eexists _, _, _.
  - split; [done|]. split; [done|]. split; [done|by intros (_ & ? & ? & ? & _ & Hlen%(f_equal length))].
Qed.

Lemma set_healthChecker_same c o : healthChecker c = o → set_healthChecker o c = c.
Proof. intros <-. by destruct c. Qed.

Lemma health_tick_spec c h fn :
  healthChecker c = Some h → HC.probe h = Some fn →
  ensures c (health_tick Held : LM _) (λ _ c' log, ∃ e t probing,
    c' = set_healthChecker (Some (HC.record_check t e h)) c ∧ log = probing ++ [mkEntry _ ENow t] ∧
    opens log = closes log ∧ (e = None ↔ probe_passes c probing)).
Proof.
  intros Hh Hp. unfold health_tick, HC.performHealthCheck.
  eapply ensures_bind_checker; [exact Hh|done|]. rewrite (set_healthChecker_same _ _ Hh), Hp.
  eapply ensures_bind; [apply connectionProbe_spec|]. intros e c1 n1 (-> & Ho & He). go_run.
  eapply ensures_checker; [exact Hh|done|]. exists e, a, n1. cbn beta. split; [done|]. split; [done|].
  split; [|done]. by rewrite opens_app, closes_app, Ho.
Qed.

(** Everything CheckHealth looks at beside the checker is in order. *)
Definition otherwise_healthy c (log : list entry) : Prop :=
  ∃ conn m, connection c = Some conn ∧ mkEntry _ (EIsClosed conn) false ∈ log ∧
    connectionManager c = Some m ∧ CM.connected m = true ∧
    map_Forall (λ _ v, v ≠ None) (producers c) ∧ map_Forall (λ _ v, v ≠ None) (consumers c).

(** C11: health is reported.  On a client with a checker and a registered probe, a
    tick of the health loop on that checker probes the connection, records the outcome with the
    time and changes nothing else; it passes exactly when the client is not closed
    and its connection reports itself open and opens a channel, which the probe
    closes again; and the CheckHealth that follows returns nil exactly when that
    probe passed and the connection, the manager and the registered channels are in
    order. *)
Theorem health_is_reported c h fn :
  healthChecker c = Some h → HC.probe h = Some fn →
  ensures c (health_tick Held ;; CheckHealth : LM _) (λ r c' log, ∃ e t probing checking,
    log = probing ++ [mkEntry _ ENow t] ++ checking ∧ opens log = closes log ∧
    c' = set_healthChecker (Some (HC.record_check t e h)) c ∧
    (e = None ↔ probe_passes c probing) ∧
    (r = None ↔ probe_passes c probing ∧ otherwise_healthy c checking)).
Proof.
  intros Hh Hp. eapply ensures_bind; [by eapply health_tick_spec|].
  intros [] c1 n1 (e & t & probing & -> & -> & Ho & He).
  eapply ensures_mono; [apply CheckHealth_spec|]. intros r c2 checking (-> & Hr & Ho2 & Hc2).
  exists e, t, probing, checking. rewrite <- app_assoc. split; [done|].
  split; [by rewrite app_assoc, opens_app, closes_app, Ho, Ho2, Hc2|]. split; [done|]. split; [done|].
  rewrite Hr, <- He. unfold healthy_client, otherwise_healthy. cbn. split.
  - intros (conn & m & H1 & H2 & H3 & H4 & H5 & H6 & H7). specialize (H5 _ eq_refl).
    split; [by destruct e|]. by exists conn, m.
  - intros [-> (conn & m & H1 & H2 & H3 & H4 & H6 & H7)]. exists conn, m. do 4 (split; [done|]). split; [|done].
    by intros h' [= <-].
Qed.

(** ** Forced reconnection *)



End health.

(** ** Witnesses *)

Section witnesses.
Import Sim.

(** A tick of the health loop, during which a caller publishes; a shutdown from
    beginning to end; and another tick, whose probe fails on the closed client. *)
Definition ticked_and_stopped : list label :=
  [LRoutine 0 Tick; LCall 1 (OpPublish Background "" "jobs" "payload" [])] ++ execs 4 (Routine 0) ++ execs 9 (Caller 1) ++
  execs 4 (Routine 0) ++ [LReturn (Caller 1); LReturn (Routine 0); LCall 0 (OpStop Background [])] ++ execs 24 (Caller 0) ++
  [LReturn (Caller 0); LRoutine 0 Tick] ++ execs 4 (Routine 0) ++ [LReturn (Routine 0)].

Definition stopped_machine : machine sim :=
  match play ticked_and_stopped (quiescent served) with Done m => m | _ => quiescent served end.

Lemma ticked_and_stopped_plays : play ticked_and_stopped (quiescent served) = Done stopped_machine.
Proof.
  assert (match play ticked_and_stopped (quiescent served) with Done _ => true | _ => false end = true) as H by (vm_compute; reflexivity).
  unfold stopped_machine. by destruct (play ticked_and_stopped (quiescent served)).
Qed.

Lemma served_checker : healthChecker (cl served) = Some (HC.SetProbe connectionProbe_fn HC.NewHealthChecker).
Proof. vm_compute. reflexivity. Qed.

Lemma stopped_machine_idle : active stopped_machine = ∅.
Proof. apply map_size_empty_iff. vm_compute. reflexivity. Qed.

Lemma client_refines_health_checker_witness :
  (∃ h', healthChecker (cl (sys stopped_machine)) = Some h' ∧ HC.reachable h' ∧ (∃ results, reports h' results) ∧
    let log := tick_log ∅ ticked_and_stopped (quiescent served) in
    HC.GetErrorCount h' = wrap64 (0 + (Z.of_nat (count probe_recorded log) - Z.of_nat (count probe_passed log)))) ∧
  count probe_recorded (tick_log ∅ ticked_and_stopped (quiescent served)) = 2 ∧
  count probe_passed (tick_log ∅ ticked_and_stopped (quiescent served)) = 1.
Proof.
  split; [|split; vm_compute; reflexivity].
  destruct (client_refines_health_checker ticked_and_stopped served stopped_machine _ ticked_and_stopped_plays served_checker
              (mk_is_Some _ _ eq_refl) (HC.reachable_probe _ _ HC.reachable_new)) as (h' & Hh' & Hr & Hres & Hcount).
  exists h'. split; [exact Hh'|]. split; [exact Hr|]. split; [exact Hres|]. exact (Hcount stopped_machine_idle).
Defined.

(** A started client whose broker has dropped the connection. *)
Lemma health_is_reported_witness :
  ensures (cl served) (health_tick Held ;; CheckHealth) (λ r c' log, ∃ e t probing checking,
    log = probing ++ [mkEntry _ ENow t] ++ checking ∧ opens log = closes log ∧
    c' = set_healthChecker (Some (HC.record_check t e (HC.SetProbe connectionProbe_fn HC.NewHealthChecker))) (cl served) ∧
    (e = None ↔ probe_passes (cl served) probing) ∧
    (r = None ↔ probe_passes (cl served) probing ∧ otherwise_healthy (cl served) checking)) ∧
  observe (health_tick Held ;; CheckHealth) (cl served) (world served) (λ r _ _ _, bool_decide (r = None)) = true ∧
  observe (health_tick Held ;; CheckHealth) (cl served) (with_conns [] (world served)) (λ r _ _ _, bool_decide (is_Some r)) = true.
Proof.
  split; [|split; vm_compute; reflexivity].
  exact (health_is_reported (cl served) _ connectionProbe_fn served_checker eq_refl).
Defined.



End witnesses.
